(** * data-forge-js: the lazy iteration and indexing engine

    A shallow embedding of the cursor protocol, the array cursor, the
    combinator cursors, [Index], [Series], [DataFrame] and the order-by
    engine of data-forge-js, and the verification of its specification.

    Conventions.
    - JavaScript values are the inductive [value]; numbers are the integers
      (the safe-integer range of a double), strings are byte strings, arrays
      are lists and objects are association lists in property order.
    - A JavaScript exception is the [Err] case of [res].
    - A cursor is a record [iterator]: a state together with the three
      methods of the protocol; [moveNext] returns the advanced cursor.
    - Closure variables that are assigned after construction (the memo
      caches of the order-by engine, of [Series.where] and
      [Series.selectMany], and a data frame's lazily evaluated column
      names) are cells of a [heap]; code that may touch them runs in the
      state-and-error monad [M]. *)

From stdpp Require Import base list strings pretty sorting.
From Stdlib Require Import ZArith Lia.

Set Default Proof Using "Type".
Set Warnings "-register-all,-clear-no-such-hyp".

Open Scope Z_scope.
Open Scope list_scope.

(* ================================================================= *)
(** ** Part I: the embedding *)
(* ================================================================= *)

(** *** JavaScript values and exceptions *)

Inductive value : Type :=
| VUndefined
| VNull
| VBool (b : bool)
| VNum (n : Z)
| VStr (s : string)
| VArr (elems : list value)
| VObj (fields : list (string * value)).

(** The exceptions the modelled code raises: [throw new Error(msg)], a
    failed chai assertion, a [TypeError] of the runtime.  [OutOfFuel] is
    not a JavaScript exception: it marks a loop of the model that ran
    past the bound its cursor declares (see [bound]). *)
Inductive exn : Type :=
| JsError (msg : string)
| AssertionError (msg : string)
| TypeError (msg : string)
| OutOfFuel.

Inductive res (A : Type) : Type :=
| Ok (a : A)
| Err (e : exn).
Arguments Ok {A} a.
Arguments Err {A} e.

#[global] Instance res_ret : MRet res := fun A a => Ok a.
#[global] Instance res_bind : MBind res :=
  fun A B f m => match m with Ok a => f a | Err e => Err e end.
#[global] Instance res_fmap : FMap res :=
  fun A B f m => match m with Ok a => Ok (f a) | Err e => Err e end.

Definition is_Ok {A} (r : res A) : Prop := exists a, r = Ok a.
Definition is_Err {A} (r : res A) : Prop := exists e, r = Err e.

(** [assert(cond, msg)] of chai.  [msg] is the message the code passes,
    the empty string when it passes none; chai adds its own description
    of the failure to the text of the error. *)
Definition assert (cond : bool) (msg : string) : res unit :=
  if cond then Ok tt else Err (AssertionError msg).

(** [arr.length] as a JavaScript number. *)
Definition len {A} (l : list A) : Z := Z.of_nat (length l).

(** [arr[i]] for an array and a number: the element, [undefined] out of
    range. *)
Definition nth_value (l : list value) (i : Z) : value :=
  if (0 <=? i) && (i <? len l) then nth (Z.to_nat i) l VUndefined else VUndefined.

(** [E.range(start, count).toArray()]. *)
Definition E_range (start : Z) (count : nat) : list value :=
  map (fun k => VNum (start + Z.of_nat k)) (seq 0 count).

(** *** The cursor protocol *)

(** A cursor object.  [St] is the type of its private variables and
    [state] their current contents; [step], [current] and [currentIndex]
    are the bodies of [moveNext], [getCurrent] and [getCurrentIndex].
    [bound] is not part of the program: it is an upper bound on the
    number of times [step] can still answer [true], and is the fuel of
    the [while] and [for (;;)] loops that drive the cursor. *)
Record iterator : Type := mkIterator {
  St : Type;
  state : St;
  step : St -> res (bool * St);
  current : St -> res value;
  currentIndex : St -> res value;
  bound : St -> nat;
}.

Definition set_state (it : iterator) (s : St it) : iterator :=
  mkIterator (St it) s (step it) (current it) (currentIndex it) (bound it).

Definition moveNext (it : iterator) : res (bool * iterator) :=
  '(b, s) ← step it (state it); Ok (b, set_state it s).

Definition getCurrent (it : iterator) : res value := current it (state it).

Definition getCurrentIndex (it : iterator) : res value := currentIndex it (state it).

(** The cursor after [k] calls of [moveNext] whose answers are dropped. *)
Fixpoint advance (k : nat) (it : iterator) : res iterator :=
  match k with
  | O => Ok it
  | S k' => '(_, it') ← moveNext it; advance k' it'
  end.

(** [while (it.moveNext()) output.push(it.getCurrent())]: the loop of
    [realize] and of [toValues], from state [s] with [output] so far. *)
Fixpoint realize_loop (it : iterator) (fuel : nat) (s : St it) (output : list value)
  : res (list value) :=
  match fuel with
  | O => Err OutOfFuel
  | S fuel' =>
      '(b, s') ← step it s;
      if b : bool then v ← current it s'; realize_loop it fuel' s' (output ++ [v])
      else Ok output
  end.

(** [realize()]: drains the cursor from where it stands into a new array. *)
Definition realize (it : iterator) : res (list value) :=
  realize_loop it (S (bound it (state it))) (state it) [].

(** *** ArrayIterator (src/iterators/array.js) *)

(** The object the constructor builds, with [rowIndex] as its state. *)
Definition ArrayIterator_at (arr : list value) (index : option (list value)) (rowIndex : Z)
  : iterator :=
  {| St := Z;
     state := rowIndex;
     step := fun rowIndex => Ok (rowIndex + 1 <? len arr, rowIndex + 1);
     current := fun rowIndex =>
       if (0 <=? rowIndex) && (rowIndex <? len arr) then Ok (nth_value arr rowIndex)
       else Ok VUndefined;
     currentIndex := fun rowIndex =>
       if (0 <=? rowIndex) && (rowIndex <? len arr) then
         match index with
         | Some index => Ok (nth_value index rowIndex)
         | None => Ok (VNum rowIndex)
         end
       else Ok VUndefined;
     bound := fun rowIndex => Z.to_nat (len arr - 1 - rowIndex) |}.

(** [new ArrayIterator(arr, index)].  [index] is [None] when the second
    argument is absent; an array, even an empty one, is truthy, so a
    supplied array always reaches the length assertion. *)
Definition ArrayIterator (arr : list value) (index : option (list value)) : res iterator :=
  match index with
  | Some index' =>
      _ ← assert (len arr =? len index')
            "Expect value array and index array to be the same length.";
      Ok (ArrayIterator_at arr index (-1))
  | None => Ok (ArrayIterator_at arr index (-1))
  end.

(** [new ArrayIterator(arr)], which cannot fail. *)
Definition ArrayIterator1 (arr : list value) : iterator := ArrayIterator_at arr None (-1).

(** *** Objects, property access and the linq helpers *)

(** [obj[k]] on the fields of an object literal: the first field named [k]. *)
Fixpoint lookup_field (k : string) (fields : list (string * value)) : option value :=
  match fields with
  | [] => None
  | (k', v) :: fields' => if String.eqb k k' then Some v else lookup_field k fields'
  end.

(** [obj[k] = v]: an existing property keeps its place, a new one is
    added last. *)
Fixpoint obj_set (k : string) (v : value) (fields : list (string * value))
  : list (string * value) :=
  match fields with
  | [] => [(k, v)]
  | (k', v') :: fields' =>
      if String.eqb k k' then (k, v) :: fields' else (k', v') :: obj_set k v fields'
  end.

(** The position [i] with [String(i) = k] among the first [n] naturals,
    for reading an array with a string key. *)
Definition array_index_of_key (k : string) (n : nat) : option nat :=
  find (fun i => String.eqb (pretty i) k) (seq 0 n).

(** [v[k]] for a string key [k]: a [TypeError] on [undefined] and [null],
    the property of an object, the element or the length of an array,
    [undefined] otherwise. *)
Definition get_prop (v : value) (k : string) : res value :=
  match v with
  | VUndefined | VNull => Err (TypeError "Cannot read property of undefined")
  | VObj fields => Ok (default VUndefined (lookup_field k fields))
  | VArr elems =>
      if String.eqb k "length" then Ok (VNum (len elems))
      else Ok (from_option (fun i => nth i elems VUndefined) VUndefined
                 (array_index_of_key k (length elems)))
  | _ => Ok VUndefined
  end.

(** [v[i]] for a number [i]. *)
Definition get_index (v : value) (i : Z) : res value :=
  match v with
  | VUndefined | VNull => Err (TypeError "Cannot read property of undefined")
  | VArr elems => Ok (nth_value elems i)
  | VObj fields => Ok (default VUndefined (lookup_field (pretty i) fields))
  | _ => Ok VUndefined
  end.

(** [Object.keys(v)]: the own enumerable property names, in property
    order (ES2015: a primitive has none, [undefined] and [null] raise). *)
Definition Object_keys (v : value) : res (list string) :=
  match v with
  | VUndefined | VNull => Err (TypeError "Cannot convert undefined or null to object")
  | VObj fields => Ok (map fst fields)
  | VArr elems => Ok (map (fun i : nat => pretty i) (seq 0 (length elems)))
  | _ => Ok []
  end.

(** Sugar's [Object.isObject]: a plain object. *)
Definition Object_isObject (v : value) : bool :=
  match v with VObj _ => true | _ => false end.

(** The characters of a string, each as a string. *)
Fixpoint chars (s : string) : list value :=
  match s with
  | EmptyString => []
  | String c s' => VStr (String c EmptyString) :: chars s'
  end.

(** [E.from(v).toArray()] of linq: an array is itself, [undefined] and
    [null] are empty, a number or boolean is a singleton, a string is
    its characters, an object is its key/value pairs. *)
Definition E_from (v : value) : list value :=
  match v with
  | VArr elems => elems
  | VUndefined | VNull => []
  | VNum _ | VBool _ => [v]
  | VStr s => chars s
  | VObj fields => map (fun kv => VObj [("key", VStr kv.1); ("value", kv.2)]) fields
  end.

(** [E.from(pairs).toObject(keySelector, valueSelector)]: assigns the
    pairs to a fresh object in order. *)
Definition toObject (pairs : list (string * value)) : list (string * value) :=
  fold_left (fun obj kv => obj_set kv.1 kv.2 obj) pairs [].

(** [.distinct()] of linq on strings: the first occurrence of each, in
    order.  [seen] are the strings already yielded. *)
Fixpoint distinct_from (seen : list string) (l : list string) : list string :=
  match l with
  | [] => []
  | x :: l' =>
      if bool_decide (x ∈ seen) then distinct_from seen l'
      else x :: distinct_from (x :: seen) l'
  end.

Definition distinct (l : list string) : list string := distinct_from [] l.

(** [.selectMany(f)] of linq on a realized sequence. *)
Definition E_selectMany {A B} (f : A -> list B) (l : list A) : list B := concat (map f l).

(** Truthiness of a value in a condition. *)
Definition truthy (v : value) : bool :=
  match v with
  | VUndefined | VNull => false
  | VBool b => b
  | VNum n => negb (n =? 0)
  | VStr s => negb (String.eqb s "")
  | VArr _ | VObj _ => true
  end.

(** [a === b] on primitives.  Arrays and objects compare by identity,
    which the value model does not carry: they are reported different. *)
Definition strict_eq (a b : value) : bool :=
  match a, b with
  | VUndefined, VUndefined => true
  | VNull, VNull => true
  | VBool x, VBool y => Bool.eqb x y
  | VNum x, VNum y => x =? y
  | VStr x, VStr y => String.eqb x y
  | _, _ => false
  end.

(** [ToNumber(v)] where it is an integer: a number is itself, [null] is
    0, [false] and [true] are 0 and 1.  [undefined] converts to [NaN],
    which is [None] here. *)
Definition to_number (v : value) : option Z :=
  match v with
  | VNum n => Some n
  | VNull => Some 0
  | VBool b => Some (if b then 1 else 0)
  | _ => None
  end.

(** [a > b].  Two strings compare as strings; otherwise both operands
    are converted to numbers, and a comparison with [NaN] is false, so
    [undefined] is neither greater nor smaller than anything.  The
    numeric value of a string and the string form of an array or an
    object are not modelled: a comparison that needs one is reported
    [false], and the theorems on sorting ask for keys that are all
    integers or all strings. *)
Definition js_gt (a b : value) : bool :=
  match a, b with
  | VStr x, VStr y => String.ltb y x
  | _, _ =>
      match to_number a, to_number b with
      | Some x, Some y => y <? x
      | _, _ => false
      end
  end.

(** [a < b], with the same limits as [js_gt]. *)
Definition js_lt (a b : value) : bool := js_gt b a.

(** *** Combinator cursors *)

(** Modelled from the spec: src/iterators/select.js is not among the
    sources.  Spec 4.2, Select/Map(fn): pass-through advance;
    [current() = fn(upstream.current())], applied at each read. *)
Definition SelectIterator (it : iterator) (selector : value -> res value) : iterator :=
  {| St := St it;
     state := state it;
     step := step it;
     current := fun s => v ← current it s; selector v;
     currentIndex := currentIndex it;
     bound := bound it |}.

(** The skip phase of [SkipIterator]: up to [k] advances of the upstream,
    stopping early when it is exhausted. *)
Fixpoint skip_loop (it : iterator) (k : nat) (s : St it) : res (St it) :=
  match k with
  | O => Ok s
  | S k' => '(b, s') ← step it s; if b : bool then skip_loop it k' s' else Ok s'
  end.

(** Modelled from the spec: src/iterators/skip.js is not among the
    sources.  Spec 4.2, Skip(n): advances upstream n times before
    yielding; if upstream exhausts during the skip phase, permanently
    reports no elements.  The state pairs the upstream state with the
    number of elements still to skip. *)
Definition SkipIterator (it : iterator) (skipAmount : Z) : iterator :=
  {| St := St it * Z;
     state := (state it, skipAmount);
     step := fun '(s, n) =>
       s1 ← skip_loop it (Z.to_nat n) s;
       '(b, s2) ← step it s1;
       Ok (b, (s2, 0));
     current := fun '(s, _) => current it s;
     currentIndex := fun '(s, _) => currentIndex it s;
     bound := fun '(s, _) => bound it s |}.

(** The skip phase of [SkipWhileIterator]: advances the upstream until an
    element fails the predicate or the upstream is exhausted. *)
Fixpoint skipWhile_loop (it : iterator) (predicate : value -> res bool) (fuel : nat)
    (s : St it) : res (bool * St it) :=
  match fuel with
  | O => Err OutOfFuel
  | S fuel' =>
      '(b, s') ← step it s;
      if b : bool then
        v ← current it s';
        p ← predicate v;
        if p : bool then skipWhile_loop it predicate fuel' s' else Ok (true, s')
      else Ok (false, s')
  end.

(** Modelled from the spec: src/iterators/skip-while.js is not among the
    sources.  Spec 4.2, SkipWhile(pred): advances upstream while
    [pred(current)] holds; the first element failing the predicate
    becomes the first yielded element; once past the skip phase, behaves
    as pass-through.  The flag says whether the skip phase is over. *)
Definition SkipWhileIterator (it : iterator) (predicate : value -> res bool) : iterator :=
  {| St := St it * bool;
     state := (state it, false);
     step := fun '(s, skipped) =>
       if skipped : bool then '(b, s') ← step it s; Ok (b, (s', true))
       else '(b, s') ← skipWhile_loop it predicate (S (bound it s)) s; Ok (b, (s', b));
     current := fun '(s, _) => current it s;
     currentIndex := fun '(s, _) => currentIndex it s;
     bound := fun '(s, _) => bound it s |}.

(** Modelled from the spec: src/iterators/take.js is not among the
    sources.  Spec 4.2, Take(n): yields at most n elements; stops after n
    successful advances or upon upstream exhaustion, whichever first;
    spec 3: [current] is undefined after an advance that returned false.
    The state holds the number of elements still to take and whether the
    last advance succeeded. *)
Definition TakeIterator (it : iterator) (takeAmount : Z) : iterator :=
  {| St := St it * Z * bool;
     state := (state it, takeAmount, true);
     step := fun '(s, n, _) =>
       if 0 <? n then '(b, s') ← step it s; Ok (b, (s', n - 1, b))
       else Ok (false, (s, n, false));
     current := fun '(s, _, valid) => if valid : bool then current it s else Ok VUndefined;
     currentIndex := fun '(s, _, valid) =>
       if valid : bool then currentIndex it s else Ok VUndefined;
     bound := fun '(s, _, _) => bound it s |}.

(** Modelled from the spec: src/iterators/take-while.js is not among the
    sources.  Spec 4.2, TakeWhile(pred): yields upstream elements while
    the predicate holds; the first failing element terminates the cursor
    permanently.  The flag says whether the cursor has terminated. *)
Definition TakeWhileIterator (it : iterator) (predicate : value -> res bool) : iterator :=
  {| St := St it * bool;
     state := (state it, false);
     step := fun '(s, finished) =>
       if finished : bool then Ok (false, (s, true))
       else
         '(b, s') ← step it s;
         if b : bool then
           v ← current it s';
           p ← predicate v;
           if p : bool then Ok (true, (s', false)) else Ok (false, (s', true))
         else Ok (false, (s', true));
     current := fun '(s, finished) => if finished : bool then Ok VUndefined else current it s;
     currentIndex := fun '(s, finished) =>
       if finished : bool then Ok VUndefined else currentIndex it s;
     bound := fun '(s, _) => bound it s |}.

(** The search of [WhereIterator]: advances the upstream to the next
    element that satisfies the predicate. *)
Fixpoint where_loop (it : iterator) (predicate : value -> res bool) (fuel : nat)
    (s : St it) : res (bool * St it) :=
  match fuel with
  | O => Err OutOfFuel
  | S fuel' =>
      '(b, s') ← step it s;
      if b : bool then
        v ← current it s';
        p ← predicate v;
        if p : bool then Ok (true, s') else where_loop it predicate fuel' s'
      else Ok (false, s')
  end.

(** Modelled from the spec: src/iterators/where.js is not among the
    sources.  Spec 4.2, Where/Filter(pred): repeatedly advances upstream
    internally until an element satisfies [pred] or upstream exhausts. *)
Definition WhereIterator (it : iterator) (predicate : value -> res bool) : iterator :=
  {| St := St it;
     state := state it;
     step := fun s => where_loop it predicate (S (bound it s)) s;
     current := current it;
     currentIndex := currentIndex it;
     bound := bound it |}.

(** The refill of [SelectManyIterator]: advances the upstream to the next
    element whose replacement sequence is not empty. *)
Fixpoint selectMany_loop (it : iterator) (selector : value -> res (list value))
    (fuel : nat) (s : St it) : res (bool * (St it * list value * option value)) :=
  match fuel with
  | O => Err OutOfFuel
  | S fuel' =>
      '(b, s') ← step it s;
      if b : bool then
        v ← current it s';
        replacement ← selector v;
        match replacement with
        | [] => selectMany_loop it selector fuel' s'
        | x :: rest => Ok (true, (s', rest, Some x))
        end
      else Ok (false, (s', [], None))
  end.

(** The number of elements a [SelectManyIterator] can still yield from
    the upstream state [s]. *)
Fixpoint selectMany_bound (it : iterator) (selector : value -> res (list value))
    (fuel : nat) (s : St it) : nat :=
  match fuel with
  | O => O
  | S fuel' =>
      match step it s with
      | Ok (true, s') =>
          match current it s' ≫= selector with
          | Ok replacement =>
              (length replacement + selectMany_bound it selector fuel' s')%nat
          | Err _ => O
          end
      | _ => O
      end
  end.

(** Modelled from the spec: src/iterators/select-many.js is not among the
    sources.  Spec 4.2, SelectMany/FlatMap(fn): [fn(upstream.current())]
    yields an ordered sequence of replacement elements; the cursor
    buffers and drains that sub-sequence before advancing upstream again;
    the position of every replacement element equals the upstream
    element's position.  The state holds the replacement elements still
    to come and the current one. *)
Definition SelectManyIterator (it : iterator) (selector : value -> res (list value))
  : iterator :=
  {| St := St it * list value * option value;
     state := (state it, [], None);
     step := fun '(s, buffer, _) =>
       match buffer with
       | x :: rest => Ok (true, (s, rest, Some x))
       | [] => selectMany_loop it selector (S (bound it s)) s
       end;
     current := fun '(_, _, cur) => Ok (default VUndefined cur);
     currentIndex := fun '(s, _, cur) =>
       match cur with Some _ => currentIndex it s | None => Ok VUndefined end;
     bound := fun '(s, buffer, _) =>
       (length buffer + selectMany_bound it selector (bound it s) s)%nat |}.

(** The states of the children of a [MultiIterator]. *)
Fixpoint MultiSt (iterators : list iterator) : Type :=
  match iterators with
  | [] => unit
  | it :: rest => (St it * MultiSt rest)%type
  end.

Fixpoint multi_state (iterators : list iterator) : MultiSt iterators :=
  match iterators with
  | [] => tt
  | it :: rest => (state it, multi_state rest)
  end.

(** Advances the children in array order, stopping at the first that is
    exhausted; [true] when every child advanced. *)
Fixpoint multi_step (iterators : list iterator)
  : MultiSt iterators -> res (bool * MultiSt iterators) :=
  match iterators with
  | [] => fun s => Ok (true, s)
  | it :: rest => fun s =>
      '(b, s1) ← step it s.1;
      if b : bool then '(b', s2) ← multi_step rest s.2; Ok (b', (s1, s2))
      else Ok (false, (s1, s.2))
  end.

Fixpoint multi_current (iterators : list iterator) : MultiSt iterators -> res (list value) :=
  match iterators with
  | [] => fun _ => Ok []
  | it :: rest => fun s =>
      v ← current it s.1; vs ← multi_current rest s.2; Ok (v :: vs)
  end.

Fixpoint multi_currentIndex (iterators : list iterator)
  : MultiSt iterators -> res (list value) :=
  match iterators with
  | [] => fun _ => Ok []
  | it :: rest => fun s =>
      v ← currentIndex it s.1; vs ← multi_currentIndex rest s.2; Ok (v :: vs)
  end.

(** The least of the children's bounds, [None] without children. *)
Fixpoint multi_bound_opt (iterators : list iterator) : MultiSt iterators -> option nat :=
  match iterators with
  | [] => fun _ => None
  | it :: rest => fun s =>
      Some (from_option (Nat.min (bound it s.1)) (bound it s.1) (multi_bound_opt rest s.2))
  end.

Definition multi_bound (iterators : list iterator) (s : MultiSt iterators) : nat :=
  default O (multi_bound_opt iterators s).

(** Where a [MultiIterator] stands: before its first advance, on a
    combined element, or finished. *)
Inductive multi_phase : Type := Fresh | Valid | Finished.

(** Modelled from the spec: src/iterators/multi.js is not among the
    sources (its tests are).  Spec 4.2, Multi/Zip(cursors[]): [advance]
    returns true only if every child's [advance] returned true,
    short-circuits to false and stays false the moment any child is
    exhausted; [current] is the sequence of the children's current
    values, [currentPosition] that of their positions; zero children:
    [advance] immediately returns false.  The tests add that
    [getCurrent] is undefined before the first advance and at the end. *)
Definition MultiIterator (iterators : list iterator) : iterator :=
  {| St := MultiSt iterators * multi_phase;
     state := (multi_state iterators, Fresh);
     step := fun '(s, phase) =>
       match phase, iterators with
       | Finished, _ | _, [] => Ok (false, (s, Finished))
       | _, _ =>
           '(b, s') ← multi_step iterators s;
           Ok (b, (s', if b : bool then Valid else Finished))
       end;
     current := fun '(s, phase) =>
       match phase with
       | Valid => vs ← multi_current iterators s; Ok (VArr vs)
       | _ => Ok VUndefined
       end;
     currentIndex := fun '(s, phase) =>
       match phase with
       | Valid => vs ← multi_currentIndex iterators s; Ok (VArr vs)
       | _ => Ok VUndefined
       end;
     bound := fun '(s, _) => multi_bound iterators s |}.

(** Modelled from the spec: src/iterators/apply-index.js is not among the
    sources, and the spec names it only through the lockstep invariant
    of its section 3 (a data frame's row cursor and index cursor advance
    together, position for position).  It is modelled by its one use,
    [new ApplyIndexIterator(oldRows(), index.getIterator())] in the
    DataFrame constructor: both cursors advance together, the value is
    the row cursor's, the position is the index cursor's value. *)
Definition ApplyIndexIterator (it indexIterator : iterator) : iterator :=
  {| St := St it * St indexIterator;
     state := (state it, state indexIterator);
     step := fun '(s, si) =>
       '(b, s') ← step it s;
       if b : bool then '(b', si') ← step indexIterator si; Ok (b', (s', si'))
       else Ok (false, (s', si));
     current := fun '(s, _) => current it s;
     currentIndex := fun '(_, si) => current indexIterator si;
     bound := fun '(s, si) => Nat.min (bound it s) (bound indexIterator si) |}.

(** [while (iterator.moveNext()) ++total]: the loop of [count]. *)
Fixpoint count_loop (it : iterator) (fuel : nat) (s : St it) (total : Z) : res Z :=
  match fuel with
  | O => Err OutOfFuel
  | S fuel' =>
      '(b, s') ← step it s;
      if b : bool then count_loop it fuel' s' (total + 1) else Ok total
  end.

(** [while (iterator.moveNext()) last = iterator.getCurrent()]: the loop
    of [last]. *)
Fixpoint last_loop (it : iterator) (fuel : nat) (s : St it) (last : value) : res value :=
  match fuel with
  | O => Err OutOfFuel
  | S fuel' =>
      '(b, s') ← step it s;
      if b : bool then v ← current it s'; last_loop it fuel' s' v else Ok last
  end.

(** *** The heap of memo cells and the monad of effectful code *)

(** What a closure variable holds once it is assigned: the array of
    [cachedSorted] (order-by) and [cachedFilteredIndexAndValues]
    ([Series.where]); the two arrays [newIndexAndNewValues] and
    [newValues] of [Series.selectMany]; the array that replaces the
    function in a data frame's [_columnNames]. *)
Inductive cell : Type :=
| CArray (elems : list value)
| CArrays (pairs elems : list value)
| CNames (names : list string).

(** The heap: one slot per memo variable, [None] while it is still
    [null] (or, for [_columnNames], still the function). *)
Abbreviation heap := (list (option cell)).

(** Code that may read or assign memo variables, or raise. *)
Definition M (A : Type) : Type := heap -> res (A * heap).

#[global] Instance M_ret : MRet M := fun A a h => Ok (a, h).
#[global] Instance M_bind : MBind M :=
  fun A B f m h => match m h with Ok (a, h') => f a h' | Err e => Err e end.

(** Pure code, possibly raising, inside [M]. *)
Definition lift {A} (r : res A) : M A :=
  fun h => match r with Ok a => Ok (a, h) | Err e => Err e end.

(** [var cache = null;] when a closure is created. *)
Definition new_cell : M nat := fun h => Ok (length h, h ++ [None]).

Definition read_cell (l : nat) : M (option cell) := fun h => Ok (mjoin (h !! l), h).

Definition write_cell (l : nat) (c : cell) : M unit := fun h => Ok (tt, <[l := Some c]> h).

(** [l.map(f)] for an [f] that may raise. *)
Fixpoint res_mapM {A B} (f : A -> res B) (l : list A) : res (list B) :=
  match l with
  | [] => Ok []
  | x :: l' => y ← f x; ys ← res_mapM f l'; Ok (y :: ys)
  end.

(** *** linq's ordered enumerables *)

(** [Utils.compare] of linq: [a === b ? 0 : (a > b ? 1 : -1)]. *)
Definition Utils_compare (a b : value) : Z :=
  if strict_eq a b then 0 else if js_gt a b then 1 else -1.

(** One level of a [SortContext]: a key selector and its direction. *)
Record sort_key : Type := mkSortKey {
  keySelector : value -> res value;
  descending : bool;
}.

(** An element of the buffer being sorted: its position in the buffer,
    the keys [GenerateKeys] computed for it (one per level), itself. *)
Record keyed : Type := mkKeyed {
  k_index : nat;
  k_keys : list value;
  k_elem : value;
}.

(** [SortContext.prototype.compare(index1, index2)]: the first level
    whose keys differ decides, reversed when that level is descending;
    when every level ties the positions decide, always ascending. *)
Fixpoint SortContext_compare (descs : list bool) (keys1 keys2 : list value)
    (index1 index2 : nat) : Z :=
  match descs, keys1, keys2 with
  | d :: descs', key1 :: keys1', key2 :: keys2' =>
      let comparison := Utils_compare key1 key2 in
      if comparison =? 0 then SortContext_compare descs' keys1' keys2' index1 index2
      else if d : bool then - comparison else comparison
  | _, _, _ => Utils_compare (VNum (Z.of_nat index1)) (VNum (Z.of_nat index2))
  end.

Definition keyed_compare (descs : list bool) (a b : keyed) : Z :=
  SortContext_compare descs (k_keys a) (k_keys b) (k_index a) (k_index b).

(** Insertion of [x] before the first element it does not follow. *)
Fixpoint insert_sorted {A} (compare : A -> A -> Z) (x : A) (l : list A) : list A :=
  match l with
  | [] => [x]
  | y :: l' => if compare x y <=? 0 then x :: l else y :: insert_sorted compare x l'
  end.

(** [indexes.sort(compare)].  linq's comparator never answers 0 for two
    different positions, so on keys it orders totally the sorted array
    is the same whatever algorithm the engine runs; insertion sort
    computes it. *)
Definition array_sort {A} (compare : A -> A -> Z) (l : list A) : list A :=
  fold_right (insert_sorted compare) [] l.

(** An enumerable of linq: a plain sequence or an [OrderedEnumerable]
    (its source and its sort context, outermost level first). *)
Inductive Enumerable : Type :=
| E_seq (elems : list value)
| E_ordered (source : list value) (context : list sort_key).

(** [GenerateKeys]: the keys of one element, one per level. *)
Definition generate_keys (context : list sort_key) (x : value) : res (list value) :=
  res_mapM (fun level => keySelector level x) context.

(** The buffer with positions and keys. *)
Definition keyed_buffer (context : list sort_key) (source : list value) : res (list keyed) :=
  res_mapM (fun ix => keys ← generate_keys context ix.2; Ok (mkKeyed ix.1 keys ix.2))
           (zip (seq 0 (length source)) source).

(** [.toArray()]: an ordered enumerable sorts when it is enumerated. *)
Definition E_toArray (e : Enumerable) : res (list value) :=
  match e with
  | E_seq elems => Ok elems
  | E_ordered source context =>
      buffer ← keyed_buffer context source;
      Ok (map k_elem (array_sort (keyed_compare (map descending context)) buffer))
  end.

(** [e[sortMethod](keySelector)] for the four sort methods: [orderBy]
    and [orderByDescending] start an ordering of the enumerable,
    [thenBy] and [thenByDescending] add a level to an ordered one (a
    plain sequence has no such method). *)
Definition E_sortMethod (sortMethod : string) (e : Enumerable)
    (keySelector : value -> res value) : res Enumerable :=
  if String.eqb sortMethod "orderBy" then
    source ← E_toArray e; Ok (E_ordered source [mkSortKey keySelector false])
  else if String.eqb sortMethod "orderByDescending" then
    source ← E_toArray e; Ok (E_ordered source [mkSortKey keySelector true])
  else if String.eqb sortMethod "thenBy" then
    match e with
    | E_ordered source context =>
        Ok (E_ordered source (context ++ [mkSortKey keySelector false]))
    | E_seq _ => Err (TypeError "thenBy is not a function")
    end
  else if String.eqb sortMethod "thenByDescending" then
    match e with
    | E_ordered source context =>
        Ok (E_ordered source (context ++ [mkSortKey keySelector true]))
    | E_seq _ => Err (TypeError "thenByDescending is not a function")
    end
  else Err (TypeError "not a function").

(** [E.from(l).aggregate(seed, f)] for an [f] that may raise. *)
Fixpoint E_aggregate {A B} (f : B -> A -> res B) (l : list A) (seed : B) : res B :=
  match l with
  | [] => Ok seed
  | x :: l' => acc ← f seed x; E_aggregate f l' acc
  end.

(** *** Index *)

(** Modelled from the spec: src/index.js is not among the sources.  Spec
    3, Index: owns a zero-argument function producing a fresh cursor
    over label values each time it is invoked; no mutable state beyond
    the producer closure. *)
Record Index : Type := mkIndex {
  Index_iterable : M iterator;
}.

Module Index.

(** Modelled from the spec: [new Index(values)], for an array of labels
    or a producer function (both forms are used by the sources). *)
Definition new (values : list value + M iterator) : Index :=
  match values with
  | inl arr => mkIndex (mret (ArrayIterator1 arr))
  | inr fn => mkIndex fn
  end.

(** Modelled from the spec: [getIterator()], a fresh cursor from the
    producer. *)
Definition getIterator (self : Index) : M iterator := Index_iterable self.

(** Modelled from the spec: [toValues()], the labels as a realized
    sequence. *)
Definition toValues (self : Index) : M (list value) :=
  it ← getIterator self; lift (realize it).

(** Modelled from the spec: spec 4.3, operations mirror Series and are
    implemented by wrapping the Index's own value-producer with the same
    combinator cursors used for Series values. *)
Definition skip (self : Index) (numRows : Z) : Index :=
  new (inr (it ← getIterator self; mret (SkipIterator it numRows))).

(** Modelled from the spec: as [skip], with the Take cursor. *)
Definition take (self : Index) (numRows : Z) : Index :=
  new (inr (it ← getIterator self; mret (TakeIterator it numRows))).

(** Modelled from the spec: spec 4.3 lists [reverse] among the
    operations that mirror Series; like [Series.reverse] it realizes the
    labels and wraps the reversed array. *)
Definition reverse (self : Index) : M Index :=
  values ← toValues self; mret (new (inl (rev values))).

(** Modelled from the spec: spec 4.3, [bake()] drains to a realized
    array-backed Index. *)
Definition bake (self : Index) : M Index :=
  values ← toValues self; mret (new (inl values)).

End Index.

(** [l.filter(f)] for an [f] that may raise. *)
Fixpoint res_filter {A} (f : A -> res bool) (l : list A) : res (list A) :=
  match l with
  | [] => Ok []
  | x :: l' => b ← f x; ys ← res_filter f l'; Ok (if b : bool then x :: ys else ys)
  end.

(** An argument that the callee tests with [isFunction]: a function, a
    value, or a number given as the fraction [num / den].  The numbers
    of [value] are the integers; [ArgFraction] carries the finite
    numbers that need not be one, such as [1.5] ([ArgFraction 3 2]). *)
Inductive js_arg : Type :=
| ArgFunction (f : value -> value)
| ArgValue (v : value)
| ArgFraction (num : Z) (den : positive).

(** [assert.isFunction(arg, msg)], giving the function. *)
Definition assert_isFunction (arg : js_arg) (msg : string) : res (value -> value) :=
  match arg with
  | ArgFunction f => Ok f
  | ArgValue _ | ArgFraction _ _ => Err (AssertionError msg)
  end.

(** An order command of a sort batch: [{ sortSelector, sortMethod }].  A
    selector the caller passed is a total function; the selector the
    data frame builds from a column name reads a property of its
    argument, which raises on [undefined]. *)
Record orderCmd : Type := mkOrderCmd {
  sortSelector : value -> res value;
  sortMethod : string;
}.

(** [validateSortMethod]: the same function in series.js (334-343) and
    in the data frame's file (729-738). *)
Definition validateSortMethod (sortMethod : string) : res unit :=
  assert (String.eqb sortMethod "orderBy" || String.eqb sortMethod "orderByDescending"
          || String.eqb sortMethod "thenBy" || String.eqb sortMethod "thenByDescending")
         ("Expected 'sortMethod' to be one of 'orderBy', 'orderByDescending', 'thenBy' or 'thenByDescending', instead it is '"
          ++ sortMethod ++ "'.").

(** [typeof v]. *)
Definition js_typeof (v : value) : string :=
  match v with
  | VUndefined => "undefined"
  | VNull | VArr _ | VObj _ => "object"
  | VBool _ => "boolean"
  | VNum _ => "number"
  | VStr _ => "string"
  end.

(** [l.map(f)] for an [f] that runs in [M]. *)
Fixpoint M_mapM {A B} (f : A -> M B) (l : list A) : M (list B) :=
  match l with
  | [] => mret []
  | x :: l' => y ← f x; ys ← M_mapM f l'; mret (y :: ys)
  end.

(** The selector of [truncateStrings] (series.js 911-919, and the same
    in the data frame's file 1282-1290): a string longer than
    [maxLength] is cut by [substring(0, maxLength)], which reads a
    negative length as 0; any other value is returned as it is. *)
Definition truncateString (maxLength : Z) (v : value) : value :=
  match v with
  | VStr s =>
      if maxLength <? Z.of_nat (String.length s) then
        VStr (String.substring 0 (Z.to_nat maxLength) s)
      else v
  | _ => v
  end.

(** *** Series (src/series.js) *)

(** A series object: its [_iterable] and [_index] fields, both set once
    by the constructor. *)
Record Series : Type := mkSeries {
  Series_iterable : M iterator;
  Series_index : Index;
}.

(** The [config] argument of the Series constructor; a field is [None]
    when absent. [values] is an array or a producer function. *)
Record SeriesConfig : Type := mkSeriesConfig {
  cfg_values : option (list value + M iterator);
  cfg_index : option Index;
}.

(** A sorted series: the series [executeOrderBy] returns, to which
    [orderBy] and [orderThenBy] attach the closures [thenBy] and
    [thenByDescending].  Both closures capture the same two variables,
    the series being sorted and the batch; they are stored here and the
    closures' body is [Series.orderThenBy]. *)
Record SortedSeries : Type := mkSortedSeries {
  sorted_series : Series;
  thenBy_self : Series;
  thenBy_batch : list orderCmd;
}.

Module Series.

(** [new Series(config)] (series.js 23-69); [None] is the call without
    argument.  Without an index the constructor generates one that
    counts the values each time it is asked for a cursor. *)
Definition new (config : option SeriesConfig) : res Series :=
  match config with
  | Some config =>
      match cfg_values config with
      | None =>
          Err (JsError "Expected 'values' field to be set on 'config' parameter to Series constructor.")
      | Some values =>
          let iterable : M iterator :=
            match values with
            | inr fn => fn
            | inl arr => mret (ArrayIterator1 arr)
            end in
          let index :=
            match cfg_index config with
            | Some index => index
            | None =>
                Index.new (inr (
                  it ← iterable;
                  length ← lift (count_loop it (S (bound it (state it))) (state it) 0);
                  mret (ArrayIterator1 (E_range 0 (Z.to_nat length)))))
            end in
          Ok (mkSeries iterable index)
      end
  | None => Ok (mkSeries (mret (ArrayIterator1 [])) (Index.new (inl [])))
  end.

Definition getIterator (self : Series) : M iterator := Series_iterable self.

Definition getIndex (self : Series) : Index := Series_index self.

(** [toValues] (925-938).  [validateIterator], which only asserts that
    the cursor has the methods of the protocol, has nothing to check on
    an [iterator]. *)
Definition toValues (self : Series) : M (list value) :=
  it ← getIterator self; lift (realize it).

(** [count] (969-980). *)
Definition count (self : Series) : M Z :=
  it ← getIterator self; lift (count_loop it (S (bound it (state it))) (state it) 0).

(** [first] (985-995). *)
Definition first (self : Series) : M value :=
  it ← getIterator self;
  '(b, it) ← lift (moveNext it);
  if b : bool then lift (getCurrent it) else lift (Err (JsError "No rows in series.")).

(** [last] (1000-1016). *)
Definition last (self : Series) : M value :=
  it ← getIterator self;
  '(b, it) ← lift (moveNext it);
  if b : bool then
    last ← lift (getCurrent it);
    lift (last_loop it (S (bound it (state it))) (state it) last)
  else lift (Err (JsError "No rows in series.")).

(** [skip] (92-102). *)
Definition skip (self : Series) (numRows : Z) : res Series :=
  new (Some {|
    cfg_values := Some (inr (it ← getIterator self; mret (SkipIterator it numRows)));
    cfg_index := Some (Index.skip (getIndex self) numRows) |}).

(** [skipWhile] (109-132). *)
Definition skipWhile (self : Series) (predicate : value -> bool) : res Series :=
  new (Some {|
    cfg_values := Some (inr (
      it ← getIterator self;
      mret (SkipWhileIterator it (fun v => Ok (predicate v)))));
    cfg_index := Some (Index.new (inr (
      indexIterator ← Index.getIterator (getIndex self);
      it ← getIterator self;
      let multiIterator := MultiIterator [indexIterator; it] in
      mret (SelectIterator
              (SkipWhileIterator multiIterator
                 (fun pair => v ← get_index pair 1; Ok (predicate v)))
              (fun pair => get_index pair 0))))) |}).

(** [take] (151-161). *)
Definition take (self : Series) (numRows : Z) : res Series :=
  new (Some {|
    cfg_values := Some (inr (it ← getIterator self; mret (TakeIterator it numRows)));
    cfg_index := Some (Index.take (getIndex self) numRows) |}).

(** [takeWhile] (168-191). *)
Definition takeWhile (self : Series) (predicate : value -> bool) : res Series :=
  new (Some {|
    cfg_values := Some (inr (
      it ← getIterator self;
      mret (TakeWhileIterator it (fun v => Ok (predicate v)))));
    cfg_index := Some (Index.new (inr (
      indexIterator ← Index.getIterator (getIndex self);
      it ← getIterator self;
      let multiIterator := MultiIterator [indexIterator; it] in
      mret (SelectIterator
              (TakeWhileIterator multiIterator
                 (fun pair => v ← get_index pair 1; Ok (predicate v)))
              (fun pair => get_index pair 0))))) |}).

(** [executeLazyWhere] of [where] (220-237), with the closure variable
    [cachedFilteredIndexAndValues] in the cell [cached]. *)
Definition executeLazyWhere (self : Series) (filterSelectorPredicate : value -> bool)
    (cached : nat) : M (list value) :=
  c ← read_cell cached;
  match c with
  | Some (CArray cachedFilteredIndexAndValues) => mret cachedFilteredIndexAndValues
  | _ =>
      index ← Index.toValues (getIndex self);
      values ← toValues self;
      filtered ← lift (res_filter
        (fun data => value ← get_index data 1; Ok (filterSelectorPredicate value))
        (zip_with (fun index value => VArr [index; value]) index values));
      _ ← write_cell cached (CArray filtered);
      mret filtered
  end.

(** [where] (210-257). *)
Definition where_ (self : Series) (filterSelectorPredicate : value -> bool) : M Series :=
  cached ← new_cell;
  lift (new (Some {|
    cfg_values := Some (inr (
      filtered ← executeLazyWhere self filterSelectorPredicate cached;
      values ← lift (res_mapM (fun data => get_index data 1) filtered);
      mret (ArrayIterator1 values)));
    cfg_index := Some (Index.new (inr (
      filtered ← executeLazyWhere self filterSelectorPredicate cached;
      labels ← lift (res_mapM (fun data => get_index data 0) filtered);
      mret (ArrayIterator1 labels)))) |})).

(** [select] (264-274). *)
Definition select (self : Series) (selector : value -> value) : res Series :=
  new (Some {|
    cfg_values := Some (inr (
      it ← getIterator self; mret (SelectIterator it (fun v => Ok (selector v)))));
    cfg_index := Some (getIndex self) |}).

(** [lazyEvaluate] of [selectMany] (289-306), with the closure variables
    [newIndexAndNewValues] and [newValues] in the cell [cached].  The
    selector returns an array. *)
Definition lazyEvaluate (self : Series) (selector : value -> list value) (cached : nat)
  : M (list value * list value) :=
  c ← read_cell cached;
  match c with
  | Some (CArrays newIndexAndNewValues newValues) => mret (newIndexAndNewValues, newValues)
  | _ =>
      index ← Index.toValues (getIndex self);
      values ← toValues self;
      let newIndexAndNewValues :=
        zip_with (fun index value => VArr [index; VArr (selector value)]) index values in
      expanded ← lift (res_mapM (fun data => get_index data 1) newIndexAndNewValues);
      let newValues := E_selectMany E_from expanded in
      _ ← write_cell cached (CArrays newIndexAndNewValues newValues);
      mret (newIndexAndNewValues, newValues)
  end.

(** [selectMany] (281-329). *)
Definition selectMany (self : Series) (selector : value -> list value) : M Series :=
  cached ← new_cell;
  lift (new (Some {|
    cfg_values := Some (inr (
      '(_, newValues) ← lazyEvaluate self selector cached;
      mret (ArrayIterator1 newValues)));
    cfg_index := Some (Index.new (inr (
      '(newIndexAndNewValues, _) ← lazyEvaluate self selector cached;
      indexValues ← lift (res_mapM (fun data =>
        index ← get_index data 0;
        values ← get_index data 1;
        Ok (match values with
            | VArr values => replicate (length values) index
            | _ => []
            end)) newIndexAndNewValues);
      mret (ArrayIterator1 (concat indexValues))))) |})).

(** [executeLazySort] of [executeOrderBy] (359-386), with the closure
    variable [cachedSorted] in the cell [cachedSorted]. *)
Definition executeLazySort (self : Series) (batch : list orderCmd) (cachedSorted : nat)
  : M (list value) :=
  c ← read_cell cachedSorted;
  match c with
  | Some (CArray sorted) => mret sorted
  | _ =>
      _ ← lift (res_mapM (fun orderCmd => validateSortMethod (sortMethod orderCmd)) batch);
      index ← Index.toValues (getIndex self);
      values ← toValues self;
      let valuesWithIndex := zip_with (fun index value => VArr [index; value]) index values in
      sorted ← lift (
        ordered ← E_aggregate
          (fun unsorted orderCmd =>
             E_sortMethod (sortMethod orderCmd) unsorted
               (fun row => value ← get_index row 1; sortSelector orderCmd value))
          batch (E_seq valuesWithIndex);
        E_toArray ordered);
      _ ← write_cell cachedSorted (CArray sorted);
      mret sorted
  end.

(** [executeOrderBy] (348-407). *)
Definition executeOrderBy (self : Series) (batch : list orderCmd) : M Series :=
  _ ← lift (assert (0 <? len batch) "");
  cachedSorted ← new_cell;
  lift (new (Some {|
    cfg_values := Some (inr (
      sorted ← executeLazySort self batch cachedSorted;
      values ← lift (res_mapM (fun row => get_index row 1) sorted);
      mret (ArrayIterator1 values)));
    cfg_index := Some (Index.new (inr (
      sorted ← executeLazySort self batch cachedSorted;
      labels ← lift (res_mapM (fun row => get_index row 0) sorted);
      mret (ArrayIterator1 labels)))) |})).

(** The assertions [orderThenBy] (433-437) runs when it builds a
    [thenBy] closure. *)
Definition orderThenBy_checks (batch : list orderCmd) (nextSortMethod : string) : res unit :=
  _ ← assert (0 <? len batch) "";
  validateSortMethod nextSortMethod.

(** The body of the closure [orderThenBy] returns (439-453), applied to
    its argument: [self] and [batch] are the captured variables. *)
Definition orderThenBy (self : Series) (batch : list orderCmd) (nextSortMethod : string)
    (sortSelector : js_arg) : M SortedSeries :=
  sortSelector ← lift (assert_isFunction sortSelector
                         "Expected parameter 'sortSelector' to be a function");
  let extendedBatch := batch ++ [mkOrderCmd (fun v => Ok (sortSelector v)) nextSortMethod] in
  sortedDataFrame ← executeOrderBy self extendedBatch;
  _ ← lift (orderThenBy_checks extendedBatch "thenBy");
  _ ← lift (orderThenBy_checks extendedBatch "thenByDescending");
  mret (mkSortedSeries sortedDataFrame self extendedBatch).

(** The helper [orderBy] (412-428). *)
Definition orderBy_ (self : Series) (sortMethod : string) (sortSelector : js_arg)
  : M SortedSeries :=
  _ ← lift (validateSortMethod sortMethod);
  sortSelector ← lift (assert_isFunction sortSelector "");
  let batchOrder := [mkOrderCmd (fun v => Ok (sortSelector v)) sortMethod] in
  sortedDataFrame ← executeOrderBy self batchOrder;
  _ ← lift (orderThenBy_checks batchOrder "thenBy");
  _ ← lift (orderThenBy_checks batchOrder "thenByDescending");
  mret (mkSortedSeries sortedDataFrame self batchOrder).

(** [orderBy] (483-489); its own [assert.isFunction] is a bare
    expression, the helper's assertion is the one that runs. *)
Definition orderBy (self : Series) (sortSelector : js_arg) : M SortedSeries :=
  orderBy_ self "orderBy" sortSelector.

(** [orderByDescending] (496-500). *)
Definition orderByDescending (self : Series) (sortSelector : js_arg) : M SortedSeries :=
  orderBy_ self "orderByDescending" sortSelector.

(** [sorted.thenBy(sortSelector)]: the closure attached by [orderBy]
    and [orderThenBy]. *)
Definition thenBy (sorted : SortedSeries) (sortSelector : js_arg) : M SortedSeries :=
  orderThenBy (thenBy_self sorted) (thenBy_batch sorted) "thenBy" sortSelector.

(** [sorted.thenByDescending(sortSelector)]. *)
Definition thenByDescending (sorted : SortedSeries) (sortSelector : js_arg)
  : M SortedSeries :=
  orderThenBy (thenBy_self sorted) (thenBy_batch sorted) "thenByDescending" sortSelector.

(** [bake] (943-951). *)
Definition bake (self : Series) : M Series :=
  values ← toValues self;
  index ← Index.bake (getIndex self);
  lift (new (Some {| cfg_values := Some (inl values); cfg_index := Some index |})).

(** [reverse] (1021-1029). *)
Definition reverse (self : Series) : M Series :=
  values ← toValues self;
  index ← Index.reverse (getIndex self);
  lift (new (Some {| cfg_values := Some (inl (rev values)); cfg_index := Some index |})).

(** [aggregate(selector)] with a single function argument (1145-1148):
    the seed is [first()], folded over the values after the first. *)
Definition aggregate1 (self : Series) (selector : value -> value -> value) : M value :=
  rest ← lift (skip self 1);
  values ← toValues rest;
  seed ← first self;
  mret (fold_left selector values seed).

(** [aggregate(seed, selector)] (1149-1153). *)
Definition aggregate (self : Series) (seed : value) (selector : value -> value -> value)
  : M value :=
  values ← toValues self; mret (fold_left selector values seed).

(** [skipUntil] (139-144). *)
Definition skipUntil (self : Series) (predicate : value -> bool) : res Series :=
  skipWhile self (fun value => negb (predicate value)).

(** [takeUntil] (198-203). *)
Definition takeUntil (self : Series) (predicate : value -> bool) : res Series :=
  takeWhile self (fun value => negb (predicate value)).

(** [truncateStrings] (906-920). *)
Definition truncateStrings (self : Series) (maxLength : Z) : res Series :=
  select self (truncateString maxLength).

(** [head] (1065-1071). *)
Definition head (self : Series) (values : Z) : res Series := take self values.

(** [tail] (1078-1084). *)
Definition tail (self : Series) (values : Z) : M Series :=
  total ← count self; lift (skip self (total - values)).

End Series.

(** *** DataFrame (src/dataframe.js) *)

(** A data frame's [_columnNames] field: an array, or a function that
    the first [getColumnNames] call replaces by the array it returns.
    The replacement is the content of the cell [evaluated]. *)
Inductive ColumnNames : Type :=
| NamesArray (names : list string)
| NamesFunction (fn : M (list string)) (evaluated : nat).

(** A data frame object: its [_columnNames] and [_iterable] fields. *)
Record DataFrame : Type := mkDataFrame {
  DataFrame_columnNames : ColumnNames;
  DataFrame_iterable : M iterator;
}.

(** The [config] argument of the DataFrame constructor; a field is
    [None] when absent.  [columnNames] is an array of strings or a
    function, [rows] an array or a producer function.  [config.debug],
    which only adds assertions on the shape of the rows, is absent. *)
Record DataFrameConfig : Type := mkDataFrameConfig {
  df_columnNames : option (list string + M (list string));
  df_rows : option (list value + M iterator);
  df_index : option Index;
}.

(** A sorted data frame: the frame [executeOrderBy] returns, with the
    two variables its [thenBy] and [thenByDescending] closures capture. *)
Record SortedDataFrame : Type := mkSortedDataFrame {
  sorted_frame : DataFrame;
  thenBy_frame : DataFrame;
  thenBy_orders : list orderCmd;
}.

(** The cursor [getIndex] builds inline (82-95 of the constructor's
    file, lines 278-296): it advances the frame's cursor and yields its
    positions; its own position is the counter [i]. *)
Definition IndexCursor (it : iterator) : iterator :=
  {| St := St it * Z;
     state := (state it, -1);
     step := fun '(s, i) => '(b, s') ← step it s; Ok (b, (s', i + 1));
     current := fun '(s, _) => currentIndex it s;
     currentIndex := fun '(_, i) => Ok (VNum i);
     bound := fun '(s, _) => bound it s |}.

(** [mapRowByColumns] (324-338) for column names already read: zips the
    names with the row and builds the object. *)
Definition mapRow (columnNames : list string) (row : value) : value :=
  VObj (toObject (zip columnNames (E_from row))).

(** [E.from(columnNames).select(name => row[name]).toArray()]. *)
Definition pickColumns (columnNames : list string) (row : value) : res value :=
  cells ← res_mapM (get_prop row) columnNames; Ok (VArr cells).

(** [[index].concat(values)]: an array argument is spread. *)
Definition index_concat (index values : value) : value :=
  match values with
  | VArr cells => VArr (index :: cells)
  | _ => VArr [index; values]
  end.

(** [E.from(l).where(function (x, i) { return indices.indexOf(i) < 0; }).toArray()]:
    the elements whose position, counted from [i], is not among
    [indices]. *)
Fixpoint where_not_at {A} (indices : list Z) (i : Z) (l : list A) : list A :=
  match l with
  | [] => []
  | x :: l' =>
      if existsb (Z.eqb i) indices then where_not_at indices (i + 1) l'
      else x :: where_not_at indices (i + 1) l'
  end.

(** The cursor the rows producer of [subset] builds inline (703-720):
    it advances the frame's cursor and reads the cells at the column
    indices from its row ([row[-1]], for a column that was not found,
    is [undefined]). *)
Definition SubsetCursor (iterator : iterator) (columnIndices : list Z) :=
  {| St := St iterator;
     state := state iterator;
     step := step iterator;
     current := fun s =>
       currentValue ← current iterator s;
       cells ← res_mapM (get_index currentValue) columnIndices;
       Ok (VArr cells);
     currentIndex := currentIndex iterator;
     bound := bound iterator |}.

(** The cursor the rows producer of [dropColumn] builds inline
    (945-963): it keeps the cells whose position is not a dropped
    column's. *)
Definition DropColumnCursor (iterator : iterator) (columnIndices : list Z) :=
  {| St := St iterator;
     state := state iterator;
     step := step iterator;
     current := fun s =>
       currentValue ← current iterator s;
       Ok (VArr (where_not_at columnIndices 0 (E_from currentValue)));
     currentIndex := currentIndex iterator;
     bound := bound iterator |}.

(** The message of the range assertion of [processColumnSelector]
    (841-844); it names ['orderBy'] whatever the caller. *)
Definition bad_column_index (columnNames : list string) : string :=
  "Bad column index specified for 'columnNameOrIndexOrSelector' parameter to 'orderBy', expected a column index >= 0 and < "
  ++ pretty (len columnNames).

(** The message of the string assertion of [processColumnSelector]
    (849-852). *)
Definition bad_column_selector (fnName : string) : string :=
  "Expected 'columnNameOrIndexOrSelector' parameter to '" ++ fnName
  ++ "' to be a column name, a column index or a selector function.".

Module DataFrame.

(** The field read of [getColumnNames] (302-311) on a [_columnNames]
    value.  [_newIterable] is never set by the sources. *)
Definition evalColumnNames (columnNames : ColumnNames) : M (list string) :=
  match columnNames with
  | NamesArray names => mret names
  | NamesFunction fn evaluated =>
      c ← read_cell evaluated;
      match c with
      | Some (CNames names) => mret names
      | _ => names ← fn; _ ← write_cell evaluated (CNames names); mret names
      end
  end.

(** [determineColumnNames] of the constructor (165-172): the keys of the
    first row the producer yields. *)
Definition determineColumnNames (rows : M iterator) : M (list string) :=
  it ← rows;
  '(b, it) ← lift (moveNext it);
  if b : bool then row ← lift (getCurrent it); lift (Object_keys row) else mret [].

(** [new DataFrame(config)] (114-271); [None] is the call without
    argument. *)
Definition new (config : option DataFrameConfig) : M DataFrame :=
  match config with
  | None => mret (mkDataFrame (NamesArray []) (mret (ArrayIterator1 [])))
  | Some config =>
      '(columnNames, rows) ←
        match df_columnNames config, df_rows config with
        | Some _, None =>
            lift (Err (JsError
              "Expected to find a 'rows' member of 'config' parameter to DataFrame constructor."))
        | Some names, Some rows =>
            columnNames ←
              match names with
              | inl names => mret (NamesArray names)
              | inr fn => evaluated ← new_cell; mret (NamesFunction fn evaluated)
              end;
            mret (columnNames,
                  Some (match rows with
                        | inr fn => fn
                        | inl arr => mret (ArrayIterator1 arr)
                        end))
        | None, Some (inr fn) =>
            evaluated ← new_cell;
            mret (NamesFunction (determineColumnNames fn) evaluated,
                  Some (columnNames ← determineColumnNames fn;
                        it ← fn;
                        mret (SelectIterator it (pickColumns columnNames))))
        | None, Some (inl arr) =>
            match arr with
            | row0 :: _ =>
                if Object_isObject row0 then
                  evaluated ← new_cell;
                  let columnNames :=
                    NamesFunction
                      (lift (keys ← res_mapM Object_keys arr; Ok (distinct (concat keys))))
                      evaluated in
                  mret (columnNames,
                        Some (names ← evalColumnNames columnNames;
                              mret (SelectIterator (ArrayIterator1 arr) (pickColumns names))))
                else
                  length ← lift (get_prop row0 "length");
                  let count := match length with VNum n => Z.to_nat n | _ => O end in
                  mret (NamesArray (map (fun i : nat => pretty i) (seq 0 count)),
                        Some (mret (ArrayIterator1 arr)))
            | [] => mret (NamesArray [], None)
            end
        | None, None => mret (NamesArray [], None)
        end;
      let rows : M iterator := default (mret (ArrayIterator1 [])) rows in
      let rows : M iterator :=
        match df_index config with
        | Some index =>
            it ← rows;
            indexIterator ← Index.getIterator index;
            mret (ApplyIndexIterator it indexIterator)
        | None => rows
        end in
      mret (mkDataFrame columnNames rows)
  end.

(** [getIterator] (316-319). *)
Definition getIterator (self : DataFrame) : M iterator := DataFrame_iterable self.

(** [getIndex] (276-297). *)
Definition getIndex (self : DataFrame) : Index :=
  Index.new (inr (iterator ← getIterator self; mret (IndexCursor iterator))).

(** [getColumnNames] (302-311). *)
Definition getColumnNames (self : DataFrame) : M (list string) :=
  evalColumnNames (DataFrame_columnNames self).

(** [mapRowByColumns(self, row)] (324-338). *)
Definition mapRowByColumns (self : DataFrame) (row : value) : M value :=
  columnNames ← getColumnNames self; mret (mapRow columnNames row).

(** The [for] loop of [getColumnIndex] (360-366) from position [i]. *)
Fixpoint getColumnIndex_loop (columnName : string) (columnNames : list string) (i : Z) : Z :=
  match columnNames with
  | [] => -1
  | name :: rest =>
      if String.eqb columnName name then i else getColumnIndex_loop columnName rest (i + 1)
  end.

(** [getColumnIndex] (354-367). *)
Definition getColumnIndex (self : DataFrame) (columnName : string) : M Z :=
  columnNames ← getColumnNames self;
  mret (getColumnIndex_loop columnName columnNames 0).

(** [parseColumnNameOrIndex] (93-107).  The argument is a string, a
    number, or something else, on which [assert.isNumber] fails. *)
Definition parseColumnNameOrIndex (dataFrame : DataFrame) (columnNameOrIndex : value)
    (failForNonExistantColumn : bool) : M Z :=
  match columnNameOrIndex with
  | VStr columnName =>
      columnIndex ← getColumnIndex dataFrame columnName;
      if failForNonExistantColumn && (columnIndex <? 0) then
        lift (Err (JsError ("Failed to find column with name '" ++ columnName ++ "'.")))
      else mret columnIndex
  | VNum columnIndex => mret columnIndex
  | _ =>
      lift (Err (AssertionError
        "Expected 'columnNameOrIndex' parameter e either a string or index that specifies an existing column."))
  end.

(** [getSeries] (622-635). *)
Definition getSeries (self : DataFrame) (columnNameOrIndex : value) : M Series :=
  columnIndex ← parseColumnNameOrIndex self columnNameOrIndex true;
  lift (Series.new (Some {|
    cfg_values := Some (inr (
      it ← getIterator self;
      mret (SelectIterator it (fun row => get_index row columnIndex))));
    cfg_index := Some (getIndex self) |})).

(** [hasSeries] (642-648). *)
Definition hasSeries (self : DataFrame) (columnName : string) : M bool :=
  columnIndex ← getColumnIndex self columnName; mret (0 <=? columnIndex).

(** [expectSeries] (657-662). *)
Definition expectSeries (self : DataFrame) (columnNameOrIndex : value) : M DataFrame :=
  _ ← parseColumnNameOrIndex self columnNameOrIndex true;
  mret self.

(** [toValues] (1399-1413). *)
Definition toValues (self : DataFrame) : M (list value) :=
  it ← getIterator self; lift (realize it).

(** [toObjects] (1418-1432): the loop maps each row as it is pushed; the
    column names it reads are the same at every row. *)
Definition toObjects (self : DataFrame) : M (list value) :=
  it ← getIterator self;
  rows ← lift (realize it);
  match rows with
  | [] => mret []
  | _ => columnNames ← getColumnNames self; mret (map (mapRow columnNames) rows)
  end.

(** [count] (1505-1518). *)
Definition count (self : DataFrame) : M Z :=
  it ← getIterator self; lift (count_loop it (S (bound it (state it))) (state it) 0).

(** [first] (1682-1693). *)
Definition first (self : DataFrame) : M value :=
  it ← getIterator self;
  '(b, it) ← lift (moveNext it);
  if b : bool then row ← lift (getCurrent it); mapRowByColumns self row
  else lift (Err (JsError "No rows in data-frame.")).

(** [last] (1698-1715). *)
Definition last (self : DataFrame) : M value :=
  it ← getIterator self;
  '(b, it) ← lift (moveNext it);
  if b : bool then
    last ← lift (getCurrent it);
    last ← lift (last_loop it (S (bound it (state it))) (state it) last);
    mapRowByColumns self last
  else lift (Err (JsError "No rows in data-frame.")).

(** The operators of the data frame.  A cursor they build calls
    [mapRowByColumns(self, row)] on each row, which reads the column
    names of [self]; the producer reads them when it creates the cursor
    and hands them to the cursor's functions.  Except for [select] and
    [selectMany] the operator itself has evaluated
    [self.getColumnNames()] before, so the read assigns nothing; for
    those two the names are evaluated at the first row in the source
    and at the creation of the cursor here, to the same array. *)

(** [skip] (374-385). *)
Definition skip (self : DataFrame) (numRows : Z) : M DataFrame :=
  columnNames ← getColumnNames self;
  new (Some {|
    df_columnNames := Some (inl columnNames);
    df_rows := Some (inr (it ← getIterator self; mret (SkipIterator it numRows)));
    df_index := Some (Index.skip (getIndex self) numRows) |}).

(** [skipWhile] (392-418). *)
Definition skipWhile (self : DataFrame) (predicate : value -> bool) : M DataFrame :=
  columnNames ← getColumnNames self;
  new (Some {|
    df_columnNames := Some (inl columnNames);
    df_rows := Some (inr (
      it ← getIterator self;
      names ← getColumnNames self;
      mret (SkipWhileIterator it (fun row => Ok (predicate (mapRow names row))))));
    df_index := Some (Index.new (inr (
      indexIterator ← Index.getIterator (getIndex self);
      it ← getIterator self;
      names ← getColumnNames self;
      let multiIterator := MultiIterator [indexIterator; it] in
      mret (SelectIterator
              (SkipWhileIterator multiIterator
                 (fun pair => row ← get_index pair 1; Ok (predicate (mapRow names row))))
              (fun pair => get_index pair 0))))) |}).

(** [take] (437-448). *)
Definition take (self : DataFrame) (numRows : Z) : M DataFrame :=
  columnNames ← getColumnNames self;
  new (Some {|
    df_columnNames := Some (inl columnNames);
    df_rows := Some (inr (it ← getIterator self; mret (TakeIterator it numRows)));
    df_index := Some (Index.take (getIndex self) numRows) |}).

(** [takeWhile] (455-481). *)
Definition takeWhile (self : DataFrame) (predicate : value -> bool) : M DataFrame :=
  columnNames ← getColumnNames self;
  new (Some {|
    df_columnNames := Some (inl columnNames);
    df_rows := Some (inr (
      it ← getIterator self;
      names ← getColumnNames self;
      mret (TakeWhileIterator it (fun row => Ok (predicate (mapRow names row))))));
    df_index := Some (Index.new (inr (
      indexIterator ← Index.getIterator (getIndex self);
      it ← getIterator self;
      names ← getColumnNames self;
      let multiIterator := MultiIterator [indexIterator; it] in
      mret (SelectIterator
              (TakeWhileIterator multiIterator
                 (fun pair => row ← get_index pair 1; Ok (predicate (mapRow names row))))
              (fun pair => get_index pair 0))))) |}).

(** The cursor the index producer of [where] builds inline (514-535):
    its [moveNext] is the search loop of a Where cursor over the multi
    cursor, its value and position are the first components of the
    multi cursor's. *)
Definition WhereIndexCursor (multiIterator : iterator) (predicate : value -> res bool)
  : iterator :=
  {| St := St multiIterator;
     state := state multiIterator;
     step := fun s => where_loop multiIterator predicate (S (bound multiIterator s)) s;
     current := fun s => pair ← current multiIterator s; get_index pair 0;
     currentIndex := fun s => pair ← currentIndex multiIterator s; get_index pair 0;
     bound := bound multiIterator |}.

(** [where] (500-538). *)
Definition where_ (self : DataFrame) (filterSelectorPredicate : value -> bool) : M DataFrame :=
  columnNames ← getColumnNames self;
  new (Some {|
    df_columnNames := Some (inl columnNames);
    df_rows := Some (inr (
      it ← getIterator self;
      names ← getColumnNames self;
      mret (WhereIterator it (fun row => Ok (filterSelectorPredicate (mapRow names row))))));
    df_index := Some (Index.new (inr (
      indexIterator ← Index.getIterator (getIndex self);
      it ← getIterator self;
      names ← getColumnNames self;
      let multiIterator := MultiIterator [indexIterator; it] in
      mret (WhereIndexCursor multiIterator
              (fun pair =>
                 row ← get_index pair 1;
                 Ok (filterSelectorPredicate (mapRow names row))))))) |}).

(** [determineColumnNames] of [select] (550-557). *)
Definition select_determineColumnNames (self : DataFrame) (selector : value -> value)
  : M (list string) :=
  it ← getIterator self;
  '(b, it) ← lift (moveNext it);
  if b : bool then
    row ← lift (getCurrent it);
    mapped ← mapRowByColumns self row;
    lift (Object_keys (selector mapped))
  else mret [].

(** [select] (545-575). *)
Definition select (self : DataFrame) (selector : value -> value) : M DataFrame :=
  new (Some {|
    df_columnNames := Some (inr (select_determineColumnNames self selector));
    df_rows := Some (inr (
      columnNames ← select_determineColumnNames self selector;
      it ← getIterator self;
      names ← getColumnNames self;
      mret (SelectIterator it
              (fun row => pickColumns columnNames (selector (mapRow names row))))));
    df_index := Some (getIndex self) |}).

(** [selectMany] (582-615).  The selector returns an array.  The row
    producer applies it to the column-mapped row; the index producer
    applies it to [pair[1]], the row as the cursor yields it. *)
Definition selectMany (self : DataFrame) (selector : value -> list value) : M DataFrame :=
  new (Some {|
    df_columnNames := None;
    df_rows := Some (inr (
      it ← getIterator self;
      names ← getColumnNames self;
      mret (SelectManyIterator it (fun row => Ok (selector (mapRow names row))))));
    df_index := Some (Index.new (inr (
      indexIterator ← Index.getIterator (getIndex self);
      it ← getIterator self;
      mret (SelectIterator
              (SelectManyIterator (MultiIterator [indexIterator; it])
                 (fun pair =>
                    row ← get_index pair 1;
                    index ← get_index pair 0;
                    let newValues := selector row in
                    Ok (map (fun value => VArr [index; value]) newValues)))
              (fun pair => get_index pair 0))))) |}).

(** [executeLazySort] of [executeOrderBy] (756-783), with the closure
    variable [cachedSorted] in the cell [cachedSorted]. *)
Definition executeLazySort (self : DataFrame) (batch : list orderCmd) (cachedSorted : nat)
  : M (list value) :=
  c ← read_cell cachedSorted;
  match c with
  | Some (CArray sorted) => mret sorted
  | _ =>
      _ ← lift (res_mapM (fun orderCmd => validateSortMethod (sortMethod orderCmd)) batch);
      index ← Index.toValues (getIndex self);
      values ← toValues self;
      let valuesWithIndex := zip_with index_concat index values in
      names ← getColumnNames self;
      sorted ← lift (
        ordered ← E_aggregate
          (fun unsorted orderCmd =>
             E_sortMethod (sortMethod orderCmd) unsorted
               (fun row =>
                  let columnMappedRow := mapRow names (VArr (drop 1 (E_from row))) in
                  sortSelector orderCmd columnMappedRow))
          batch (E_seq valuesWithIndex);
        E_toArray ordered);
      _ ← write_cell cachedSorted (CArray sorted);
      mret sorted
  end.

(** [executeOrderBy] (743-805). *)
Definition executeOrderBy (self : DataFrame) (batch : list orderCmd) : M DataFrame :=
  _ ← lift (assert (0 <? len batch) "");
  cachedSorted ← new_cell;
  columnNames ← getColumnNames self;
  new (Some {|
    df_columnNames := Some (inl columnNames);
    df_rows := Some (inr (
      sorted ← executeLazySort self batch cachedSorted;
      mret (ArrayIterator1 (map (fun row => VArr (drop 1 (E_from row))) sorted))));
    df_index := Some (Index.new (inr (
      sorted ← executeLazySort self batch cachedSorted;
      labels ← lift (res_mapM (fun row => get_index row 0) sorted);
      mret (ArrayIterator1 labels)))) |}).

(** [processColumnSelector] (832-864): a function is returned as it is;
    a number must be at least 0 and less than the number of columns,
    and [columnNames[number]] is the column name; anything else must be
    a string, a column name; the name becomes the selector
    [row => row[columnName]].  The range test does not ask for an
    integer: a fraction in range passes, [columnNames[fraction]] is
    [undefined], and the selector reads the property ["undefined"]. *)
Definition processColumnSelector (self : DataFrame) (columnNameOrIndexOrSelector : js_arg)
    (fnName : string) : M (value -> res value) :=
  match columnNameOrIndexOrSelector with
  | ArgFunction f => mret (fun row => Ok (f row))
  | ArgValue (VNum columnIndex) =>
      columnNames ← getColumnNames self;
      _ ← lift (assert ((0 <=? columnIndex) && (columnIndex <? len columnNames))
                  (bad_column_index columnNames));
      let columnName := nth (Z.to_nat columnIndex) columnNames "" in
      mret (fun row => get_prop row columnName)
  | ArgFraction num den =>
      columnNames ← getColumnNames self;
      _ ← lift (assert ((0 <=? num) && (num <? len columnNames * Z.pos den))
                  (bad_column_index columnNames));
      let columnName :=
        if num mod Z.pos den =? 0 then nth (Z.to_nat (num / Z.pos den)) columnNames ""
        else "undefined" in
      mret (fun row => get_prop row columnName)
  | ArgValue (VStr columnName) => mret (fun row => get_prop row columnName)
  | ArgValue _ => lift (Err (AssertionError (bad_column_selector fnName)))
  end.

(** The assertions [orderThenBy] (870-874) runs when it builds a
    [thenBy] closure. *)
Definition orderThenBy_checks (batch : list orderCmd) (nextSortMethod : string) : res unit :=
  _ ← assert (0 <? len batch) "";
  validateSortMethod nextSortMethod.

(** The body of the closure [orderThenBy] returns (876-889), applied to
    its argument: [self] and [batch] are the captured variables. *)
Definition orderThenBy (self : DataFrame) (batch : list orderCmd) (nextSortMethod : string)
    (columnNameOrIndexOrSelector : js_arg) : M SortedDataFrame :=
  sortSelector ← processColumnSelector self columnNameOrIndexOrSelector "thenBy";
  let extendedBatch := batch ++ [mkOrderCmd sortSelector nextSortMethod] in
  sortedDataFrame ← executeOrderBy self extendedBatch;
  _ ← lift (orderThenBy_checks extendedBatch "thenBy");
  _ ← lift (orderThenBy_checks extendedBatch "thenByDescending");
  mret (mkSortedDataFrame sortedDataFrame self extendedBatch).

(** The helper [orderBy] (810-826); its [assert.isFunction] receives the
    function [processColumnSelector] returned. *)
Definition orderBy_ (self : DataFrame) (sortMethod : string) (sortSelector : value -> res value)
  : M SortedDataFrame :=
  _ ← lift (validateSortMethod sortMethod);
  let batchOrder := [mkOrderCmd sortSelector sortMethod] in
  sortedDataFrame ← executeOrderBy self batchOrder;
  _ ← lift (orderThenBy_checks batchOrder "thenBy");
  _ ← lift (orderThenBy_checks batchOrder "thenByDescending");
  mret (mkSortedDataFrame sortedDataFrame self batchOrder).

(** [orderBy] (897-901). *)
Definition orderBy (self : DataFrame) (columnNameOrIndexOrSelector : js_arg)
  : M SortedDataFrame :=
  sortSelector ← processColumnSelector self columnNameOrIndexOrSelector "orderBy";
  orderBy_ self "orderBy" sortSelector.

(** [orderByDescending] (908-912). *)
Definition orderByDescending (self : DataFrame) (columnNameOrIndexOrSelector : js_arg)
  : M SortedDataFrame :=
  sortSelector ← processColumnSelector self columnNameOrIndexOrSelector "orderByDescending";
  orderBy_ self "orderByDescending" sortSelector.

(** [sorted.thenBy(arg)]: the closure attached by [orderBy] and
    [orderThenBy]. *)
Definition thenBy (sorted : SortedDataFrame) (columnNameOrIndexOrSelector : js_arg)
  : M SortedDataFrame :=
  orderThenBy (thenBy_frame sorted) (thenBy_orders sorted) "thenBy"
    columnNameOrIndexOrSelector.

(** [sorted.thenByDescending(arg)]. *)
Definition thenByDescending (sorted : SortedDataFrame) (columnNameOrIndexOrSelector : js_arg)
  : M SortedDataFrame :=
  orderThenBy (thenBy_frame sorted) (thenBy_orders sorted) "thenByDescending"
    columnNameOrIndexOrSelector.

(** [bake] (1492-1500). *)
Definition bake (self : DataFrame) : M DataFrame :=
  columnNames ← getColumnNames self;
  rows ← toValues self;
  index ← Index.bake (getIndex self);
  new (Some {|
    df_columnNames := Some (inl columnNames);
    df_rows := Some (inl rows);
    df_index := Some index |}).

(** [reverse] (1720-1728). *)
Definition reverse (self : DataFrame) : M DataFrame :=
  objects ← toObjects self;
  index ← Index.reverse (getIndex self);
  new (Some {|
    df_columnNames := None;
    df_rows := Some (inl (rev objects));
    df_index := Some index |}).

(** [getColumns] (667-679): one [{ name, series }] per column name. *)
Definition getColumns (self : DataFrame) : M (list (string * Series)) :=
  columnNames ← getColumnNames self;
  M_mapM (fun columnName =>
            series ← getSeries self (VStr columnName);
            mret (columnName, series)) columnNames.

(** [subset] (686-724), for an array of strings. *)
Definition subset (self : DataFrame) (columnNames : list string) : M DataFrame :=
  new (Some {|
    df_columnNames := Some (inl columnNames);
    df_rows := Some (inr (
      columnIndices ← M_mapM (getColumnIndex self) columnNames;
      iterator ← getIterator self;
      mret (SubsetCursor iterator columnIndices)));
    df_index := Some (getIndex self) |}).

(** [dropColumn] (919-966).  The argument is a string or an array whose
    elements must be strings; the columns that are found are dropped.
    The selector that looks the names up receives each element with
    its position. *)
Definition dropColumn (self : DataFrame) (columnOrColumns : value) : M DataFrame :=
  columns ← lift (match columnOrColumns with
                  | VArr columns => Ok columns
                  | VStr _ => Ok [columnOrColumns]
                  | _ => Err (AssertionError
                       "'dropColumn' expected either a string or an array or strings.")
                  end);
  found ← M_mapM (fun '(index, columnName) =>
                    match columnName with
                    | VStr columnName => getColumnIndex self columnName
                    | _ => lift (Err (AssertionError
                         ("Expected column names specifed in parameter 'columnOrColumns' to be string values. Index "
                          ++ pretty (index : nat) ++ " is a " ++ js_typeof columnName)))
                    end) (zip (seq 0 (length columns)) columns);
  let columnIndices := List.filter (fun columnIndex => 0 <=? columnIndex) found in
  columnNames ← getColumnNames self;
  new (Some {|
    df_columnNames := Some (inl (where_not_at columnIndices 0 columnNames));
    df_rows := Some (inr (
      iterator ← getIterator self;
      mret (DropColumnCursor iterator columnIndices)));
    df_index := Some (getIndex self) |}).

(** [setIndex] (1116-1128): the column is looked up when the index is
    iterated, not at the call. *)
Definition setIndex (self : DataFrame) (columnNameOrIndex : value) : M DataFrame :=
  columnNames ← getColumnNames self;
  new (Some {|
    df_columnNames := Some (inl columnNames);
    df_rows := Some (inr (getIterator self));
    df_index := Some (Index.new (inr (
      series ← getSeries self columnNameOrIndex;
      Series.getIterator series))) |}).

(** [resetIndex] (1133-1145). *)
Definition resetIndex (self : DataFrame) : M DataFrame :=
  columnNames ← getColumnNames self;
  new (Some {|
    df_columnNames := Some (inl columnNames);
    df_rows := Some (inr (getIterator self));
    df_index := Some (Index.new (inr (
      values ← toValues self;
      mret (ArrayIterator1 (E_range 0 (length values)))))) |}).

(** [truncateStrings] (1275-1300): the rows are truncated at the call. *)
Definition truncateStrings (self : DataFrame) (maxLength : Z) : M DataFrame :=
  values ← toValues self;
  let truncatedValues :=
    map (fun row => VArr (map (truncateString maxLength) (E_from row))) values in
  columnNames ← getColumnNames self;
  new (Some {|
    df_columnNames := Some (inl columnNames);
    df_rows := Some (inl truncatedValues);
    df_index := Some (getIndex self) |}).

(** [remapColumns] (1308-1342), for an array of strings: each row reads
    the index of each column name again. *)
Definition remapColumns (self : DataFrame) (columnNames : list string) : M DataFrame :=
  new (Some {|
    df_columnNames := Some (inl columnNames);
    df_rows := Some (inr (
      values ← toValues self;
      rows ← M_mapM (fun row =>
                cells ← M_mapM (fun columnName =>
                           columnIndex ← getColumnIndex self columnName;
                           if 0 <=? columnIndex then lift (get_index row columnIndex)
                           else mret VUndefined) columnNames;
                mret (VArr cells)) values;
      mret (ArrayIterator1 rows)));
    df_index := Some (getIndex self) |}).

(** [renameColumns] (1349-1369), for an array of strings. *)
Definition renameColumns (self : DataFrame) (newColumnNames : list string) : M DataFrame :=
  columnNames ← getColumnNames self;
  let numExistingColumns := len columnNames in
  _ ← lift (assert (len newColumnNames =? numExistingColumns)
              ("Expected 'newColumnNames' array to have an element for each existing column. There are "
               ++ pretty numExistingColumns ++ "existing columns."));
  new (Some {|
    df_columnNames := Some (inl newColumnNames);
    df_rows := Some (inr (getIterator self));
    df_index := Some (getIndex self) |}).

(** [deflate] (1757-1770), for a selector of the row object alone: the
    values are computed at the call. *)
Definition deflate (self : DataFrame) (selector : value -> value) : M Series :=
  objects ← toObjects self;
  lift (Series.new (Some {|
    cfg_values := Some (inl (map selector objects));
    cfg_index := Some (getIndex self) |})).

(** [head] (1794-1800). *)
Definition head (self : DataFrame) (numRows : Z) : M DataFrame := take self numRows.

(** [tail] (1807-1813). *)
Definition tail (self : DataFrame) (numRows : Z) : M DataFrame :=
  total ← count self; skip self (total - numRows).

End DataFrame.

(** *** dataForge.range (index.js 364-386) *)

(** The cursor [range] builds inline: [moveNext] is [++i < count],
    [getCurrent] is [start + i]; the object has no [getCurrentIndex],
    so calling it raises a [TypeError].  The numbers of the model are
    the integers and it adds them exactly, which is what the code
    computes as long as the operands and the sum are safe integers
    (see [safe_integer]). *)
Definition RangeCursor (start count : Z) : iterator :=
  {| St := Z;
     state := -1;
     step := fun i => Ok (i + 1 <? count, i + 1);
     current := fun i => Ok (VNum (start + i));
     currentIndex := fun _ => Err (TypeError "iterator.getCurrentIndex is not a function");
     bound := fun i => Z.to_nat (count - 1 - i) |}.

(** [dataForge.range(start, count)]. *)
Definition range (start count : Z) : res Series :=
  Series.new (Some {|
    cfg_values := Some (inr (mret (RangeCursor start count)));
    cfg_index := None |}).

(** *** dataForge.matrix and dataForge.concat (index.js) *)

(** The cursor [matrix] builds inline (402-424), with its variables
    [rowIndex], [nextValue] and [curRow] as state ([None] while [curRow]
    is [undefined]).  A refused [moveNext] changes nothing, so
    [getCurrent] keeps answering the last row; the object has no
    [getCurrentIndex].  The arguments are integers, and the sums and
    products are exact, which is what the code computes as long as
    they are safe integers (see [safe_integer]). *)
Definition MatrixCursor (numColumns numRows start increment : Z) : iterator :=
  {| St := Z * Z * option (list value);
     state := (0, start, None);
     step := fun '(rowIndex, nextValue, curRow) =>
       if numRows <=? rowIndex then Ok (false, (rowIndex, nextValue, curRow))
       else
         let row :=
           map (fun columnIndex : nat => VNum (nextValue + Z.of_nat columnIndex * increment))
               (seq 0 (Z.to_nat numColumns)) in
         Ok (true, (rowIndex + 1, nextValue + numColumns * increment, Some row));
     current := fun '(_, _, curRow) =>
       Ok (match curRow with Some row => VArr row | None => VUndefined end);
     currentIndex := fun _ => Err (TypeError "iterator.getCurrentIndex is not a function");
     bound := fun '(rowIndex, _, _) => Z.to_nat (numRows - rowIndex) |}.

Module dataForge.

(** [dataForge.matrix(numColumns, numRows, start, increment)] (396-430),
    for integer arguments: the columns are named ["1"], ["2"], ... *)
Definition matrix (numColumns numRows start increment : Z) : M DataFrame :=
  DataFrame.new (Some {|
    df_columnNames :=
      Some (inl (map (fun k : nat => pretty (1 + Z.of_nat k)) (seq 0 (Z.to_nat numColumns))));
    df_rows := Some (inr (mret (MatrixCursor numColumns numRows start increment)));
    df_index := None |}).

(** [concatenateColumns] of [concat] (332-339). *)
Definition concatenateColumns (dataFrames : list DataFrame) : M (list string) :=
  names ← M_mapM DataFrame.getColumnNames dataFrames;
  mret (distinct (concat names)).

(** [dataForge.concat(dataFrames)] (329-356).  The config it passes to
    the constructor has the members [columnNames] and [iterable]; the
    constructor reads [columnNames], [rows] and [index], so it sees
    column names without rows. *)
Definition concat (dataFrames : list DataFrame) : M DataFrame :=
  columnNames ← concatenateColumns dataFrames;
  DataFrame.new (Some {|
    df_columnNames := Some (inl columnNames);
    df_rows := None;
    df_index := None |}).

End dataForge.

(** *** Vocabulary of the verification *)

(** [run m] runs [m] on the empty heap and keeps its result. *)
Definition run {A} (m : M A) : res A := fst <$> m [].

(** A cursor state from which every advance answers [false]. *)
Definition exhausted (it : iterator) (s : St it) : Prop :=
  exists P : St it -> Prop,
    P s /\ forall t, P t -> exists t', step it t = Ok (false, t') /\ P t'.

(** [yields it s l]: from state [s] the cursor yields exactly the values
    [l], raising nothing, and is exhausted afterwards; the bound it
    declares covers the elements still to come. *)
Inductive yields (it : iterator) : St it -> list value -> Prop :=
| yields_end s s' :
    step it s = Ok (false, s') -> exhausted it s' -> yields it s []
| yields_next s s' v l :
    step it s = Ok (true, s') -> current it s' = Ok v ->
    (length l < bound it s)%nat -> yields it s' l -> yields it s (v :: l).

(** What a world expects of a memo cell: nothing, that it stays empty
    (its computation raises), or that it is empty or holds the array
    its computation returns. *)
Inductive expect : Type :=
| Any
| Empty
| Filled (c : cell).

Definition cell_ok (e : expect) (o : option cell) : Prop :=
  match e with
  | Any => True
  | Empty => o = None
  | Filled c => o = None \/ o = Some c
  end.

(** A world lists what is expected of the first cells of the heap: the
    memo cells of the objects built so far. *)
Abbreviation world := (list expect).

(** The heap [h] fits the world [W]. *)
Definition sat (W : world) (h : heap) : Prop :=
  (length W <= length h)%nat /\
  forall l e, W !! l = Some e -> exists o, h !! l = Some o /\ cell_ok e o.

(** [evals W m r]: on every heap that fits [W] the computation [m] has
    the result [r]; when it returns, the heap still fits [W], has the
    same cells, and the cells outside of [W] are unchanged. *)
Definition evals {A} (W : world) (m : M A) (r : res A) : Prop :=
  forall h, sat W h ->
    match r with
    | Ok a => exists h', m h = Ok (a, h') /\ sat W h' /\ length h' = length h /\
                         forall l, (length W <= l)%nat -> h' !! l = h !! l
    | Err e => m h = Err e
    end.

(** What a series denotes in a world: the cursors its two producers
    return (or the exceptions they raise). *)
Definition Series_den (W : world) (self : Series) (values labels : res iterator) : Prop :=
  evals W (Series.getIterator self) values /\
  evals W (Index.getIterator (Series.getIndex self)) labels.

(** What a data frame denotes in a world: its column names and the
    cursor its producer returns. *)
Definition DataFrame_den (W : world) (self : DataFrame) (names : res (list string))
    (rows : res iterator) : Prop :=
  evals W (DataFrame.getColumnNames self) names /\
  evals W (DataFrame.getIterator self) rows.

(** The observable state of a series: its values and its labels. *)
Definition Series_observe (self : Series) : M (list value * list value) :=
  values ← Series.toValues self;
  labels ← Index.toValues (Series.getIndex self);
  mret (values, labels).

(** The observable state of a data frame: its rows, its labels and its
    column names. *)
Definition DataFrame_observe (self : DataFrame)
  : M (list value * list value * list string) :=
  rows ← DataFrame.toValues self;
  labels ← Index.toValues (DataFrame.getIndex self);
  names ← DataFrame.getColumnNames self;
  mret (rows, labels, names).

(** *** Concrete inputs of the scenarios *)

(** The data frame of the spec's scenarios 3 and 4: columns [n] and
    [s], rows [[1, "a"]] and [[2, "b"]]. *)
Definition scenario_frame : M DataFrame :=
  DataFrame.new (Some {|
    df_columnNames := Some (inl ["n"; "s"]);
    df_rows := Some (inl [VArr [VNum 1; VStr "a"]; VArr [VNum 2; VStr "b"]]);
    df_index := None |}).

(** [function (row) { return row.n < 2 ? [{v: row.n}] : [{v: row.n}, {v: row.n}]; }]:
    a selector for [selectMany] that replaces a row by one or two rows
    carrying its [n]. *)
Definition one_or_two (row : value) : list value :=
  match get_prop row "n" with
  | Ok n => if js_lt n (VNum 2) then [VObj [("v", n)]] else [VObj [("v", n)]; VObj [("v", n)]]
  | Err _ => []
  end.

(** The answers of [k] successive calls of [moveNext], and the cursor
    after them. *)
Fixpoint moveNext_n (k : nat) (it : iterator) : res (list bool * iterator) :=
  match k with
  | O => Ok ([], it)
  | S k' =>
      '(b, it') ← moveNext it;
      '(bs, it'') ← moveNext_n k' it';
      Ok (b :: bs, it'')
  end.

(** *** Vocabulary of the order-by claims *)

(** The kind of the keys of one sort level: all numbers or all strings
    (the operands on which [>] and [===] order totally). *)
Inductive key_kind : Type := KNum | KStr.

Definition has_kind (kind : key_kind) (key : value) : Prop :=
  match kind, key with
  | KNum, VNum _ => True
  | KStr, VStr _ => True
  | _, _ => False
  end.

(** [key1] sorts strictly before [key2] at a level of the given
    direction: smaller first when ascending, greater first when
    descending. *)
Definition key_before (desc : bool) (key1 key2 : value) : Prop :=
  if desc then js_gt key1 key2 = true else js_lt key1 key2 = true.

(** The composite order of a multi-key stable sort, on two elements
    given by their keys (first level first) and their positions in the
    input: the first level on which the keys differ decides; when all
    levels tie the original positions decide. *)
Inductive before : list bool -> list value -> list value -> nat -> nat -> Prop :=
| before_position (p q : nat) :
    (p < q)%nat -> before [] [] [] p q
| before_key desc descs key1 key2 keys1 keys2 p q :
    key_before desc key1 key2 ->
    before (desc :: descs) (key1 :: keys1) (key2 :: keys2) p q
| before_tie desc descs key keys1 keys2 p q :
    before descs keys1 keys2 p q ->
    before (desc :: descs) (key :: keys1) (key :: keys2) p q.

(** [orderBy] or [orderByDescending] followed by a chain of [thenBy] and
    [thenByDescending] calls: each step is [(descending, argument)]. *)
Fixpoint thenBy_chain (sorted : SortedDataFrame) (steps : list (bool * js_arg))
  : M SortedDataFrame :=
  match steps with
  | [] => mret sorted
  | (desc, arg) :: steps' =>
      sorted' ← (if desc : bool then DataFrame.thenByDescending sorted arg
                 else DataFrame.thenBy sorted arg);
      thenBy_chain sorted' steps'
  end.

Definition orderBy_chain (self : DataFrame) (first : bool * js_arg)
    (steps : list (bool * js_arg)) : M SortedDataFrame :=
  sorted ← (if first.1 then DataFrame.orderByDescending self first.2
            else DataFrame.orderBy self first.2);
  thenBy_chain sorted steps.

(** An argument the data frame's [orderBy] family accepts: a function,
    a string (a column name), or a number that is at least 0 and less
    than the number of columns, integer or not. *)
Definition valid_column_arg (columnNames : list string) (arg : js_arg) : Prop :=
  match arg with
  | ArgFunction _ => True
  | ArgValue (VStr _) => True
  | ArgValue (VNum columnIndex) => 0 <= columnIndex < len columnNames
  | ArgFraction num den => 0 <= num < len columnNames * Z.pos den
  | ArgValue _ => False
  end.

(** The message of the assertion a refused argument fails in a call
    named [fnName]. *)
Definition refusal (columnNames : list string) (fnName : string) (arg : js_arg) : string :=
  match arg with
  | ArgValue (VNum _) | ArgFraction _ _ => bad_column_index columnNames
  | _ => bad_column_selector fnName
  end.

(** The selector [processColumnSelector] returns for a valid argument,
    given the column names. *)
Definition selector_of (columnNames : list string) (arg : js_arg) : value -> res value :=
  match arg with
  | ArgFunction f => fun row => Ok (f row)
  | ArgValue (VNum columnIndex) =>
      let columnName := nth (Z.to_nat columnIndex) columnNames "" in
      fun row => get_prop row columnName
  | ArgValue (VStr columnName) => fun row => get_prop row columnName
  | ArgFraction num den =>
      let columnName :=
        if num mod Z.pos den =? 0 then nth (Z.to_nat (num / Z.pos den)) columnNames ""
        else "undefined" in
      fun row => get_prop row columnName
  | ArgValue _ => fun _ => Ok VUndefined
  end.

(** The keys of a row under a chain of sort arguments: each selector
    applied to the column-mapped row. *)
Definition row_keys (columnNames : list string) (steps : list (bool * js_arg)) (row : value)
  : list value :=
  map (fun step : bool * js_arg =>
         match selector_of columnNames step.2 (mapRow columnNames row) with
         | Ok key => key
         | Err _ => VUndefined
         end) steps.

(** The batch a chain of sort calls accumulates: one command per call,
    the first tagged [orderBy] or [orderByDescending], the others
    [thenBy] or [thenByDescending]. *)
Definition chain_batch (columnNames : list string) (first : bool * js_arg)
    (steps : list (bool * js_arg)) : list orderCmd :=
  mkOrderCmd (selector_of columnNames first.2)
             (if first.1 then "orderByDescending" else "orderBy")
  :: map (fun step : bool * js_arg =>
            mkOrderCmd (selector_of columnNames step.2)
                       (if step.1 then "thenByDescending" else "thenBy")) steps.

(** The array [executeLazySort] of the data frame computes and caches
    (its body without the heap): the labels zipped with the rows, sorted
    through linq by the batch. *)
Definition sorted_tuples (columnNames : list string) (batch : list orderCmd)
    (labels rows : list value) : res (list value) :=
  _ ← res_mapM (fun orderCmd => validateSortMethod (sortMethod orderCmd)) batch;
  ordered ← E_aggregate
    (fun unsorted orderCmd =>
       E_sortMethod (sortMethod orderCmd) unsorted
         (fun row =>
            let columnMappedRow := mapRow columnNames (VArr (drop 1 (E_from row))) in
            sortSelector orderCmd columnMappedRow))
    batch (E_seq (zip_with index_concat labels rows));
  E_toArray ordered.

(** The frame [executeOrderBy self batch] returns when its variable
    [cachedSorted] is the cell [cachedSorted] and the column names of
    [self] are [columnNames]: the constructor pairs the row producer
    with the producer of the index it was given. *)
Definition ordered_frame (self : DataFrame) (batch : list orderCmd) (cachedSorted : nat)
    (columnNames : list string) : DataFrame :=
  mkDataFrame (NamesArray columnNames)
    (it ← (sorted ← DataFrame.executeLazySort self batch cachedSorted;
           mret (ArrayIterator1 (map (fun row => VArr (drop 1 (E_from row))) sorted)));
     indexIterator ← Index.getIterator (Index.new (inr (
       sorted ← DataFrame.executeLazySort self batch cachedSorted;
       labels ← lift (res_mapM (fun row => get_index row 0) sorted);
       mret (ArrayIterator1 labels))));
     mret (ApplyIndexIterator it indexIterator)).

(** The order command a [thenBy] or [thenByDescending] call appends. *)
Definition thenBy_cmd (columnNames : list string) (step : bool * js_arg) : orderCmd :=
  mkOrderCmd (selector_of columnNames step.2)
             (if step.1 then "thenByDescending" else "thenBy").

(** *** Vocabulary of the frame claim *)

(** [keeps W m Q]: a run of [m] that returns, from a heap that fits
    [W], leaves a heap that fits [W] and returns something that
    satisfies [Q]. *)
Definition keeps {A} (W : world) (m : M A) (Q : A -> Prop) : Prop :=
  forall h, sat W h -> forall a h', m h = Ok (a, h') -> sat W h' /\ Q a.

(** The producers of a series keep the heap fitting [W]. *)
Definition Series_keeps (W : world) (s : Series) : Prop :=
  keeps W (Series.getIterator s) (fun _ => True) /\
  keeps W (Index.getIterator (Series.getIndex s)) (fun _ => True).

(** The column names and the producer of a data frame keep the heap
    fitting [W]. *)
Definition DataFrame_keeps (W : world) (df : DataFrame) : Prop :=
  keeps W (DataFrame.getColumnNames df) (fun _ => True) /\
  keeps W (DataFrame.getIterator df) (fun _ => True).

(** A call of a transformation operator of the series, with its
    arguments; [orderBy] is the ascending or the descending call. *)
Inductive Series_operator : Type :=
| Series_skip (numRows : Z)
| Series_take (numRows : Z)
| Series_skipWhile (predicate : value -> bool)
| Series_takeWhile (predicate : value -> bool)
| Series_where (predicate : value -> bool)
| Series_select (selector : value -> value)
| Series_selectMany (selector : value -> list value)
| Series_orderBy (desc : bool) (sortSelector : js_arg)
| Series_reverse
| Series_bake.

(** The call on a series, giving the derived series. *)
Definition Series_apply (op : Series_operator) (self : Series) : M Series :=
  match op with
  | Series_skip numRows => lift (Series.skip self numRows)
  | Series_take numRows => lift (Series.take self numRows)
  | Series_skipWhile predicate => lift (Series.skipWhile self predicate)
  | Series_takeWhile predicate => lift (Series.takeWhile self predicate)
  | Series_where predicate => Series.where_ self predicate
  | Series_select selector => lift (Series.select self selector)
  | Series_selectMany selector => Series.selectMany self selector
  | Series_orderBy desc sortSelector =>
      sorted ← (if desc then Series.orderByDescending self sortSelector
                else Series.orderBy self sortSelector);
      mret (sorted_series sorted)
  | Series_reverse => Series.reverse self
  | Series_bake => Series.bake self
  end.

(** A call of a transformation operator of the data frame. *)
Inductive DataFrame_operator : Type :=
| DataFrame_skip (numRows : Z)
| DataFrame_take (numRows : Z)
| DataFrame_skipWhile (predicate : value -> bool)
| DataFrame_takeWhile (predicate : value -> bool)
| DataFrame_where (predicate : value -> bool)
| DataFrame_select (selector : value -> value)
| DataFrame_selectMany (selector : value -> list value)
| DataFrame_orderBy (desc : bool) (columnNameOrIndexOrSelector : js_arg)
| DataFrame_reverse
| DataFrame_bake.

(** The call on a data frame, giving the derived data frame. *)
Definition DataFrame_apply (op : DataFrame_operator) (self : DataFrame) : M DataFrame :=
  match op with
  | DataFrame_skip numRows => DataFrame.skip self numRows
  | DataFrame_take numRows => DataFrame.take self numRows
  | DataFrame_skipWhile predicate => DataFrame.skipWhile self predicate
  | DataFrame_takeWhile predicate => DataFrame.takeWhile self predicate
  | DataFrame_where predicate => DataFrame.where_ self predicate
  | DataFrame_select selector => DataFrame.select self selector
  | DataFrame_selectMany selector => DataFrame.selectMany self selector
  | DataFrame_orderBy desc columnNameOrIndexOrSelector =>
      sorted ← (if desc then DataFrame.orderByDescending self columnNameOrIndexOrSelector
                else DataFrame.orderBy self columnNameOrIndexOrSelector);
      mret (sorted_frame sorted)
  | DataFrame_reverse => DataFrame.reverse self
  | DataFrame_bake => DataFrame.bake self
  end.

(** *** Vocabulary of the theorems on the other operations *)

(** A series with a known content in a world: its two producers return
    cursors that yield the values and the labels. *)
Definition Series_yields (W : world) (self : Series) (values labels : list value) : Prop :=
  exists it ix,
    evals W (Series.getIterator self) (Ok it) /\ yields it (state it) values /\
    evals W (Index.getIterator (Series.getIndex self)) (Ok ix) /\ yields ix (state ix) labels.

(** [yields_labelled it s rows labels]: from state [s] the cursor yields
    the values [rows] and, at each of them, [getCurrentIndex] answers
    the label at the same place in [labels]. *)
Inductive yields_labelled (it : iterator) : St it -> list value -> list value -> Prop :=
| yields_labelled_end s s' :
    step it s = Ok (false, s') -> exhausted it s' -> yields_labelled it s [] []
| yields_labelled_next s s' v label rows labels :
    step it s = Ok (true, s') -> current it s' = Ok v -> currentIndex it s' = Ok label ->
    (length rows < bound it s)%nat -> yields_labelled it s' rows labels ->
    yields_labelled it s (v :: rows) (label :: labels).

(** A data frame with a known content in a world: its column names, and
    a cursor that yields the rows with the labels. *)
Definition DataFrame_yields (W : world) (self : DataFrame) (names : list string)
    (rows labels : list value) : Prop :=
  evals W (DataFrame.getColumnNames self) (Ok names) /\
  exists it,
    evals W (DataFrame.getIterator self) (Ok it) /\
    yields_labelled it (state it) rows labels.

(** The position of the first column named [name], if any. *)
Definition column_position (names : list string) (name : string) : option nat :=
  fst <$> list_find (fun n => n = name) names.

(** The cell of a row under the first column named [name]: [undefined]
    when there is no such column or the row is too short. *)
Definition column_cell (names : list string) (cells : list value) (name : string) : value :=
  from_option (fun i => nth i cells VUndefined) VUndefined (column_position names name).

(** The length of the longest prefix of [l] whose elements all satisfy
    [p]. *)
Fixpoint prefix_length {A} (p : A -> bool) (l : list A) : nat :=
  match l with
  | x :: l' => if p x then S (prefix_length p l') else O
  | [] => O
  end.

(** *** Safe integers *)

(** [n] is a safe integer: a number of the language holds it exactly,
    and a sum or a product of the language is the exact one when the
    operands and the exact result are safe integers. *)
Definition safe_integer (n : Z) : Prop := - 2 ^ 53 < n < 2 ^ 53.

(** *** Vocabulary of the order-by claim on a series *)

(** [orderBy] or [orderByDescending] of a series followed by a chain of
    [thenBy] and [thenByDescending] calls, each with a selector
    function: a step is [(descending, selector)]. *)
Fixpoint Series_thenBy_chain (sorted : SortedSeries) (steps : list (bool * (value -> value)))
  : M SortedSeries :=
  match steps with
  | [] => mret sorted
  | (desc, sortSelector) :: steps' =>
      sorted' ← (if desc : bool then Series.thenByDescending sorted (ArgFunction sortSelector)
                 else Series.thenBy sorted (ArgFunction sortSelector));
      Series_thenBy_chain sorted' steps'
  end.

Definition Series_orderBy_chain (self : Series) (first : bool * (value -> value))
    (steps : list (bool * (value -> value))) : M SortedSeries :=
  sorted ← (if first.1 then Series.orderByDescending self (ArgFunction first.2)
            else Series.orderBy self (ArgFunction first.2));
  Series_thenBy_chain sorted steps.

(** The keys of a value under a chain of selectors. *)
Definition value_keys (steps : list (bool * (value -> value))) (v : value) : list value :=
  map (fun step : bool * (value -> value) => step.2 v) steps.

(** The order command a [thenBy] or [thenByDescending] call of a sorted
    series appends. *)
Definition Series_thenBy_cmd (step : bool * (value -> value)) : orderCmd :=
  mkOrderCmd (fun v => Ok (step.2 v)) (if step.1 then "thenByDescending" else "thenBy").

(** The batch a chain of sort calls on a series accumulates. *)
Definition Series_chain_batch (first : bool * (value -> value))
    (steps : list (bool * (value -> value))) : list orderCmd :=
  mkOrderCmd (fun v => Ok (first.2 v)) (if first.1 then "orderByDescending" else "orderBy")
  :: map Series_thenBy_cmd steps.

(** The array [executeLazySort] of the series computes and caches (its
    body without the heap): the labels zipped with the values, sorted
    through linq by the batch. *)
Definition Series_sorted_tuples (batch : list orderCmd) (labels values : list value)
  : res (list value) :=
  _ ← res_mapM (fun orderCmd => validateSortMethod (sortMethod orderCmd)) batch;
  ordered ← E_aggregate
    (fun unsorted orderCmd =>
       E_sortMethod (sortMethod orderCmd) unsorted
         (fun row => value ← get_index row 1; sortSelector orderCmd value))
    batch (E_seq (zip_with (fun index value => VArr [index; value]) labels values));
  E_toArray ordered.

(** The series [executeOrderBy self batch] returns when its variable
    [cachedSorted] is the cell [cachedSorted]. *)
Definition ordered_series (self : Series) (batch : list orderCmd) (cachedSorted : nat)
  : Series :=
  mkSeries
    (sorted ← Series.executeLazySort self batch cachedSorted;
     values ← lift (res_mapM (fun row => get_index row 1) sorted);
     mret (ArrayIterator1 values))
    (Index.new (inr (
       sorted ← Series.executeLazySort self batch cachedSorted;
       labels ← lift (res_mapM (fun row => get_index row 0) sorted);
       mret (ArrayIterator1 labels)))).

(* ================================================================= *)
(** ** Part II: verification *)
(* ================================================================= *)

(** *** Generic facts about the monads and the loops *)

Lemma realize_loop_output it fuel s output :
  realize_loop it fuel s output = (fun l => output ++ l) <$> realize_loop it fuel s [].
Proof.
  revert s output. induction fuel as [|fuel IH]; intros s output; simpl; [done|].
  destruct (step it s) as [[[] s']|e]; simpl; [|by rewrite app_nil_r|done].
  destruct (current it s') as [v|e]; simpl; [|done].
  rewrite (IH s' (output ++ [v])), (IH s' [v]).
  destruct (realize_loop it fuel s' []) as [l|e]; simpl; [|done].
  by rewrite <- app_assoc.
Qed.

(** *** The array cursor *)

Lemma advance_ArrayIterator arr index k r :
  advance k (ArrayIterator_at arr index r) = Ok (ArrayIterator_at arr index (r + Z.of_nat k)).
Proof.
  revert r. induction k as [|k IH]; intros r.
  - simpl. do 2 f_equal. lia.
  - cbn [advance]. unfold moveNext. cbn. change (advance k (ArrayIterator_at arr index (r + 1)) = Ok (ArrayIterator_at arr index (r + Z.of_nat (S k)))).
    rewrite IH. do 2 f_equal. lia.
Qed.

Lemma nth_value_nth (l : list value) (k : nat) :
  (k < length l)%nat -> nth_value l (Z.of_nat k) = nth k l VUndefined.
Proof.
  intros Hk. unfold nth_value, len.
  destruct (Z.leb_spec 0 (Z.of_nat k)); [|lia].
  destruct (Z.ltb_spec (Z.of_nat k) (Z.of_nat (length l))); [|lia].
  simpl. by rewrite Nat2Z.id.
Qed.

Lemma realize_loop_ArrayIterator arr index r0 fuel (r : Z) output :
  -1 <= r -> (Z.to_nat (len arr - 1 - r) < fuel)%nat ->
  realize_loop (ArrayIterator_at arr index r0) fuel r output
  = Ok (output ++ drop (Z.to_nat (r + 1)) arr).
Proof.
  revert r output. induction fuel as [|fuel IH]; intros r output Hr Hfuel; [lia|].
  cbn [realize_loop]. cbn.
  destruct (Z.ltb_spec (r + 1) (len arr)) as [Hlt|Hge].
  - destruct (Z.leb_spec 0 (r + 1)); [|lia]. cbn.
    change (realize_loop (ArrayIterator_at arr index r0) fuel (r + 1) (output ++ [nth_value arr (r + 1)]) = Ok (output ++ drop (Z.to_nat (r + 1)) arr)).
    rewrite IH by lia.
    f_equal. rewrite <- app_assoc. f_equal.
    assert (Hk : (Z.to_nat (r + 1) < length arr)%nat) by (unfold len in Hlt; lia).
    replace (r + 1) with (Z.of_nat (Z.to_nat (r + 1))) at 1 by lia.
    rewrite nth_value_nth by done.
    replace (Z.to_nat (r + 1 + 1)) with (S (Z.to_nat (r + 1))) by lia.
    destruct (lookup_lt_is_Some_2 arr _ Hk) as [x Hx].
    rewrite (drop_S _ _ _ Hx). simpl. f_equal.
    by apply nth_lookup_Some.
  - cbn. f_equal. rewrite drop_ge by (unfold len in Hge; lia). by rewrite app_nil_r.
Qed.

Lemma realize_ArrayIterator arr index :
  realize (ArrayIterator_at arr index (-1)) = Ok arr.
Proof.
  unfold realize. cbn [state bound ArrayIterator_at].
  rewrite realize_loop_ArrayIterator by lia. by rewrite drop_0.
Qed.

(** *** C3 and C9: the array cursor protocol *)

(** C3.  For every array [A], a cursor constructed over [A] (alone or with
    a parallel position array): the [(k+1)]-th call of [moveNext] answers
    [true] exactly when [k < len A], so [true] exactly [len A] times and
    [false] on every later call; at the [k]-th valid position
    [getCurrent] is [A[k]] and [getCurrentIndex] is [k], or the [k]-th
    element of the position array when one was supplied; and [realize] on
    the fresh cursor returns [A]. *)
Theorem ArrayIterator_protocol (A : list value) (index : option (list value)) (it : iterator) :
  ArrayIterator A index = Ok it ->
  (forall k : nat, exists it_k it',
      advance k it = Ok it_k /\
      moveNext it_k = Ok (bool_decide (k < length A)%nat, it') /\
      ((k < length A)%nat ->
       getCurrent it' = Ok (nth k A VUndefined) /\
       getCurrentIndex it' =
         Ok (match index with
             | Some positions => nth k positions VUndefined
             | None => VNum (Z.of_nat k)
             end)) /\
      ((length A <= k)%nat ->
       getCurrent it' = Ok VUndefined /\ getCurrentIndex it' = Ok VUndefined)) /\
  realize it = Ok A.
Proof.
  intros Hnew.
  assert (Hit : it = ArrayIterator_at A index (-1) /\
                match index with Some ix => length ix = length A | None => True end).
  { unfold ArrayIterator in Hnew. destruct index as [ix|]; [|by inversion Hnew].
    unfold assert in Hnew. destruct (Z.eqb_spec (len A) (len ix)) as [Hl|Hl];
      cbn in Hnew; [|done]. inversion Hnew. split; [done|]. unfold len in Hl. lia. }
  destruct Hit as [-> Hix]. split; [|apply realize_ArrayIterator].
  intros k. rewrite advance_ArrayIterator.
  eexists _, (ArrayIterator_at A index (-1 + Z.of_nat k + 1)).
  split; [done|]. split; [|split].
  - unfold moveNext. cbn. do 2 f_equal.
    unfold len. case_bool_decide; [apply Z.ltb_lt | apply Z.ltb_ge]; lia.
  - intros Hk. unfold getCurrent, getCurrentIndex. cbn.
    replace (-1 + Z.of_nat k + 1) with (Z.of_nat k) by lia.
    destruct (Z.leb_spec 0 (Z.of_nat k)); [|lia].
    destruct (Z.ltb_spec (Z.of_nat k) (len A)) as [?|Hge]; [|unfold len in Hge; lia].
    cbn. rewrite nth_value_nth by done. split; [done|].
    destruct index as [ix|]; [|done]. by rewrite nth_value_nth by lia.
  - intros Hk. unfold getCurrent, getCurrentIndex. cbn.
    replace (-1 + Z.of_nat k + 1) with (Z.of_nat k) by lia.
    destruct (Z.ltb_spec (Z.of_nat k) (len A)) as [Hlt|?]; [unfold len in Hlt; lia|].
    by rewrite andb_false_r.
Qed.

Lemma ArrayIterator_protocol_witness :
  ArrayIterator [VNum 7; VStr "x"] (Some [VStr "a"; VStr "b"])
    = Ok (ArrayIterator_at [VNum 7; VStr "x"] (Some [VStr "a"; VStr "b"]) (-1)) /\
  realize (ArrayIterator_at [VNum 7; VStr "x"] (Some [VStr "a"; VStr "b"]) (-1))
    = Ok [VNum 7; VStr "x"].
Proof.
  split; [reflexivity|].
  exact (proj2 (ArrayIterator_protocol [VNum 7; VStr "x"] (Some [VStr "a"; VStr "b"]) _ eq_refl)).
Defined.

(** C9.  Constructing an array cursor with a value array and a parallel
    position array raises exactly when the two lengths differ; with equal
    lengths it succeeds and [getCurrentIndex] at the [k]-th valid
    position is the [k]-th element of the position array. *)
Theorem ArrayIterator_index_length (arr positions : list value) :
  (is_Err (ArrayIterator arr (Some positions)) <-> length arr <> length positions) /\
  (length arr = length positions ->
   exists it, ArrayIterator arr (Some positions) = Ok it /\
     forall k : nat, (k < length arr)%nat ->
       exists it', advance (S k) it = Ok it' /\
                   getCurrentIndex it' = Ok (nth k positions VUndefined)).
Proof.
  assert (Hnew : ArrayIterator arr (Some positions) =
                 if decide (length arr = length positions)
                 then Ok (ArrayIterator_at arr (Some positions) (-1))
                 else Err (AssertionError "Expect value array and index array to be the same length.")).
  { unfold ArrayIterator, assert, len.
    destruct (Z.eqb_spec (Z.of_nat (length arr)) (Z.of_nat (length positions)));
      case_decide; try lia; done. }
  rewrite Hnew. case_decide as Hlen.
  - split.
    + split; [intros [e He]; done | intros Hne; lia].
    + intros _. eexists. split; [done|]. intros k Hk.
      rewrite advance_ArrayIterator. eexists. split; [done|].
      unfold getCurrentIndex. cbn.
      replace (-1 + Z.of_nat (S k)) with (Z.of_nat k) by lia.
      destruct (Z.leb_spec 0 (Z.of_nat k)); [|lia].
      destruct (Z.ltb_spec (Z.of_nat k) (len arr)) as [?|Hge]; [|unfold len in Hge; lia].
      cbn. by rewrite nth_value_nth by lia.
  - split.
    + split; [intros _; lia | intros _; by eexists].
    + intros Hlen'. lia.
Qed.

Lemma ArrayIterator_index_length_witness :
  exists it, ArrayIterator [VNum 1; VNum 2] (Some [VStr "a"; VStr "b"]) = Ok it /\
    forall k : nat, (k < 2)%nat ->
      exists it', advance (S k) it = Ok it' /\
                  getCurrentIndex it' = Ok (nth k [VStr "a"; VStr "b"] VUndefined).
Proof.
  exact (proj2 (ArrayIterator_index_length [VNum 1; VNum 2] [VStr "a"; VStr "b"]) eq_refl).
Defined.

(** *** Worlds and evaluation *)

Lemma sat_nil h : sat [] h.
Proof. split; [simpl; lia|]. intros l e Hl. by destruct l. Qed.

Lemma sat_prefix W W' h : W `prefix_of` W' -> sat W' h -> sat W h.
Proof.
  intros [k ->] [Hlen Hcells]. split.
  - rewrite length_app in Hlen. lia.
  - intros l e Hl. apply Hcells. by apply lookup_app_l_Some.
Qed.

Lemma evals_ret {A} W (a : A) : evals W (mret a) (Ok a).
Proof. intros h Hs. exists h. done. Qed.

Lemma evals_lift {A} W (r : res A) : evals W (lift r) r.
Proof. intros h Hs. destruct r as [a|e]; [|done]. exists h. done. Qed.

Lemma evals_bind {A B} W (m : M A) (f : A -> M B) (r : res A) (g : A -> res B) :
  evals W m r -> (forall a, r = Ok a -> evals W (f a) (g a)) ->
  evals W (m ≫= f) (r ≫= g).
Proof.
  intros Hm Hf h Hs. specialize (Hm h Hs).
  assert (Hrun : (m ≫= f) h = match m h with Ok (a, h') => f a h' | Err e => Err e end) by done.
  destruct r as [a|e].
  - destruct Hm as (h' & Hmh & Hs' & Hlen & Hframe).
    rewrite Hmh in Hrun. specialize (Hf a eq_refl h' Hs').
    change (Ok a ≫= g) with (g a). rewrite Hrun.
    destruct (g a) as [b|e]; [|done].
    destruct Hf as (h'' & -> & Hs'' & Hlen' & Hframe').
    exists h''. split; [done|]. split; [done|]. split; [lia|].
    intros l Hl. rewrite Hframe', Hframe; done.
  - change (Err e ≫= g) with (@Err B e). by rewrite Hrun, Hm.
Qed.

Lemma evals_prefix {A} W W' (m : M A) r :
  W `prefix_of` W' -> evals W m r -> evals W' m r.
Proof.
  intros Hpre Hm h Hs. pose proof (sat_prefix _ _ _ Hpre Hs) as HsW.
  specialize (Hm h HsW). destruct r as [a|e]; [|done].
  destruct Hm as (h' & Hrun & Hs' & Hlen & Hframe).
  exists h'. split; [done|]. destruct Hpre as [k ->].
  split; [|split; [done|]].
  - destruct Hs as [HlenW Hcells]. split; [lia|].
    intros l e Hl. destruct (decide (l < length W)%nat) as [Hlt|Hge].
    + apply Hs'. by rewrite lookup_app_l in Hl.
    + rewrite Hframe by lia. by apply Hcells.
  - intros l Hl. apply Hframe. rewrite length_app in Hl. lia.
Qed.

Lemma evals_run {A} W (m : M A) r h : evals W m r -> sat W h -> fst <$> m h = r.
Proof.
  intros Hm Hs. specialize (Hm h Hs). destruct r as [a|e]; [|by rewrite Hm].
  destruct Hm as (h' & -> & _). done.
Qed.

Lemma evals_eq {A} W (m : M A) r r' : r = r' -> evals W m r -> evals W m r'.
Proof. by intros ->. Qed.

(** *** Cursors that yield a sequence *)

Lemma yields_bound it s l : yields it s l -> (length l <= bound it s)%nat.
Proof. destruct 1; simpl; lia. Qed.

Lemma realize_loop_yields it s l :
  yields it s l -> forall fuel output, (length l < fuel)%nat ->
  realize_loop it fuel s output = Ok (output ++ l).
Proof.
  induction 1 as [s s' Hstep _|s s' v l Hstep Hcur Hb _ IH]; intros [|fuel] output Hfuel;
    simpl in Hfuel; try lia; cbn [realize_loop]; rewrite Hstep; cbn.
  - by rewrite app_nil_r.
  - rewrite Hcur. cbn. rewrite IH by lia. by rewrite <- app_assoc.
Qed.

Lemma realize_yields it l : yields it (state it) l -> realize it = Ok l.
Proof.
  intros Hy. unfold realize. rewrite (realize_loop_yields _ _ _ Hy); [done|].
  pose proof (yields_bound _ _ _ Hy). lia.
Qed.

Lemma count_loop_yields it s l :
  yields it s l -> forall fuel total, (length l < fuel)%nat ->
  count_loop it fuel s total = Ok (total + len l).
Proof.
  induction 1 as [s s' Hstep _|s s' v l Hstep Hcur Hb _ IH]; intros [|fuel] total Hfuel;
    simpl in Hfuel; try lia; cbn [count_loop]; rewrite Hstep; cbn.
  - f_equal. unfold len. simpl. lia.
  - rewrite IH by lia. f_equal. unfold len. simpl length. lia.
Qed.

Lemma last_loop_yields it s l :
  yields it s l -> forall fuel v, (length l < fuel)%nat ->
  last_loop it fuel s v = Ok (default v (last l)).
Proof.
  induction 1 as [s s' Hstep _|s s' v l Hstep Hcur Hb _ IH]; intros [|fuel] v0 Hfuel;
    simpl in Hfuel; try lia; cbn [last_loop]; rewrite Hstep; cbn; [done|].
  rewrite Hcur. cbn. rewrite IH by lia. f_equal.
  rewrite last_cons. by destruct (last l).
Qed.

Lemma exhausted_step it s : exhausted it s -> exists s', step it s = Ok (false, s') /\ exhausted it s'.
Proof.
  intros (P & Hs & HP). destruct (HP s Hs) as (s' & Hstep & Hs').
  exists s'. split; [done|]. by exists P.
Qed.

Lemma exhausted_ArrayIterator arr index r0 (r : Z) :
  len arr - 1 <= r -> exhausted (ArrayIterator_at arr index r0) r.
Proof.
  intros Hr. exists (fun t : Z => len arr - 1 <= t). split; [done|].
  intros t Ht. exists (t + 1). split; [|lia]. cbn.
  destruct (Z.ltb_spec (t + 1) (len arr)); [lia|done].
Qed.

Lemma yields_ArrayIterator arr index r0 (k : nat) :
  yields (ArrayIterator_at arr index r0) (Z.of_nat k - 1) (drop k arr).
Proof.
  remember (length arr - k)%nat as n eqn:Hn. revert k Hn.
  induction n as [|n IH]; intros k Hn.
  - rewrite drop_ge by lia. eapply yields_end.
    + cbn. destruct (Z.ltb_spec (Z.of_nat k - 1 + 1) (len arr)) as [Hlt|]; [|done].
      unfold len in Hlt. lia.
    + apply exhausted_ArrayIterator. unfold len. lia.
  - assert (Hk : (k < length arr)%nat) by lia.
    destruct (lookup_lt_is_Some_2 arr _ Hk) as [x Hx].
    rewrite (drop_S _ _ _ Hx). eapply yields_next.
    + cbn. destruct (Z.ltb_spec (Z.of_nat k - 1 + 1) (len arr)) as [|Hge]; [done|].
      unfold len in Hge. lia.
    + cbn. replace (Z.of_nat k - 1 + 1) with (Z.of_nat k) by lia.
      destruct (Z.leb_spec 0 (Z.of_nat k)); [|lia].
      destruct (Z.ltb_spec (Z.of_nat k) (len arr)) as [|Hge]; [|unfold len in Hge; lia].
      cbn. rewrite nth_value_nth by done. f_equal. by apply nth_lookup_Some.
    + cbn. rewrite length_drop. unfold len. lia.
    + replace (Z.of_nat k - 1 + 1) with (Z.of_nat (S k) - 1) by lia. apply IH. lia.
Qed.

Lemma yields_ArrayIterator1 arr : yields (ArrayIterator1 arr) (state (ArrayIterator1 arr)) arr.
Proof. apply (yields_ArrayIterator arr None (-1) 0). Qed.

Lemma realize_loop_set_state it s0 fuel s output :
  realize_loop (set_state it s0) fuel s output = realize_loop it fuel s output.
Proof.
  revert s output. induction fuel as [|fuel IH]; intros s output; [done|].
  cbn [realize_loop]. change (step (set_state it s0)) with (step it).
  change (current (set_state it s0)) with (current it).
  destruct (step it s) as [[[] s']|e]; cbn; [|done..].
  destruct (current it s') as [v|e]; cbn; [|done]. apply IH.
Qed.

Lemma count_loop_set_state it s0 fuel s total :
  count_loop (set_state it s0) fuel s total = count_loop it fuel s total.
Proof.
  revert s total. induction fuel as [|fuel IH]; intros s total; [done|].
  cbn [count_loop]. change (step (set_state it s0)) with (step it).
  destruct (step it s) as [[[] s']|e]; cbn; [|done..]. apply IH.
Qed.

Lemma last_loop_set_state it s0 fuel s v :
  last_loop (set_state it s0) fuel s v = last_loop it fuel s v.
Proof.
  revert s v. induction fuel as [|fuel IH]; intros s v; [done|].
  cbn [last_loop]. change (step (set_state it s0)) with (step it).
  change (current (set_state it s0)) with (current it).
  destruct (step it s) as [[[] s']|e]; cbn; [|done..].
  destruct (current it s') as [v'|e]; cbn; [|done]. apply IH.
Qed.
(** *** C5: first, last and the unseeded aggregate on an empty sequence *)

(** Proves [evals W m r] when [r] is [m] with the heap erased: the same
    binds over the results of the producers. *)
Ltac evals_auto :=
  repeat first
    [ assumption
    | apply evals_ret
    | apply evals_lift
    | apply evals_bind; [|first [intros ? [= <-] | intros ? _]]
    | match goal with |- evals _ (match ?x with _ => _ end) _ => destruct x end
    | match goal with |- evals _ (if ?x then _ else _) _ => destruct x end ].

Lemma Series_first_evals W self r :
  evals W (Series.getIterator self) r ->
  evals W (Series.first self)
    (it ← r; '(b, it) ← moveNext it;
     if b : bool then getCurrent it else Err (JsError "No rows in series.")).
Proof. intros. unfold Series.first. evals_auto. Qed.

Lemma Series_last_evals W self r :
  evals W (Series.getIterator self) r ->
  evals W (Series.last self)
    (it ← r; '(b, it) ← moveNext it;
     if b : bool then
       last ← getCurrent it;
       last_loop it (S (bound it (state it))) (state it) last
     else Err (JsError "No rows in series.")).
Proof. intros. unfold Series.last. evals_auto. Qed.

Lemma Series_toValues_evals W self r :
  evals W (Series.getIterator self) r ->
  evals W (Series.toValues self) (it ← r; realize it).
Proof. intros. unfold Series.toValues. evals_auto. Qed.

Lemma DataFrame_first_evals W self r names :
  evals W (DataFrame.getIterator self) r ->
  evals W (DataFrame.getColumnNames self) names ->
  evals W (DataFrame.first self)
    (it ← r; '(b, it) ← moveNext it;
     if b : bool then row ← getCurrent it; columnNames ← names; Ok (mapRow columnNames row)
     else Err (JsError "No rows in data-frame.")).
Proof. intros. unfold DataFrame.first, DataFrame.mapRowByColumns. evals_auto. Qed.

Lemma DataFrame_last_evals W self r names :
  evals W (DataFrame.getIterator self) r ->
  evals W (DataFrame.getColumnNames self) names ->
  evals W (DataFrame.last self)
    (it ← r; '(b, it) ← moveNext it;
     if b : bool then
       last ← getCurrent it;
       last ← last_loop it (S (bound it (state it))) (state it) last;
       columnNames ← names; Ok (mapRow columnNames last)
     else Err (JsError "No rows in data-frame.")).
Proof. intros. unfold DataFrame.last, DataFrame.mapRowByColumns. evals_auto. Qed.

Lemma yields_first {B} it l (msg : string) (k : value -> res B) :
  yields it (state it) l ->
  ('(b, it') ← moveNext it;
   if b : bool then v ← getCurrent it'; k v else Err (JsError msg))
  = match head l with Some v => k v | None => Err (JsError msg) end.
Proof.
  intros Hy. unfold moveNext, getCurrent.
  inversion Hy as [s s' Hstep _|s s' v l' Hstep Hcur _ _]; subst; rewrite Hstep; cbn; [done|].
  by rewrite Hcur.
Qed.

Lemma yields_last {B} it l (msg : string) (k : value -> res B) :
  yields it (state it) l ->
  ('(b, it') ← moveNext it;
   if b : bool then
     v ← getCurrent it';
     v' ← last_loop it' (S (bound it' (state it'))) (state it') v;
     k v'
   else Err (JsError msg))
  = match last l with Some v => k v | None => Err (JsError msg) end.
Proof.
  intros Hy. unfold moveNext, getCurrent.
  inversion Hy as [s s' Hstep _|s s' v l' Hstep Hcur _ Hy']; subst; rewrite Hstep;
    cbn -[last_loop]; [done|].
  rewrite Hcur. cbn -[last_loop]. rewrite last_loop_set_state.
  rewrite (last_loop_yields it s' l' Hy') by (pose proof (yields_bound _ _ _ Hy'); lia).
  rewrite last_cons. by destruct (last l').
Qed.

Lemma res_bind_Ok {A} (r : res A) : (a ← r; Ok a) = r.
Proof. by destruct r. Qed.

Lemma realize_SkipIterator_empty it n :
  yields it (state it) [] -> realize (SkipIterator it n) = Ok [].
Proof.
  intros Hy. inversion Hy as [s s' Hstep Hex|]; subst.
  destruct (exhausted_step _ _ Hex) as (s'' & Hstep' & _).
  unfold realize. cbn [realize_loop SkipIterator state step St].
  destruct (Z.to_nat n) as [|k]; cbn [skip_loop].
  - cbn. by rewrite Hstep.
  - rewrite Hstep. cbn. by rewrite Hstep'.
Qed.

(** C5.  [first] and [last] of a series and of a data frame raise
    exactly when the cursor yields nothing; on a cursor that yields [l]
    they return the first and the last element of [l], mapped to the
    column-keyed row object for a data frame.  [aggregate] with a single
    function on an empty series raises the error of [first]. *)
Theorem first_last_EmptySequence :
  (forall W (self : Series) it l,
      evals W (Series.getIterator self) (Ok it) -> yields it (state it) l ->
      evals W (Series.first self)
        (match head l with Some v => Ok v | None => Err (JsError "No rows in series.") end) /\
      evals W (Series.last self)
        (match last l with Some v => Ok v | None => Err (JsError "No rows in series.") end) /\
      (l = [] -> forall selector,
          evals W (Series.aggregate1 self selector) (Err (JsError "No rows in series.")))) /\
  (forall W (self : DataFrame) it names l,
      evals W (DataFrame.getIterator self) (Ok it) ->
      evals W (DataFrame.getColumnNames self) (Ok names) ->
      yields it (state it) l ->
      evals W (DataFrame.first self)
        (match head l with
         | Some row => Ok (mapRow names row)
         | None => Err (JsError "No rows in data-frame.")
         end) /\
      evals W (DataFrame.last self)
        (match last l with
         | Some row => Ok (mapRow names row)
         | None => Err (JsError "No rows in data-frame.")
         end)).
Proof.
  split.
  - intros W self it l Hit Hy.
    assert (Hfirst : evals W (Series.first self)
      (match head l with Some v => Ok v | None => Err (JsError "No rows in series.") end)).
    { eapply evals_eq; [|apply (Series_first_evals _ _ _ Hit)].
      rewrite <- (yields_first it l _ Ok Hy). cbn.
      destruct (moveNext it) as [[[] it']|e]; cbn; [|done..]. by rewrite res_bind_Ok. }
    split; [done|]. split.
    + eapply evals_eq; [|apply (Series_last_evals _ _ _ Hit)].
      rewrite <- (yields_last it l _ Ok Hy). cbn -[last_loop].
      destruct (moveNext it) as [[[] it']|e]; cbn -[last_loop]; [|done..].
      destruct (getCurrent it') as [v|e]; cbn -[last_loop]; [|done].
      by rewrite res_bind_Ok.
    + intros -> selector.
      assert (Hrest : evals W (Series.toValues
                (mkSeries (it ← Series.getIterator self; mret (SkipIterator it 1))
                          (Index.skip (Series.getIndex self) 1))) (Ok [])).
      { eapply evals_eq; [|apply Series_toValues_evals].
        2:{ unfold Series.getIterator at 1. cbn [Series_iterable].
            apply evals_bind; [exact Hit|intros ? _; apply evals_ret]. }
        cbn. apply (realize_SkipIterator_empty it 1 Hy). }
      unfold Series.aggregate1, Series.skip, Series.new. cbn [cfg_values cfg_index].
      apply (evals_eq _ _
        (rest ← Ok (mkSeries (it ← Series.getIterator self; mret (SkipIterator it 1))
                             (Index.skip (Series.getIndex self) 1));
         values ← Ok [];
         seed ← Err (JsError "No rows in series.");
         Ok (fold_left selector values seed))); [done|].
      evals_auto.
  - intros W self it names l Hit Hnames Hy. split.
    + eapply evals_eq; [|apply (DataFrame_first_evals _ _ _ _ Hit Hnames)].
      rewrite <- (yields_first it l _ (fun row => Ok (mapRow names row)) Hy). done.
    + eapply evals_eq; [|apply (DataFrame_last_evals _ _ _ _ Hit Hnames)].
      rewrite <- (yields_last it l _ (fun row => Ok (mapRow names row)) Hy). done.
Qed.

Lemma first_last_EmptySequence_witness :
  evals [] (Series.first (mkSeries (mret (ArrayIterator1 [VNum 4; VNum 9])) (Index.new (inl []))))
    (Ok (VNum 4)) /\
  evals [] (Series.first (mkSeries (mret (ArrayIterator1 [])) (Index.new (inl []))))
    (Err (JsError "No rows in series.")) /\
  evals [] (DataFrame.last
              (mkDataFrame (NamesArray ["n"])
                 (mret (ArrayIterator1 [VArr [VNum 1]; VArr [VNum 2]]))))
    (Ok (VObj [("n", VNum 2)])).
Proof.
  split; [|split].
  - exact (proj1 (proj1 first_last_EmptySequence []
                    (mkSeries (mret (ArrayIterator1 [VNum 4; VNum 9])) (Index.new (inl [])))
                    (ArrayIterator1 [VNum 4; VNum 9]) [VNum 4; VNum 9]
                    (evals_ret _ _) (yields_ArrayIterator1 _))).
  - exact (proj1 (proj1 first_last_EmptySequence []
                    (mkSeries (mret (ArrayIterator1 [])) (Index.new (inl [])))
                    (ArrayIterator1 []) []
                    (evals_ret _ _) (yields_ArrayIterator1 _))).
  - exact (proj2 (proj2 first_last_EmptySequence []
                    (mkDataFrame (NamesArray ["n"])
                       (mret (ArrayIterator1 [VArr [VNum 1]; VArr [VNum 2]])))
                    (ArrayIterator1 [VArr [VNum 1]; VArr [VNum 2]]) ["n"]
                    [VArr [VNum 1]; VArr [VNum 2]]
                    (evals_ret _ _) (evals_ret _ _) (yields_ArrayIterator1 _))).
Defined.

Lemma evals_bind_Err {A B} W (m : M A) (f : A -> M B) e :
  evals W m (Err e) -> evals W (m ≫= f) (Err e).
Proof.
  intros Hm. apply (evals_eq _ _ (@Err A e ≫= fun _ : A => @Err B e)); [done|].
  apply evals_bind; [done|]. intros ? [=].
Qed.

(** *** C6: column lookup and the callers that require the column *)

Lemma getColumnIndex_loop_spec (columnName : string) (columnNames : list string) (i0 : Z) :
  let i := DataFrame.getColumnIndex_loop columnName columnNames i0 in
  0 <= i0 ->
  (i = -1 /\ columnName ∉ columnNames) \/
  (i0 <= i /\ columnNames !! Z.to_nat (i - i0) = Some columnName /\
   forall j, (j < Z.to_nat (i - i0))%nat -> columnNames !! j <> Some columnName).
Proof.
  revert i0. induction columnNames as [|name rest IH]; intros i0; cbn; intros Hi0.
  - left. split; [done|]. apply not_elem_of_nil.
  - destruct (String.eqb_spec columnName name) as [->|Hne].
    + right. split; [lia|]. rewrite Z.sub_diag. split; [done|]. intros j Hj. cbn in Hj. lia.
    + destruct (IH (i0 + 1) ltac:(lia)) as [[Hm Hnot]|(Hle & Hat & Hbefore)].
      * left. split; [done|]. rewrite not_elem_of_cons. done.
      * right. split; [lia|].
        replace (Z.to_nat (DataFrame.getColumnIndex_loop columnName rest (i0 + 1) - i0))
          with (S (Z.to_nat (DataFrame.getColumnIndex_loop columnName rest (i0 + 1) - (i0 + 1))))
          by lia.
        split; [done|]. intros [|j] Hj; cbn; [congruence|]. apply Hbefore. lia.
Qed.

(** C6.  [getColumnIndex(name)] returns the position of the first
    column named [name], counted from 0, and [-1] without raising when
    there is none; [expectSeries] and [getSeries] given a column name
    raise exactly when that index is negative, and otherwise succeed,
    [expectSeries] returning the data frame itself. *)
Theorem getColumnIndex_MissingColumn W (self : DataFrame) (columnNames : list string)
    (columnName : string) :
  evals W (DataFrame.getColumnNames self) (Ok columnNames) ->
  exists i : Z,
    evals W (DataFrame.getColumnIndex self columnName) (Ok i) /\
    ((i = -1 /\ columnName ∉ columnNames) \/
     (0 <= i /\ columnNames !! Z.to_nat i = Some columnName /\
      forall j, (j < Z.to_nat i)%nat -> columnNames !! j <> Some columnName)) /\
    (i < 0 ->
     evals W (DataFrame.expectSeries self (VStr columnName))
       (Err (JsError ("Failed to find column with name '" ++ columnName ++ "'."))) /\
     evals W (DataFrame.getSeries self (VStr columnName))
       (Err (JsError ("Failed to find column with name '" ++ columnName ++ "'.")))) /\
    (0 <= i ->
     evals W (DataFrame.expectSeries self (VStr columnName)) (Ok self) /\
     exists series, evals W (DataFrame.getSeries self (VStr columnName)) (Ok series)).
Proof.
  intros Hnames. exists (DataFrame.getColumnIndex_loop columnName columnNames 0).
  pose proof (getColumnIndex_loop_spec columnName columnNames 0 ltac:(lia)) as Hspec.
  cbn zeta in Hspec. rewrite Z.sub_0_r in Hspec.
  assert (Hidx : evals W (DataFrame.getColumnIndex self columnName)
                   (Ok (DataFrame.getColumnIndex_loop columnName columnNames 0))).
  { unfold DataFrame.getColumnIndex.
    apply (evals_eq _ _ (names ← Ok columnNames;
                         Ok (DataFrame.getColumnIndex_loop columnName names 0))); [done|].
    evals_auto. }
  assert (Hparse : evals W (DataFrame.parseColumnNameOrIndex self (VStr columnName) true)
     (if DataFrame.getColumnIndex_loop columnName columnNames 0 <? 0
      then Err (JsError ("Failed to find column with name '" ++ columnName ++ "'."))
      else Ok (DataFrame.getColumnIndex_loop columnName columnNames 0))).
  { unfold DataFrame.parseColumnNameOrIndex.
    apply (evals_eq _ _
      (columnIndex ← Ok (DataFrame.getColumnIndex_loop columnName columnNames 0);
       if true && (columnIndex <? 0)
       then Err (JsError ("Failed to find column with name '" ++ columnName ++ "'."))
       else Ok columnIndex)); [done|].
    evals_auto. }
  split; [done|]. split; [exact Hspec|]. split.
  - intros Hneg.
    destruct (Z.ltb_spec (DataFrame.getColumnIndex_loop columnName columnNames 0) 0); [|lia].
    split.
    + unfold DataFrame.expectSeries. by apply evals_bind_Err.
    + unfold DataFrame.getSeries. by apply evals_bind_Err.
  - intros Hpos.
    destruct (Z.ltb_spec (DataFrame.getColumnIndex_loop columnName columnNames 0) 0); [lia|].
    split.
    + unfold DataFrame.expectSeries.
      apply (evals_eq _ _
        (_ ← Ok (DataFrame.getColumnIndex_loop columnName columnNames 0); Ok self)); [done|].
      evals_auto.
    + eexists. unfold DataFrame.getSeries, Series.new. cbn [cfg_values cfg_index].
      eapply (evals_eq _ _
        (columnIndex ← Ok (DataFrame.getColumnIndex_loop columnName columnNames 0);
         Ok _)); [done|].
      evals_auto.
Qed.

Lemma getColumnIndex_MissingColumn_witness :
  exists i : Z,
    evals [] (DataFrame.getColumnIndex
                (mkDataFrame (NamesArray ["n"; "s"]) (mret (ArrayIterator1 []))) "s") (Ok i) /\
    ((i = -1 /\ "s" ∉ ["n"; "s"]) \/
     (0 <= i /\ ["n"; "s"] !! Z.to_nat i = Some "s" /\
      forall j, (j < Z.to_nat i)%nat -> ["n"; "s"] !! j <> Some "s")).
Proof.
  destruct (getColumnIndex_MissingColumn []
              (mkDataFrame (NamesArray ["n"; "s"]) (mret (ArrayIterator1 []))) ["n"; "s"] "s"
              (evals_ret _ _)) as (i & Hi & Hspec & _).
  exists i. split; [exact Hi | exact Hspec].
Defined.

(** *** C2: the cursor of [dataForge.range] outside its valid window *)

(** C2 fails on the code.  Before the first [moveNext] the cursor of
    [dataForge.range(start, count)] answers [start - 1] to [getCurrent],
    where the claim asks for [undefined], and raises on
    [getCurrentIndex], which it does not define; after the [moveNext]
    that returned [false], [getCurrent] of [range(5, 3)] is [8]. *)
Theorem range_cursor_outside_window :
  (forall start count : Z,
      exists series it,
        range start count = Ok series /\
        evals [] (Series.getIterator series) (Ok it) /\
        getCurrent it = Ok (VNum (start - 1)) /\
        getCurrentIndex it = Err (TypeError "iterator.getCurrentIndex is not a function")) /\
  (exists it',
      moveNext_n 4 (RangeCursor 5 3) = Ok ([true; true; true; false], it') /\
      getCurrent it' = Ok (VNum 8) /\
      getCurrentIndex it' = Err (TypeError "iterator.getCurrentIndex is not a function")).
Proof.
  split.
  - intros start count. eexists _, (RangeCursor start count).
    split; [reflexivity|]. split; [apply evals_ret|]. split; [|done].
    reflexivity.
  - eexists. split; [reflexivity|]. split; reflexivity.
Qed.

(** *** C1: the labels of [DataFrame.selectMany] *)

(** C1 fails on the code for [DataFrame.selectMany].  On the frame with
    rows [[1, "a"]] and [[2, "b"]] (labels 0 and 1) the selector
    [one_or_two] replaces the first row by one row and the second by
    two, so the derived values come from the rows labelled 0, 1, 1.
    The index producer applies the selector to the row as an array,
    where [row.n] is undefined, and counts two replacements per row:
    the derived labels are 0, 0, 1, and the second derived value,
    produced by the row labelled 1, carries the label 0. *)
Theorem DataFrame_selectMany_labels :
  run (self ← scenario_frame;
       derived ← DataFrame.selectMany self one_or_two;
       values ← DataFrame.toValues derived;
       labels ← Index.toValues (DataFrame.getIndex derived);
       mret (values, labels))
  = Ok ([VArr [VNum 1]; VArr [VNum 2]; VArr [VNum 2]], [VNum 0; VNum 0; VNum 1]).
Proof. vm_compute. reflexivity. Qed.

(** *** Memo cells *)

(** The world after [new_cell] on a heap that fits [W]: the cells of
    the heap that [W] does not list are left free, the new cell is
    expected to behave as [e]. *)
Lemma sat_new_cell W h e :
  sat W h ->
  sat (W ++ replicate (length h - length W) Any ++ [e]) (h ++ [None]) /\
  (W ++ replicate (length h - length W) Any ++ [e]) !! length h = Some e /\
  length (W ++ replicate (length h - length W) Any ++ [e]) = S (length h) /\
  W `prefix_of` W ++ replicate (length h - length W) Any ++ [e].
Proof.
  intros [Hlen Hcells].
  assert (Hl : length (W ++ replicate (length h - length W) Any) = length h).
  { rewrite length_app, length_replicate. lia. }
  split; [|split; [|split]].
  - split.
    + rewrite !length_app, length_replicate. simpl. lia.
    + intros l x Hx. rewrite app_assoc in Hx.
      destruct (decide (l < length h)%nat) as [Hlt|Hge].
      * rewrite lookup_app_l in Hx by lia. rewrite lookup_app_l by done.
        destruct (decide (l < length W)%nat) as [HltW|HgeW].
        -- rewrite lookup_app_l in Hx by done. by apply Hcells.
        -- rewrite lookup_app_r in Hx by lia.
           apply lookup_replicate in Hx as [-> _].
           destruct (lookup_lt_is_Some_2 h l Hlt) as [o Ho]. by exists o.
      * rewrite lookup_app_r in Hx by lia. rewrite Hl in Hx.
        destruct (l - length h)%nat as [|k] eqn:Hk; [|by destruct k].
        injection Hx as <-. assert (l = length h) as -> by lia.
        exists None. split; [|by destruct e; cbn; auto].
        rewrite lookup_app_r by lia. by rewrite Nat.sub_diag.
  - rewrite app_assoc, lookup_app_r by lia. by rewrite Hl, Nat.sub_diag.
  - rewrite app_assoc, length_app, Hl. simpl. lia.
  - by eexists.
Qed.

(** A cell that memoizes the result of [m]: [memo c m] is the common
    shape of [executeLazySort], [executeLazyWhere], [lazyEvaluate] and
    the evaluation of lazy column names. *)
Lemma evals_memo {A} W (c : nat) (m : M A) (r : res A) (wrap : A -> cell)
    (unwrap : option cell -> option A) :
  (forall a, unwrap (Some (wrap a)) = Some a) -> unwrap None = None ->
  evals W m r ->
  W !! c = Some (match r with Ok a => Filled (wrap a) | Err _ => Empty end) ->
  evals W (o ← read_cell c;
           match unwrap o with
           | Some a => mret a
           | None => a ← m; _ ← write_cell c (wrap a); mret a
           end) r.
Proof.
  intros Hwrap Hnone Hm Hc h Hs.
  destruct (proj2 Hs c _ Hc) as (o & Ho & Hok).
  assert (Hread : read_cell c h = Ok (o, h)).
  { unfold read_cell. by rewrite Ho. }
  assert (Hrun : forall k : option cell -> M A,
             (read_cell c ≫= k) h = k o h).
  { intros k. unfold mbind, M_bind. by rewrite Hread. }
  rewrite Hrun. specialize (Hm h Hs).
  destruct r as [a|e].
  - destruct Hok as [->| ->].
    + rewrite Hnone. destruct Hm as (h' & Hmh & Hs' & Hlen & Hframe).
      exists (<[c := Some (wrap a)]> h').
      assert (Hgo : (m ≫= (fun a => write_cell c (wrap a) ≫= fun _ => mret a)) h
                    = Ok (a, <[c := Some (wrap a)]> h')).
      { unfold mbind, M_bind. rewrite Hmh. done. }
      split; [exact Hgo|]. split; [|split].
      * destruct Hs' as [HlenW Hcells]. split; [by rewrite length_insert|].
        intros l x Hx. destruct (decide (l = c)) as [->|Hne].
        -- rewrite Hc in Hx. injection Hx as <-.
           exists (Some (wrap a)). split; [|by right].
           apply list_lookup_insert_eq. apply lookup_lt_Some in Hc. lia.
        -- rewrite list_lookup_insert_ne by done. by apply Hcells.
      * rewrite length_insert. done.
      * intros l Hl. apply lookup_lt_Some in Hc.
        rewrite list_lookup_insert_ne by lia. by apply Hframe.
    + rewrite Hwrap. exists h. done.
  - cbn in Hok. subst o. rewrite Hnone.
    unfold mbind, M_bind. by rewrite Hm.
Qed.

Lemma evalColumnNames_evals W (c : nat) (fn : M (list string)) (r : res (list string)) :
  evals W fn r ->
  W !! c = Some (match r with Ok names => Filled (CNames names) | Err _ => Empty end) ->
  evals W (DataFrame.evalColumnNames (NamesFunction fn c)) r.
Proof.
  intros Hfn Hc.
  pose proof (evals_memo W c fn r CNames
    (fun o => match o with Some (CNames names) => Some names | _ => None end)
    ltac:(done) ltac:(done) Hfn Hc) as Hmemo.
  intros h Hs. specialize (Hmemo h Hs).
  assert (Heq : DataFrame.evalColumnNames (NamesFunction fn c) h =
    (o ← read_cell c;
     match match o with Some (CNames names) => Some names | _ => None end with
     | Some a => mret a
     | None => a ← fn; _ ← write_cell c (CNames a); mret a
     end) h).
  { unfold DataFrame.evalColumnNames, mbind, M_bind, read_cell.
    destruct (mjoin (h !! c)) as [[]|]; done. }
  by rewrite Heq.
Qed.

(** *** Combinators on cursors that yield a sequence *)

Lemma exhausted_SelectIterator it f s :
  exhausted it s -> exhausted (SelectIterator it f) s.
Proof. intros (P & Hs & HP). by exists P. Qed.

Lemma yields_SelectIterator it (f : value -> res value) (g : value -> value) s l :
  yields it s l -> (forall v, v ∈ l -> f v = Ok (g v)) ->
  yields (SelectIterator it f) s (map g l).
Proof.
  induction 1 as [s s' Hstep Hex|s s' v l Hstep Hcur Hb _ IH]; intros Hf; cbn [map].
  - eapply yields_end; [exact Hstep|]. by apply exhausted_SelectIterator.
  - eapply yields_next.
    + exact Hstep.
    + cbn. rewrite Hcur. cbn. apply Hf. by left.
    + by rewrite length_map.
    + apply IH. intros v' Hv'. apply Hf. by right.
Qed.

(** *** C10: inference of the column names *)

Lemma elem_of_distinct_from (seen l : list string) (x : string) :
  x ∈ distinct_from seen l <-> x ∈ l /\ x ∉ seen.
Proof.
  revert seen. induction l as [|y l IH]; intros seen; cbn.
  - split; [by intros ?%elem_of_nil | by intros [?%elem_of_nil _]].
  - case_bool_decide as Hy.
    + rewrite IH, elem_of_cons. split; [naive_solver|].
      intros [[->|Hx] Hnot]; [done|]. done.
    + rewrite !elem_of_cons, IH, elem_of_cons. split.
      * intros [->|[Hx Hnot]]; [by split; [left|]|]. split; [by right|]. naive_solver.
      * intros [[->|Hx] Hnot]; [by left|].
        destruct (decide (x = y)) as [->|Hne]; [by left|]. right. naive_solver.
Qed.

Lemma NoDup_distinct_from (seen l : list string) : NoDup (distinct_from seen l).
Proof.
  revert seen. induction l as [|y l IH]; intros seen; cbn; [constructor|].
  case_bool_decide as Hy; [apply IH|].
  constructor; [|apply IH]. rewrite elem_of_distinct_from, elem_of_cons. naive_solver.
Qed.

Lemma first_occurrence (l : list string) (x : string) :
  x ∈ l -> exists p, l !! p = Some x /\ x ∉ take p l.
Proof.
  induction l as [|y l IH]; [by intros ?%elem_of_nil|].
  intros Hx. destruct (decide (x = y)) as [->|Hne].
  - exists O. split; [done|]. cbn. apply not_elem_of_nil.
  - apply elem_of_cons in Hx as [?|Hx]; [done|].
    destruct (IH Hx) as (p & Hp & Hnot). exists (S p). split; [done|].
    cbn. rewrite elem_of_cons. naive_solver.
Qed.

Lemma distinct_from_order (seen l : list string) (i j : nat) (ki kj : string) :
  distinct_from seen l !! i = Some ki -> distinct_from seen l !! j = Some kj -> (i < j)%nat ->
  exists p q, (p < q)%nat /\ l !! p = Some ki /\ (ki ∉ take p l) /\
              l !! q = Some kj /\ (kj ∉ take q l).
Proof.
  revert seen i j. induction l as [|y l IH]; intros seen i j; cbn; [done|].
  case_bool_decide as Hy.
  - intros Hi Hj Hij. destruct (IH _ _ _ Hi Hj Hij) as (p & q & Hpq & Hp & Hnp & Hq & Hnq).
    exists (S p), (S q). cbn. rewrite !elem_of_cons.
    apply list_elem_of_lookup_2 in Hi, Hj. rewrite elem_of_distinct_from in Hi, Hj.
    repeat split; [lia|done|naive_solver|done|naive_solver].
  - destruct i as [|i], j as [|j]; cbn; intros Hi Hj Hij; try lia.
    + injection Hi as <-.
      apply list_elem_of_lookup_2 in Hj. rewrite elem_of_distinct_from, elem_of_cons in Hj.
      destruct Hj as [Hj Hnot]. destruct (first_occurrence _ _ Hj) as (q & Hq & Hnq).
      exists O, (S q). cbn. rewrite elem_of_cons.
      repeat split; [lia|apply not_elem_of_nil|done|naive_solver].
    + destruct (IH _ _ _ Hi Hj ltac:(lia)) as (p & q & Hpq & Hp & Hnp & Hq & Hnq).
      exists (S p), (S q). cbn. rewrite !elem_of_cons.
      apply list_elem_of_lookup_2 in Hi, Hj.
      rewrite elem_of_distinct_from, elem_of_cons in Hi, Hj.
      repeat split; [lia|done|naive_solver|done|naive_solver].
Qed.

Lemma res_mapM_Object_keys (fieldss : list (list (string * value))) :
  res_mapM Object_keys (map VObj fieldss) = Ok (map (map fst) fieldss).
Proof. induction fieldss as [|f fs IH]; cbn; [done|]. by rewrite IH. Qed.

Lemma res_mapM_Ok {A B} (f : A -> res B) (g : A -> B) (l : list A) :
  (forall x, x ∈ l -> f x = Ok (g x)) -> res_mapM f l = Ok (map g l).
Proof.
  induction l as [|x l IH]; intros Hf; cbn; [done|].
  rewrite Hf by (by left). cbn. rewrite IH; [done|]. intros y Hy. apply Hf. by right.
Qed.

Lemma pickColumns_VObj (names : list string) (fields : list (string * value)) :
  pickColumns names (VObj fields)
  = Ok (VArr (map (fun k => default VUndefined (lookup_field k fields)) names)).
Proof. unfold pickColumns. by rewrite (res_mapM_Ok _ (fun k => default VUndefined (lookup_field k fields))). Qed.

Lemma determineColumnNames_evals W (fn : M iterator) it (fieldss : list (list (string * value))) :
  evals W fn (Ok it) -> yields it (state it) (map VObj fieldss) ->
  evals W (DataFrame.determineColumnNames fn) (Ok (map fst (default [] (head fieldss)))).
Proof.
  intros Hfn Hy. unfold DataFrame.determineColumnNames.
  eapply (evals_eq _ _
    (it ← Ok it; '(b, it) ← moveNext it;
     if b : bool then row ← getCurrent it; Object_keys row else Ok [])); [|evals_auto].
  change (Ok it ≫= ?f) with (f it). cbn beta. unfold moveNext, getCurrent.
  destruct fieldss as [|f fs]; inversion Hy as [s s' Hstep _|s s' v l' Hstep Hcur _ _];
    subst; rewrite Hstep; cbn; [done|]. by rewrite Hcur.
Qed.

(** C10.  Without explicit column names, a data frame built from an
    array of row objects has as column names the distinct field names
    of all its rows, in the order of their first appearance; a data
    frame built from a producer function has the field names of the
    first row the producer yields (none when it yields nothing), and
    every realized row holds the cells of those columns only. *)
Theorem DataFrame_columnNames_inference (W : world) (h : heap)
    (fieldss : list (list (string * value))) :
  sat W h ->
  (* an array of row objects *)
  (exists df h' W',
      DataFrame.new (Some {| df_columnNames := None;
                             df_rows := Some (inl (map VObj fieldss));
                             df_index := None |}) h = Ok (df, h') /\
      sat W' h' /\ W `prefix_of` W' /\
      let names := distinct (concat (map (map fst) fieldss)) in
      evals W' (DataFrame.getColumnNames df) (Ok names) /\
      NoDup names /\
      (forall k, k ∈ names <-> exists fields, fields ∈ fieldss /\ k ∈ map fst fields) /\
      (forall i j ki kj, names !! i = Some ki -> names !! j = Some kj -> (i < j)%nat ->
         exists p q, (p < q)%nat /\
           concat (map (map fst) fieldss) !! p = Some ki /\
           (ki ∉ take p (concat (map (map fst) fieldss))) /\
           concat (map (map fst) fieldss) !! q = Some kj /\
           (kj ∉ take q (concat (map (map fst) fieldss))))) /\
  (* a producer function *)
  (forall (fn : M iterator) (it : iterator),
      evals W fn (Ok it) -> yields it (state it) (map VObj fieldss) ->
      exists df h' W',
        DataFrame.new (Some {| df_columnNames := None;
                               df_rows := Some (inr fn);
                               df_index := None |}) h = Ok (df, h') /\
        sat W' h' /\ W `prefix_of` W' /\
        let names := map fst (default [] (head fieldss)) in
        evals W' (DataFrame.getColumnNames df) (Ok names) /\
        evals W' (DataFrame.toValues df)
          (Ok (map (fun fields =>
                      VArr (map (fun k => default VUndefined (lookup_field k fields)) names))
                   fieldss))).
Proof.
  intros Hs. split.
  - destruct fieldss as [|fields0 fieldss'].
    + exists (mkDataFrame (NamesArray []) (mret (ArrayIterator1 []))), h, W.
      split; [done|]. split; [done|]. split; [done|]. cbn zeta.
      split; [apply evals_ret|]. split; [constructor|]. split.
      * intros k. split; [by intros ?%elem_of_nil|]. by intros (? & ?%elem_of_nil & _).
      * intros i j ki kj Hi. done.
    + set (fieldss := fields0 :: fieldss').
      set (names := distinct (concat (map (map fst) fieldss))).
      destruct (sat_new_cell W h (Filled (CNames names)) Hs) as (Hs' & Hc & Hlen & Hpre).
      exists (mkDataFrame
                (NamesFunction
                   (lift (keys ← res_mapM Object_keys (map VObj fieldss);
                          Ok (distinct (concat keys))))
                   (length h))
                (names ← DataFrame.evalColumnNames
                           (NamesFunction
                              (lift (keys ← res_mapM Object_keys (map VObj fieldss);
                                     Ok (distinct (concat keys))))
                              (length h));
                 mret (SelectIterator (ArrayIterator1 (map VObj fieldss)) (pickColumns names)))),
        (h ++ [None]), (W ++ replicate (length h - length W) Any ++ [Filled (CNames names)]).
      split; [reflexivity|]. split; [exact Hs'|]. split; [exact Hpre|]. cbn zeta.
      split; [|split; [|split]].
      * unfold DataFrame.getColumnNames. cbn [DataFrame_columnNames].
        apply evalColumnNames_evals; [|exact Hc].
        eapply evals_eq; [|apply evals_lift]. by rewrite res_mapM_Object_keys.
      * apply NoDup_distinct_from.
      * intros k. unfold names, distinct. rewrite elem_of_distinct_from.
        rewrite list_elem_of_In, in_concat. split.
        -- intros [(ks & Hks & Hk) _]. apply in_map_iff in Hks as (fields & <- & Hin).
           exists fields. by rewrite !list_elem_of_In.
        -- intros (fields & Hin & Hk). split; [|apply not_elem_of_nil].
           exists (map fst fields). rewrite <- !list_elem_of_In. split; [|done].
           by apply list_elem_of_fmap_2.
      * intros i j ki kj. apply distinct_from_order.
  - intros fn it Hfn Hy.
    set (names := map fst (default [] (head fieldss))).
    destruct (sat_new_cell W h (Filled (CNames names)) Hs) as (Hs' & Hc & Hlen & Hpre).
    exists (mkDataFrame
              (NamesFunction (DataFrame.determineColumnNames fn) (length h))
              (columnNames ← DataFrame.determineColumnNames fn;
               it ← fn;
               mret (SelectIterator it (pickColumns columnNames)))),
      (h ++ [None]), (W ++ replicate (length h - length W) Any ++ [Filled (CNames names)]).
    split; [reflexivity|]. split; [exact Hs'|]. split; [exact Hpre|]. cbn zeta.
    pose proof (evals_prefix _ _ _ _ Hpre Hfn) as Hfn'.
    pose proof (determineColumnNames_evals _ _ _ _ Hfn' Hy) as Hdet.
    split.
    + unfold DataFrame.getColumnNames. cbn [DataFrame_columnNames].
      by apply evalColumnNames_evals.
    + unfold DataFrame.toValues, DataFrame.getIterator. cbn [DataFrame_iterable default].
      eapply (evals_eq _ _
        (it' ← (columnNames ← Ok names; it ← Ok it;
                Ok (SelectIterator it (pickColumns columnNames)));
         realize it')); [|evals_auto].
      cbn -[realize]. apply realize_yields.
      rewrite <- (map_map VObj (fun row => match row with
        | VObj fields => VArr (map (fun k => default VUndefined (lookup_field k fields)) names)
        | _ => VUndefined end)).
      apply yields_SelectIterator; [exact Hy|].
      intros v (fields & -> & _)%list_elem_of_fmap. apply pickColumns_VObj.
Qed.

Lemma DataFrame_columnNames_inference_witness :
  (exists df h' W',
      DataFrame.new (Some {| df_columnNames := None;
                             df_rows := Some (inl [VObj [("a", VNum 1)];
                                                   VObj [("a", VNum 2); ("b", VNum 3)]]);
                             df_index := None |}) [] = Ok (df, h') /\
      evals W' (DataFrame.getColumnNames df) (Ok ["a"; "b"])) /\
  (exists df h' W',
      DataFrame.new (Some {| df_columnNames := None;
                             df_rows := Some (inr (mret (ArrayIterator1
                                                  [VObj [("a", VNum 1)];
                                                   VObj [("a", VNum 2); ("b", VNum 3)]])));
                             df_index := None |}) [] = Ok (df, h') /\
      evals W' (DataFrame.getColumnNames df) (Ok ["a"]) /\
      evals W' (DataFrame.toValues df) (Ok [VArr [VNum 1]; VArr [VNum 2]])).
Proof.
  destruct (DataFrame_columnNames_inference [] []
              [[("a", VNum 1)]; [("a", VNum 2); ("b", VNum 3)]] (sat_nil [])) as [Ha Hb].
  split.
  - destruct Ha as (df & h' & W' & Hnew & _ & _ & Hnames & _).
    exists df, h', W'. split; [exact Hnew | exact Hnames].
  - destruct (Hb (mret (ArrayIterator1 [VObj [("a", VNum 1)];
                                        VObj [("a", VNum 2); ("b", VNum 3)]]))
                 (ArrayIterator1 [VObj [("a", VNum 1)]; VObj [("a", VNum 2); ("b", VNum 3)]])
                 (evals_ret _ _) (yields_ArrayIterator1 _))
      as (df & h' & W' & Hnew & _ & _ & Hnames & Hvalues).
    exists df, h', W'. split; [exact Hnew|]. split; [exact Hnames | exact Hvalues].
Defined.

(** *** Ordering of sort keys *)

Lemma ascii_compare_N (a b : Ascii.ascii) :
  Ascii.compare a b = N.compare (Ascii.N_of_ascii a) (Ascii.N_of_ascii b).
Proof. reflexivity. Qed.

Lemma string_compare_Lt_trans (s1 s2 s3 : string) :
  String.compare s1 s2 = Lt -> String.compare s2 s3 = Lt -> String.compare s1 s3 = Lt.
Proof.
  revert s2 s3. induction s1 as [|c1 s1 IH]; intros [|c2 s2] [|c3 s3]; cbn; try done.
  rewrite !ascii_compare_N.
  destruct (N.compare_spec (Ascii.N_of_ascii c1) (Ascii.N_of_ascii c2)) as [H12|H12|H12];
    destruct (N.compare_spec (Ascii.N_of_ascii c2) (Ascii.N_of_ascii c3)) as [H23|H23|H23];
    try done; intros Ha Hb.
  - rewrite H12, H23, N.compare_refl. by eapply IH.
  - rewrite H12. by apply N.compare_lt_iff in H23 as ->.
  - rewrite <- H23. by apply N.compare_lt_iff in H12 as ->.
  - assert (Ascii.N_of_ascii c1 < Ascii.N_of_ascii c3)%N as ->%N.compare_lt_iff by lia. done.
Qed.

Lemma string_ltb_Lt (s1 s2 : string) : String.ltb s1 s2 = true <-> String.compare s1 s2 = Lt.
Proof. unfold String.ltb. by destruct (String.compare s1 s2). Qed.

Lemma string_eqb_compare (s1 s2 : string) : String.eqb s1 s2 = true <-> String.compare s1 s2 = Eq.
Proof.
  rewrite String.eqb_eq. split; [intros ->|apply String.compare_eq_iff].
  induction s2 as [|c s IH]; cbn; [done|]. rewrite ascii_compare_N, N.compare_refl. done.
Qed.

(** On two keys of the same kind [Utils.compare] is the three-way
    comparison of the order [js_lt]. *)
Lemma Utils_compare_cases (kind : key_kind) (a b : value) :
  has_kind kind a -> has_kind kind b ->
  (Utils_compare a b = -1 /\ js_lt a b = true /\ js_gt a b = false /\ a <> b) \/
  (Utils_compare a b = 0 /\ a = b /\ js_lt a b = false /\ js_gt a b = false) \/
  (Utils_compare a b = 1 /\ js_gt a b = true /\ js_lt a b = false /\ a <> b).
Proof.
  destruct kind, a, b; try done; intros _ _; unfold Utils_compare, js_lt; cbn.
  - destruct (Z.eqb_spec n n0) as [->|Hne].
    + right. left. rewrite Z.ltb_irrefl. done.
    + destruct (Z.ltb_spec n0 n).
      * right. right. destruct (Z.ltb_spec n n0); [lia|]. repeat split; congruence.
      * left. destruct (Z.ltb_spec n n0); [|lia]. repeat split; congruence.
  - destruct (String.eqb s s0) eqn:Heq.
    + apply String.eqb_eq in Heq as ->. right. left.
      assert (String.ltb s0 s0 = false) as ->; [|done].
      unfold String.ltb. by rewrite (proj1 (string_eqb_compare s0 s0)) by apply String.eqb_refl.
    + assert (s <> s0) by (intros ->; by rewrite String.eqb_refl in Heq).
      unfold String.ltb. rewrite (String.compare_antisym s s0).
      destruct (String.compare s0 s) eqn:Hc; cbn.
      * by apply String.compare_eq_iff in Hc.
      * right. right. repeat split; congruence.
      * left. repeat split; congruence.
Qed.

Lemma js_gt_trans (kind : key_kind) (a b c : value) :
  has_kind kind a -> has_kind kind b -> has_kind kind c ->
  js_gt a b = true -> js_gt b c = true -> js_gt a c = true.
Proof.
  destruct kind, a, b, c; try done; intros _ _ _; cbn.
  - rewrite !Z.ltb_lt. lia.
  - rewrite !string_ltb_Lt. intros H1 H2. by eapply string_compare_Lt_trans.
Qed.

Lemma key_before_trans (kind : key_kind) (desc : bool) (a b c : value) :
  has_kind kind a -> has_kind kind b -> has_kind kind c ->
  key_before desc a b -> key_before desc b c -> key_before desc a c.
Proof.
  intros Ha Hb Hc. unfold key_before, js_lt. destruct desc; intros H1 H2.
  - exact (js_gt_trans kind a b c Ha Hb Hc H1 H2).
  - exact (js_gt_trans kind c b a Hc Hb Ha H2 H1).
Qed.

Lemma key_before_irrefl (kind : key_kind) (desc : bool) (a : value) :
  has_kind kind a -> ~ key_before desc a a.
Proof.
  intros Ha. destruct (Utils_compare_cases kind a a Ha Ha)
    as [(_ & _ & _ & ?)|[(_ & _ & Hlt & Hgt)|(_ & _ & _ & ?)]]; try done.
  unfold key_before. destruct desc; congruence.
Qed.

(** *** The composite order and linq's comparator *)

Lemma before_irrefl kinds descs keys p :
  Forall2 has_kind kinds keys -> ~ before descs keys keys p p.
Proof.
  intros Hk Hb. revert kinds Hk.
  remember keys as keys' eqn:Heq in Hb at 2. remember p as p' eqn:Hp in Hb at 2.
  induction Hb as [p q Hpq|desc descs key1 key2 keys1 keys2 p q Hkey|
                   desc descs key keys1 keys2 p q Hb IH]; intros kinds Hk.
  - lia.
  - injection Heq as -> ->. inversion Hk; subst.
    eapply key_before_irrefl; [|eassumption]; eassumption.
  - injection Heq as ->. inversion Hk; subst. by eapply IH.
Qed.

Lemma before_trans kinds descs keys1 keys2 keys3 p q r :
  Forall2 has_kind kinds keys1 -> Forall2 has_kind kinds keys2 ->
  Forall2 has_kind kinds keys3 ->
  before descs keys1 keys2 p q -> before descs keys2 keys3 q r ->
  before descs keys1 keys3 p r.
Proof.
  intros H1 H2 H3 Hb. revert kinds keys3 r H1 H2 H3.
  induction Hb as [p q Hpq|desc descs key1 key2 keys1 keys2 p q Hkey|
                   desc descs key keys1 keys2 p q Hb IH];
    intros kinds keys3 r H1 H2 H3 Hb'.
  - inversion Hb'; subst. constructor. lia.
  - inversion H1; inversion H2; simplify_eq.
    inversion Hb'; simplify_eq; inversion H3; simplify_eq.
    + apply before_key.
      eapply key_before_trans; [| | |eassumption|eassumption]; eassumption.
    + by apply before_key.
  - inversion H1; inversion H2; simplify_eq.
    inversion Hb'; simplify_eq; inversion H3; simplify_eq.
    + by apply before_key.
    + apply before_tie. eapply IH; [| | |eassumption]; eassumption.
Qed.

(** linq's comparator decides the composite order. *)
Lemma SortContext_compare_cases kinds descs keys1 keys2 p q :
  length descs = length kinds ->
  Forall2 has_kind kinds keys1 -> Forall2 has_kind kinds keys2 ->
  (SortContext_compare descs keys1 keys2 p q < 0 /\ before descs keys1 keys2 p q) \/
  (SortContext_compare descs keys1 keys2 p q = 0 /\ keys1 = keys2 /\ p = q) \/
  (0 < SortContext_compare descs keys1 keys2 p q /\ before descs keys2 keys1 q p).
Proof.
  revert kinds keys1 keys2.
  induction descs as [|desc descs IH]; intros [|kind kinds] keys1 keys2 Hlen H1 H2;
    try done; inversion H1; inversion H2; simplify_eq; cbn [SortContext_compare].
  - unfold Utils_compare. cbn.
    destruct (Z.eqb_spec (Z.of_nat p) (Z.of_nat q)) as [Heq|Hne].
    + right. left. split; [done|]. split; [done|]. lia.
    + destruct (Z.ltb_spec (Z.of_nat q) (Z.of_nat p)).
      * right. right. split; [lia|]. constructor. lia.
      * left. split; [lia|]. constructor. lia.
  - match goal with Ha : has_kind kind ?a, Hb : has_kind kind ?b |- _ =>
      destruct (Utils_compare_cases kind a b Ha Hb)
        as [(-> & Hlt & Hgt & Hne)|[(-> & -> & Hlt & Hgt)|(-> & Hgt & Hlt & Hne)]] end; cbn.
    + destruct desc.
      * right. right. split; [lia|]. apply before_key. unfold key_before, js_lt in *. done.
      * left. split; [lia|]. by apply before_key.
    + match goal with Ha : Forall2 has_kind kinds ?l1, Hb : Forall2 has_kind kinds ?l2 |- _ =>
        destruct (IH kinds l1 l2 ltac:(cbn in Hlen; lia) Ha Hb)
          as [(Hc & Hb')|[(Hc & -> & ->)|(Hc & Hb')]] end.
      * left. split; [done|]. by apply before_tie.
      * right. left. done.
      * right. right. split; [done|]. by apply before_tie.
    + destruct desc.
      * left. split; [lia|]. by apply before_key.
      * right. right. split; [lia|]. apply before_key. unfold key_before, js_lt in *. done.
Qed.

Lemma before_compare kinds descs keys1 keys2 p q :
  length descs = length kinds ->
  Forall2 has_kind kinds keys1 -> Forall2 has_kind kinds keys2 ->
  before descs keys1 keys2 p q -> SortContext_compare descs keys1 keys2 p q < 0.
Proof.
  intros Hlen H1 H2 Hb.
  destruct (SortContext_compare_cases kinds descs keys1 keys2 p q Hlen H1 H2)
    as [(Hc & _)|[(_ & -> & ->)|(_ & Hb')]]; [done|..].
  - by apply (before_irrefl kinds) in Hb.
  - pose proof (before_trans kinds _ _ _ _ _ _ _ H1 H2 H1 Hb Hb') as Hbb.
    by apply (before_irrefl kinds) in Hbb.
Qed.
(** *** Insertion sort *)

Section insertion_sort.
Context {A : Type} (compare : A -> A -> Z) (P : A -> Prop).
Hypothesis compare_total : forall a b, P a -> P b -> compare a b <= 0 \/ compare b a <= 0.
Hypothesis compare_trans : forall a b c, P a -> P b -> P c ->
  compare a b <= 0 -> compare b c <= 0 -> compare a c <= 0.

Lemma insert_sorted_perm x l : insert_sorted compare x l ≡ₚ x :: l.
Proof using Type.
  induction l as [|y l IH]; cbn; [done|].
  destruct (compare x y <=? 0); [done|]. rewrite IH. apply Permutation_swap.
Qed.

Lemma array_sort_perm l : array_sort compare l ≡ₚ l.
Proof using Type.
  induction l as [|x l IH]; cbn; [done|].
  fold (array_sort compare l). by rewrite insert_sorted_perm, IH.
Qed.

Lemma insert_sorted_StronglySorted x l :
  P x -> Forall P l ->
  StronglySorted (fun a b => compare a b <= 0) l ->
  StronglySorted (fun a b => compare a b <= 0) (insert_sorted compare x l).
Proof using compare_total compare_trans.
  intros Hx HP Hs. induction Hs as [|y l Hs IH Hy]; cbn.
  - repeat constructor.
  - apply Forall_cons in HP as [HPy HPl].
    destruct (Z.leb_spec (compare x y) 0) as [Hle|Hgt].
    + constructor; [by constructor|]. constructor; [done|].
      rewrite Forall_forall in Hy, HPl |- *. intros z Hz.
      eapply compare_trans; [| | |exact Hle|by apply Hy]; eauto.
    + constructor; [by apply IH|].
      rewrite (insert_sorted_perm x l). constructor; [|done].
      destruct (compare_total x y Hx HPy); [lia|done].
Qed.

Lemma array_sort_StronglySorted l :
  Forall P l -> StronglySorted (fun a b => compare a b <= 0) (array_sort compare l).
Proof using compare_total compare_trans.
  induction l as [|x l IH]; cbn; [constructor|].
  intros [Hx Hl]%Forall_cons. fold (array_sort compare l).
  apply insert_sorted_StronglySorted; [done| |by apply IH].
  by rewrite array_sort_perm.
Qed.

End insertion_sort.

Lemma StronglySorted_lookup_lt {A} (R : A -> A -> Prop) (l : list A) (i j : nat) (a b : A) :
  StronglySorted R l -> (i < j)%nat -> l !! i = Some a -> l !! j = Some b -> R a b.
Proof.
  intros Hs. revert i j. induction Hs as [|x l Hs IH Hx]; intros i j Hij Hi Hj; [done|].
  destruct j as [|j]; [lia|]. cbn in Hj. destruct i as [|i]; cbn in Hi.
  - injection Hi as ->. rewrite Forall_forall in Hx. apply Hx.
    by eapply list_elem_of_lookup_2.
  - apply (IH i j); [lia|done..].
Qed.

(** *** The sort of an ordered enumerable *)

Lemma keyed_compare_total kinds descs (a b : keyed) :
  length descs = length kinds ->
  Forall2 has_kind kinds (k_keys a) -> Forall2 has_kind kinds (k_keys b) ->
  keyed_compare descs a b <= 0 \/ keyed_compare descs b a <= 0.
Proof.
  intros Hlen Ha Hb. unfold keyed_compare.
  destruct (SortContext_compare_cases kinds descs _ _ (k_index a) (k_index b) Hlen Ha Hb)
    as [(Hc & _)|[(Hc & _)|(_ & Hb')]]; [left; lia|left; lia|].
  right. pose proof (before_compare kinds _ _ _ _ _ Hlen Hb Ha Hb'). lia.
Qed.

Lemma keyed_compare_trans kinds descs (a b c : keyed) :
  length descs = length kinds ->
  Forall2 has_kind kinds (k_keys a) -> Forall2 has_kind kinds (k_keys b) ->
  Forall2 has_kind kinds (k_keys c) ->
  keyed_compare descs a b <= 0 -> keyed_compare descs b c <= 0 ->
  keyed_compare descs a c <= 0.
Proof.
  intros Hlen Ha Hb Hc. unfold keyed_compare. intros Hab Hbc.
  destruct (SortContext_compare_cases kinds descs _ _ (k_index a) (k_index b) Hlen Ha Hb)
    as [(_ & Hab')|[(_ & Hk & Hi)|(? & _)]]; [| |lia].
  - destruct (SortContext_compare_cases kinds descs _ _ (k_index b) (k_index c) Hlen Hb Hc)
      as [(_ & Hbc')|[(_ & Hk & Hi)|(? & _)]]; [| |lia].
    + pose proof (before_trans kinds _ _ _ _ _ _ _ Ha Hb Hc Hab' Hbc') as Hac.
      pose proof (before_compare kinds _ _ _ _ _ Hlen Ha Hc Hac). lia.
    + rewrite <- Hk, <- Hi. done.
  - rewrite Hk, Hi. done.
Qed.

Lemma keyed_buffer_Ok (context : list sort_key) (source : list value)
    (keyss : list (list value)) (start : nat) :
  Forall2 (fun x keys => generate_keys context x = Ok keys) source keyss ->
  res_mapM (fun ix : nat * value =>
              keys ← generate_keys context ix.2; Ok (mkKeyed ix.1 keys ix.2))
           (zip (seq start (length source)) source)
  = Ok (map (fun ixk : nat * (value * list value) => mkKeyed ixk.1 ixk.2.2 ixk.2.1)
            (zip (seq start (length source)) (zip source keyss))).
Proof.
  intros Hk. revert start. induction Hk as [|x keys source keyss Hx _ IH]; intros start; cbn;
    [done|].
  rewrite Hx. cbn. by rewrite IH.
Qed.

(** What [toArray] of an ordered enumerable returns: the source permuted
    by a permutation [perm] of its positions along which the composite
    order [before] holds. *)
Lemma E_toArray_ordered (context : list sort_key) (source : list value)
    (kinds : list key_kind) (keyss : list (list value)) :
  length context = length kinds ->
  Forall2 (fun x keys => generate_keys context x = Ok keys /\ Forall2 has_kind kinds keys)
          source keyss ->
  exists perm : list nat,
    perm ≡ₚ seq 0 (length source) /\
    E_toArray (E_ordered source context) = Ok (map (fun p => nth p source VUndefined) perm) /\
    forall i j p q, (i < j)%nat -> perm !! i = Some p -> perm !! j = Some q ->
      before (map descending context) (nth p keyss []) (nth q keyss []) p q.
Proof.
  intros Hlen Hk.
  set (descs := map descending context).
  set (buffer := map (fun ixk : nat * (value * list value) => mkKeyed ixk.1 ixk.2.2 ixk.2.1)
                     (zip (seq 0 (length source)) (zip source keyss))).
  set (sorted := array_sort (keyed_compare descs) buffer).
  assert (Hlens : length keyss = length source) by (symmetry; eapply Forall2_length, Hk).
  assert (Hbuf : forall a, a ∈ buffer ->
            Forall2 has_kind kinds (k_keys a) /\
            source !! k_index a = Some (k_elem a) /\ keyss !! k_index a = Some (k_keys a)).
  { intros a (ixk & -> & Hin)%list_elem_of_fmap. destruct ixk as [i [x keys]]. cbn.
    apply list_elem_of_lookup in Hin as [n Hn].
    apply lookup_zip_with_Some in Hn as (i' & xk & [= <- <-] & Hi & Hxk).
    apply lookup_zip_with_Some in Hxk as (x' & keys' & [= <- <-] & Hx & Hkeys).
    apply lookup_seq in Hi as [-> _]. cbn.
    split; [|done]. by destruct (Forall2_lookup_lr _ _ _ _ _ _ Hk Hx Hkeys). }
  assert (Hperm : sorted ≡ₚ buffer) by apply array_sort_perm.
  assert (Hidx : map k_index buffer = seq 0 (length source)).
  { unfold buffer. rewrite map_map. cbn.
    apply (fst_zip (seq 0 (length source)) (zip source keyss)).
    rewrite length_seq, length_zip_with. lia. }
  assert (Hdescs : length descs = length kinds) by (unfold descs; by rewrite length_map).
  assert (Hsorted : StronglySorted (fun a b => keyed_compare descs a b <= 0) sorted).
  { apply (array_sort_StronglySorted _ (fun a => Forall2 has_kind kinds (k_keys a))).
    - intros a b. by apply keyed_compare_total.
    - intros a b c. by apply keyed_compare_trans.
    - apply Forall_forall. intros a Ha. by apply Hbuf. }
  exists (map k_index sorted). split; [|split].
  - rewrite <- Hidx. by apply Permutation_map.
  - unfold E_toArray, keyed_buffer.
    rewrite (keyed_buffer_Ok context source keyss 0).
    2:{ eapply Forall2_impl; [exact Hk|]. by intros ? ? [? _]. }
    cbn. f_equal. fold descs buffer sorted. rewrite map_map.
    apply map_ext_in. intros a Ha%list_elem_of_In. rewrite Hperm in Ha.
    destruct (Hbuf a Ha) as (_ & Hx & _). symmetry. by apply nth_lookup_Some.
  - intros i j p q Hij Hi Hj.
    apply list_lookup_fmap_Some in Hi as (a & -> & Ha).
    apply list_lookup_fmap_Some in Hj as (b & -> & Hb).
    assert (Hain : a ∈ buffer) by (rewrite <- Hperm; by eapply list_elem_of_lookup_2).
    assert (Hbin : b ∈ buffer) by (rewrite <- Hperm; by eapply list_elem_of_lookup_2).
    destruct (Hbuf a Hain) as (Hka & _ & Hkeysa).
    destruct (Hbuf b Hbin) as (Hkb & _ & Hkeysb).
    rewrite (nth_lookup_Some _ _ _ _ Hkeysa), (nth_lookup_Some _ _ _ _ Hkeysb).
    assert (Hle : keyed_compare descs a b <= 0).
    { exact (StronglySorted_lookup_lt (fun a b => keyed_compare descs a b <= 0)
               sorted i j a b Hsorted Hij Ha Hb). }
    destruct (SortContext_compare_cases kinds descs _ _ (k_index a) (k_index b) Hdescs Hka Hkb)
      as [(_ & Hb')|[(_ & _ & Heq)|(Hgt & _)]]; [done| |unfold keyed_compare in Hle; lia].
    exfalso.
    assert (Hnd : NoDup (map k_index sorted)).
    { rewrite Hperm, Hidx. apply NoDup_seq. }
    assert (i = j); [|lia].
    eapply NoDup_lookup; [exact Hnd| |]; rewrite list_lookup_fmap.
    + rewrite Ha. reflexivity.
    + rewrite Hb. cbn. by rewrite Heq.
Qed.

(** *** Cursors of a sorted data frame *)

Lemma exhausted_ApplyIndexIterator it ix s si :
  exhausted it s -> exhausted (ApplyIndexIterator it ix) (s, si).
Proof.
  intros (P & Hs & HP). exists (fun t => P t.1). split; [done|].
  intros [t ti] Ht. destruct (HP t Ht) as (t' & Hstep & Ht').
  exists (t', ti). cbn. by rewrite Hstep.
Qed.

Lemma exhausted_IndexCursor it s i : exhausted it s -> exhausted (IndexCursor it) (s, i).
Proof.
  intros (P & Hs & HP). exists (fun t => P t.1). split; [done|].
  intros [t ti] Ht. destruct (HP t Ht) as (t' & Hstep & Ht').
  exists (t', ti + 1). cbn. by rewrite Hstep.
Qed.

(** Rows paired with as many labels: the paired cursor yields the rows,
    and the index cursor over it yields the labels. *)
Lemma yields_ApplyIndexIterator it ix s si l l' :
  yields it s l -> yields ix si l' -> length l = length l' ->
  yields (ApplyIndexIterator it ix) (s, si) l /\
  forall i, yields (IndexCursor (ApplyIndexIterator it ix)) ((s, si), i) l'.
Proof.
  intros Hy. revert si l'.
  induction Hy as [s s' Hstep Hex|s s' v l Hstep Hcur Hb Hy IH]; intros si l' Hy' Hlen.
  - destruct l'; [|done]. split.
    + eapply yields_end; [cbn; by rewrite Hstep|]. by apply exhausted_ApplyIndexIterator.
    + intros i. eapply yields_end; [cbn; by rewrite Hstep|].
      by apply exhausted_IndexCursor, exhausted_ApplyIndexIterator.
  - inversion Hy' as [|? si' v' l'' Hstep' Hcur' Hb' Hy'']; subst; [done|].
    cbn in Hlen. destruct (IH si' l'' Hy'' ltac:(lia)) as [IH1 IH2]. split.
    + eapply yields_next; [cbn; by rewrite Hstep, Hstep'|done|cbn; lia|done].
    + intros i. eapply yields_next; [cbn; by rewrite Hstep, Hstep'|done|cbn; lia|apply IH2].
Qed.

Lemma realize_sorted_frame (rows labels : list value) :
  length rows = length labels ->
  realize (ApplyIndexIterator (ArrayIterator1 rows) (ArrayIterator1 labels)) = Ok rows /\
  realize (IndexCursor (ApplyIndexIterator (ArrayIterator1 rows) (ArrayIterator1 labels)))
    = Ok labels.
Proof.
  intros Hlen.
  destruct (yields_ApplyIndexIterator _ _ _ _ _ _
              (yields_ArrayIterator1 rows) (yields_ArrayIterator1 labels) Hlen) as [H1 H2].
  split; apply realize_yields; [exact H1 | exact (H2 (-1))].
Qed.

(** *** The order-by engine of the data frame *)

Lemma evals_proper {A} W (m m' : M A) r :
  (forall h, m h = m' h) -> evals W m r -> evals W m' r.
Proof.
  intros Heq Hm h Hs. specialize (Hm h Hs). by rewrite <- Heq.
Qed.

Lemma M_bind_assoc {A B C} (m : M A) (f : A -> M B) (g : B -> M C) h :
  ((m ≫= f) ≫= g) h = (m ≫= (fun a => f a ≫= g)) h.
Proof. unfold mbind, M_bind. by destruct (m h) as [[]|]. Qed.

Lemma M_bind_ext {A B} (m : M A) (f g : A -> M B) h :
  (forall a h', f a h' = g a h') -> (m ≫= f) h = (m ≫= g) h.
Proof. intros Hfg. unfold mbind, M_bind. by destruct (m h) as [[]|]. Qed.

Lemma executeLazySort_evals W (self : DataFrame) (batch : list orderCmd) (c : nat)
    names it labels rows :
  evals W (DataFrame.getColumnNames self) (Ok names) ->
  evals W (DataFrame.getIterator self) (Ok it) ->
  realize it = Ok rows -> realize (IndexCursor it) = Ok labels ->
  W !! c = Some (match sorted_tuples names batch labels rows with
                 | Ok sorted => Filled (CArray sorted)
                 | Err _ => Empty
                 end) ->
  evals W (DataFrame.executeLazySort self batch c) (sorted_tuples names batch labels rows).
Proof.
  intros Hnames Hit Hrows Hlabels Hc.
  set (body :=
    (_ ← lift (res_mapM (fun orderCmd => validateSortMethod (sortMethod orderCmd)) batch);
     index ← Index.toValues (DataFrame.getIndex self);
     values ← DataFrame.toValues self;
     names ← DataFrame.getColumnNames self;
     lift (ordered ← E_aggregate
             (fun unsorted orderCmd =>
                E_sortMethod (sortMethod orderCmd) unsorted
                  (fun row => sortSelector orderCmd (mapRow names (VArr (drop 1 (E_from row))))))
             batch (E_seq (zip_with index_concat index values));
           E_toArray ordered)) : M (list value)).
  assert (Hbody : evals W body (sorted_tuples names batch labels rows)).
  { unfold body, Index.toValues, DataFrame.toValues, DataFrame.getIndex, Index.getIterator,
      Index.new. cbn [Index_iterable].
    eapply (evals_eq _ _
      (_ ← res_mapM (fun orderCmd => validateSortMethod (sortMethod orderCmd)) batch;
       index ← (it' ← (iterator ← Ok it; Ok (IndexCursor iterator)); realize it');
       values ← (it' ← Ok it; realize it');
       names ← Ok names;
       (ordered ← E_aggregate
             (fun unsorted orderCmd =>
                E_sortMethod (sortMethod orderCmd) unsorted
                  (fun row => sortSelector orderCmd (mapRow names (VArr (drop 1 (E_from row))))))
             batch (E_seq (zip_with index_concat index values));
           E_toArray ordered))); [|evals_auto].
    cbn -[realize]. rewrite Hrows, Hlabels. done. }
  pose proof (evals_memo W c body _ CArray
    (fun o => match o with Some (CArray sorted) => Some sorted | _ => None end)
    ltac:(done) ltac:(done) Hbody Hc) as Hmemo.
  eapply evals_proper; [|exact Hmemo].
  intros h. unfold DataFrame.executeLazySort, body.
  apply M_bind_ext. intros [[]|] h'; try done.
  all: repeat first [rewrite M_bind_assoc | apply M_bind_ext; intros ? ?]; done.
Qed.

Lemma sat_alloc W h : sat W h -> sat W (h ++ [None]).
Proof.
  intros [Hlen Hcells]. split; [rewrite length_app; lia|].
  intros l e Hl. destruct (Hcells l e Hl) as (o & Ho & Hok).
  exists o. split; [|done]. by apply lookup_app_l_Some.
Qed.

(** [executeOrderBy] allocates the memo cell, reads the column names and
    returns the frame over that cell; the cell is still empty. *)
Lemma executeOrderBy_run W self batch names h :
  evals W (DataFrame.getColumnNames self) (Ok names) -> sat W h -> batch <> [] ->
  exists h',
    DataFrame.executeOrderBy self batch h = Ok (ordered_frame self batch (length h) names, h') /\
    sat W h' /\ length h' = S (length h) /\ h' !! length h = Some None /\
    forall l, (length W <= l < length h)%nat -> h' !! l = h !! l.
Proof.
  intros Hnames Hs Hbatch.
  destruct (Hnames (h ++ [None]) (sat_alloc _ _ Hs)) as (h' & Hrun & Hs' & Hlen & Hframe).
  exists h'. split; [|split; [done|split; [|split]]].
  - unfold DataFrame.executeOrderBy.
    assert (Hassert : assert (0 <? len batch) "" = Ok tt).
    { destruct batch; [done|]. unfold len. cbn [length].
      by destruct (Z.ltb_spec 0 (Z.of_nat (S (length batch)))); [|lia]. }
    rewrite Hassert. unfold mbind at 1, M_bind at 1, lift at 1.
    unfold mbind at 1, M_bind at 1, new_cell at 1.
    unfold mbind at 1, M_bind at 1. rewrite Hrun. done.
  - rewrite Hlen, length_app. cbn. lia.
  - rewrite Hframe by apply Hs. by rewrite lookup_app_r, Nat.sub_diag.
  - intros l [Hl1 Hl2]. rewrite Hframe by done. by rewrite lookup_app_l.
Qed.

(** A valid argument gives the selector [selector_of]; an invalid one
    fails an assertion. *)
Lemma processColumnSelector_evals W self names arg fnName :
  evals W (DataFrame.getColumnNames self) (Ok names) -> valid_column_arg names arg ->
  evals W (DataFrame.processColumnSelector self arg fnName) (Ok (selector_of names arg)).
Proof.
  intros Hnames Hvalid. destruct arg as [f|[]|num den]; try done; try apply evals_ret.
  - cbn in Hvalid. unfold DataFrame.processColumnSelector.
    eapply (evals_eq _ _
      (columnNames ← Ok names;
       _ ← assert ((0 <=? n) && (n <? len columnNames)) (bad_column_index columnNames);
       Ok (fun row => get_prop row (nth (Z.to_nat n) columnNames "")))); [|evals_auto].
    cbn -[bad_column_index].
    destruct (Z.leb_spec 0 n); [|lia]. destruct (Z.ltb_spec n (len names)); [|lia]. done.
  - cbn in Hvalid. unfold DataFrame.processColumnSelector.
    eapply (evals_eq _ _
      (columnNames ← Ok names;
       _ ← assert ((0 <=? num) && (num <? len columnNames * Z.pos den))
             (bad_column_index columnNames);
       Ok (fun row => get_prop row
                        (if num mod Z.pos den =? 0
                         then nth (Z.to_nat (num / Z.pos den)) columnNames ""
                         else "undefined")))); [|evals_auto].
    cbn -[bad_column_index Z.mul Z.modulo Z.div].
    destruct (Z.leb_spec 0 num); [|lia].
    destruct (Z.ltb_spec num (len names * Z.pos den)); [|lia]. done.
Qed.

(** The name of the caller only shows in a refusal. *)
Lemma processColumnSelector_fnName self names arg fnName fnName' h :
  valid_column_arg names arg ->
  DataFrame.processColumnSelector self arg fnName h
  = DataFrame.processColumnSelector self arg fnName' h.
Proof. intros Hvalid. by destruct arg as [f|[]|num den]. Qed.

(** A refused argument fails an assertion, with the message [refusal]. *)
Lemma processColumnSelector_invalid W self names arg fnName :
  evals W (DataFrame.getColumnNames self) (Ok names) -> ~ valid_column_arg names arg ->
  evals W (DataFrame.processColumnSelector self arg fnName)
    (Err (AssertionError (refusal names fnName arg))).
Proof.
  intros Hnames Hinvalid. destruct arg as [f|v|num den]; [by destruct Hinvalid| |].
  - destruct v; try (intros h Hs; reflexivity); [|by destruct Hinvalid].
    cbn in Hinvalid. unfold DataFrame.processColumnSelector, refusal.
    eapply (evals_eq _ _
      (columnNames ← Ok names;
       _ ← assert ((0 <=? n) && (n <? len columnNames)) (bad_column_index columnNames);
       Ok (fun row => get_prop row (nth (Z.to_nat n) columnNames "")))); [|evals_auto].
    cbn -[bad_column_index].
    destruct (Z.leb_spec 0 n); destruct (Z.ltb_spec n (len names)); try done; lia.
  - cbn in Hinvalid. unfold DataFrame.processColumnSelector, refusal.
    eapply (evals_eq _ _
      (columnNames ← Ok names;
       _ ← assert ((0 <=? num) && (num <? len columnNames * Z.pos den))
             (bad_column_index columnNames);
       Ok (fun row => get_prop row
                        (if num mod Z.pos den =? 0
                         then nth (Z.to_nat (num / Z.pos den)) columnNames ""
                         else "undefined")))); [|evals_auto].
    cbn -[bad_column_index Z.mul Z.modulo Z.div].
    destruct (Z.leb_spec 0 num); destruct (Z.ltb_spec num (len names * Z.pos den));
      try done; lia.
Qed.

Lemma orderThenBy_checks_Ok (batch : list orderCmd) (cmd : orderCmd) :
  DataFrame.orderThenBy_checks (batch ++ [cmd]) "thenBy" = Ok tt /\
  DataFrame.orderThenBy_checks (batch ++ [cmd]) "thenByDescending" = Ok tt.
Proof.
  assert (Hassert : assert (0 <? len (batch ++ [cmd])) "" = Ok tt).
  { unfold len. rewrite length_app. cbn [length].
    by destruct (Z.ltb_spec 0 (Z.of_nat (length batch + 1))); [|lia]. }
  unfold DataFrame.orderThenBy_checks. by rewrite Hassert.
Qed.

(** One [thenBy] or [thenByDescending] call on a sorted frame: a new
    sorted frame over the extended batch and a fresh, empty memo cell;
    the cells of the heap it started from are kept. *)
Lemma orderThenBy_run W self names batch (step : bool * js_arg) h :
  evals W (DataFrame.getColumnNames self) (Ok names) -> valid_column_arg names step.2 ->
  sat W h ->
  exists h',
    DataFrame.orderThenBy self batch (if step.1 then "thenByDescending" else "thenBy") step.2 h
    = Ok (mkSortedDataFrame
            (ordered_frame self (batch ++ [thenBy_cmd names step]) (length h) names)
            self (batch ++ [thenBy_cmd names step]), h') /\
    sat W h' /\ length h' = S (length h) /\ h' !! length h = Some None /\
    forall l, (length W <= l < length h)%nat -> h' !! l = h !! l.
Proof.
  intros Hnames Hvalid Hs.
  destruct (processColumnSelector_evals W self names step.2 "thenBy" Hnames Hvalid h Hs)
    as (h1 & Hrun1 & Hs1 & Hlen1 & Hframe1).
  destruct (executeOrderBy_run W self (batch ++ [thenBy_cmd names step]) names h1 Hnames Hs1)
    as (h2 & Hrun2 & Hs2 & Hlen2 & Hcell2 & Hframe2); [by destruct batch|].
  destruct (orderThenBy_checks_Ok batch (thenBy_cmd names step)) as [Hc1 Hc2].
  exists h2. split; [|split; [done|split; [lia|split]]].
  - unfold DataFrame.orderThenBy. unfold mbind at 1, M_bind at 1. rewrite Hrun1. cbv zeta.
    change (mkOrderCmd (selector_of names step.2)
              (if step.1 then "thenByDescending" else "thenBy"))
      with (thenBy_cmd names step).
    unfold mbind at 1, M_bind at 1. rewrite Hrun2, Hlen1, Hc1, Hc2. done.
  - by rewrite <- Hlen1.
  - intros l Hl. rewrite Hframe2 by lia. apply Hframe1. lia.
Qed.

(** A chain of [thenBy] and [thenByDescending] calls: the last sorted
    frame carries the whole batch and a fresh, empty memo cell. *)
Lemma thenBy_chain_run W self names steps : forall batch c h,
  evals W (DataFrame.getColumnNames self) (Ok names) ->
  Forall (fun step : bool * js_arg => valid_column_arg names step.2) steps ->
  sat W h -> (length W <= c < length h)%nat -> h !! c = Some None ->
  exists c' h',
    thenBy_chain (mkSortedDataFrame (ordered_frame self batch c names) self batch) steps h
    = Ok (mkSortedDataFrame
            (ordered_frame self (batch ++ map (thenBy_cmd names) steps) c' names)
            self (batch ++ map (thenBy_cmd names) steps), h') /\
    sat W h' /\ (length W <= c' < length h')%nat /\ h' !! c' = Some None /\
    (length h <= length h')%nat /\
    forall l, (length W <= l < length h)%nat -> h' !! l = h !! l.
Proof.
  induction steps as [|[desc arg] steps IH]; intros batch c h Hnames Hvalid Hs Hc Hcell.
  - exists c, h. cbn. rewrite app_nil_r. done.
  - apply Forall_cons in Hvalid as [Hvalid1 Hvalid].
    destruct (orderThenBy_run W self names batch (desc, arg) h Hnames Hvalid1 Hs)
      as (h1 & Hrun1 & Hs1 & Hlen1 & Hcell1 & Hframe1).
    destruct (IH (batch ++ [thenBy_cmd names (desc, arg)]) (length h) h1 Hnames Hvalid Hs1
                 ltac:(lia) Hcell1) as (c' & h' & Hrun & Hs' & Hc' & Hcell' & Hlen' & Hframe').
    exists c', h'. split; [|split; [done|split; [done|split; [done|split; [lia|]]]]].
    + cbn [thenBy_chain]. unfold mbind at 1, M_bind at 1.
      assert (Hcall : (if desc
                       then DataFrame.thenByDescending
                              (mkSortedDataFrame (ordered_frame self batch c names) self batch) arg
                       else DataFrame.thenBy
                              (mkSortedDataFrame (ordered_frame self batch c names) self batch) arg)
                      = DataFrame.orderThenBy self batch
                          (if desc then "thenByDescending" else "thenBy") arg)
        by (by destruct desc).
      rewrite Hcall. cbn [fst snd] in Hrun1. rewrite Hrun1, Hrun.
      by rewrite <- app_assoc.
    + intros l Hl. rewrite Hframe' by lia. apply Hframe1. lia.
Qed.

(** [orderBy] or [orderByDescending] followed by a chain of [thenBy] and
    [thenByDescending] calls, all with valid arguments: the calls return
    a sorted frame over the batch [chain_batch] whose memo cell is
    empty, so nothing is sorted yet. *)
Lemma orderBy_chain_run W self names first steps h :
  evals W (DataFrame.getColumnNames self) (Ok names) ->
  valid_column_arg names first.2 ->
  Forall (fun step : bool * js_arg => valid_column_arg names step.2) steps ->
  sat W h ->
  exists c' h',
    orderBy_chain self first steps h
    = Ok (mkSortedDataFrame (ordered_frame self (chain_batch names first steps) c' names)
            self (chain_batch names first steps), h') /\
    sat W h' /\ (length W <= c' < length h')%nat /\ h' !! c' = Some None /\
    (length h <= length h')%nat /\
    forall l, (length W <= l < length h)%nat -> h' !! l = h !! l.
Proof.
  intros Hnames Hvalid1 Hvalid Hs.
  set (cmd := mkOrderCmd (selector_of names first.2)
                (if first.1 then "orderByDescending" else "orderBy")).
  destruct (processColumnSelector_evals W self names first.2 "orderBy" Hnames Hvalid1 h Hs)
    as (h1 & Hrun1 & Hs1 & Hlen1 & Hframe1).
  destruct (executeOrderBy_run W self [cmd] names h1 Hnames Hs1 ltac:(done))
    as (h2 & Hrun2 & Hs2 & Hlen2 & Hcell2 & Hframe2).
  destruct (orderThenBy_checks_Ok [] cmd) as [Hc1 Hc2]. cbn [app] in Hc1, Hc2.
  destruct (thenBy_chain_run W self names steps [cmd] (length h1) h2 Hnames Hvalid Hs2
              ltac:(destruct Hs1; lia) Hcell2)
    as (c' & h' & Hrun & Hs' & Hc' & Hcell' & Hlen' & Hframe').
  exists c', h'. split; [|split; [done|split; [done|split; [done|split; [lia|]]]]].
  - unfold orderBy_chain. unfold mbind at 1, M_bind at 1.
    assert (Hcall : (if first.1 then DataFrame.orderByDescending self first.2
                     else DataFrame.orderBy self first.2) h
                    = Ok (mkSortedDataFrame (ordered_frame self [cmd] (length h1) names)
                            self [cmd], h2)).
    { assert (Hhelper : DataFrame.orderBy_ self (sortMethod cmd) (sortSelector cmd) h1
                        = Ok (mkSortedDataFrame (ordered_frame self [cmd] (length h1) names)
                                self [cmd], h2)).
      { unfold DataFrame.orderBy_.
        assert (Hv : validateSortMethod (sortMethod cmd) = Ok tt)
          by (unfold cmd; by destruct first.1).
        rewrite Hv. unfold mbind at 1, M_bind at 1, lift at 1. cbv zeta.
        change (mkOrderCmd (sortSelector cmd) (sortMethod cmd)) with cmd.
        unfold mbind at 1, M_bind at 1. rewrite Hrun2, Hc1, Hc2. done. }
      unfold cmd in Hhelper. cbn [sortMethod sortSelector] in Hhelper.
      destruct first.1;
        unfold DataFrame.orderBy, DataFrame.orderByDescending, mbind, M_bind;
        rewrite ?(processColumnSelector_fnName self names first.2 "orderByDescending"
                    "orderBy" h Hvalid1);
        rewrite Hrun1; exact Hhelper. }
    rewrite Hcall. exact Hrun.
  - intros l Hl. rewrite Hframe' by lia. rewrite Hframe2 by lia. apply Hframe1. lia.
Qed.

(** The world that adds to [W] what is expected of the cell [c] of a
    heap that fits [W]. *)
Lemma sat_cell W h (c : nat) e o :
  sat W h -> (length W <= c)%nat -> h !! c = Some o -> cell_ok e o ->
  sat (W ++ replicate (c - length W) Any ++ [e]) h /\
  (W ++ replicate (c - length W) Any ++ [e]) !! c = Some e /\
  W `prefix_of` W ++ replicate (c - length W) Any ++ [e].
Proof.
  intros [Hlen Hcells] Hc Ho Hok.
  assert (Hl : length (W ++ replicate (c - length W) Any) = c).
  { rewrite length_app, length_replicate. lia. }
  split; [|split].
  - split.
    + rewrite !length_app, length_replicate. simpl.
      apply lookup_lt_Some in Ho. lia.
    + intros l x Hx. rewrite app_assoc in Hx.
      destruct (decide (l < c)%nat) as [Hlt|Hge].
      * rewrite lookup_app_l in Hx by lia.
        destruct (decide (l < length W)%nat) as [HltW|HgeW].
        -- rewrite lookup_app_l in Hx by done. by apply Hcells.
        -- rewrite lookup_app_r in Hx by lia. apply lookup_replicate in Hx as [-> Hx].
           destruct (lookup_lt_is_Some_2 h l) as [o' Ho']; [apply lookup_lt_Some in Ho; lia|].
           by exists o'.
      * rewrite lookup_app_r in Hx by lia. rewrite Hl in Hx.
        destruct (l - c)%nat as [|k] eqn:Hk; [|by destruct k].
        assert (l = c) as -> by lia. cbn in Hx. injection Hx as <-. by exists o.
  - rewrite app_assoc, lookup_app_r by lia. by rewrite Hl, Nat.sub_diag.
  - by eexists.
Qed.

(** What is observed of the frame [executeOrderBy] returned, on a heap
    where its memo cell is empty or holds the sorted tuples already: the
    rows and the labels decoded from the sorted tuples, and the column
    names of the source. *)
Lemma ordered_frame_observe W self batch (c : nat) names it labels rows tuples labels' h o :
  DataFrame_den W self (Ok names) (Ok it) ->
  realize it = Ok rows -> realize (IndexCursor it) = Ok labels ->
  sorted_tuples names batch labels rows = Ok tuples ->
  res_mapM (fun row => get_index row 0) tuples = Ok labels' ->
  sat W h -> (length W <= c)%nat -> h !! c = Some o -> cell_ok (Filled (CArray tuples)) o ->
  fst <$> DataFrame_observe (ordered_frame self batch c names) h
  = Ok (map (fun row => VArr (drop 1 (E_from row))) tuples, labels', names).
Proof.
  intros [Hnames Hit] Hrows Hlabels Htuples Hlabels' Hs Hc Ho Hok.
  destruct (sat_cell W h c (Filled (CArray tuples)) o Hs Hc Ho Hok) as (Hs' & Hcell & Hpre).
  set (W' := W ++ replicate (c - length W) Any ++ [Filled (CArray tuples)]) in *.
  assert (Hsort : evals W' (DataFrame.executeLazySort self batch c) (Ok tuples)).
  { rewrite <- Htuples.
    apply (executeLazySort_evals W' self batch c names it labels rows);
      [by eapply evals_prefix|by eapply evals_prefix|done|done|]. by rewrite Htuples. }
  assert (Hlen : length (map (fun row => VArr (drop 1 (E_from row))) tuples) = length labels').
  { rewrite length_map. clear -Hlabels'. revert labels' Hlabels'.
    induction tuples as [|t tuples IH]; intros labels' Hl; cbn in Hl; [by simplify_eq|].
    destruct (get_index t 0); [|done]. cbn in Hl.
    destruct (res_mapM _ tuples) as [ls|]; [|done]. cbn in Hl. simplify_eq. cbn.
    by rewrite (IH ls). }
  destruct (realize_sorted_frame _ _ Hlen) as [Hr1 Hr2].
  eapply (evals_run W'); [|exact Hs'].
  unfold DataFrame_observe, DataFrame.toValues, Index.toValues, DataFrame.getIndex,
    Index.getIterator, Index.new, DataFrame.getIterator, DataFrame.getColumnNames,
    ordered_frame.
  cbn [Index_iterable DataFrame_iterable DataFrame_columnNames DataFrame.evalColumnNames].
  set (produce :=
    (it ← (sorted ← Ok tuples;
           Ok (ArrayIterator1 (map (fun row => VArr (drop 1 (E_from row))) sorted)));
     indexIterator ← (sorted ← Ok tuples;
                      labels ← res_mapM (fun row => get_index row 0) sorted;
                      Ok (ArrayIterator1 labels));
     Ok (ApplyIndexIterator it indexIterator)) : res iterator).
  eapply (evals_eq _ _
    (rows ← (it ← produce; realize it);
     labels ← (it ← (iterator ← produce; Ok (IndexCursor iterator)); realize it);
     names ← Ok names;
     Ok (rows, labels, names))); [|unfold produce; evals_auto].
  unfold produce. cbn -[realize]. rewrite Hlabels'. cbn -[realize]. rewrite Hr1, Hr2. done.
Qed.

(** *** The sorted tuples of a chain of sort calls *)

Lemma validate_thenBy_cmds names (steps : list (bool * js_arg)) :
  exists units,
    res_mapM (fun orderCmd => validateSortMethod (sortMethod orderCmd))
             (map (thenBy_cmd names) steps) = Ok units.
Proof.
  induction steps as [|[[] arg] steps [units IH]]; [by eexists|..];
    cbn -[validateSortMethod String.eqb]; rewrite IH;
    cbn; by eexists.
Qed.

Lemma E_aggregate_thenBy names (steps : list (bool * js_arg)) : forall source context,
  E_aggregate
    (fun unsorted orderCmd =>
       E_sortMethod (sortMethod orderCmd) unsorted
         (fun row => sortSelector orderCmd (mapRow names (VArr (drop 1 (E_from row))))))
    (map (thenBy_cmd names) steps) (E_ordered source context)
  = Ok (E_ordered source
          (context ++
           map (fun step : bool * js_arg =>
                  mkSortKey (fun row => selector_of names step.2
                                          (mapRow names (VArr (drop 1 (E_from row)))))
                            step.1) steps)).
Proof.
  induction steps as [|[desc arg] steps IH]; intros source context.
  - cbn. by rewrite app_nil_r.
  - cbn [map E_aggregate]. destruct desc; cbn -[E_aggregate]; rewrite IH, <- app_assoc; done.
Qed.

Lemma selectors_Ok {A} (sel : A -> res value) (steps : list A) : forall kinds,
  Forall2 has_kind kinds
    (map (fun step => match sel step with Ok key => key | Err _ => VUndefined end) steps) ->
  res_mapM sel steps
  = Ok (map (fun step => match sel step with Ok key => key | Err _ => VUndefined end) steps).
Proof.
  induction steps as [|step steps IH]; intros kinds Hk; [done|].
  cbn in Hk. inversion Hk as [|kind key kinds' keys Hkind Hrest]; subst.
  cbn. destruct (sel step) as [key|e]; [|by destruct kind].
  cbn. by rewrite (IH kinds').
Qed.

Lemma res_mapM_map {A B C} (g : A -> B) (f : B -> res C) (l : list A) :
  res_mapM f (map g l) = res_mapM (fun x => f (g x)) l.
Proof. induction l as [|x l IH]; [done|]. cbn. by rewrite IH. Qed.

Lemma tuples_nth (labels : list value) : forall (cellss : list (list value)) (p : nat),
  length labels = length cellss -> (p < length cellss)%nat ->
  nth p (zip_with index_concat labels (map VArr cellss)) VUndefined
  = VArr (nth p labels VUndefined :: nth p cellss []).
Proof.
  induction labels as [|label labels IH]; intros [|cells cellss] p Hlen Hp; cbn in *; try lia.
  destruct p as [|p]; [done|]. apply IH; lia.
Qed.

(** The tuples a chain of sort calls caches, for rows whose keys are,
    level by level, all numbers or all strings: the (label, row) tuples
    permuted by a permutation of the positions along which the composite
    order of the chain holds. *)
Lemma sorted_tuples_chain names (first : bool * js_arg) steps kinds labels
    (cellss : list (list value)) :
  length labels = length cellss ->
  Forall (fun cells => Forall2 has_kind kinds (row_keys names (first :: steps) (VArr cells)))
         cellss ->
  exists perm : list nat,
    perm ≡ₚ seq 0 (length cellss) /\
    sorted_tuples names (chain_batch names first steps) labels (map VArr cellss)
    = Ok (map (fun p => VArr (nth p labels VUndefined :: nth p cellss [])) perm) /\
    forall i j p q, (i < j)%nat -> perm !! i = Some p -> perm !! j = Some q ->
      before (map fst (first :: steps))
             (row_keys names (first :: steps) (VArr (nth p cellss [])))
             (row_keys names (first :: steps) (VArr (nth q cellss []))) p q.
Proof.
  intros Hlen Hkinds.
  set (source := zip_with index_concat labels (map VArr cellss)).
  set (context := map (fun step : bool * js_arg =>
                         mkSortKey (fun row => selector_of names step.2
                                                 (mapRow names (VArr (drop 1 (E_from row)))))
                                   step.1) (first :: steps)).
  set (keyss := map (fun cells => row_keys names (first :: steps) (VArr cells)) cellss).
  assert (Hsource : length source = length cellss).
  { unfold source. rewrite length_zip_with, length_map. lia. }
  assert (Hsorted : sorted_tuples names (chain_batch names first steps) labels (map VArr cellss)
                    = E_toArray (E_ordered source context)).
  { unfold sorted_tuples, chain_batch. fold source.
    destruct (validate_thenBy_cmds names steps) as [units Hunits].
    change (map (fun step : bool * js_arg =>
                   mkOrderCmd (selector_of names step.2)
                              (if step.1 then "thenByDescending" else "thenBy")) steps)
      with (map (thenBy_cmd names) steps).
    cbn [res_mapM sortMethod].
    assert (Hv : validateSortMethod (if first.1 then "orderByDescending" else "orderBy") = Ok tt)
      by (by destruct first.1).
    rewrite Hv, Hunits. cbn [mbind res_bind E_aggregate sortMethod sortSelector].
    assert (Hfirst :
      E_sortMethod (if first.1 then "orderByDescending" else "orderBy") (E_seq source)
        (fun row => selector_of names first.2 (mapRow names (VArr (drop 1 (E_from row)))))
      = Ok (E_ordered source
              [mkSortKey (fun row => selector_of names first.2
                                       (mapRow names (VArr (drop 1 (E_from row)))))
                         first.1]))
      by (by destruct first.1).
    rewrite Hfirst. cbn [mbind res_bind]. rewrite E_aggregate_thenBy. reflexivity. }
  assert (Hkeys : exists kinds',
            length context = length kinds' /\
            Forall2 (fun x keys => generate_keys context x = Ok keys /\
                                   Forall2 has_kind kinds' keys) source keyss).
  { destruct (decide (cellss = [])) as [->|Hne].
    { exists (replicate (length context) KNum). rewrite length_replicate. split; [done|].
      destruct labels; [|done]. constructor. }
    exists kinds. split.
    { unfold context. rewrite length_map. destruct Hkinds as [|cells0 cellss0 Hk _]; [done|].
      apply Forall2_length in Hk. unfold row_keys in Hk. by rewrite length_map in Hk. }
    unfold source, keyss. clear -Hlen Hkinds. revert labels Hlen.
    induction Hkinds as [|cells cellss Hk _ IH]; intros [|label labels] Hlen; try done.
    cbn [map zip_with index_concat]. constructor; [|apply IH; cbn in Hlen; lia].
    split; [|done]. unfold generate_keys, context. rewrite res_mapM_map.
    cbn [keySelector E_from drop].
    apply (selectors_Ok (fun step : bool * js_arg =>
                           selector_of names step.2 (mapRow names (VArr cells)))
                        (first :: steps) kinds).
    exact Hk. }
  destruct Hkeys as (kinds' & Hctx & Hkeys).
  destruct (E_toArray_ordered context source kinds' keyss Hctx Hkeys)
    as (perm & Hperm & Harr & Hbefore).
  exists perm. rewrite Hsource in Hperm. split; [done|].
  assert (Hin : forall i p, perm !! i = Some p -> (p < length cellss)%nat).
  { intros i p Hp. apply list_elem_of_lookup_2 in Hp. rewrite Hperm in Hp.
    apply elem_of_seq in Hp. lia. }
  split.
  - rewrite Hsorted, Harr. f_equal. apply list_eq. intros i.
    rewrite !list_lookup_fmap. destruct (perm !! i) as [p|] eqn:Hp; [|done].
    cbn. f_equal. apply tuples_nth; [done|]. by eapply Hin.
  - intros i j p q Hij Hp Hq. specialize (Hbefore i j p q Hij Hp Hq).
    unfold context in Hbefore. rewrite map_map in Hbefore. cbn [descending] in Hbefore.
    assert (Hnth : forall p, (p < length cellss)%nat ->
              nth p keyss [] = row_keys names (first :: steps) (VArr (nth p cellss []))).
    { intros r Hr. unfold keyss.
      rewrite (nth_indep _ [] (row_keys names (first :: steps) (VArr [])))
        by (rewrite length_map; lia).
      apply (map_nth (fun cells => row_keys names (first :: steps) (VArr cells))). }
    rewrite !Hnth in Hbefore by (by eapply Hin). exact Hbefore.
Qed.

Lemma realize_loop_IndexCursor_length it fuel : forall s i output output' l l',
  realize_loop it fuel s output = Ok l ->
  realize_loop (IndexCursor it) fuel (s, i) output' = Ok l' ->
  length output = length output' -> length l = length l'.
Proof.
  induction fuel as [|fuel IH]; intros s i output output' l l' Hl Hl' Hlen; [done|].
  cbn in Hl, Hl'. destruct (step it s) as [[[] s']|e]; cbn in Hl, Hl'; [|by simplify_eq|done].
  destruct (current it s') as [v|e]; [|done].
  destruct (currentIndex it s') as [v'|e]; [|done]. cbn in Hl, Hl'.
  eapply IH; [exact Hl|exact Hl'|]. rewrite !length_app. cbn. lia.
Qed.

Lemma realize_IndexCursor_length it l l' :
  realize it = Ok l -> realize (IndexCursor it) = Ok l' -> length l = length l'.
Proof.
  intros Hl Hl'. unfold realize in Hl, Hl'.
  eapply (realize_loop_IndexCursor_length it _ (state it) (-1) [] []);
    [exact Hl|exact Hl'|done].
Qed.

(** *** The order-by engine of the series *)

Lemma Series_executeLazySort_evals W (self : Series) (batch : list orderCmd) (c : nat)
    it ix labels values :
  Series_den W self (Ok it) (Ok ix) ->
  realize it = Ok values -> realize ix = Ok labels ->
  W !! c = Some (match Series_sorted_tuples batch labels values with
                 | Ok sorted => Filled (CArray sorted)
                 | Err _ => Empty
                 end) ->
  evals W (Series.executeLazySort self batch c) (Series_sorted_tuples batch labels values).
Proof.
  intros [Hit Hix] Hvalues Hlabels Hc.
  set (body :=
    (_ ← lift (res_mapM (fun orderCmd => validateSortMethod (sortMethod orderCmd)) batch);
     index ← Index.toValues (Series.getIndex self);
     values ← Series.toValues self;
     lift (ordered ← E_aggregate
             (fun unsorted orderCmd =>
                E_sortMethod (sortMethod orderCmd) unsorted
                  (fun row => value ← get_index row 1; sortSelector orderCmd value))
             batch (E_seq (zip_with (fun index value => VArr [index; value]) index values));
           E_toArray ordered)) : M (list value)).
  assert (Hbody : evals W body (Series_sorted_tuples batch labels values)).
  { unfold body, Index.toValues, Series.toValues.
    eapply (evals_eq _ _
      (_ ← res_mapM (fun orderCmd => validateSortMethod (sortMethod orderCmd)) batch;
       index ← (it' ← Ok ix; realize it');
       values ← (it' ← Ok it; realize it');
       (ordered ← E_aggregate
             (fun unsorted orderCmd =>
                E_sortMethod (sortMethod orderCmd) unsorted
                  (fun row => value ← get_index row 1; sortSelector orderCmd value))
             batch (E_seq (zip_with (fun index value => VArr [index; value]) index values));
           E_toArray ordered))); [|evals_auto].
    cbn -[realize]. rewrite Hvalues, Hlabels. done. }
  pose proof (evals_memo W c body _ CArray
    (fun o => match o with Some (CArray sorted) => Some sorted | _ => None end)
    ltac:(done) ltac:(done) Hbody Hc) as Hmemo.
  eapply evals_proper; [|exact Hmemo].
  intros h. unfold Series.executeLazySort, body.
  apply M_bind_ext. intros [[]|] h'; try done.
  all: repeat first [rewrite M_bind_assoc | apply M_bind_ext; intros ? ?]; done.
Qed.

Lemma Series_batch_checks (batch : list orderCmd) (cmd : orderCmd) :
  assert (0 <? len (batch ++ [cmd])) "" = Ok tt /\
  Series.orderThenBy_checks (batch ++ [cmd]) "thenBy" = Ok tt /\
  Series.orderThenBy_checks (batch ++ [cmd]) "thenByDescending" = Ok tt.
Proof.
  assert (Hassert : assert (0 <? len (batch ++ [cmd])) "" = Ok tt).
  { unfold len. rewrite length_app. cbn [length].
    by destruct (Z.ltb_spec 0 (Z.of_nat (length batch + 1))); [|lia]. }
  split; [done|]. unfold Series.orderThenBy_checks. by rewrite Hassert.
Qed.

(** A [thenBy] or [thenByDescending] call of a sorted series with a
    function returns the series over the extended batch and one new,
    empty memo cell. *)
Lemma Series_orderThenBy_ordered (self : Series) batch (step : bool * (value -> value)) h :
  Series.orderThenBy self batch (if step.1 then "thenByDescending" else "thenBy")
    (ArgFunction step.2) h
  = Ok (mkSortedSeries (ordered_series self (batch ++ [Series_thenBy_cmd step]) (length h))
          self (batch ++ [Series_thenBy_cmd step]), h ++ [None]).
Proof.
  destruct (Series_batch_checks batch (Series_thenBy_cmd step)) as (Hassert & Hc1 & Hc2).
  unfold Series.orderThenBy. cbn [assert_isFunction].
  unfold mbind at 1, M_bind at 1, lift at 1. cbv zeta.
  change (mkOrderCmd (fun v => Ok (step.2 v)) (if step.1 then "thenByDescending" else "thenBy"))
    with (Series_thenBy_cmd step).
  unfold Series.executeOrderBy. rewrite Hassert, Hc1, Hc2. reflexivity.
Qed.

Lemma Series_orderBy_ordered (self : Series) (first : bool * (value -> value)) h :
  (if first.1 then Series.orderByDescending self (ArgFunction first.2)
   else Series.orderBy self (ArgFunction first.2)) h
  = Ok (mkSortedSeries (ordered_series self (Series_chain_batch first []) (length h))
          self (Series_chain_batch first []), h ++ [None]).
Proof.
  set (cmd := mkOrderCmd (fun v => Ok (first.2 v))
                (if first.1 then "orderByDescending" else "orderBy")).
  destruct (Series_batch_checks [] cmd) as (Hassert & Hc1 & Hc2). cbn [app] in *.
  assert (Hhelper : Series.orderBy_ self (sortMethod cmd) (ArgFunction first.2) h
                    = Ok (mkSortedSeries (ordered_series self [cmd] (length h)) self [cmd],
                          h ++ [None])).
  { unfold Series.orderBy_.
    assert (Hv : validateSortMethod (sortMethod cmd) = Ok tt)
      by (unfold cmd; by destruct first.1).
    rewrite Hv. cbn [assert_isFunction]. unfold mbind at 1, M_bind at 1, lift at 1.
    unfold mbind at 1, M_bind at 1, lift at 1. cbv zeta.
    change (mkOrderCmd (fun v => Ok (first.2 v)) (sortMethod cmd)) with cmd.
    unfold Series.executeOrderBy. rewrite Hassert, Hc1, Hc2. reflexivity. }
  unfold cmd in Hhelper. cbn [sortMethod] in Hhelper.
  unfold Series_chain_batch. cbn [map]. fold cmd.
  destruct first.1; exact Hhelper.
Qed.

Lemma Series_thenBy_chain_run (self : Series) steps : forall batch (c : nat) h,
  (c < length h)%nat -> h !! c = Some None ->
  exists (c' k : nat),
    Series_thenBy_chain (mkSortedSeries (ordered_series self batch c) self batch) steps h
    = Ok (mkSortedSeries
            (ordered_series self (batch ++ map Series_thenBy_cmd steps) c')
            self (batch ++ map Series_thenBy_cmd steps), h ++ replicate k None) /\
    (c <= c')%nat /\ (h ++ replicate k None) !! c' = Some None.
Proof.
  induction steps as [|step steps IH]; intros batch c h Hc Hcell.
  - exists c, 0%nat. cbn. rewrite !app_nil_r. done.
  - destruct step as [desc f]. cbn [Series_thenBy_chain map].
    assert (Hcall : (if desc then Series.thenByDescending
                                    (mkSortedSeries (ordered_series self batch c) self batch)
                                    (ArgFunction f)
                     else Series.thenBy
                            (mkSortedSeries (ordered_series self batch c) self batch)
                            (ArgFunction f)) h
                    = Ok (mkSortedSeries
                            (ordered_series self (batch ++ [Series_thenBy_cmd (desc, f)])
                               (length h))
                            self (batch ++ [Series_thenBy_cmd (desc, f)]), h ++ [None])).
    { pose proof (Series_orderThenBy_ordered self batch (desc, f) h) as Hrun.
      cbn [fst snd] in Hrun. destruct desc; exact Hrun. }
    unfold mbind at 1, M_bind at 1. rewrite Hcall.
    destruct (IH (batch ++ [Series_thenBy_cmd (desc, f)]) (length h) (h ++ [None]))
      as (c' & k & Hrun & Hc' & Hcell').
    + rewrite length_app. cbn. lia.
    + by rewrite lookup_app_r, Nat.sub_diag.
    + exists c', (S k). rewrite <- !app_assoc in Hrun. cbn [app] in Hrun.
      cbn [replicate]. split; [exact Hrun|]. split; [lia|].
      by rewrite <- app_assoc in Hcell'.
Qed.

Lemma sat_alloc_replicate W h (k : nat) : sat W h -> sat W (h ++ replicate k None).
Proof.
  intros Hs. induction k as [|k IH]; [by rewrite app_nil_r|].
  rewrite replicate_S_end, app_assoc. by apply sat_alloc.
Qed.

(** The chain of sort calls on a series: the last sorted series carries
    the whole batch and a fresh, empty memo cell. *)
Lemma Series_orderBy_chain_run W (self : Series) first steps h :
  sat W h ->
  exists (c' : nat) h',
    Series_orderBy_chain self first steps h
    = Ok (mkSortedSeries (ordered_series self (Series_chain_batch first steps) c')
            self (Series_chain_batch first steps), h') /\
    sat W h' /\ (length W <= c')%nat /\ h' !! c' = Some None.
Proof.
  intros Hs.
  destruct (Series_thenBy_chain_run self steps (Series_chain_batch first []) (length h)
              (h ++ [None])) as (c' & k & Hrun & Hc' & Hcell').
  - rewrite length_app. cbn. lia.
  - by rewrite lookup_app_r, Nat.sub_diag.
  - exists c', ((h ++ [None]) ++ replicate k None). split; [|split; [|split]].
    + unfold Series_orderBy_chain. unfold mbind at 1, M_bind at 1.
      rewrite (Series_orderBy_ordered self first h). exact Hrun.
    + by apply sat_alloc_replicate, sat_alloc.
    + destruct Hs. lia.
    + exact Hcell'.
Qed.

Lemma ordered_series_observe W self batch (c : nat) it ix labels values tuples
    values' labels' h o :
  Series_den W self (Ok it) (Ok ix) ->
  realize it = Ok values -> realize ix = Ok labels ->
  Series_sorted_tuples batch labels values = Ok tuples ->
  res_mapM (fun row => get_index row 1) tuples = Ok values' ->
  res_mapM (fun row => get_index row 0) tuples = Ok labels' ->
  sat W h -> (length W <= c)%nat -> h !! c = Some o -> cell_ok (Filled (CArray tuples)) o ->
  fst <$> Series_observe (ordered_series self batch c) h = Ok (values', labels').
Proof.
  intros [Hit Hix] Hvalues Hlabels Htuples Hv' Hl' Hs Hc Ho Hok.
  destruct (sat_cell W h c (Filled (CArray tuples)) o Hs Hc Ho Hok) as (Hs' & Hcell & Hpre).
  set (W' := W ++ replicate (c - length W) Any ++ [Filled (CArray tuples)]) in *.
  assert (Hsort : evals W' (Series.executeLazySort self batch c) (Ok tuples)).
  { rewrite <- Htuples.
    apply (Series_executeLazySort_evals W' self batch c it ix labels values);
      [split; by eapply evals_prefix|done|done|]. by rewrite Htuples. }
  eapply (evals_run W'); [|exact Hs'].
  unfold Series_observe, Series.toValues, Index.toValues, Series.getIndex,
    Index.getIterator, Index.new, Series.getIterator, ordered_series.
  cbn [Series_iterable Series_index Index_iterable].
  eapply (evals_eq _ _
    (values ← (it ← (sorted ← Ok tuples;
                     values ← res_mapM (fun row => get_index row 1) sorted;
                     Ok (ArrayIterator1 values));
               realize it);
     labels ← (it ← (sorted ← Ok tuples;
                     labels ← res_mapM (fun row => get_index row 0) sorted;
                     Ok (ArrayIterator1 labels));
               realize it);
     Ok (values, labels))); [|evals_auto].
  cbn -[realize]. rewrite Hv', Hl'. cbn -[realize].
  by rewrite !(realize_yields _ _ (yields_ArrayIterator1 _)).
Qed.

Lemma Series_validate_thenBy_cmds (steps : list (bool * (value -> value))) :
  exists units,
    res_mapM (fun orderCmd => validateSortMethod (sortMethod orderCmd))
             (map Series_thenBy_cmd steps) = Ok units.
Proof.
  induction steps as [|[[] f] steps [units IH]]; [by eexists|..];
    cbn -[validateSortMethod String.eqb]; rewrite IH;
    cbn; by eexists.
Qed.

Lemma Series_E_aggregate_thenBy (steps : list (bool * (value -> value))) :
  forall source context,
  E_aggregate
    (fun unsorted orderCmd =>
       E_sortMethod (sortMethod orderCmd) unsorted
         (fun row => value ← get_index row 1; sortSelector orderCmd value))
    (map Series_thenBy_cmd steps) (E_ordered source context)
  = Ok (E_ordered source
          (context ++
           map (fun step : bool * (value -> value) =>
                  mkSortKey (fun row => value ← get_index row 1; Ok (step.2 value)) step.1)
               steps)).
Proof.
  induction steps as [|[desc f] steps IH]; intros source context.
  - cbn. by rewrite app_nil_r.
  - cbn [map E_aggregate]. destruct desc; cbn -[E_aggregate]; rewrite IH, <- app_assoc; done.
Qed.

Lemma pair_keys (steps : list (bool * (value -> value))) (label v : value) :
  generate_keys
    (map (fun step : bool * (value -> value) =>
            mkSortKey (fun row => value ← get_index row 1; Ok (step.2 value)) step.1) steps)
    (VArr [label; v])
  = Ok (value_keys steps v).
Proof.
  unfold generate_keys, value_keys. induction steps as [|step steps IH]; [done|].
  cbn [map res_mapM keySelector]. rewrite IH. done.
Qed.

Lemma pairs_nth (labels : list value) : forall (values : list value) (p : nat),
  length labels = length values -> (p < length values)%nat ->
  nth p (zip_with (fun index value => VArr [index; value]) labels values) VUndefined
  = VArr [nth p labels VUndefined; nth p values VUndefined].
Proof.
  induction labels as [|label labels IH]; intros [|value values] p Hlen Hp; cbn in *; try lia.
  destruct p as [|p]; [done|]. apply IH; lia.
Qed.

(** The tuples a chain of sort calls on a series caches, for values
    whose keys are, level by level, all integers or all strings: the
    (label, value) tuples permuted by a permutation of the positions
    along which the composite order of the chain holds. *)
Lemma Series_sorted_tuples_chain (first : bool * (value -> value)) steps kinds labels values :
  length labels = length values ->
  Forall (fun v => Forall2 has_kind kinds (value_keys (first :: steps) v)) values ->
  exists perm : list nat,
    perm ≡ₚ seq 0 (length values) /\
    Series_sorted_tuples (Series_chain_batch first steps) labels values
    = Ok (map (fun p => VArr [nth p labels VUndefined; nth p values VUndefined]) perm) /\
    forall i j p q, (i < j)%nat -> perm !! i = Some p -> perm !! j = Some q ->
      before (map fst (first :: steps))
             (value_keys (first :: steps) (nth p values VUndefined))
             (value_keys (first :: steps) (nth q values VUndefined)) p q.
Proof.
  intros Hlen Hkinds.
  set (source := zip_with (fun index value => VArr [index; value]) labels values).
  set (context := map (fun step : bool * (value -> value) =>
                         mkSortKey (fun row => value ← get_index row 1; Ok (step.2 value))
                                   step.1) (first :: steps)).
  set (keyss := map (value_keys (first :: steps)) values).
  assert (Hsource : length source = length values).
  { unfold source. rewrite length_zip_with. lia. }
  assert (Hsorted : Series_sorted_tuples (Series_chain_batch first steps) labels values
                    = E_toArray (E_ordered source context)).
  { unfold Series_sorted_tuples, Series_chain_batch. fold source.
    destruct (Series_validate_thenBy_cmds steps) as [units Hunits].
    cbn [res_mapM sortMethod].
    assert (Hv : validateSortMethod (if first.1 then "orderByDescending" else "orderBy") = Ok tt)
      by (by destruct first.1).
    rewrite Hv, Hunits. cbn [mbind res_bind E_aggregate sortMethod sortSelector].
    assert (Hfirst :
      E_sortMethod (if first.1 then "orderByDescending" else "orderBy") (E_seq source)
        (fun row => value ← get_index row 1; Ok (first.2 value))
      = Ok (E_ordered source
              [mkSortKey (fun row => value ← get_index row 1; Ok (first.2 value)) first.1]))
      by (by destruct first.1).
    rewrite Hfirst. cbn [mbind res_bind]. rewrite Series_E_aggregate_thenBy. reflexivity. }
  assert (Hkeys : exists kinds',
            length context = length kinds' /\
            Forall2 (fun x keys => generate_keys context x = Ok keys /\
                                   Forall2 has_kind kinds' keys) source keyss).
  { destruct (decide (values = [])) as [->|Hne].
    { exists (replicate (length context) KNum). rewrite length_replicate. split; [done|].
      destruct labels; [|done]. constructor. }
    exists kinds. split.
    { unfold context. rewrite length_map. destruct Hkinds as [|v0 values0 Hk _]; [done|].
      apply Forall2_length in Hk. unfold value_keys in Hk. by rewrite length_map in Hk. }
    unfold source, keyss. clear -Hlen Hkinds. revert labels Hlen.
    induction Hkinds as [|v values Hk _ IH]; intros [|label labels] Hlen; try done.
    cbn [map zip_with]. constructor; [|apply IH; cbn in Hlen; lia].
    split; [|done]. apply pair_keys. }
  destruct Hkeys as (kinds' & Hctx & Hkeys).
  destruct (E_toArray_ordered context source kinds' keyss Hctx Hkeys)
    as (perm & Hperm & Harr & Hbefore).
  exists perm. rewrite Hsource in Hperm. split; [done|].
  assert (Hin : forall i p, perm !! i = Some p -> (p < length values)%nat).
  { intros i p Hp. apply list_elem_of_lookup_2 in Hp. rewrite Hperm in Hp.
    apply elem_of_seq in Hp. lia. }
  split.
  - rewrite Hsorted, Harr. f_equal. apply list_eq. intros i.
    rewrite !list_lookup_fmap. destruct (perm !! i) as [p|] eqn:Hp; [|done].
    cbn. f_equal. apply pairs_nth; [done|]. by eapply Hin.
  - intros i j p q Hij Hp Hq. specialize (Hbefore i j p q Hij Hp Hq).
    unfold context in Hbefore. rewrite map_map in Hbefore. cbn [descending] in Hbefore.
    assert (Hnth : forall p, (p < length values)%nat ->
              nth p keyss [] = value_keys (first :: steps) (nth p values VUndefined)).
    { intros r Hr. unfold keyss.
      rewrite (nth_indep _ [] (value_keys (first :: steps) VUndefined))
        by (rewrite length_map; lia).
      apply (map_nth (value_keys (first :: steps))). }
    rewrite !Hnth in Hbefore by (by eapply Hin). exact Hbefore.
Qed.

Lemma pairs_components_perm (labels values : list value) (perm : list nat) :
  res_mapM (fun row => get_index row 1)
    (map (fun p => VArr [nth p labels VUndefined; nth p values VUndefined]) perm)
  = Ok (map (fun p => nth p values VUndefined) perm) /\
  res_mapM (fun row => get_index row 0)
    (map (fun p => VArr [nth p labels VUndefined; nth p values VUndefined]) perm)
  = Ok (map (fun p => nth p labels VUndefined) perm).
Proof.
  induction perm as [|p perm [IH1 IH0]]; [done|]. cbn [map res_mapM].
  rewrite IH1, IH0. done.
Qed.

(** The sorted series of a chain of sort calls realizes the values and
    the labels of the source along one permutation that the composite
    order of the keys holds along. *)
Lemma Series_orderBy_sorted W (self : Series) it ix values labels
    (first : bool * (value -> value)) steps kinds h :
  Series_den W self (Ok it) (Ok ix) ->
  realize it = Ok values -> realize ix = Ok labels ->
  length labels = length values ->
  Forall (fun v => Forall2 has_kind kinds (value_keys (first :: steps) v)) values ->
  sat W h ->
  exists perm : list nat,
    perm ≡ₚ seq 0 (length values) /\
    fst <$> (sorted ← Series_orderBy_chain self first steps;
             Series_observe (sorted_series sorted)) h
    = Ok (map (fun p => nth p values VUndefined) perm,
          map (fun p => nth p labels VUndefined) perm) /\
    forall i j p q, (i < j)%nat -> perm !! i = Some p -> perm !! j = Some q ->
      before (map fst (first :: steps))
             (value_keys (first :: steps) (nth p values VUndefined))
             (value_keys (first :: steps) (nth q values VUndefined)) p q.
Proof.
  intros Hden Hvalues Hlabels Hlen Hkinds Hs.
  destruct (Series_sorted_tuples_chain first steps kinds labels values Hlen Hkinds)
    as (perm & Hperm & Htuples & Hbefore).
  exists perm. split; [done|]. split; [|done].
  destruct (Series_orderBy_chain_run W self first steps h Hs)
    as (c & h' & Hrun & Hs' & Hc & Hcell).
  destruct (pairs_components_perm labels values perm) as [Hv' Hl'].
  unfold mbind at 1, M_bind at 1. rewrite Hrun. cbn [sorted_series].
  apply (ordered_series_observe W self _ c it ix labels values _ _ _ h' None
           Hden Hvalues Hlabels Htuples Hv' Hl' Hs' Hc Hcell). by left.
Qed.

(** *** C4: the order-by engine *)




(** *** C8: the arguments of the order-by calls *)

Lemma Series_orderThenBy_checks_Ok (batch : list orderCmd) (cmd : orderCmd) :
  Series.orderThenBy_checks (batch ++ [cmd]) "thenBy" = Ok tt /\
  Series.orderThenBy_checks (batch ++ [cmd]) "thenByDescending" = Ok tt.
Proof.
  assert (Hassert : assert (0 <? len (batch ++ [cmd])) "" = Ok tt).
  { unfold len. rewrite length_app. cbn [length].
    by destruct (Z.ltb_spec 0 (Z.of_nat (length batch + 1))); [|lia]. }
  unfold Series.orderThenBy_checks. by rewrite Hassert.
Qed.

(** A [thenBy] or [thenByDescending] call of a sorted series with a
    function: it returns, allocates the memo cell of the new sorted
    series and touches nothing else. *)
Lemma Series_orderThenBy_run (self : Series) batch (desc : bool) f h :
  exists sorted,
    Series.orderThenBy self batch (if desc then "thenByDescending" else "thenBy")
      (ArgFunction f) h
    = Ok (sorted, h ++ [None]) /\
    thenBy_self sorted = self /\
    thenBy_batch sorted
    = batch ++ [mkOrderCmd (fun v => Ok (f v)) (if desc then "thenByDescending" else "thenBy")].
Proof.
  set (cmd := mkOrderCmd (fun v => Ok (f v)) (if desc then "thenByDescending" else "thenBy")).
  destruct (Series_orderThenBy_checks_Ok batch cmd) as [Hc1 Hc2].
  assert (Hassert : assert (0 <? len (batch ++ [cmd])) "" = Ok tt).
  { unfold len. rewrite length_app. cbn [length].
    by destruct (Z.ltb_spec 0 (Z.of_nat (length batch + 1))); [|lia]. }
  eexists (mkSortedSeries _ self (batch ++ [cmd])). split; [|done].
  unfold Series.orderThenBy. cbn [assert_isFunction]. unfold mbind at 1, M_bind at 1, lift at 1.
  cbv zeta. fold cmd. unfold Series.executeOrderBy.
  rewrite Hassert, Hc1, Hc2. reflexivity.
Qed.




(** *** Runs that keep the heap fitting a world *)

Lemma keeps_ret {A} W (a : A) (Q : A -> Prop) : Q a -> keeps W (mret a) Q.
Proof. intros HQ h Hs a' h' [= <- <-]. done. Qed.

Lemma keeps_lift {A} W (r : res A) (Q : A -> Prop) :
  (forall a, r = Ok a -> Q a) -> keeps W (lift r) Q.
Proof. intros HQ h Hs a h' Hrun. unfold lift in Hrun. destruct r; simplify_eq. auto. Qed.

Lemma keeps_bind {A B} W (m : M A) (f : A -> M B) (P : A -> Prop) (Q : B -> Prop) :
  keeps W m P -> (forall a, P a -> keeps W (f a) Q) -> keeps W (m ≫= f) Q.
Proof.
  intros Hm Hf h Hs b h' Hrun. unfold mbind, M_bind in Hrun.
  destruct (m h) as [[a h1]|e] eqn:Hmh; [|done].
  destruct (Hm h Hs a h1 Hmh) as [Hs1 HP]. exact (Hf a HP h1 Hs1 b h' Hrun).
Qed.

Lemma keeps_weaken {A} W (m : M A) (P Q : A -> Prop) :
  keeps W m P -> (forall a, P a -> Q a) -> keeps W m Q.
Proof. intros Hm HPQ h Hs a h' Hrun. destruct (Hm h Hs a h' Hrun). auto. Qed.

Lemma keeps_new_cell W : keeps W new_cell (fun c => (length W <= c)%nat).
Proof.
  intros h Hs c h' [= <- <-]. split; [by apply sat_alloc|apply Hs].
Qed.

Lemma keeps_read_cell W (c : nat) : keeps W (read_cell c) (fun _ => True).
Proof. intros h Hs o h' [= <- <-]. done. Qed.

Lemma keeps_write_cell W (c : nat) (x : cell) :
  (length W <= c)%nat -> keeps W (write_cell c x) (fun _ => True).
Proof.
  intros Hc h [Hlen Hcells] [] h' [= <-]. split; [|exact I]. split.
  - by rewrite length_insert.
  - intros l e Hl. rewrite list_lookup_insert_ne; [by apply Hcells|].
    apply lookup_lt_Some in Hl. lia.
Qed.

Lemma keeps_evals {A} W (m : M A) (r : res A) : evals W m r -> keeps W m (fun _ => True).
Proof.
  intros Hm h Hs a h' Hrun. specialize (Hm h Hs). destruct r as [a'|e]; [|congruence].
  destruct Hm as (h1 & Hrun1 & Hs1 & _). rewrite Hrun1 in Hrun. by simplify_eq.
Qed.

Lemma keeps_bind_assoc {A B C} W (m : M A) (f : A -> M B) (g : B -> M C) (Q : C -> Prop) :
  keeps W (m ≫= fun a => f a ≫= g) Q -> keeps W ((m ≫= f) ≫= g) Q.
Proof. intros Hm h Hs c h' Hrun. rewrite M_bind_assoc in Hrun. eauto. Qed.

Lemma keeps_ret_bind {A B} W (a : A) (f : A -> M B) (Q : B -> Prop) :
  keeps W (f a) Q -> keeps W (mret a ≫= f) Q.
Proof. intros Hf h Hs b h' Hrun. exact (Hf h Hs b h' Hrun). Qed.

Lemma keeps_lift_bind {A B} W (r : res A) (f : A -> M B) (Q : B -> Prop) :
  (forall a, r = Ok a -> keeps W (f a) Q) -> keeps W (lift r ≫= f) Q.
Proof.
  intros Hf. apply (keeps_bind W _ _ (fun a => r = Ok a)); [|done]. by apply keeps_lift.
Qed.

(** Rules chosen by the shape of the computation. *)
Ltac keeps_record :=
  lazy beta iota zeta;
  cbn [cfg_values cfg_index Series_iterable Series_index Index_iterable sorted_series
       thenBy_self thenBy_batch df_columnNames df_rows df_index DataFrame_columnNames
       DataFrame_iterable sorted_frame thenBy_frame thenBy_orders
       DataFrame.evalColumnNames default from_option id] in *.

Ltac keeps_step :=
  lazymatch goal with
  | H : keeps ?W ?m _ |- keeps ?W ?m _ => exact H
  | |- True => exact I
  | |- _ /\ _ => split
  | |- keeps _ ((_ ≫= _) ≫= _) _ => apply keeps_bind_assoc
  | |- keeps _ (mret _ ≫= _) _ => apply keeps_ret_bind; keeps_record
  | |- keeps _ (lift _ ≫= _) _ =>
      apply keeps_lift_bind; let H := fresh "Heq" in
      intros ? H; try (injection H as <-); keeps_record
  | |- keeps ?W (new_cell ≫= _) _ =>
      apply (keeps_bind W _ _ (fun c => (length W <= c)%nat));
        [apply keeps_new_cell|intros ? ?; keeps_record]
  | |- keeps _ ((match ?x with _ => _ end) ≫= _) _ => destruct x; keeps_record
  | |- keeps ?W (_ ≫= _) _ =>
      apply (keeps_bind W _ _ (fun _ => True)); [|intros ? _; keeps_record]
  | |- keeps _ (mret _) _ => apply keeps_ret; keeps_record
  | |- keeps _ (lift _) _ =>
      apply keeps_lift; let H := fresh "Heq" in
      intros ? H; try (injection H as <-); keeps_record
  | |- keeps _ (read_cell _) _ => apply (keeps_weaken _ _ _ _ (keeps_read_cell _ _)); done
  | |- keeps _ (write_cell _ _) _ =>
      eapply keeps_weaken; [apply keeps_write_cell; lia|done]
  | |- keeps _ (match ?x with _ => _ end) _ => destruct x; keeps_record
  end.


Ltac unfold_objects :=
  unfold Series_keeps, DataFrame_keeps,
    Series.skip, Series.take, Series.skipWhile, Series.takeWhile, Series.where_,
    Series.select, Series.selectMany, Series.reverse, Series.bake,
    Series.orderBy, Series.orderByDescending, Series.orderBy_, Series.orderThenBy,
    Series.thenBy, Series.thenByDescending, Series.executeOrderBy,
    Series.executeLazyWhere, Series.lazyEvaluate, Series.executeLazySort,
    Series.toValues, Series.new,
    Index.skip, Index.take, Index.reverse, Index.bake, Index.toValues, Index.new,
    Series.getIterator, Series.getIndex, Index.getIterator,
    DataFrame.skip, DataFrame.take, DataFrame.skipWhile, DataFrame.takeWhile,
    DataFrame.where_, DataFrame.select, DataFrame.selectMany, DataFrame.reverse,
    DataFrame.bake, DataFrame.orderBy, DataFrame.orderByDescending, DataFrame.orderBy_,
    DataFrame.orderThenBy, DataFrame.thenBy, DataFrame.thenByDescending,
    DataFrame.executeOrderBy, DataFrame.executeLazySort, DataFrame.processColumnSelector,
    DataFrame.select_determineColumnNames, DataFrame.determineColumnNames,
    DataFrame.mapRowByColumns, DataFrame.toValues, DataFrame.toObjects, DataFrame.new,
    DataFrame.getIndex, DataFrame.getColumnNames, DataFrame.getIterator in *;
  keeps_record.

Ltac keeps_auto := repeat first [keeps_step | progress unfold_objects].

(** Every operator call keeps the heap fitting a world that the source
    keeps fitting, and so do the producers of the object it returns. *)
Lemma Series_apply_keeps W (op : Series_operator) (self : Series) :
  Series_keeps W self -> keeps W (Series_apply op self) (Series_keeps W).
Proof.
  intros [Hv Hi]. destruct op; cbn [Series_apply]; do 2 unfold_objects; keeps_auto.
Qed.

Lemma Series_thenBy_keeps W (sorted : SortedSeries) (desc : bool) (sortSelector : js_arg) :
  Series_keeps W (thenBy_self sorted) ->
  keeps W (if desc then Series.thenByDescending sorted sortSelector
           else Series.thenBy sorted sortSelector)
        (fun sorted' => Series_keeps W (sorted_series sorted')).
Proof.
  intros [Hv Hi]. destruct desc; do 2 unfold_objects; keeps_auto.
Qed.

Lemma DataFrame_apply_keeps W (op : DataFrame_operator) (self : DataFrame) :
  DataFrame_keeps W self -> keeps W (DataFrame_apply op self) (DataFrame_keeps W).
Proof.
  intros [Hn Hr]. destruct op; cbn [DataFrame_apply]; do 2 unfold_objects; keeps_auto.
Qed.

Lemma DataFrame_thenBy_keeps W (sorted : SortedDataFrame) (desc : bool) (arg : js_arg) :
  DataFrame_keeps W (thenBy_frame sorted) ->
  keeps W (if desc then DataFrame.thenByDescending sorted arg
           else DataFrame.thenBy sorted arg)
        (fun sorted' => DataFrame_keeps W (sorted_frame sorted')).
Proof.
  intros [Hn Hr]. destruct desc; do 2 unfold_objects; keeps_auto.
Qed.

Lemma Series_observe_keeps W (s : Series) :
  Series_keeps W s -> keeps W (Series_observe s) (fun _ => True).
Proof. intros [Hv Hi]. unfold Series_observe. unfold_objects. keeps_auto. Qed.

Lemma DataFrame_observe_keeps W (df : DataFrame) :
  DataFrame_keeps W df -> keeps W (DataFrame_observe df) (fun _ => True).
Proof. intros [Hn Hr]. unfold DataFrame_observe. unfold_objects. keeps_auto. Qed.

Lemma Series_observe_evals W (self : Series) values labels :
  Series_den W self values labels ->
  evals W (Series_observe self)
    (values ← (it ← values; realize it);
     labels ← (it ← labels; realize it);
     Ok (values, labels)).
Proof.
  intros [Hv Hi]. unfold Series_observe, Series.toValues, Index.toValues. evals_auto.
Qed.

Lemma DataFrame_observe_evals W (self : DataFrame) names rows :
  DataFrame_den W self names rows ->
  evals W (DataFrame_observe self)
    (values ← (it ← rows; realize it);
     labels ← (it ← (iterator ← rows; Ok (IndexCursor iterator)); realize it);
     names ← names;
     Ok (values, labels, names)).
Proof.
  intros [Hn Hr].
  unfold DataFrame_observe, DataFrame.toValues, Index.toValues, DataFrame.getIndex,
    Index.getIterator, Index.new.
  cbn [Index_iterable]. evals_auto.
Qed.

Lemma Series_den_keeps W (self : Series) values labels :
  Series_den W self values labels -> Series_keeps W self.
Proof. intros [Hv Hi]. split; by eapply keeps_evals. Qed.

Lemma DataFrame_den_keeps W (self : DataFrame) names rows :
  DataFrame_den W self names rows -> DataFrame_keeps W self.
Proof. intros [Hn Hr]. split; by eapply keeps_evals. Qed.

(** *** C7: the operators leave the original as it was *)

(** C7.  An operator call does not change what is observed of the
    object it is called on.  For a series or a data frame whose
    producers are determined in a world [W] (they read no memo cell but
    those [W] lists), and a heap [h] that fits [W]: when the call of
    any operator (skip, take, skipWhile, takeWhile, where, select,
    selectMany, orderBy, orderByDescending, reverse, bake) returns a
    derived object and that object is realized, the heap still fits
    [W], and the values, the labels and (for a data frame) the column
    names observed of the original afterwards are those observed
    before.  The same holds for [thenBy] and [thenByDescending] called
    on a sorted object: what is observed of that sorted object, its
    ordering included, is as before. *)
Theorem operators_leave_original_unchanged :
  (forall W (self : Series) values labels (op : Series_operator) h derived h1 out h2,
      Series_den W self values labels -> sat W h ->
      Series_apply op self h = Ok (derived, h1) ->
      Series_observe derived h1 = Ok (out, h2) ->
      sat W h2 /\
      fst <$> Series_observe self h2 = fst <$> Series_observe self h) /\
  (forall W (sorted : SortedSeries) values labels values0 labels0 (desc : bool) sortSelector
          h sorted' h1 out h2,
      Series_den W (sorted_series sorted) values labels ->
      Series_den W (thenBy_self sorted) values0 labels0 -> sat W h ->
      (if desc then Series.thenByDescending sorted sortSelector
       else Series.thenBy sorted sortSelector) h = Ok (sorted', h1) ->
      Series_observe (sorted_series sorted') h1 = Ok (out, h2) ->
      sat W h2 /\
      fst <$> Series_observe (sorted_series sorted) h2
      = fst <$> Series_observe (sorted_series sorted) h) /\
  (forall W (self : DataFrame) names rows (op : DataFrame_operator) h derived h1 out h2,
      DataFrame_den W self names rows -> sat W h ->
      DataFrame_apply op self h = Ok (derived, h1) ->
      DataFrame_observe derived h1 = Ok (out, h2) ->
      sat W h2 /\
      fst <$> DataFrame_observe self h2 = fst <$> DataFrame_observe self h) /\
  (forall W (sorted : SortedDataFrame) names rows names0 rows0 (desc : bool) arg
          h sorted' h1 out h2,
      DataFrame_den W (sorted_frame sorted) names rows ->
      DataFrame_den W (thenBy_frame sorted) names0 rows0 -> sat W h ->
      (if desc then DataFrame.thenByDescending sorted arg
       else DataFrame.thenBy sorted arg) h = Ok (sorted', h1) ->
      DataFrame_observe (sorted_frame sorted') h1 = Ok (out, h2) ->
      sat W h2 /\
      fst <$> DataFrame_observe (sorted_frame sorted) h2
      = fst <$> DataFrame_observe (sorted_frame sorted) h).
Proof.
  split; [|split; [|split]].
  - intros W self values labels op h derived h1 out h2 Hden Hs Hop Hout.
    destruct (Series_apply_keeps W op self (Series_den_keeps _ _ _ _ Hden) h Hs _ _ Hop)
      as [Hs1 Hderived].
    destruct (Series_observe_keeps W derived Hderived h1 Hs1 _ _ Hout) as [Hs2 _].
    split; [done|]. pose proof (Series_observe_evals _ _ _ _ Hden) as Hobs.
    by rewrite (evals_run _ _ _ h2 Hobs Hs2), (evals_run _ _ _ h Hobs Hs).
  - intros W sorted values labels values0 labels0 desc arg h sorted' h1 out h2
      Hden Hden0 Hs Hop Hout.
    destruct (Series_thenBy_keeps W sorted desc arg (Series_den_keeps _ _ _ _ Hden0)
                h Hs _ _ Hop) as [Hs1 Hderived].
    destruct (Series_observe_keeps W _ Hderived h1 Hs1 _ _ Hout) as [Hs2 _].
    split; [done|]. pose proof (Series_observe_evals _ _ _ _ Hden) as Hobs.
    by rewrite (evals_run _ _ _ h2 Hobs Hs2), (evals_run _ _ _ h Hobs Hs).
  - intros W self names rows op h derived h1 out h2 Hden Hs Hop Hout.
    destruct (DataFrame_apply_keeps W op self (DataFrame_den_keeps _ _ _ _ Hden) h Hs _ _ Hop)
      as [Hs1 Hderived].
    destruct (DataFrame_observe_keeps W derived Hderived h1 Hs1 _ _ Hout) as [Hs2 _].
    split; [done|]. pose proof (DataFrame_observe_evals _ _ _ _ Hden) as Hobs.
    by rewrite (evals_run _ _ _ h2 Hobs Hs2), (evals_run _ _ _ h Hobs Hs).
  - intros W sorted names rows names0 rows0 desc arg h sorted' h1 out h2
      Hden Hden0 Hs Hop Hout.
    destruct (DataFrame_thenBy_keeps W sorted desc arg (DataFrame_den_keeps _ _ _ _ Hden0)
                h Hs _ _ Hop) as [Hs1 Hderived].
    destruct (DataFrame_observe_keeps W _ Hderived h1 Hs1 _ _ Hout) as [Hs2 _].
    split; [done|]. pose proof (DataFrame_observe_evals _ _ _ _ Hden) as Hobs.
    by rewrite (evals_run _ _ _ h2 Hobs Hs2), (evals_run _ _ _ h Hobs Hs).
Qed.

(** What the frame [executeOrderBy] returned denotes in a world that
    expects the sorted tuples in its memo cell. *)
Lemma ordered_frame_den W self batch (c : nat) names it labels rows tuples labels' :
  DataFrame_den W self (Ok names) (Ok it) ->
  realize it = Ok rows -> realize (IndexCursor it) = Ok labels ->
  sorted_tuples names batch labels rows = Ok tuples ->
  res_mapM (fun row => get_index row 0) tuples = Ok labels' ->
  W !! c = Some (Filled (CArray tuples)) ->
  DataFrame_den W (ordered_frame self batch c names) (Ok names)
    (Ok (ApplyIndexIterator
           (ArrayIterator1 (map (fun row => VArr (drop 1 (E_from row))) tuples))
           (ArrayIterator1 labels'))).
Proof.
  intros [Hnames Hit] Hrows Hlabels Htuples Hlabels' Hcell.
  assert (Hsort : evals W (DataFrame.executeLazySort self batch c) (Ok tuples)).
  { rewrite <- Htuples.
    apply (executeLazySort_evals W self batch c names it labels rows); try done.
    by rewrite Htuples. }
  split; [apply evals_ret|].
  unfold DataFrame.getIterator, ordered_frame, Index.getIterator, Index.new.
  cbn [DataFrame_iterable Index_iterable].
  eapply (evals_eq _ _
    (it ← (sorted ← Ok tuples;
           Ok (ArrayIterator1 (map (fun row => VArr (drop 1 (E_from row))) sorted)));
     indexIterator ← (sorted ← Ok tuples;
                      labels ← res_mapM (fun row => get_index row 0) sorted;
                      Ok (ArrayIterator1 labels));
     Ok (ApplyIndexIterator it indexIterator))); [|evals_auto].
  cbn -[ApplyIndexIterator ArrayIterator1]. rewrite Hlabels'. done.
Qed.

Lemma operators_leave_original_unchanged_witness :
  (exists derived h1 out h2,
      Series_apply (Series_where (fun v => js_lt (VNum 1) v))
        (mkSeries (mret (ArrayIterator1 [VNum 1; VNum 2; VNum 3]))
                  (Index.new (inl [VNum 0; VNum 1; VNum 2]))) []
      = Ok (derived, h1) /\
      Series_observe derived h1 = Ok (out, h2) /\
      fst <$> Series_observe
                (mkSeries (mret (ArrayIterator1 [VNum 1; VNum 2; VNum 3]))
                          (Index.new (inl [VNum 0; VNum 1; VNum 2]))) h2
      = Ok ([VNum 1; VNum 2; VNum 3], [VNum 0; VNum 1; VNum 2])) /\
  (exists sorted' h1 out h2,
      DataFrame.thenBy
        (mkSortedDataFrame
           (ordered_frame
              (mkDataFrame (NamesArray ["n"; "s"])
                 (mret (ArrayIterator1 [VArr [VNum 2; VStr "a"]; VArr [VNum 1; VStr "b"]])))
              [mkOrderCmd (selector_of ["n"; "s"] (ArgValue (VStr "n"))) "orderBy"]
              0 ["n"; "s"])
           (mkDataFrame (NamesArray ["n"; "s"])
              (mret (ArrayIterator1 [VArr [VNum 2; VStr "a"]; VArr [VNum 1; VStr "b"]])))
           [mkOrderCmd (selector_of ["n"; "s"] (ArgValue (VStr "n"))) "orderBy"])
        (ArgValue (VStr "s")) [None]
      = Ok (sorted', h1) /\
      DataFrame_observe (sorted_frame sorted') h1 = Ok (out, h2) /\
      fst <$> DataFrame_observe
                (ordered_frame
                   (mkDataFrame (NamesArray ["n"; "s"])
                      (mret (ArrayIterator1 [VArr [VNum 2; VStr "a"];
                                             VArr [VNum 1; VStr "b"]])))
                   [mkOrderCmd (selector_of ["n"; "s"] (ArgValue (VStr "n"))) "orderBy"]
                   0 ["n"; "s"]) h2
      = Ok ([VArr [VNum 1; VStr "b"]; VArr [VNum 2; VStr "a"]], [VNum 1; VNum 0],
            ["n"; "s"])).
Proof.
  split.
  - eexists _, _, _, _. split; [reflexivity|]. split; [vm_compute; reflexivity|].
    etransitivity.
    + eapply (proj1 operators_leave_original_unchanged []
                (mkSeries (mret (ArrayIterator1 [VNum 1; VNum 2; VNum 3]))
                          (Index.new (inl [VNum 0; VNum 1; VNum 2])))
                (Ok (ArrayIterator1 [VNum 1; VNum 2; VNum 3]))
                (Ok (ArrayIterator1 [VNum 0; VNum 1; VNum 2]))
                (Series_where (fun v => js_lt (VNum 1) v)) []).
      * split; apply evals_ret.
      * apply sat_nil.
      * reflexivity.
      * vm_compute. reflexivity.
    + vm_compute. reflexivity.
  - eexists _, _, _, _. split; [vm_compute; reflexivity|].
    split; [vm_compute; reflexivity|].
    etransitivity.
    + eapply (proj2 (proj2 (proj2 operators_leave_original_unchanged))
                [Filled (CArray [VArr [VNum 1; VNum 1; VStr "b"];
                                 VArr [VNum 0; VNum 2; VStr "a"]])]
                (mkSortedDataFrame
                   (ordered_frame
                      (mkDataFrame (NamesArray ["n"; "s"])
                         (mret (ArrayIterator1 [VArr [VNum 2; VStr "a"];
                                                VArr [VNum 1; VStr "b"]])))
                      [mkOrderCmd (selector_of ["n"; "s"] (ArgValue (VStr "n"))) "orderBy"]
                      0 ["n"; "s"])
                   (mkDataFrame (NamesArray ["n"; "s"])
                      (mret (ArrayIterator1 [VArr [VNum 2; VStr "a"];
                                             VArr [VNum 1; VStr "b"]])))
                   [mkOrderCmd (selector_of ["n"; "s"] (ArgValue (VStr "n"))) "orderBy"])
                _ _ (Ok ["n"; "s"])
                (Ok (ArrayIterator1 [VArr [VNum 2; VStr "a"]; VArr [VNum 1; VStr "b"]]))
                false (ArgValue (VStr "s")) [None]).
      * cbn [sorted_frame].
        apply (ordered_frame_den _ _ _ 0%nat _
                 (ArrayIterator1 [VArr [VNum 2; VStr "a"]; VArr [VNum 1; VStr "b"]])
                 [VNum 0; VNum 1]
                 [VArr [VNum 2; VStr "a"]; VArr [VNum 1; VStr "b"]]
                 [VArr [VNum 1; VNum 1; VStr "b"]; VArr [VNum 0; VNum 2; VStr "a"]]
                 [VNum 1; VNum 0]); try reflexivity.
        split; apply evals_ret.
      * split; apply evals_ret.
      * split; [cbn; lia|]. intros [|l] e [=]; subst.
        eexists. split; [reflexivity|]. by left.
      * vm_compute. reflexivity.
      * vm_compute. reflexivity.
    + vm_compute. reflexivity.
Defined.

(* ================================================================= *)
(** ** Part III: the other operations *)
(* ================================================================= *)

(** *** Objects with a known content *)

Lemma Series_yields_observe W (self : Series) values labels :
  Series_yields W self values labels ->
  evals W (Series_observe self) (Ok (values, labels)).
Proof.
  intros (it & ix & Hit & Hy & Hix & Hyx).
  unfold Series_observe, Series.toValues, Index.toValues.
  eapply (evals_eq _ _
    (values ← (it ← Ok it; realize it); labels ← (it ← Ok ix; realize it);
     Ok (values, labels))); [|evals_auto].
  cbn -[realize]. by rewrite (realize_yields _ _ Hy), (realize_yields _ _ Hyx).
Qed.

Lemma Series_yields_count W (self : Series) values labels :
  Series_yields W self values labels -> evals W (Series.count self) (Ok (len values)).
Proof.
  intros (it & ix & Hit & Hy & _). unfold Series.count.
  eapply (evals_eq _ _
    (it ← Ok it; count_loop it (S (bound it (state it))) (state it) 0)); [|evals_auto].
  cbn -[count_loop]. rewrite (count_loop_yields _ _ _ Hy); [done|].
  pose proof (yields_bound _ _ _ Hy). lia.
Qed.

Lemma yields_labelled_values it s rows labels :
  yields_labelled it s rows labels -> yields it s rows.
Proof.
  induction 1 as [s s' Hstep Hex|s s' v label rows labels Hstep Hcur Hidx Hb _ IH].
  - by eapply yields_end.
  - by eapply yields_next.
Qed.

Lemma yields_labelled_length it s rows labels :
  yields_labelled it s rows labels -> length rows = length labels.
Proof. induction 1; cbn; congruence. Qed.

Lemma yields_labelled_index it s rows labels (i : Z) :
  yields_labelled it s rows labels -> yields (IndexCursor it) (s, i) labels.
Proof.
  intros Hy. revert i.
  induction Hy as [s s' Hstep Hex|s s' v label rows labels Hstep Hcur Hidx Hb Hy IH]; intros i.
  - apply (yields_end (IndexCursor it) (s, i) (s', i + 1)); [cbn; by rewrite Hstep|].
    by apply exhausted_IndexCursor.
  - apply (yields_next (IndexCursor it) (s, i) (s', i + 1)); [cbn; by rewrite Hstep|done| |done].
    cbn. by rewrite <- (yields_labelled_length _ _ _ _ Hy).
Qed.

Lemma DataFrame_yields_observe W (self : DataFrame) names rows labels :
  DataFrame_yields W self names rows labels ->
  evals W (DataFrame_observe self) (Ok (rows, labels, names)).
Proof.
  intros (Hnames & it & Hit & Hy).
  eapply evals_eq; [|apply (DataFrame_observe_evals W self (Ok names) (Ok it)); by split].
  cbn -[realize].
  rewrite (realize_yields _ _ (yields_labelled_values _ _ _ _ Hy)).
  by rewrite (realize_yields _ _ (yields_labelled_index _ _ _ _ (-1) Hy)).
Qed.

(** The cursor of the generated index of a series: as many labels, from
    0, as the cursor of the values yields. *)
Lemma generated_index_evals W (fn : M iterator) it l :
  evals W fn (Ok it) -> yields it (state it) l ->
  evals W (it ← fn;
           length ← lift (count_loop it (S (bound it (state it))) (state it) 0);
           mret (ArrayIterator1 (E_range 0 (Z.to_nat length))))
        (Ok (ArrayIterator1 (E_range 0 (length l)))).
Proof.
  intros Hit Hy.
  eapply (evals_eq _ _
    (it ← Ok it;
     length ← count_loop it (S (bound it (state it))) (state it) 0;
     Ok (ArrayIterator1 (E_range 0 (Z.to_nat length))))); [|evals_auto].
  cbn -[count_loop]. rewrite (count_loop_yields _ _ _ Hy).
  - cbn. unfold len. by rewrite Z.add_0_l, Nat2Z.id.
  - pose proof (yields_bound _ _ _ Hy). lia.
Qed.

(** *** the series without an explicit index *)

Lemma generated_index_observe W (fn : M iterator) it (l : list value) :
  evals W fn (Ok it) -> yields it (state it) l ->
  exists self,
    Series.new (Some {| cfg_values := Some (inr fn); cfg_index := None |}) = Ok self /\
    evals W (Series_observe self) (Ok (l, E_range 0 (length l))) /\
    evals W (Series.count self) (Ok (len l)).
Proof.
  intros Hit Hy. eexists. split; [reflexivity|].
  assert (Hys : Series_yields W
            (mkSeries fn (Index.new (inr (
               it ← fn;
               length ← lift (count_loop it (S (bound it (state it))) (state it) 0);
               mret (ArrayIterator1 (E_range 0 (Z.to_nat length)))))))
            l (E_range 0 (length l))).
  { exists it, (ArrayIterator1 (E_range 0 (length l))).
    split; [exact Hit|]. split; [exact Hy|]. split; [|apply yields_ArrayIterator1].
    exact (generated_index_evals W fn it l Hit Hy). }
  split; [by apply Series_yields_observe|by eapply Series_yields_count].
Qed.

(** X1.  A series constructed from a producer of values, without an index,
    gets the labels 0, 1, ... up to the number of values its cursor
    yields; [toValues] gives the values and [count] their number. *)
Theorem Series_generated_index W (fn : M iterator) it (l : list value) :
  evals W fn (Ok it) -> yields it (state it) l ->
  exists self,
    Series.new (Some {| cfg_values := Some (inr fn); cfg_index := None |}) = Ok self /\
    evals W (Series_observe self) (Ok (l, E_range 0 (length l))) /\
    evals W (Series.count self) (Ok (len l)).
Proof. exact (generated_index_observe W fn it l). Qed.

Lemma Series_generated_index_witness :
  exists self,
    Series.new (Some {| cfg_values := Some (inr (mret (ArrayIterator1 [VStr "a"; VStr "b"])));
                        cfg_index := None |}) = Ok self /\
    evals [] (Series_observe self) (Ok ([VStr "a"; VStr "b"], [VNum 0; VNum 1])) /\
    evals [] (Series.count self) (Ok 2).
Proof.
  exact (Series_generated_index [] (mret (ArrayIterator1 [VStr "a"; VStr "b"]))
           (ArrayIterator1 [VStr "a"; VStr "b"]) [VStr "a"; VStr "b"]
           (evals_ret _ _) (yields_ArrayIterator1 _)).
Defined.

(** *** dataForge.range *)

Lemma exhausted_RangeCursor start count (i : Z) :
  count - 1 <= i -> exhausted (RangeCursor start count) i.
Proof.
  intros Hi. exists (fun t : Z => count - 1 <= t). split; [done|].
  intros t Ht. exists (t + 1). split; [|lia]. cbn.
  destruct (Z.ltb_spec (t + 1) count); [lia|done].
Qed.

Lemma yields_RangeCursor start count (k : nat) :
  yields (RangeCursor start count) (Z.of_nat k - 1)
    (map (fun j : nat => VNum (start + Z.of_nat j)) (seq k (Z.to_nat count - k))).
Proof.
  remember (Z.to_nat count - k)%nat as n eqn:Hn. revert k Hn.
  induction n as [|n IH]; intros k Hn; cbn [seq map].
  - eapply yields_end.
    + cbn. destruct (Z.ltb_spec (Z.of_nat k - 1 + 1) count) as [Hlt|]; [lia|done].
    + apply exhausted_RangeCursor. lia.
  - eapply yields_next.
    + cbn. destruct (Z.ltb_spec (Z.of_nat k - 1 + 1) count) as [|Hge]; [done|lia].
    + cbn. do 2 f_equal. lia.
    + cbn. rewrite length_map, length_seq. lia.
    + replace (Z.of_nat k - 1 + 1) with (Z.of_nat (S k) - 1) by lia. apply IH. lia.
Qed.

(** X2.  For safe integers [start], [count] and [start + count],
    [dataForge.range(start, count)] is the series of the [count]
    integers from [start], labelled from 0; it is empty when [count] is
    zero or negative.  The counter and every sum the cursor forms while
    it yields are safe integers, so the exact sums are the code's. *)
Theorem range_values (start count : Z) :
  safe_integer start -> safe_integer count -> safe_integer (start + count) ->
  (exists self,
      range start count = Ok self /\
      evals [] (Series_observe self)
        (Ok (E_range start (Z.to_nat count), E_range 0 (Z.to_nat count))) /\
      evals [] (Series.count self) (Ok (Z.max 0 count))) /\
  (forall i, 0 <= i <= count -> safe_integer i /\ safe_integer (start + i)).
Proof.
  intros Hsafe1 Hsafe2 Hsafe3. split; [clear Hsafe1 Hsafe2 Hsafe3|unfold safe_integer in *; intros; lia].
  pose proof (yields_RangeCursor start count 0) as Hy. rewrite Nat.sub_0_r in Hy.
  change (Z.of_nat 0 - 1) with (state (RangeCursor start count)) in Hy.
  fold (E_range start (Z.to_nat count)) in Hy.
  destruct (generated_index_observe [] (mret (RangeCursor start count)) _ _
              (evals_ret _ _) Hy) as (self & Hnew & Hobs & Hcount).
  exists self. split; [exact Hnew|].
  unfold E_range at 2 3 in Hobs. unfold len, E_range in Hcount.
  rewrite !length_map, length_seq in *. split; [exact Hobs|].
  eapply evals_eq; [|exact Hcount]. f_equal. lia.
Qed.

Lemma range_values_witness :
  exists self,
    range 5 3 = Ok self /\
    evals [] (Series_observe self) (Ok ([VNum 5; VNum 6; VNum 7], [VNum 0; VNum 1; VNum 2])) /\
    evals [] (Series.count self) (Ok 3).
Proof.
  destruct (range_values 5 3) as [Hrange _]; [unfold safe_integer; lia..|exact Hrange].
Defined.

Lemma evals_M_mapM {A B} W (f : A -> M B) (l : list A) (ys : list B) :
  Forall2 (fun x y => evals W (f x) (Ok y)) l ys -> evals W (M_mapM f l) (Ok ys).
Proof.
  induction 1 as [|x y l ys Hx _ IH]; cbn [M_mapM]; [apply evals_ret|].
  apply (evals_eq _ _ (y' ← Ok y; ys' ← Ok ys; Ok (y' :: ys'))); [done|]. evals_auto.
Qed.

(** *** dataForge.matrix *)

Lemma exhausted_MatrixCursor numColumns numRows start increment (s : Z * Z * option (list value)) :
  numRows <= s.1.1 -> exhausted (MatrixCursor numColumns numRows start increment) s.
Proof.
  intros Hs. exists (fun t : Z * Z * option (list value) => numRows <= t.1.1). split; [done|].
  intros [[rowIndex nextValue] curRow] Ht. cbn in Ht. exists (rowIndex, nextValue, curRow).
  cbn. destruct (Z.leb_spec numRows rowIndex); [done|lia].
Qed.

Lemma yields_MatrixCursor numColumns numRows start increment (k : nat) curRow :
  yields (MatrixCursor numColumns numRows start increment)
    (Z.of_nat k, start + Z.of_nat k * numColumns * increment, curRow)
    (map (fun i : nat =>
            VArr (map (fun j : nat =>
                         VNum (start + (Z.of_nat i * numColumns + Z.of_nat j) * increment))
                      (seq 0 (Z.to_nat numColumns))))
         (seq k (Z.to_nat numRows - k))).
Proof.
  remember (Z.to_nat numRows - k)%nat as n eqn:Hn. revert k curRow Hn.
  induction n as [|n IH]; intros k curRow Hn; cbn [seq map].
  - eapply yields_end.
    + cbn. destruct (Z.leb_spec numRows (Z.of_nat k)); [done|lia].
    + apply exhausted_MatrixCursor. cbn. lia.
  - eapply yields_next.
    + cbn. destruct (Z.leb_spec numRows (Z.of_nat k)); [lia|done].
    + cbn. do 2 f_equal. apply map_ext. intros j. f_equal. lia.
    + cbn. rewrite length_map, length_seq. lia.
    + replace (Z.of_nat k + 1) with (Z.of_nat (S k)) by lia.
      replace (start + Z.of_nat k * numColumns * increment + numColumns * increment)
        with (start + Z.of_nat (S k) * numColumns * increment) by lia.
      apply IH. lia.
Qed.

(** The numbers [matrix] computes stay safe integers: the step
    [numColumns * increment], the offsets [j * increment], the value
    [nextValue] before and after each row, and the cells. *)
Lemma matrix_safe (numColumns numRows start increment : Z) :
  safe_integer numColumns -> safe_integer numRows -> safe_integer increment ->
  Z.abs start + Z.abs numRows * Z.abs numColumns * Z.abs increment < 2 ^ 53 ->
  forall i j, 0 <= i < numRows -> 0 <= j < numColumns ->
    safe_integer (numColumns * increment) /\
    safe_integer (j * increment) /\
    safe_integer (start + i * (numColumns * increment)) /\
    safe_integer (start + (i + 1) * (numColumns * increment)) /\
    safe_integer (start + (i * numColumns + j) * increment).
Proof.
  unfold safe_integer. intros Hc Hr Hi Hb i j Hi' Hj'.
  assert (Habs : forall a b, 0 <= a <= b -> Z.abs (a * increment) <= b * Z.abs increment).
  { intros a b Hab. rewrite Z.abs_mul. rewrite (Z.abs_eq a) by lia. nia. }
  rewrite (Z.abs_eq numRows) in Hb by lia. rewrite (Z.abs_eq numColumns) in Hb by lia.
  pose proof (Habs numColumns (numRows * numColumns) ltac:(nia)).
  pose proof (Habs j (numRows * numColumns) ltac:(nia)).
  pose proof (Habs (i * numColumns) (numRows * numColumns) ltac:(nia)).
  pose proof (Habs ((i + 1) * numColumns) (numRows * numColumns) ltac:(nia)).
  pose proof (Habs (i * numColumns + j) (numRows * numColumns) ltac:(nia)).
  replace (i * (numColumns * increment)) with (i * numColumns * increment) by ring.
  replace ((i + 1) * (numColumns * increment)) with ((i + 1) * numColumns * increment) by ring.
  lia.
Qed.

(** X3.  For integer arguments that keep every number the code computes
    a safe integer, [dataForge.matrix(numColumns, numRows, start,
    increment)] has the columns ["1"] to [numColumns] and [numRows]
    rows; the cell of row [i] and column [j] (both from 0) is
    [start + (i * numColumns + j) * increment].  Its cursor has no
    [getCurrentIndex], so the index of a matrix with at least one row
    cannot be realized: [getIndex().toValues()] raises a [TypeError]. *)
Theorem matrix_values (numColumns numRows start increment : Z) (h : heap) :
  safe_integer numColumns -> safe_integer numRows -> safe_integer increment ->
  Z.abs start + Z.abs numRows * Z.abs numColumns * Z.abs increment < 2 ^ 53 ->
  (exists self,
      dataForge.matrix numColumns numRows start increment h = Ok (self, h) /\
      evals [] (DataFrame.getColumnNames self)
        (Ok (map (fun k : nat => pretty (1 + Z.of_nat k)) (seq 0 (Z.to_nat numColumns)))) /\
      evals [] (DataFrame.toValues self)
        (Ok (map (fun i : nat =>
                    VArr (map (fun j : nat =>
                                 VNum (start
                                       + (Z.of_nat i * numColumns + Z.of_nat j) * increment))
                              (seq 0 (Z.to_nat numColumns))))
                 (seq 0 (Z.to_nat numRows)))) /\
      evals [] (Index.toValues (DataFrame.getIndex self))
        (if 0 <? numRows then Err (TypeError "iterator.getCurrentIndex is not a function")
         else Ok [])) /\
  (forall i j, 0 <= i < numRows -> 0 <= j < numColumns ->
     safe_integer (numColumns * increment) /\
     safe_integer (j * increment) /\
     safe_integer (start + i * (numColumns * increment)) /\
     safe_integer (start + (i + 1) * (numColumns * increment)) /\
     safe_integer (start + (i * numColumns + j) * increment)).
Proof.
  intros Hsafe1 Hsafe2 Hsafe3 Hsafe4.
  split; [clear Hsafe1 Hsafe2 Hsafe3 Hsafe4
        |exact (matrix_safe numColumns numRows start increment Hsafe1 Hsafe2 Hsafe3 Hsafe4)].
  exists (mkDataFrame
            (NamesArray (map (fun k : nat => pretty (1 + Z.of_nat k))
                             (seq 0 (Z.to_nat numColumns))))
            (mret (MatrixCursor numColumns numRows start increment))).
  split; [reflexivity|]. split; [apply evals_ret|]. split.
  - unfold DataFrame.toValues, DataFrame.getIterator. cbn [DataFrame_iterable].
    eapply (evals_eq _ _ (it ← Ok (MatrixCursor numColumns numRows start increment);
                          realize it)); [|evals_auto].
    cbn -[realize]. apply realize_yields.
    pose proof (yields_MatrixCursor numColumns numRows start increment 0 None) as Hy.
    rewrite Nat.sub_0_r in Hy.
    replace (start + Z.of_nat 0 * numColumns * increment) with start in Hy by lia.
    exact Hy.
  - unfold Index.toValues, DataFrame.getIndex, Index.getIterator, Index.new,
      DataFrame.getIterator.
    cbn [Index_iterable DataFrame_iterable].
    eapply (evals_eq _ _
      (it ← (iterator ← Ok (MatrixCursor numColumns numRows start increment);
             Ok (IndexCursor iterator));
       realize it)); [|evals_auto].
    cbn. destruct (Z.leb_spec numRows 0); destruct (Z.ltb_spec 0 numRows); try lia; done.
Qed.

Lemma matrix_values_witness :
  exists self,
    dataForge.matrix 2 2 1 10 [] = Ok (self, []) /\
    evals [] (DataFrame.getColumnNames self) (Ok ["1"; "2"]) /\
    evals [] (DataFrame.toValues self)
      (Ok [VArr [VNum 1; VNum 11]; VArr [VNum 21; VNum 31]]) /\
    evals [] (Index.toValues (DataFrame.getIndex self))
      (Err (TypeError "iterator.getCurrentIndex is not a function")).
Proof.
  destruct (matrix_values 2 2 1 10 []) as [Hmatrix _]; [unfold safe_integer; lia..|].
  exact Hmatrix.
Defined.

(** *** dataForge.concat *)

(** X4.  [dataForge.concat] never returns a data frame.  It hands the
    constructor the column names and an [iterable] member, and the
    constructor, given column names, requires a [rows] member: whatever
    the data frames, the call raises; when their column names evaluate,
    what it raises is the constructor's error. *)
Theorem concat_raises :
  (forall (dataFrames : list DataFrame) (h : heap),
      is_Err (dataForge.concat dataFrames h)) /\
  (forall W (dataFrames : list DataFrame) (namess : list (list string)),
      Forall2 (fun df names => evals W (DataFrame.getColumnNames df) (Ok names))
              dataFrames namess ->
      evals W (dataForge.concat dataFrames)
        (Err (JsError
           "Expected to find a 'rows' member of 'config' parameter to DataFrame constructor."))).
Proof.
  split.
  - intros dataFrames h. unfold dataForge.concat, mbind, M_bind.
    destruct (dataForge.concatenateColumns dataFrames h) as [[names h']|e]; by eexists.
  - intros W dataFrames namess Hnames. unfold dataForge.concat, dataForge.concatenateColumns.
    apply (evals_eq _ _
      (columnNames ← (names ← Ok namess; Ok (distinct (concat names)));
       @Err DataFrame (JsError
         "Expected to find a 'rows' member of 'config' parameter to DataFrame constructor.")));
      [done|].
    apply evals_bind.
    + apply evals_bind; [by apply evals_M_mapM|]. intros ? _. apply evals_ret.
    + intros columnNames _ h Hs. reflexivity.
Qed.

Lemma concat_raises_witness :
  evals [] (dataForge.concat
              [mkDataFrame (NamesArray ["n"]) (mret (ArrayIterator1 [VArr [VNum 1]]));
               mkDataFrame (NamesArray ["s"]) (mret (ArrayIterator1 [VArr [VStr "a"]]))])
    (Err (JsError
       "Expected to find a 'rows' member of 'config' parameter to DataFrame constructor.")).
Proof.
  apply (proj2 concat_raises [] _ [["n"]; ["s"]]).
  repeat constructor; apply evals_ret.
Defined.

Lemma Series_yields_prefix W W' (self : Series) values labels :
  W `prefix_of` W' -> Series_yields W self values labels -> Series_yields W' self values labels.
Proof.
  intros Hpre (it & ix & Hit & Hy & Hix & Hyx). exists it, ix.
  split; [by eapply evals_prefix|]. split; [done|]. split; [by eapply evals_prefix|done].
Qed.

Lemma Series_yields_values W (self : Series) values labels :
  Series_yields W self values labels ->
  evals W (Series.toValues self) (Ok values) /\
  evals W (Index.toValues (Series.getIndex self)) (Ok labels).
Proof.
  intros (it & ix & Hit & Hy & Hix & Hyx). unfold Series.toValues, Index.toValues. split.
  - eapply (evals_eq _ _ (it ← Ok it; realize it)); [|evals_auto].
    cbn -[realize]. by apply realize_yields.
  - eapply (evals_eq _ _ (it ← Ok ix; realize it)); [|evals_auto].
    cbn -[realize]. by apply realize_yields.
Qed.

(** A series over two arrays. *)
Lemma Series_yields_arrays W (values labels : list value) :
  Series_yields W (mkSeries (mret (ArrayIterator1 values)) (Index.new (inl labels)))
    values labels.
Proof.
  exists (ArrayIterator1 values), (ArrayIterator1 labels).
  split; [apply evals_ret|]. split; [apply yields_ArrayIterator1|].
  split; [apply evals_ret|apply yields_ArrayIterator1].
Qed.

(** *** Series.where *)

Lemma where_pairs (predicate : value -> bool) (labels values : list value) :
  res_filter (fun data => value ← get_index data 1; Ok (predicate value))
             (zip_with (fun index value => VArr [index; value]) labels values)
  = Ok (map (fun p : value * value => VArr [p.1; p.2])
            (List.filter (fun p : value * value => predicate p.2) (zip labels values))).
Proof.
  revert values. induction labels as [|label labels IH]; intros [|value values]; try done.
  cbn [zip_with res_filter]. rewrite IH.
  change (get_index (VArr [label; value]) 1) with (Ok value). cbn.
  by destruct (predicate value).
Qed.

Lemma pairs_components (pairs : list (value * value)) :
  res_mapM (fun data => get_index data 1) (map (fun p : value * value => VArr [p.1; p.2]) pairs)
  = Ok (map snd pairs) /\
  res_mapM (fun data => get_index data 0) (map (fun p : value * value => VArr [p.1; p.2]) pairs)
  = Ok (map fst pairs).
Proof.
  induction pairs as [|[label value] pairs [IH1 IH0]]; [done|]. cbn [map res_mapM].
  rewrite IH1, IH0. done.
Qed.

Lemma executeLazyWhere_evals W (self : Series) (predicate : value -> bool) (c : nat)
    values labels :
  Series_yields W self values labels ->
  W !! c = Some (Filled (CArray
             (map (fun p : value * value => VArr [p.1; p.2])
                  (List.filter (fun p : value * value => predicate p.2) (zip labels values))))) ->
  evals W (Series.executeLazyWhere self predicate c)
    (Ok (map (fun p : value * value => VArr [p.1; p.2])
             (List.filter (fun p : value * value => predicate p.2) (zip labels values)))).
Proof.
  intros Hself Hc. destruct (Series_yields_values _ _ _ _ Hself) as [Hvalues Hlabels].
  set (body :=
    (index ← Index.toValues (Series.getIndex self);
     values ← Series.toValues self;
     lift (res_filter
             (fun data => value ← get_index data 1; Ok (predicate value))
             (zip_with (fun index value => VArr [index; value]) index values)))
    : M (list value)).
  assert (Hbody : evals W body
            (Ok (map (fun p : value * value => VArr [p.1; p.2])
                     (List.filter (fun p : value * value => predicate p.2)
                                  (zip labels values))))).
  { rewrite <- where_pairs. unfold body.
    eapply (evals_eq _ _
      (index ← Ok labels; values ← Ok values;
       res_filter (fun data => value ← get_index data 1; Ok (predicate value))
                  (zip_with (fun index value => VArr [index; value]) index values)));
      [done|evals_auto]. }
  pose proof (evals_memo W c body _ CArray
    (fun o => match o with Some (CArray filtered) => Some filtered | _ => None end)
    ltac:(done) ltac:(done) Hbody Hc) as Hmemo.
  eapply evals_proper; [|exact Hmemo].
  intros h. unfold Series.executeLazyWhere, body.
  apply M_bind_ext. intros [[]|] h'; try done.
  all: repeat first [rewrite M_bind_assoc | apply M_bind_ext; intros ? ?]; done.
Qed.

(** X5.  [where(predicate)] keeps the values that satisfy the predicate,
    each with the label it was paired with: the derived series realizes
    the pairs (label, value) of the source, in order, whose value
    passes; with as many labels as values these are exactly the values
    that pass. *)
Theorem Series_where_filters W (self : Series) values labels (predicate : value -> bool) h :
  Series_yields W self values labels -> sat W h ->
  exists derived h1,
    Series.where_ self predicate h = Ok (derived, h1) /\
    fst <$> Series_observe derived h1
    = Ok (map snd (List.filter (fun p : value * value => predicate p.2) (zip labels values)),
          map fst (List.filter (fun p : value * value => predicate p.2) (zip labels values))) /\
    (length labels = length values ->
     map snd (List.filter (fun p : value * value => predicate p.2) (zip labels values))
     = List.filter predicate values).
Proof.
  intros Hself Hs.
  set (pairs := List.filter (fun p : value * value => predicate p.2) (zip labels values)).
  set (filtered := map (fun p : value * value => VArr [p.1; p.2]) pairs).
  destruct (sat_new_cell W h (Filled (CArray filtered)) Hs) as (Hs' & Hc & Hlen & Hpre).
  set (W' := W ++ replicate (length h - length W) Any ++ [Filled (CArray filtered)]) in *.
  pose proof (executeLazyWhere_evals W' self predicate (length h) values labels
                (Series_yields_prefix _ _ _ _ _ Hpre Hself) Hc) as Hwhere.
  fold pairs in Hwhere. fold filtered in Hwhere.
  destruct (pairs_components pairs) as [H1 H0]. fold filtered in H1, H0.
  eexists _, (h ++ [None]). split; [reflexivity|]. split.
  - eapply (evals_run W'); [|exact Hs']. apply Series_yields_observe.
    exists (ArrayIterator1 (map snd pairs)), (ArrayIterator1 (map fst pairs)).
    split; [|split; [apply yields_ArrayIterator1|split; [|apply yields_ArrayIterator1]]].
    + unfold Series.getIterator. cbn [Series_iterable].
      eapply (evals_eq _ _
        (filtered ← Ok filtered;
         values ← res_mapM (fun data => get_index data 1) filtered;
         Ok (ArrayIterator1 values))); [|evals_auto].
      cbn. by rewrite H1.
    + unfold Series.getIndex, Index.getIterator, Index.new. cbn [Series_index Index_iterable].
      eapply (evals_eq _ _
        (filtered ← Ok filtered;
         labels ← res_mapM (fun data => get_index data 0) filtered;
         Ok (ArrayIterator1 labels))); [|evals_auto].
      cbn. by rewrite H0.
  - intros Hlens. unfold pairs. clear -Hlens. revert values Hlens.
    induction labels as [|label labels IH]; intros [|value values] Hlens; try done.
    cbn. destruct (predicate value); cbn; rewrite IH by (cbn in Hlens; lia); done.
Qed.

Lemma Series_where_filters_witness :
  exists derived h1,
    Series.where_
      (mkSeries (mret (ArrayIterator1 [VNum 1; VNum 5; VNum 7]))
                (Index.new (inl [VStr "a"; VStr "b"; VStr "c"])))
      (fun v => js_lt (VNum 2) v) []
    = Ok (derived, h1) /\
    fst <$> Series_observe derived h1 = Ok ([VNum 5; VNum 7], [VStr "b"; VStr "c"]).
Proof.
  destruct (Series_where_filters [] _ _ _ (fun v => js_lt (VNum 2) v) []
              (Series_yields_arrays [] [VNum 1; VNum 5; VNum 7]
                                    [VStr "a"; VStr "b"; VStr "c"])
              (sat_nil _)) as (derived & h1 & Hrun & Hobs & _).
  by exists derived, h1.
Defined.

(** *** Series.selectMany *)

Lemma selectMany_pairs (selector : value -> list value) (labels values : list value) :
  let pairs := zip labels values in
  let data := zip_with (fun index value => VArr [index; VArr (selector value)]) labels values in
  res_mapM (fun data => get_index data 1) data
  = Ok (map (fun p : value * value => VArr (selector p.2)) pairs) /\
  res_mapM (fun data =>
              index ← get_index data 0;
              values ← get_index data 1;
              Ok (match values with
                  | VArr values => replicate (length values) index
                  | _ => []
                  end)) data
  = Ok (map (fun p : value * value => replicate (length (selector p.2)) p.1) pairs).
Proof.
  revert values. induction labels as [|label labels IH]; intros [|value values]; try done.
  destruct (IH values) as [IH1 IH0]. cbn [zip_with zip map res_mapM] in *.
  rewrite IH1, IH0. done.
Qed.

Lemma lazyEvaluate_evals W (self : Series) (selector : value -> list value) (c : nat)
    values labels :
  Series_yields W self values labels ->
  W !! c = Some (Filled (CArrays
             (zip_with (fun index value => VArr [index; VArr (selector value)]) labels values)
             (concat (map (fun p : value * value => selector p.2) (zip labels values))))) ->
  evals W (Series.lazyEvaluate self selector c)
    (Ok (zip_with (fun index value => VArr [index; VArr (selector value)]) labels values,
         concat (map (fun p : value * value => selector p.2) (zip labels values)))).
Proof.
  intros Hself Hc. destruct (Series_yields_values _ _ _ _ Hself) as [Hvalues Hlabels].
  set (body :=
    (index ← Index.toValues (Series.getIndex self);
     values ← Series.toValues self;
     expanded ← lift (res_mapM (fun data => get_index data 1)
                        (zip_with (fun index value => VArr [index; VArr (selector value)])
                                  index values));
     mret (zip_with (fun index value => VArr [index; VArr (selector value)]) index values,
           E_selectMany E_from expanded))
    : M (list value * list value)).
  assert (Hbody : evals W body
            (Ok (zip_with (fun index value => VArr [index; VArr (selector value)])
                          labels values,
                 concat (map (fun p : value * value => selector p.2) (zip labels values))))).
  { unfold body.
    eapply (evals_eq _ _
      (index ← Ok labels; values ← Ok values;
       expanded ← res_mapM (fun data => get_index data 1)
                    (zip_with (fun index value => VArr [index; VArr (selector value)])
                              index values);
       Ok (zip_with (fun index value => VArr [index; VArr (selector value)]) index values,
           E_selectMany E_from expanded))); [|evals_auto].
    cbn -[res_mapM]. rewrite (proj1 (selectMany_pairs selector labels values)). cbn.
    unfold E_selectMany. by rewrite map_map. }
  pose proof (evals_memo W c body _ (fun a => CArrays a.1 a.2)
    (fun o => match o with Some (CArrays pairs elems) => Some (pairs, elems) | _ => None end)
    ltac:(by intros []) ltac:(done) Hbody Hc) as Hmemo.
  eapply evals_proper; [|exact Hmemo].
  intros h. unfold Series.lazyEvaluate, body.
  apply M_bind_ext. intros [[]|] h'; try done.
  all: repeat first [rewrite M_bind_assoc | apply M_bind_ext; intros ? ?]; done.
Qed.

(** X6.  [selectMany(selector)] replaces each value by the values the
    selector returns for it, in order, and repeats the label of the
    value once per replacement: the derived series has exactly as many
    labels as values, and each derived value carries the label of the
    value it came from. *)
Theorem Series_selectMany_expands W (self : Series) values labels
    (selector : value -> list value) h :
  Series_yields W self values labels -> sat W h ->
  exists derived h1,
    Series.selectMany self selector h = Ok (derived, h1) /\
    fst <$> Series_observe derived h1
    = Ok (concat (map (fun p : value * value => selector p.2) (zip labels values)),
          concat (map (fun p : value * value => replicate (length (selector p.2)) p.1)
                      (zip labels values))) /\
    length (concat (map (fun p : value * value => selector p.2) (zip labels values)))
    = length (concat (map (fun p : value * value => replicate (length (selector p.2)) p.1)
                          (zip labels values))).
Proof.
  intros Hself Hs.
  set (pairs := zip labels values).
  set (data := zip_with (fun index value => VArr [index; VArr (selector value)]) labels values).
  set (newValues := concat (map (fun p : value * value => selector p.2) pairs)).
  destruct (sat_new_cell W h (Filled (CArrays data newValues)) Hs) as (Hs' & Hc & Hlen & Hpre).
  set (W' := W ++ replicate (length h - length W) Any ++ [Filled (CArrays data newValues)]) in *.
  pose proof (lazyEvaluate_evals W' self selector (length h) values labels
                (Series_yields_prefix _ _ _ _ _ Hpre Hself) Hc) as Hlazy.
  fold pairs in Hlazy. fold data in Hlazy. fold newValues in Hlazy.
  destruct (selectMany_pairs selector labels values) as [_ H0]. cbv zeta in H0.
  fold pairs in H0. fold data in H0.
  eexists _, (h ++ [None]). split; [reflexivity|]. split.
  - eapply (evals_run W'); [|exact Hs']. apply Series_yields_observe.
    eexists (ArrayIterator1 newValues), (ArrayIterator1 _).
    split; [|split; [apply yields_ArrayIterator1|split; [|apply yields_ArrayIterator1]]].
    + unfold Series.getIterator. cbn [Series_iterable].
      eapply (evals_eq _ _
        ('(_, newValues) ← Ok (data, newValues); Ok (ArrayIterator1 newValues)));
        [done|evals_auto].
    + unfold Series.getIndex, Index.getIterator, Index.new. cbn [Series_index Index_iterable].
      eapply (evals_eq _ _
        ('(newIndexAndNewValues, _) ← Ok (data, newValues);
         indexValues ← res_mapM (fun data =>
              index ← get_index data 0;
              values ← get_index data 1;
              Ok (match values with
                  | VArr values => replicate (length values) index
                  | _ => []
                  end)) newIndexAndNewValues;
         Ok (ArrayIterator1 (concat indexValues)))); [|evals_auto].
      cbn -[res_mapM]. rewrite H0. done.
  - unfold newValues. clear. induction pairs as [|p pairs IH]; [done|].
    cbn. rewrite !length_app, IH, length_replicate. done.
Qed.

Lemma Series_selectMany_expands_witness :
  exists derived h1,
    Series.selectMany
      (mkSeries (mret (ArrayIterator1 [VNum 1; VNum 2]))
                (Index.new (inl [VStr "a"; VStr "b"])))
      (fun v => match v with VNum 1 => [v] | _ => [v; v] end) []
    = Ok (derived, h1) /\
    fst <$> Series_observe derived h1
    = Ok ([VNum 1; VNum 2; VNum 2], [VStr "a"; VStr "b"; VStr "b"]).
Proof.
  destruct (Series_selectMany_expands [] _ _ _
              (fun v => match v with VNum 1 => [v] | _ => [v; v] end) []
              (Series_yields_arrays [] [VNum 1; VNum 2] [VStr "a"; VStr "b"])
              (sat_nil _)) as (derived & h1 & Hrun & Hobs & _).
  by exists derived, h1.
Defined.

(** *** The Take and Skip cursors on a cursor that yields a sequence *)

Lemma yields_exhausted it s : exhausted it s -> yields it s [].
Proof.
  intros Hex. destruct (exhausted_step _ _ Hex) as (s' & Hstep & Hex').
  by eapply yields_end.
Qed.

Lemma exhausted_TakeIterator it takeAmount (s : St it) (n : Z) (valid : bool) :
  exhausted it s \/ n <= 0 -> exhausted (TakeIterator it takeAmount) (s, n, valid).
Proof.
  intros Hs.
  exists (fun t : St it * Z * bool => exhausted it t.1.1 \/ t.1.2 <= 0). split; [done|].
  intros [[t m] b] Ht. cbn in Ht. cbn.
  destruct (Z.ltb_spec 0 m) as [Hm|Hm].
  - destruct Ht as [Ht|Ht]; [|lia].
    destruct (exhausted_step _ _ Ht) as (t' & Hstep & Ht'). rewrite Hstep. cbn.
    eexists. split; [done|]. by left.
  - eexists. split; [done|]. by right.
Qed.

Lemma yields_TakeIterator it takeAmount s l :
  yields it s l -> forall (n : Z) (valid : bool),
  yields (TakeIterator it takeAmount) (s, n, valid) (take (Z.to_nat n) l).
Proof.
  induction 1 as [s s' Hstep Hex|s s' v l Hstep Hcur Hb Hy IH]; intros n valid.
  - rewrite take_nil. destruct (Z.ltb_spec 0 n) as [Hn|Hn].
    + eapply yields_end.
      * cbn. destruct (Z.ltb_spec 0 n); [|lia]. rewrite Hstep. done.
      * apply exhausted_TakeIterator. by left.
    + eapply yields_end.
      * cbn. destruct (Z.ltb_spec 0 n); [lia|]. done.
      * apply exhausted_TakeIterator. by right.
  - destruct (Z.ltb_spec 0 n) as [Hn|Hn].
    + replace (Z.to_nat n) with (S (Z.to_nat (n - 1))) by lia. cbn [take].
      eapply yields_next.
      * cbn. destruct (Z.ltb_spec 0 n); [|lia]. rewrite Hstep. done.
      * done.
      * cbn. rewrite length_take. lia.
      * apply IH.
    + replace (Z.to_nat n) with O by lia. cbn [take]. eapply yields_end.
      * cbn. destruct (Z.ltb_spec 0 n); [lia|]. done.
      * apply exhausted_TakeIterator. by right.
Qed.

Lemma skip_loop_yields it s l (k : nat) :
  yields it s l -> exists s1, skip_loop it k s = Ok s1 /\ yields it s1 (drop k l).
Proof.
  intros Hy. revert s l Hy. induction k as [|k IH]; intros s l Hy.
  - exists s. by rewrite drop_0.
  - destruct Hy as [s s' Hstep Hex|s s' v l Hstep Hcur Hb Hy].
    + exists s'. cbn. rewrite Hstep. cbn. split; [done|]. by apply yields_exhausted.
    + destruct (IH s' l Hy) as (s1 & Hskip & Hy1). exists s1. cbn. rewrite Hstep. done.
Qed.

Lemma exhausted_SkipIterator it skipAmount (s : St it) :
  exhausted it s -> exhausted (SkipIterator it skipAmount) (s, 0).
Proof.
  intros Hs. exists (fun t : St it * Z => exhausted it t.1 /\ t.2 = 0). split; [done|].
  intros [t m] [Ht Hm]. cbn in Ht, Hm. subst m.
  destruct (exhausted_step _ _ Ht) as (t' & Hstep & Ht').
  exists (t', 0). cbn. change (Z.to_nat 0) with O. cbn. rewrite Hstep. done.
Qed.

Lemma yields_SkipIterator_through it skipAmount s l :
  yields it s l -> yields (SkipIterator it skipAmount) (s, 0) l.
Proof.
  induction 1 as [s s' Hstep Hex|s s' v l Hstep Hcur Hb Hy IH].
  - eapply yields_end; [|by apply exhausted_SkipIterator].
    cbn. change (Z.to_nat 0) with O. cbn. by rewrite Hstep.
  - apply (yields_next (SkipIterator it skipAmount) (s, 0) (s', 0));
      [|exact Hcur|exact Hb|exact IH].
    cbn. change (Z.to_nat 0) with O. cbn. by rewrite Hstep.
Qed.

Lemma yields_SkipIterator it skipAmount s l (n : Z) :
  yields it s l -> yields (SkipIterator it skipAmount) (s, n) (drop (Z.to_nat n) l).
Proof.
  intros Hy. destruct (skip_loop_yields it s l (Z.to_nat n) Hy) as (s1 & Hskip & Hy1).
  pose proof (yields_bound _ _ _ Hy) as Hbound.
  assert (Hlen : (length (drop (Z.to_nat n) l) <= length l)%nat) by (rewrite length_drop; lia).
  destruct Hy1 as [s1 s' Hstep Hex|s1 s' v l' Hstep Hcur Hb Hy'].
  - apply (yields_end (SkipIterator it skipAmount) (s, n) (s', 0));
      [|by apply exhausted_SkipIterator].
    cbn. rewrite Hskip. cbn. by rewrite Hstep.
  - apply (yields_next (SkipIterator it skipAmount) (s, n) (s', 0)).
    + cbn. rewrite Hskip. cbn. by rewrite Hstep.
    + exact Hcur.
    + cbn in *. lia.
    + by apply yields_SkipIterator_through.
Qed.

(** *** Series.head and Series.tail *)

(** X7.  [head(n)] is the first [n] values with their labels (all of them
    when there are fewer, none when [n] is not positive), and [tail(n)]
    skips all but the last [n]: as many values and labels as the count
    of values exceeds [n]; for [n] between 0 and the count the derived
    series has exactly [n] values. *)
Theorem Series_head_tail W (self : Series) values labels (n : Z) :
  Series_yields W self values labels ->
  evals W (derived ← lift (Series.head self n); Series_observe derived)
    (Ok (take (Z.to_nat n) values, take (Z.to_nat n) labels)) /\
  evals W (derived ← Series.tail self n; Series_observe derived)
    (Ok (drop (Z.to_nat (len values - n)) values, drop (Z.to_nat (len values - n)) labels)) /\
  (0 <= n <= len values -> len (drop (Z.to_nat (len values - n)) values) = n).
Proof.
  intros Hself. pose proof (Series_yields_count _ _ _ _ Hself) as Hcount.
  destruct Hself as (it & ix & Hit & Hy & Hix & Hyx).
  split; [|split].
  - apply (evals_eq _ _
      (derived ← Series.head self n;
       Ok (take (Z.to_nat n) values, take (Z.to_nat n) labels))); [done|].
    apply evals_bind; [apply evals_lift|]. intros derived [= <-].
    apply Series_yields_observe.
    exists (TakeIterator it n), (TakeIterator ix n).
    split; [|split; [apply yields_TakeIterator, Hy|split; [|apply yields_TakeIterator, Hyx]]].
    + unfold Series.getIterator. cbn [Series_iterable].
      apply (evals_eq _ _ (it ← Ok it; Ok (TakeIterator it n))); [done|]. evals_auto.
    + unfold Series.getIndex, Index.take, Index.getIterator, Index.new.
      cbn [Series_index Index_iterable].
      apply (evals_eq _ _ (it ← Ok ix; Ok (TakeIterator it n))); [done|]. evals_auto.
  - assert (Htail : evals W (Series.tail self n)
                      (Series.skip self (len values - n))).
    { unfold Series.tail.
      apply (evals_eq _ _ (total ← Ok (len values); Series.skip self (total - n))); [done|].
      evals_auto. }
    apply (evals_eq _ _
      (derived ← Series.skip self (len values - n);
       Ok (drop (Z.to_nat (len values - n)) values,
           drop (Z.to_nat (len values - n)) labels))); [done|].
    apply evals_bind; [exact Htail|]. intros derived [= <-].
    apply Series_yields_observe.
    exists (SkipIterator it (len values - n)), (SkipIterator ix (len values - n)).
    split; [|split; [apply yields_SkipIterator, Hy|split; [|apply yields_SkipIterator, Hyx]]].
    + unfold Series.getIterator. cbn [Series_iterable].
      apply (evals_eq _ _ (it ← Ok it; Ok (SkipIterator it (len values - n)))); [done|].
      evals_auto.
    + unfold Series.getIndex, Index.skip, Index.getIterator, Index.new.
      cbn [Series_index Index_iterable].
      apply (evals_eq _ _ (it ← Ok ix; Ok (SkipIterator it (len values - n)))); [done|].
      evals_auto.
  - intros Hn. unfold len in *. rewrite length_drop. lia.
Qed.

Lemma Series_head_tail_witness :
  evals [] (derived ← Series.tail
                        (mkSeries (mret (ArrayIterator1 [VNum 4; VNum 5; VNum 6]))
                                  (Index.new (inl [VNum 0; VNum 1; VNum 2]))) 2;
            Series_observe derived)
    (Ok ([VNum 5; VNum 6], [VNum 1; VNum 2])).
Proof.
  exact (proj1 (proj2 (Series_head_tail [] _ _ _ 2
           (Series_yields_arrays [] [VNum 4; VNum 5; VNum 6] [VNum 0; VNum 1; VNum 2])))).
Defined.

(** *** Series.reverse and Series.bake *)

Lemma Series_reverse_evals W (self : Series) values labels :
  Series_yields W self values labels ->
  evals W (Series.reverse self)
    (Ok (mkSeries (mret (ArrayIterator1 (rev values))) (Index.new (inl (rev labels))))).
Proof.
  intros Hself. destruct (Series_yields_values _ _ _ _ Hself) as [Hvalues Hlabels].
  unfold Series.reverse, Index.reverse.
  apply (evals_eq _ _
    (values ← Ok values;
     index ← (values ← Ok labels; Ok (Index.new (inl (rev values))));
     Series.new (Some {| cfg_values := Some (inl (rev values)); cfg_index := Some index |})));
    [done|].
  evals_auto.
Qed.

(** X8.  [reverse()] realizes the values and the labels in reverse order,
    and reversing twice gives the values and labels of the original. *)
Theorem Series_reverse_involutive W (self : Series) values labels :
  Series_yields W self values labels ->
  evals W (reversed ← Series.reverse self; Series_observe reversed)
    (Ok (rev values, rev labels)) /\
  evals W (reversed ← Series.reverse self;
           twice ← Series.reverse reversed;
           Series_observe twice)
    (Ok (values, labels)).
Proof.
  intros Hself. pose proof (Series_reverse_evals _ _ _ _ Hself) as Hrev.
  pose proof (Series_reverse_evals W _ _ _ (Series_yields_arrays W (rev values) (rev labels)))
    as Hrev2.
  rewrite !rev_involutive in Hrev2.
  split.
  - apply (evals_eq _ _
      (reversed ← Ok (mkSeries (mret (ArrayIterator1 (rev values)))
                               (Index.new (inl (rev labels))));
       Ok (rev values, rev labels))); [done|].
    apply evals_bind; [exact Hrev|]. intros reversed [= <-].
    apply Series_yields_observe, Series_yields_arrays.
  - apply (evals_eq _ _
      (reversed ← Ok (mkSeries (mret (ArrayIterator1 (rev values)))
                               (Index.new (inl (rev labels))));
       twice ← Ok (mkSeries (mret (ArrayIterator1 values)) (Index.new (inl labels)));
       Ok (values, labels))); [done|].
    apply evals_bind; [exact Hrev|]. intros reversed [= <-].
    apply evals_bind; [exact Hrev2|]. intros twice [= <-].
    apply Series_yields_observe, Series_yields_arrays.
Qed.

Lemma Series_reverse_involutive_witness :
  evals [] (reversed ← Series.reverse
                         (mkSeries (mret (ArrayIterator1 [VNum 4; VNum 5]))
                                   (Index.new (inl [VStr "a"; VStr "b"])));
            Series_observe reversed)
    (Ok ([VNum 5; VNum 4], [VStr "b"; VStr "a"])).
Proof.
  exact (proj1 (Series_reverse_involutive [] _ _ _
                  (Series_yields_arrays [] [VNum 4; VNum 5] [VStr "a"; VStr "b"]))).
Defined.

(** X9.  [bake()] returns a series over two arrays, the values and the
    labels the source realizes at the call: what is observed of it is
    what is observed of the source, and it reads no memo cell and runs
    no producer of the source any more (it has its content in the empty
    world). *)
Theorem Series_bake_arrays W (self : Series) values labels :
  Series_yields W self values labels ->
  exists baked,
    evals W (Series.bake self) (Ok baked) /\
    Series_yields [] baked values labels /\
    evals [] (Series_observe baked) (Ok (values, labels)).
Proof.
  intros Hself. destruct (Series_yields_values _ _ _ _ Hself) as [Hvalues Hlabels].
  exists (mkSeries (mret (ArrayIterator1 values)) (Index.new (inl labels))).
  split; [|split; [apply Series_yields_arrays|apply Series_yields_observe, Series_yields_arrays]].
  unfold Series.bake, Index.bake.
  apply (evals_eq _ _
    (values ← Ok values;
     index ← (values ← Ok labels; Ok (Index.new (inl values)));
     Series.new (Some {| cfg_values := Some (inl values); cfg_index := Some index |})));
    [done|].
  evals_auto.
Qed.

Lemma Series_bake_arrays_witness :
  exists baked,
    evals [] (Series.bake (mkSeries (mret (ArrayIterator1 [VNum 4; VNum 5]))
                                    (Index.new (inl [VStr "a"; VStr "b"])))) (Ok baked) /\
    evals [] (Series_observe baked) (Ok ([VNum 4; VNum 5], [VStr "a"; VStr "b"])).
Proof.
  destruct (Series_bake_arrays [] _ _ _
              (Series_yields_arrays [] [VNum 4; VNum 5] [VStr "a"; VStr "b"]))
    as (baked & Hbake & _ & Hobs).
  by exists baked.
Defined.

(** *** Data frames with a known content *)

Lemma DataFrame_yields_prefix W W' (self : DataFrame) names rows labels :
  W `prefix_of` W' -> DataFrame_yields W self names rows labels ->
  DataFrame_yields W' self names rows labels.
Proof.
  intros Hpre (Hnames & it & Hit & Hy). split; [by eapply evals_prefix|].
  exists it. split; [by eapply evals_prefix|done].
Qed.

Lemma yields_labelled_ApplyIndexIterator it ix s si rows labels :
  yields it s rows -> yields ix si labels -> length rows = length labels ->
  yields_labelled (ApplyIndexIterator it ix) (s, si) rows labels.
Proof.
  intros Hy. revert si labels.
  induction Hy as [s s' Hstep Hex|s s' v l Hstep Hcur Hb Hy IH]; intros si labels Hy' Hlen.
  - destruct labels; [|done].
    apply (yields_labelled_end (ApplyIndexIterator it ix) (s, si) (s', si)); [cbn; by rewrite Hstep|].
    by apply exhausted_ApplyIndexIterator.
  - inversion Hy' as [|? si' label labels' Hstep' Hcur' Hb' Hy'']; subst; [done|].
    cbn in Hlen.
    apply (yields_labelled_next (ApplyIndexIterator it ix) (s, si) (s', si')).
    + cbn. by rewrite Hstep, Hstep'.
    + exact Hcur.
    + exact Hcur'.
    + cbn. lia.
    + apply IH; [done|lia].
Qed.

Lemma yields_labelled_ArrayIterator arr r0 (k : nat) :
  yields_labelled (ArrayIterator_at arr None r0) (Z.of_nat k - 1) (drop k arr)
    (map (fun j : nat => VNum (0 + Z.of_nat j)) (seq k (length arr - k))).
Proof.
  remember (length arr - k)%nat as n eqn:Hn. revert k Hn.
  induction n as [|n IH]; intros k Hn; cbn [seq map].
  - rewrite drop_ge by lia. eapply yields_labelled_end.
    + cbn. destruct (Z.ltb_spec (Z.of_nat k - 1 + 1) (len arr)) as [Hlt|]; [|done].
      unfold len in Hlt. lia.
    + apply exhausted_ArrayIterator. unfold len. lia.
  - assert (Hk : (k < length arr)%nat) by lia.
    destruct (lookup_lt_is_Some_2 arr _ Hk) as [x Hx].
    rewrite (drop_S _ _ _ Hx).
    assert (Hin : (0 <=? Z.of_nat k - 1 + 1) && (Z.of_nat k - 1 + 1 <? len arr) = true).
    { unfold len. apply andb_true_intro. split; [apply Z.leb_le|apply Z.ltb_lt]; lia. }
    eapply yields_labelled_next.
    + cbn. destruct (Z.ltb_spec (Z.of_nat k - 1 + 1) (len arr)) as [|Hge]; [done|].
      unfold len in Hge. lia.
    + cbn -[Z.add]. rewrite Hin.
      replace (Z.of_nat k - 1 + 1) with (Z.of_nat k) by lia.
      rewrite nth_value_nth by done. f_equal. by apply nth_lookup_Some.
    + cbn -[Z.add]. rewrite Hin. do 2 f_equal. lia.
    + cbn. rewrite length_drop. unfold len. lia.
    + replace (Z.of_nat k - 1 + 1) with (Z.of_nat (S k) - 1) by lia. apply IH. lia.
Qed.

(** A data frame over an array of rows has the labels 0, 1, ... *)
Lemma DataFrame_yields_arrays W (names : list string) (rows : list value) :
  DataFrame_yields W (mkDataFrame (NamesArray names) (mret (ArrayIterator1 rows)))
    names rows (E_range 0 (length rows)).
Proof.
  split; [apply evals_ret|]. exists (ArrayIterator1 rows). split; [apply evals_ret|].
  pose proof (yields_labelled_ArrayIterator rows (-1) 0) as Hy.
  rewrite drop_0, Nat.sub_0_r in Hy. exact Hy.
Qed.

(** The frame the constructor returns for column names, a producer of
    rows and an index. *)
Lemma DataFrame_new_evals W (names : list string) (rows : M iterator) (index : Index) :
  evals W (DataFrame.new (Some {|
             df_columnNames := Some (inl names);
             df_rows := Some (inr rows);
             df_index := Some index |}))
    (Ok (mkDataFrame (NamesArray names)
           (it ← rows;
            indexIterator ← Index.getIterator index;
            mret (ApplyIndexIterator it indexIterator)))).
Proof. intros h Hs. exists h. done. Qed.

Lemma indexed_frame_yields W (names : list string) (rows : M iterator) (index : Index)
    it ix (l labels : list value) :
  evals W rows (Ok it) -> yields it (state it) l ->
  evals W (Index.getIterator index) (Ok ix) -> yields ix (state ix) labels ->
  length l = length labels ->
  DataFrame_yields W
    (mkDataFrame (NamesArray names)
       (it ← rows;
        indexIterator ← Index.getIterator index;
        mret (ApplyIndexIterator it indexIterator)))
    names l labels.
Proof.
  intros Hit Hy Hix Hyx Hlen. split; [apply evals_ret|].
  exists (ApplyIndexIterator it ix). split.
  - unfold DataFrame.getIterator. cbn [DataFrame_iterable].
    apply (evals_eq _ _ (it ← Ok it; indexIterator ← Ok ix;
                         Ok (ApplyIndexIterator it indexIterator))); [done|].
    evals_auto.
  - by apply yields_labelled_ApplyIndexIterator.
Qed.

(** A frame derived from [self] that keeps the index of [self]. *)
Lemma derived_frame_yields W (self : DataFrame) names rows labels
    (names' : list string) (rows' : M iterator) it' (l : list value) :
  DataFrame_yields W self names rows labels ->
  evals W rows' (Ok it') -> yields it' (state it') l -> length l = length rows ->
  DataFrame_yields W
    (mkDataFrame (NamesArray names')
       (it ← rows';
        indexIterator ← Index.getIterator (DataFrame.getIndex self);
        mret (ApplyIndexIterator it indexIterator)))
    names' l labels.
Proof.
  intros (Hnames & it & Hit & Hy) Hit' Hy' Hlen.
  apply (indexed_frame_yields W names' rows' _ it' (IndexCursor it)); try done.
  - unfold DataFrame.getIndex, Index.getIterator, Index.new. cbn [Index_iterable].
    apply (evals_eq _ _ (iterator ← Ok it; Ok (IndexCursor iterator))); [done|]. evals_auto.
  - apply (yields_labelled_index _ _ _ _ (-1) Hy).
  - rewrite Hlen. by eapply yields_labelled_length.
Qed.

(** *** Column positions *)

Lemma getColumnIndex_loop_position (names : list string) (name : string) (i0 : Z) :
  DataFrame.getColumnIndex_loop name names i0
  = match column_position names name with
    | Some i => i0 + Z.of_nat i
    | None => -1
    end.
Proof.
  unfold column_position. revert i0. induction names as [|n names IH]; intros i0; [done|].
  cbn [DataFrame.getColumnIndex_loop list_find].
  destruct (String.eqb_spec name n) as [->|Hne].
  - rewrite decide_True by done. cbn. lia.
  - rewrite decide_False by done. rewrite IH.
    destruct (list_find _ names) as [[i x]|]; cbn; [lia|done].
Qed.

Lemma getColumnIndex_evals W (self : DataFrame) names (name : string) :
  evals W (DataFrame.getColumnNames self) (Ok names) ->
  evals W (DataFrame.getColumnIndex self name)
    (Ok (match column_position names name with Some i => Z.of_nat i | None => -1 end)).
Proof.
  intros Hnames. unfold DataFrame.getColumnIndex.
  apply (evals_eq _ _ (names ← Ok names;
                       Ok (DataFrame.getColumnIndex_loop name names 0))); [|evals_auto].
  cbn. rewrite getColumnIndex_loop_position.
  by destruct (column_position names name).
Qed.

Lemma column_position_Some (names : list string) (name : string) (i : nat) :
  column_position names name = Some i <->
  names !! i = Some name /\ forall j, (j < i)%nat -> names !! j <> Some name.
Proof.
  unfold column_position. split.
  - intros Hfind. destruct (list_find _ names) as [[i' x]|] eqn:Hf; [|done].
    cbn in Hfind. injection Hfind as ->. apply list_find_Some in Hf as (Hat & -> & Hbefore).
    split; [done|]. intros j Hj Hjn. destruct (lookup_lt_is_Some_2 names j) as [y Hy].
    { apply lookup_lt_Some in Hat. lia. }
    specialize (Hbefore j y Hy Hj). congruence.
  - intros [Hat Hbefore].
    assert (Hf : list_find (fun n => n = name) names = Some (i, name)).
    { apply list_find_Some. split; [done|]. split; [done|].
      intros j y Hy Hj ->. by apply (Hbefore j Hj). }
    by rewrite Hf.
Qed.

Lemma column_position_None (names : list string) (name : string) :
  column_position names name = None <-> name ∉ names.
Proof.
  unfold column_position. destruct (list_find _ names) as [[i x]|] eqn:Hf; cbn.
  - apply list_find_Some in Hf as (Hat & -> & _). split; [done|].
    intros Hnot. exfalso. apply Hnot. by eapply list_elem_of_lookup_2.
  - split; [|done]. intros _ Hin. apply list_find_None in Hf.
    rewrite Forall_forall in Hf. by apply (Hf name Hin).
Qed.

Lemma nth_value_position (cells : list value) (position : option nat) :
  nth_value cells (match position with Some i => Z.of_nat i | None => -1 end)
  = from_option (fun i => nth i cells VUndefined) VUndefined position.
Proof.
  destruct position as [i|]; [|done]. cbn.
  destruct (decide (i < length cells)%nat) as [Hi|Hi]; [by apply nth_value_nth|].
  rewrite nth_overflow by lia. unfold nth_value, len.
  destruct (Z.ltb_spec (Z.of_nat i) (Z.of_nat (length cells))); [lia|].
  by rewrite andb_false_r.
Qed.

(** *** hasSeries and getSeries *)

Lemma getSeries_yields W (self : DataFrame) names cellss labels (columnIndex : Z) :
  DataFrame_yields W self names (map VArr cellss) labels ->
  Series_yields W
    (mkSeries (it ← DataFrame.getIterator self;
               mret (SelectIterator it (fun row => get_index row columnIndex)))
              (DataFrame.getIndex self))
    (map (fun cells => nth_value cells columnIndex) cellss) labels.
Proof.
  intros (Hnames & it & Hit & Hy).
  exists (SelectIterator it (fun row => get_index row columnIndex)), (IndexCursor it).
  split; [|split; [|split]].
  - unfold Series.getIterator. cbn [Series_iterable].
    apply (evals_eq _ _
      (it ← Ok it; Ok (SelectIterator it (fun row => get_index row columnIndex)))); [done|].
    evals_auto.
  - pose proof (yields_SelectIterator it (fun row => get_index row columnIndex)
                  (fun row => nth_value (E_from row) columnIndex) _ _
                  (yields_labelled_values _ _ _ _ Hy)) as Hsel.
    rewrite map_map in Hsel. apply Hsel.
    intros v Hv. apply list_elem_of_fmap in Hv as (cells & -> & _). done.
  - unfold Series.getIndex, DataFrame.getIndex, Index.getIterator, Index.new.
    cbn [Series_index Index_iterable].
    apply (evals_eq _ _ (iterator ← Ok it; Ok (IndexCursor iterator))); [done|]. evals_auto.
  - apply (yields_labelled_index _ _ _ _ (-1) Hy).
Qed.

(** X10.  [hasSeries(name)] says whether [name] is one of the column names.
    For a name that is, [getSeries(name)] realizes, row by row, the cell
    under the first column of that name ([undefined] in a row that is
    too short), and carries the labels of the data frame. *)
Theorem getSeries_column W (self : DataFrame) names (cellss : list (list value)) labels
    (name : string) :
  DataFrame_yields W self names (map VArr cellss) labels ->
  evals W (DataFrame.hasSeries self name) (Ok (bool_decide (name ∈ names))) /\
  (name ∈ names ->
   evals W (series ← DataFrame.getSeries self (VStr name); Series_observe series)
     (Ok (map (fun cells => column_cell names cells name) cellss, labels))).
Proof.
  intros Hself. pose proof (getColumnIndex_evals W self names name (proj1 Hself)) as Hidx.
  split.
  - unfold DataFrame.hasSeries.
    apply (evals_eq _ _
      (columnIndex ← Ok (match column_position names name with
                         | Some i => Z.of_nat i
                         | None => -1
                         end);
       Ok (0 <=? columnIndex))); [|evals_auto].
    cbn. f_equal. destruct (column_position names name) as [i|] eqn:Hpos.
    + apply column_position_Some in Hpos as [Hat _].
      rewrite bool_decide_eq_true_2 by (by eapply list_elem_of_lookup_2).
      apply Z.leb_le. lia.
    + apply column_position_None in Hpos. by rewrite bool_decide_eq_false_2.
  - intros Hin. destruct (column_position names name) as [i|] eqn:Hpos;
      [|by apply column_position_None in Hpos].
    pose proof (getSeries_yields W self names cellss labels (Z.of_nat i) Hself) as Hseries.
    apply (evals_eq _ _
      (series ← Ok (mkSeries (it ← DataFrame.getIterator self;
                              mret (SelectIterator it (fun row => get_index row (Z.of_nat i))))
                             (DataFrame.getIndex self));
       Ok (map (fun cells => column_cell names cells name) cellss, labels))); [done|].
    apply evals_bind.
    + unfold DataFrame.getSeries, DataFrame.parseColumnNameOrIndex.
      apply (evals_eq _ _
        (columnIndex ← (columnIndex ← Ok (Z.of_nat i);
                        if true && (columnIndex <? 0)
                        then Err (JsError ("Failed to find column with name '" ++ name ++ "'."))
                        else Ok columnIndex);
         Series.new (Some {|
           cfg_values := Some (inr (
             it ← DataFrame.getIterator self;
             mret (SelectIterator it (fun row => get_index row columnIndex))));
           cfg_index := Some (DataFrame.getIndex self) |}))).
      * cbn. destruct (Z.ltb_spec (Z.of_nat i) 0); [lia|]. done.
      * evals_auto.
    + intros series [= <-]. apply Series_yields_observe.
      replace (map (fun cells => column_cell names cells name) cellss)
        with (map (fun cells => nth_value cells (Z.of_nat i)) cellss); [done|].
      apply map_ext. intros cells. unfold column_cell. rewrite Hpos.
      apply (nth_value_position cells (Some i)).
Qed.

Lemma getSeries_column_witness :
  evals [] (series ← DataFrame.getSeries
                       (mkDataFrame (NamesArray ["n"; "s"])
                          (mret (ArrayIterator1 [VArr [VNum 1; VStr "a"];
                                                 VArr [VNum 2; VStr "b"]])))
                       (VStr "s");
            Series_observe series)
    (Ok ([VStr "a"; VStr "b"], [VNum 0; VNum 1])).
Proof.
  apply (proj2 (getSeries_column [] _ ["n"; "s"] [[VNum 1; VStr "a"]; [VNum 2; VStr "b"]]
                  _ "s" (DataFrame_yields_arrays [] _ _))).
  by apply (list_elem_of_lookup_2 _ 1%nat).
Defined.

Lemma evals_M_mapM_map {A B} W (f : A -> M B) (g : A -> B) (l : list A) :
  (forall x, x ∈ l -> evals W (f x) (Ok (g x))) -> evals W (M_mapM f l) (Ok (map g l)).
Proof.
  intros Hf. apply evals_M_mapM. induction l as [|x l IH]; cbn; constructor.
  - apply Hf. by left.
  - apply IH. intros y Hy. apply Hf. by right.
Qed.

Lemma column_cells_positions (names : list string) (cells : list value)
    (columnNames : list string) :
  map (nth_value cells)
      (map (fun name => match column_position names name with
                        | Some i => Z.of_nat i
                        | None => -1
                        end) columnNames)
  = map (column_cell names cells) columnNames.
Proof.
  rewrite map_map. apply map_ext. intros name. apply nth_value_position.
Qed.

(** *** subset *)

(** X11.  [subset(columnNames)] has the column names it is given, in the
    order given, and the labels of the source; under each name a row
    has the cell of the first source column of that name, [undefined]
    when the source has no such column. *)
Theorem subset_columns W (self : DataFrame) names (cellss : list (list value)) labels
    (columnNames : list string) :
  DataFrame_yields W self names (map VArr cellss) labels ->
  evals W (derived ← DataFrame.subset self columnNames; DataFrame_observe derived)
    (Ok (map (fun cells => VArr (map (column_cell names cells) columnNames)) cellss,
         labels, columnNames)).
Proof.
  intros Hself. pose proof Hself as (Hnames & it & Hit & Hy).
  set (columnIndices := map (fun name => match column_position names name with
                                         | Some i => Z.of_nat i
                                         | None => -1
                                         end) columnNames).
  assert (Hidx : evals W (M_mapM (DataFrame.getColumnIndex self) columnNames)
                   (Ok columnIndices)).
  { apply evals_M_mapM_map. intros name _. by apply getColumnIndex_evals. }
  set (rows' := (columnIndices ← M_mapM (DataFrame.getColumnIndex self) columnNames;
                 iterator ← DataFrame.getIterator self;
                 mret (SubsetCursor iterator columnIndices)) : M iterator).
  assert (Hrows : evals W rows' (Ok (SubsetCursor it columnIndices))).
  { unfold rows'.
    apply (evals_eq _ _ (columnIndices ← Ok columnIndices; iterator ← Ok it;
                         Ok (SubsetCursor iterator columnIndices))); [done|].
    evals_auto. }
  assert (Hyields : yields (SubsetCursor it columnIndices) (state it)
            (map (fun cells => VArr (map (column_cell names cells) columnNames)) cellss)).
  { change (SubsetCursor it columnIndices)
      with (SelectIterator it (fun currentValue =>
              cells ← res_mapM (get_index currentValue) columnIndices; Ok (VArr cells))).
    pose proof (yields_SelectIterator it
                  (fun currentValue =>
                     cells ← res_mapM (get_index currentValue) columnIndices; Ok (VArr cells))
                  (fun row => VArr (map (nth_value (E_from row)) columnIndices)) _ _
                  (yields_labelled_values _ _ _ _ Hy)) as Hsel.
    rewrite map_map in Hsel. cbn [E_from] in Hsel.
    erewrite map_ext; [apply Hsel|].
    - intros v Hv. apply list_elem_of_fmap in Hv as (cells & -> & _). cbn [E_from].
      by rewrite (res_mapM_Ok _ (nth_value cells)).
    - intros cells. cbn. by rewrite <- column_cells_positions. }
  apply (evals_eq _ _
    (derived ← Ok (mkDataFrame (NamesArray columnNames)
                     (it ← rows';
                      indexIterator ← Index.getIterator (DataFrame.getIndex self);
                      mret (ApplyIndexIterator it indexIterator)));
     Ok (map (fun cells => VArr (map (column_cell names cells) columnNames)) cellss,
         labels, columnNames))); [done|].
  apply evals_bind; [apply DataFrame_new_evals|]. intros derived [= <-].
  apply DataFrame_yields_observe.
  eapply derived_frame_yields; [exact Hself|exact Hrows|exact Hyields|].
  by rewrite !length_map.
Qed.

Lemma subset_columns_witness :
  evals [] (derived ← DataFrame.subset
                        (mkDataFrame (NamesArray ["n"; "s"])
                           (mret (ArrayIterator1 [VArr [VNum 1; VStr "a"];
                                                  VArr [VNum 2; VStr "b"]])))
                        ["s"; "x"];
            DataFrame_observe derived)
    (Ok ([VArr [VStr "a"; VUndefined]; VArr [VStr "b"; VUndefined]],
         [VNum 0; VNum 1], ["s"; "x"])).
Proof.
  exact (subset_columns [] _ ["n"; "s"] [[VNum 1; VStr "a"]; [VNum 2; VStr "b"]] _
           ["s"; "x"] (DataFrame_yields_arrays [] _ _)).
Defined.

(** *** remapColumns *)

Lemma column_cells_own (names : list string) (cells : list value) :
  NoDup names -> length cells = length names ->
  map (column_cell names cells) names = cells.
Proof.
  intros Hnodup Hlen. apply list_eq. intros i. rewrite list_lookup_fmap.
  destruct (names !! i) as [name|] eqn:Hname; cbn.
  - assert (Hpos : column_position names name = Some i).
    { apply column_position_Some. split; [done|]. intros j Hj Hjn.
      pose proof (NoDup_lookup _ _ _ _ Hnodup Hname Hjn). lia. }
    unfold column_cell. rewrite Hpos. cbn.
    apply lookup_lt_Some in Hname.
    destruct (lookup_lt_is_Some_2 cells i ltac:(lia)) as [x Hx].
    rewrite Hx. f_equal. by apply nth_lookup_Some.
  - apply lookup_ge_None in Hname. symmetry. apply lookup_ge_None. lia.
Qed.

(** X12.  [remapColumns(columnNames)] has the column names it is given and
    the labels of the source; under each name a row has the cell of the
    first source column of that name, [undefined] when there is none.
    Remapping to the source's own names, when these are distinct and
    every row has one cell per column, gives the rows back. *)
Theorem remapColumns_columns W (self : DataFrame) names (cellss : list (list value)) labels
    (columnNames : list string) :
  DataFrame_yields W self names (map VArr cellss) labels ->
  evals W (derived ← DataFrame.remapColumns self columnNames; DataFrame_observe derived)
    (Ok (map (fun cells => VArr (map (column_cell names cells) columnNames)) cellss,
         labels, columnNames)) /\
  (NoDup names -> Forall (fun cells => length cells = length names) cellss ->
   evals W (derived ← DataFrame.remapColumns self names; DataFrame_observe derived)
     (Ok (map VArr cellss, labels, names))).
Proof.
  intros Hself.
  assert (Hgen : forall columnNames,
    evals W (derived ← DataFrame.remapColumns self columnNames; DataFrame_observe derived)
      (Ok (map (fun cells => VArr (map (column_cell names cells) columnNames)) cellss,
           labels, columnNames))).
  { clear columnNames. intros columnNames. pose proof Hself as (Hnames & it & Hit & Hy).
    set (rows' :=
      (values ← DataFrame.toValues self;
       rows ← M_mapM (fun row =>
                 cells ← M_mapM (fun columnName =>
                            columnIndex ← DataFrame.getColumnIndex self columnName;
                            if 0 <=? columnIndex then lift (get_index row columnIndex)
                            else mret VUndefined) columnNames;
                 mret (VArr cells)) values;
       mret (ArrayIterator1 rows)) : M iterator).
    assert (Hvalues : evals W (DataFrame.toValues self) (Ok (map VArr cellss))).
    { unfold DataFrame.toValues.
      apply (evals_eq _ _ (it ← Ok it; realize it)); [|evals_auto].
      cbn -[realize]. apply realize_yields. by eapply yields_labelled_values. }
    assert (Hmap : evals W
      (M_mapM (fun row =>
                 cells ← M_mapM (fun columnName =>
                            columnIndex ← DataFrame.getColumnIndex self columnName;
                            if 0 <=? columnIndex then lift (get_index row columnIndex)
                            else mret VUndefined) columnNames;
                 mret (VArr cells)) (map VArr cellss))
      (Ok (map (fun row => VArr (map (column_cell names (E_from row)) columnNames))
               (map VArr cellss)))).
    { apply evals_M_mapM_map. intros row Hrow.
      apply list_elem_of_fmap in Hrow as (cells & -> & _). cbn [E_from].
      apply (evals_eq _ _ (cells' ← Ok (map (column_cell names cells) columnNames);
                           Ok (VArr cells'))); [done|].
      apply evals_bind; [|intros ? _; apply evals_ret].
      apply evals_M_mapM_map. intros name _.
      apply (evals_eq _ _
        (columnIndex ← Ok (match column_position names name with
                           | Some i => Z.of_nat i
                           | None => -1
                           end);
         if 0 <=? columnIndex then get_index (VArr cells) columnIndex else Ok VUndefined)).
      - cbn. unfold column_cell.
        destruct (column_position names name) as [i|] eqn:Hpos; cbn.
        + destruct (Z.leb_spec 0 (Z.of_nat i)); [|lia].
          f_equal. apply (nth_value_position cells (Some i)).
        + done.
      - pose proof (getColumnIndex_evals W self names name Hnames). evals_auto. }
    rewrite map_map in Hmap. cbn [E_from] in Hmap.
    assert (Hrows : evals W rows'
      (Ok (ArrayIterator1
             (map (fun cells => VArr (map (column_cell names cells) columnNames)) cellss)))).
    { unfold rows'.
      apply (evals_eq _ _
        (values ← Ok (map VArr cellss);
         rows ← Ok (map (fun cells => VArr (map (column_cell names cells) columnNames)) cellss);
         Ok (ArrayIterator1 rows))); [done|].
      apply evals_bind; [exact Hvalues|]. intros values [= <-].
      apply evals_bind; [exact Hmap|]. intros rows _. apply evals_ret. }
    apply (evals_eq _ _
      (derived ← Ok (mkDataFrame (NamesArray columnNames)
                       (it ← rows';
                        indexIterator ← Index.getIterator (DataFrame.getIndex self);
                        mret (ApplyIndexIterator it indexIterator)));
       Ok (map (fun cells => VArr (map (column_cell names cells) columnNames)) cellss,
           labels, columnNames))); [done|].
    apply evals_bind; [apply DataFrame_new_evals|]. intros derived [= <-].
    apply DataFrame_yields_observe.
    eapply derived_frame_yields; [exact Hself|exact Hrows|apply yields_ArrayIterator1|].
    by rewrite !length_map. }
  split; [apply Hgen|]. intros Hnodup Hlens.
  eapply evals_eq; [|apply (Hgen names)]. do 3 f_equal.
  apply list_eq. intros i. rewrite !list_lookup_fmap.
  destruct (cellss !! i) as [cells|] eqn:Hcells; [|done]. cbn. do 2 f_equal.
  apply column_cells_own; [done|].
  rewrite Forall_forall in Hlens. apply Hlens. by eapply list_elem_of_lookup_2.
Qed.

Lemma remapColumns_columns_witness :
  evals [] (derived ← DataFrame.remapColumns
                        (mkDataFrame (NamesArray ["n"; "s"])
                           (mret (ArrayIterator1 [VArr [VNum 1; VStr "a"];
                                                  VArr [VNum 2; VStr "b"]])))
                        ["n"; "s"];
            DataFrame_observe derived)
    (Ok ([VArr [VNum 1; VStr "a"]; VArr [VNum 2; VStr "b"]], [VNum 0; VNum 1], ["n"; "s"])).
Proof.
  apply (proj2 (remapColumns_columns [] _ ["n"; "s"] [[VNum 1; VStr "a"]; [VNum 2; VStr "b"]]
                  _ ["n"; "s"] (DataFrame_yields_arrays [] _ _))).
  - repeat constructor; cbn; intros H; inversion H; subst;
      try match goal with H' : _ ∈ _ |- _ => inversion H' end.
  - repeat constructor.
Defined.

(** *** dropColumn *)

Lemma where_not_at_below {A} (indices : list Z) (k : Z) (l : list A) :
  Forall (fun index => index < k) indices -> where_not_at indices k l = l.
Proof.
  revert k. induction l as [|x l IH]; intros k Hlt; [done|]. cbn.
  assert (Hno : existsb (Z.eqb k) indices = false).
  { apply not_true_is_false. intros Hex. apply existsb_exists in Hex as (index & Hin & Heq).
    apply Z.eqb_eq in Heq. subst index. rewrite Forall_forall in Hlt.
    apply list_elem_of_In in Hin. specialize (Hlt k Hin). lia. }
  rewrite Hno. f_equal. apply IH. eapply Forall_impl; [exact Hlt|]. cbn. lia.
Qed.

Lemma where_not_at_delete {A} (i : nat) (k : Z) (l : list A) :
  where_not_at [k + Z.of_nat i] k l = delete i l.
Proof.
  revert i k. induction l as [|x l IH]; intros i k; [by destruct i|]. cbn.
  destruct i as [|i].
  - replace (k + Z.of_nat 0) with k by lia. rewrite Z.eqb_refl. cbn.
    apply where_not_at_below. constructor; [lia|constructor].
  - destruct (Z.eqb_spec k (k + Z.of_nat (S i))) as [Heq|_]; [lia|]. cbn. f_equal.
    replace (k + Z.of_nat (S i)) with (k + 1 + Z.of_nat i) by lia. apply IH.
Qed.

Lemma where_not_at_delete_first {A} (i : nat) (l : list A) :
  where_not_at [Z.of_nat i] 0 l = delete i l.
Proof. exact (where_not_at_delete i 0 l). Qed.

Lemma exhausted_DropColumnCursor it columnIndices s :
  exhausted it s -> exhausted (DropColumnCursor it columnIndices) s.
Proof. intros (P & Hs & HP). by exists P. Qed.

Lemma yields_DropColumnCursor it columnIndices s (cellss : list (list value)) :
  yields it s (map VArr cellss) ->
  yields (DropColumnCursor it columnIndices) s
    (map (fun cells => VArr (where_not_at columnIndices 0 cells)) cellss).
Proof.
  intros Hy.
  change (DropColumnCursor it columnIndices)
    with (SelectIterator it (fun currentValue =>
            Ok (VArr (where_not_at columnIndices 0 (E_from currentValue))))).
  pose proof (yields_SelectIterator it
                (fun currentValue =>
                   Ok (VArr (where_not_at columnIndices 0 (E_from currentValue))))
                (fun row => VArr (where_not_at columnIndices 0 (E_from row))) _ _ Hy
                ltac:(done)) as Hsel.
  by rewrite map_map in Hsel.
Qed.

(** X13.  [dropColumn(name)] removes the first column called [name] from the
    column names and its cell from every row, and keeps the labels; a
    name that is no column leaves names and rows as they were (no
    error).  With distinct column names the dropped name is no column
    of the result.  An argument that is neither a string nor an array
    fails an assertion at the call. *)
Theorem dropColumn_columns W (self : DataFrame) names (cellss : list (list value)) labels
    (name : string) :
  DataFrame_yields W self names (map VArr cellss) labels ->
  evals W (derived ← DataFrame.dropColumn self (VStr name); DataFrame_observe derived)
    (Ok (match column_position names name with
         | Some i => (map (fun cells => VArr (delete i cells)) cellss, labels, delete i names)
         | None => (map VArr cellss, labels, names)
         end)) /\
  (forall i, NoDup names -> column_position names name = Some i -> name ∉ delete i names) /\
  (forall n : Z,
      evals W (DataFrame.dropColumn self (VNum n))
        (Err (AssertionError "'dropColumn' expected either a string or an array or strings."))).
Proof.
  intros Hself. pose proof Hself as (Hnames & it & Hit & Hy).
  split; [|split].
  - set (found := match column_position names name with
                  | Some i => Z.of_nat i
                  | None => -1
                  end).
    set (columnIndices := List.filter (fun columnIndex => 0 <=? columnIndex) [found]).
    set (rows' := (iterator ← DataFrame.getIterator self;
                   mret (DropColumnCursor iterator columnIndices)) : M iterator).
    assert (Hrows : evals W rows' (Ok (DropColumnCursor it columnIndices))).
    { unfold rows'.
      apply (evals_eq _ _ (iterator ← Ok it; Ok (DropColumnCursor iterator columnIndices)));
        [done|].
      evals_auto. }
    assert (Hdrop : evals W (DataFrame.dropColumn self (VStr name))
      (Ok (mkDataFrame (NamesArray (where_not_at columnIndices 0 names))
             (it ← rows';
              indexIterator ← Index.getIterator (DataFrame.getIndex self);
              mret (ApplyIndexIterator it indexIterator))))).
    { unfold DataFrame.dropColumn.
      pose proof (getColumnIndex_evals W self names name Hnames) as Hidx. fold found in Hidx.
      apply (evals_eq _ _
        (columns ← Ok [VStr name];
         found' ← (y ← Ok found; ys ← Ok []; Ok (y :: ys));
         columnNames ← Ok names;
         Ok (mkDataFrame
               (NamesArray (where_not_at
                              (List.filter (fun columnIndex => 0 <=? columnIndex) found')
                              0 columnNames))
               (it ← (iterator ← DataFrame.getIterator self;
                      mret (DropColumnCursor iterator
                              (List.filter (fun columnIndex => 0 <=? columnIndex) found')));
                indexIterator ← Index.getIterator (DataFrame.getIndex self);
                mret (ApplyIndexIterator it indexIterator))))); [done|].
      apply evals_bind; [apply evals_lift|]. intros columns [= <-].
      cbn [length seq zip_with M_mapM].
      apply evals_bind; [evals_auto|]. intros found' _.
      apply evals_bind; [exact Hnames|]. intros columnNames _.
      apply DataFrame_new_evals. }
    assert (Hobs : evals W
      (derived ← DataFrame.dropColumn self (VStr name); DataFrame_observe derived)
      (Ok (map (fun cells => VArr (where_not_at columnIndices 0 cells)) cellss, labels,
           where_not_at columnIndices 0 names))).
    { apply (evals_eq _ _
        (derived ← Ok (mkDataFrame (NamesArray (where_not_at columnIndices 0 names))
                         (it ← rows';
                          indexIterator ← Index.getIterator (DataFrame.getIndex self);
                          mret (ApplyIndexIterator it indexIterator)));
         Ok (map (fun cells => VArr (where_not_at columnIndices 0 cells)) cellss, labels,
             where_not_at columnIndices 0 names))); [done|].
      apply evals_bind; [exact Hdrop|]. intros derived [= <-].
      apply DataFrame_yields_observe.
      eapply derived_frame_yields; [exact Hself|exact Hrows| |by rewrite !length_map].
      apply yields_DropColumnCursor. by eapply yields_labelled_values. }
    eapply evals_eq; [|exact Hobs]. unfold columnIndices, found.
    destruct (column_position names name) as [i|]; cbn [List.filter].
    + destruct (Z.leb_spec 0 (Z.of_nat i)); [|lia].
      rewrite (where_not_at_delete_first i names). do 3 f_equal.
      apply map_ext. intros cells. by rewrite (where_not_at_delete_first i cells).
    + cbn. rewrite where_not_at_below by constructor. do 3 f_equal.
      apply map_ext. intros cells. by rewrite where_not_at_below by constructor.
  - intros i Hnodup Hpos Hin. apply column_position_Some in Hpos as [Hat _].
    apply list_elem_of_lookup in Hin as [j Hj].
    destruct (decide (j < i)%nat) as [Hlt|Hge].
    + rewrite list_lookup_delete_lt in Hj by done.
      pose proof (NoDup_lookup _ _ _ _ Hnodup Hat Hj). lia.
    + rewrite list_lookup_delete_ge in Hj by lia.
      pose proof (NoDup_lookup _ _ _ _ Hnodup Hat Hj). lia.
  - intros n h Hs. reflexivity.
Qed.

Lemma dropColumn_columns_witness :
  evals [] (derived ← DataFrame.dropColumn
                        (mkDataFrame (NamesArray ["n"; "s"])
                           (mret (ArrayIterator1 [VArr [VNum 1; VStr "a"];
                                                  VArr [VNum 2; VStr "b"]])))
                        (VStr "n");
            DataFrame_observe derived)
    (Ok ([VArr [VStr "a"]; VArr [VStr "b"]], [VNum 0; VNum 1], ["s"])).
Proof.
  exact (proj1 (dropColumn_columns [] _ ["n"; "s"] [[VNum 1; VStr "a"]; [VNum 2; VStr "b"]]
                  _ "n" (DataFrame_yields_arrays [] _ _))).
Defined.

(** *** renameColumns *)

(** X14.  [renameColumns(newColumnNames)] fails an assertion at the call
    unless it is given exactly one name per existing column; with as
    many names it gives the same rows and labels under the new
    names. *)
Theorem renameColumns_names W (self : DataFrame) names rows labels
    (newColumnNames : list string) :
  DataFrame_yields W self names rows labels ->
  (length newColumnNames <> length names ->
   evals W (DataFrame.renameColumns self newColumnNames)
     (Err (AssertionError
        ("Expected 'newColumnNames' array to have an element for each existing column. There are "
         ++ pretty (len names) ++ "existing columns.")))) /\
  (length newColumnNames = length names ->
   evals W (derived ← DataFrame.renameColumns self newColumnNames; DataFrame_observe derived)
     (Ok (rows, labels, newColumnNames))).
Proof.
  intros Hself. pose proof Hself as (Hnames & it & Hit & Hy). split.
  - intros Hlen. unfold DataFrame.renameColumns.
    apply (evals_eq _ _
      (columnNames ← Ok names;
       _ ← assert (len newColumnNames =? len columnNames)
             ("Expected 'newColumnNames' array to have an element for each existing column. There are "
              ++ pretty (len columnNames) ++ "existing columns.");
       @Err DataFrame OutOfFuel)).
    + cbn. unfold len. destruct (Z.eqb_spec (Z.of_nat (length newColumnNames))
                                            (Z.of_nat (length names))); [lia|done].
    + apply evals_bind; [exact Hnames|]. intros columnNames [= <-].
      unfold len. destruct (Z.eqb_spec (Z.of_nat (length newColumnNames))
                                       (Z.of_nat (length names))); [lia|].
      cbn. intros h Hs. reflexivity.
  - intros Hlen.
    assert (Hrename : evals W (DataFrame.renameColumns self newColumnNames)
      (Ok (mkDataFrame (NamesArray newColumnNames)
             (it ← DataFrame.getIterator self;
              indexIterator ← Index.getIterator (DataFrame.getIndex self);
              mret (ApplyIndexIterator it indexIterator))))).
    { unfold DataFrame.renameColumns.
      apply (evals_eq _ _
        (columnNames ← Ok names;
         _ ← assert (len newColumnNames =? len columnNames)
               ("Expected 'newColumnNames' array to have an element for each existing column. There are "
                ++ pretty (len columnNames) ++ "existing columns.");
         Ok (mkDataFrame (NamesArray newColumnNames)
               (it ← DataFrame.getIterator self;
                indexIterator ← Index.getIterator (DataFrame.getIndex self);
                mret (ApplyIndexIterator it indexIterator))))).
      - cbn. unfold len. rewrite Hlen, Z.eqb_refl. done.
      - apply evals_bind; [exact Hnames|]. intros columnNames _.
        apply evals_bind; [apply evals_lift|]. intros ? _. apply DataFrame_new_evals. }
    apply (evals_eq _ _
      (derived ← Ok (mkDataFrame (NamesArray newColumnNames)
                       (it ← DataFrame.getIterator self;
                        indexIterator ← Index.getIterator (DataFrame.getIndex self);
                        mret (ApplyIndexIterator it indexIterator)));
       Ok (rows, labels, newColumnNames))); [done|].
    apply evals_bind; [exact Hrename|]. intros derived [= <-].
    apply DataFrame_yields_observe.
    eapply derived_frame_yields; [exact Hself|exact Hit| |done].
    by eapply yields_labelled_values.
Qed.

Lemma renameColumns_names_witness :
  evals [] (derived ← DataFrame.renameColumns
                        (mkDataFrame (NamesArray ["n"; "s"])
                           (mret (ArrayIterator1 [VArr [VNum 1; VStr "a"]])))
                        ["x"; "y"];
            DataFrame_observe derived)
    (Ok ([VArr [VNum 1; VStr "a"]], [VNum 0], ["x"; "y"])).
Proof.
  exact (proj2 (renameColumns_names [] _ ["n"; "s"] [VArr [VNum 1; VStr "a"]] _ ["x"; "y"]
                  (DataFrame_yields_arrays [] _ _)) eq_refl).
Defined.

(** *** setIndex and resetIndex *)

Lemma getSeries_named_evals W (self : DataFrame) names (name : string) :
  evals W (DataFrame.getColumnNames self) (Ok names) ->
  evals W (DataFrame.getSeries self (VStr name))
    (match column_position names name with
     | Some i =>
         Ok (mkSeries (it ← DataFrame.getIterator self;
                       mret (SelectIterator it (fun row => get_index row (Z.of_nat i))))
                      (DataFrame.getIndex self))
     | None => Err (JsError ("Failed to find column with name '" ++ name ++ "'."))
     end).
Proof.
  intros Hnames. pose proof (getColumnIndex_evals W self names name Hnames) as Hidx.
  unfold DataFrame.getSeries, DataFrame.parseColumnNameOrIndex.
  apply (evals_eq _ _
    (columnIndex ← (columnIndex ← Ok (match column_position names name with
                                      | Some i => Z.of_nat i
                                      | None => -1
                                      end);
                    if true && (columnIndex <? 0)
                    then Err (JsError ("Failed to find column with name '" ++ name ++ "'."))
                    else Ok columnIndex);
     Series.new (Some {|
       cfg_values := Some (inr (
         it ← DataFrame.getIterator self;
         mret (SelectIterator it (fun row => get_index row columnIndex))));
       cfg_index := Some (DataFrame.getIndex self) |}))).
  - destruct (column_position names name) as [i|]; [|done].
    cbn. destruct (Z.ltb_spec (Z.of_nat i) 0); [lia|]. done.
  - evals_auto.
Qed.

(** X15.  [setIndex(name)] returns at once, also for a name that is no
    column.  For a column name the result has the same column names and
    rows, and each row is labelled with its cell under that column; for
    any other name, realizing the rows of the result raises the
    missing-column error.  [resetIndex()] keeps names and rows and
    labels the rows 0, 1, ... *)
Theorem setIndex_resetIndex W (self : DataFrame) names (cellss : list (list value)) labels
    (name : string) :
  DataFrame_yields W self names (map VArr cellss) labels ->
  (name ∈ names ->
   evals W (derived ← DataFrame.setIndex self (VStr name); DataFrame_observe derived)
     (Ok (map VArr cellss, map (fun cells => column_cell names cells name) cellss, names))) /\
  (name ∉ names ->
   exists derived,
     evals W (DataFrame.setIndex self (VStr name)) (Ok derived) /\
     evals W (DataFrame.toValues derived)
       (Err (JsError ("Failed to find column with name '" ++ name ++ "'.")))) /\
  evals W (derived ← DataFrame.resetIndex self; DataFrame_observe derived)
    (Ok (map VArr cellss, E_range 0 (length cellss), names)).
Proof.
  intros Hself. pose proof Hself as (Hnames & it & Hit & Hy).
  pose proof (yields_labelled_values _ _ _ _ Hy) as Hrows.
  pose proof (getSeries_named_evals W self names name Hnames) as Hseries.
  set (index := Index.new (inr (series ← DataFrame.getSeries self (VStr name);
                                Series.getIterator series))).
  assert (Hset : evals W (DataFrame.setIndex self (VStr name))
    (Ok (mkDataFrame (NamesArray names)
           (it ← DataFrame.getIterator self;
            indexIterator ← Index.getIterator index;
            mret (ApplyIndexIterator it indexIterator))))).
  { unfold DataFrame.setIndex.
    apply (evals_eq _ _
      (columnNames ← Ok names;
       Ok (mkDataFrame (NamesArray columnNames)
             (it ← DataFrame.getIterator self;
              indexIterator ← Index.getIterator index;
              mret (ApplyIndexIterator it indexIterator))))); [done|].
    apply evals_bind; [exact Hnames|]. intros columnNames _. apply DataFrame_new_evals. }
  split; [|split].
  - intros Hin. destruct (column_position names name) as [i|] eqn:Hpos;
      [|by apply column_position_None in Hpos].
    apply (evals_eq _ _
      (derived ← Ok (mkDataFrame (NamesArray names)
                       (it ← DataFrame.getIterator self;
                        indexIterator ← Index.getIterator index;
                        mret (ApplyIndexIterator it indexIterator)));
       Ok (map VArr cellss, map (fun cells => column_cell names cells name) cellss, names)));
      [done|].
    apply evals_bind; [exact Hset|]. intros derived [= <-].
    apply DataFrame_yields_observe.
    apply (indexed_frame_yields W names (DataFrame.getIterator self) index it
             (SelectIterator it (fun row => get_index row (Z.of_nat i)))); try done.
    + unfold index, Index.getIterator, Index.new. cbn [Index_iterable].
      apply (evals_eq _ _
        (series ← Ok (mkSeries (it ← DataFrame.getIterator self;
                                mret (SelectIterator it
                                        (fun row => get_index row (Z.of_nat i))))
                               (DataFrame.getIndex self));
         it ← Ok it; Ok (SelectIterator it (fun row => get_index row (Z.of_nat i)))));
        [done|].
      apply evals_bind; [exact Hseries|]. intros series [= <-].
      unfold Series.getIterator. cbn [Series_iterable]. evals_auto.
    + pose proof (yields_SelectIterator it (fun row => get_index row (Z.of_nat i))
                    (fun row => nth_value (E_from row) (Z.of_nat i)) _ _ Hrows) as Hsel.
      rewrite map_map in Hsel.
      replace (map (fun cells => column_cell names cells name) cellss)
        with (map (fun cells => nth_value (E_from (VArr cells)) (Z.of_nat i)) cellss).
      * apply Hsel. intros v Hv. apply list_elem_of_fmap in Hv as (cells & -> & _). done.
      * apply map_ext. intros cells. unfold column_cell. rewrite Hpos.
        apply (nth_value_position cells (Some i)).
    + by rewrite !length_map.
  - intros Hnotin. apply column_position_None in Hnotin. rewrite Hnotin in Hseries.
    eexists. split; [exact Hset|].
    unfold DataFrame.toValues, DataFrame.getIterator at 1. cbn [DataFrame_iterable].
    apply evals_bind_Err.
    apply (evals_eq _ _
      (it ← Ok it;
       indexIterator ← @Err iterator
                         (JsError ("Failed to find column with name '" ++ name ++ "'."));
       Ok (ApplyIndexIterator it indexIterator))); [done|].
    apply evals_bind; [exact Hit|]. intros ? _.
    apply evals_bind; [|intros ? [=]].
    unfold index, Index.getIterator, Index.new. cbn [Index_iterable].
    by apply evals_bind_Err.
  - set (index' := Index.new (inr (values ← DataFrame.toValues self;
                                   mret (ArrayIterator1 (E_range 0 (length values)))))).
    apply (evals_eq _ _
      (derived ← Ok (mkDataFrame (NamesArray names)
                       (it ← DataFrame.getIterator self;
                        indexIterator ← Index.getIterator index';
                        mret (ApplyIndexIterator it indexIterator)));
       Ok (map VArr cellss, E_range 0 (length cellss), names))); [done|].
    apply evals_bind.
    + unfold DataFrame.resetIndex.
      apply (evals_eq _ _
        (columnNames ← Ok names;
         Ok (mkDataFrame (NamesArray columnNames)
               (it ← DataFrame.getIterator self;
                indexIterator ← Index.getIterator index';
                mret (ApplyIndexIterator it indexIterator))))); [done|].
      apply evals_bind; [exact Hnames|]. intros columnNames _. apply DataFrame_new_evals.
    + intros derived [= <-]. apply DataFrame_yields_observe.
      apply (indexed_frame_yields W names (DataFrame.getIterator self) index' it
               (ArrayIterator1 (E_range 0 (length cellss)))); try done.
      * unfold index', Index.getIterator, Index.new, DataFrame.toValues.
        cbn [Index_iterable].
        apply (evals_eq _ _
          (values ← (it ← Ok it; realize it);
           Ok (ArrayIterator1 (E_range 0 (length values))))); [|evals_auto].
        cbn -[realize]. rewrite (realize_yields _ _ Hrows). cbn. by rewrite length_map.
      * apply yields_ArrayIterator1.
      * unfold E_range. by rewrite !length_map, length_seq.
Qed.

Lemma setIndex_resetIndex_witness :
  evals [] (derived ← DataFrame.setIndex
                        (mkDataFrame (NamesArray ["n"; "s"])
                           (mret (ArrayIterator1 [VArr [VNum 1; VStr "a"];
                                                  VArr [VNum 2; VStr "b"]])))
                        (VStr "s");
            DataFrame_observe derived)
    (Ok ([VArr [VNum 1; VStr "a"]; VArr [VNum 2; VStr "b"]], [VStr "a"; VStr "b"],
         ["n"; "s"])).
Proof.
  apply (proj1 (setIndex_resetIndex [] _ ["n"; "s"]
                  [[VNum 1; VStr "a"]; [VNum 2; VStr "b"]]
                  _ "s" (DataFrame_yields_arrays [] _ _))).
  by apply (list_elem_of_lookup_2 _ 1%nat).
Defined.

(** *** select and truncateStrings *)

Lemma Series_select_yields W (self : Series) values labels (selector : value -> value) :
  Series_yields W self values labels ->
  exists derived,
    Series.select self selector = Ok derived /\
    Series_yields W derived (map selector values) labels.
Proof.
  intros (it & ix & Hit & Hy & Hix & Hyx). eexists. split; [reflexivity|].
  exists (SelectIterator it (fun v => Ok (selector v))), ix.
  split; [|split; [|split]]; try done.
  - unfold Series.getIterator at 1. cbn [Series_iterable].
    apply (evals_eq _ _
      (it ← Ok it; Ok (SelectIterator it (fun v => Ok (selector v))))); [done|].
    evals_auto.
  - by apply yields_SelectIterator.
Qed.

(** X16.  [select(selector)] on a series realizes the selector's result on
    each value, in order and under the labels of the series; selecting
    twice is selecting with the composed selector. *)
Theorem Series_select_maps W (self : Series) values labels (f g : value -> value) :
  Series_yields W self values labels ->
  evals W (derived ← lift (Series.select self f); Series_observe derived)
    (Ok (map f values, labels)) /\
  evals W (derived ← lift (Series.select self f);
           derived ← lift (Series.select derived g);
           Series_observe derived)
    (Ok (map (fun v => g (f v)) values, labels)).
Proof.
  intros Hself.
  destruct (Series_select_yields W self values labels f Hself) as (derived & Hsel & Hd).
  destruct (Series_select_yields W derived _ labels g Hd) as (derived' & Hsel' & Hd').
  rewrite map_map in Hd'. split.
  - apply (evals_eq _ _ (derived ← Ok derived; Ok (map f values, labels))); [done|].
    apply evals_bind; [rewrite Hsel; apply evals_lift|]. intros ? [= <-].
    by apply Series_yields_observe.
  - apply (evals_eq _ _
      (derived ← Ok derived; derived ← Ok derived';
       Ok (map (fun v => g (f v)) values, labels))); [done|].
    apply evals_bind; [rewrite Hsel; apply evals_lift|]. intros ? [= <-].
    apply evals_bind; [rewrite Hsel'; apply evals_lift|]. intros ? [= <-].
    by apply Series_yields_observe.
Qed.

Lemma Series_select_maps_witness :
  evals [] (derived ← lift (Series.select
                              (mkSeries (mret (ArrayIterator1 [VNum 1; VNum 2]))
                                        (Index.new (inl [VStr "a"; VStr "b"])))
                              (fun v => VArr [v]));
            Series_observe derived)
    (Ok ([VArr [VNum 1]; VArr [VNum 2]], [VStr "a"; VStr "b"])).
Proof.
  exact (proj1 (Series_select_maps [] _ [VNum 1; VNum 2] [VStr "a"; VStr "b"]
                  (fun v => VArr [v]) id (Series_yields_arrays [] _ _))).
Defined.

Lemma substring_prefix (n : nat) (s : string) :
  String.prefix (String.substring 0 n s) s = true.
Proof.
  revert n. induction s as [|c s IH]; intros [|n]; cbn; try done.
  rewrite IH. by destruct (Ascii.ascii_dec c c).
Qed.

Lemma prefix_same (s : string) : String.prefix s s = true.
Proof. induction s as [|c s IH]; cbn; [done|]. by destruct (Ascii.ascii_dec c c). Qed.

Lemma substring_length (n : nat) (s : string) :
  String.length (String.substring 0 n s) = Nat.min n (String.length s).
Proof. revert n. induction s as [|c s IH]; intros [|n]; cbn; try done. by rewrite IH. Qed.

(** X17.  [truncateStrings(maxLength)] on a series and on a data frame
    replaces each string value or cell by its prefix of [maxLength]
    characters (the empty string for a negative [maxLength]), leaves
    shorter strings and values that are no strings as they are, and
    keeps labels and column names. *)
Theorem truncateStrings_prefixes W (maxLength : Z) :
  (forall (self : Series) values labels,
      Series_yields W self values labels ->
      evals W (derived ← lift (Series.truncateStrings self maxLength);
               Series_observe derived)
        (Ok (map (truncateString maxLength) values, labels))) /\
  (forall (self : DataFrame) names (cellss : list (list value)) labels,
      DataFrame_yields W self names (map VArr cellss) labels ->
      evals W (derived ← DataFrame.truncateStrings self maxLength;
               DataFrame_observe derived)
        (Ok (map (fun cells => VArr (map (truncateString maxLength) cells)) cellss,
             labels, names))) /\
  (forall s : string,
      exists s', truncateString maxLength (VStr s) = VStr s' /\
                 String.prefix s' s = true /\
                 String.length s' = Nat.min (Z.to_nat maxLength) (String.length s)) /\
  (forall v, (forall s, v <> VStr s) -> truncateString maxLength v = v).
Proof.
  split; [|split; [|split]].
  - intros self values labels Hself.
    destruct (Series_select_yields W self values labels (truncateString maxLength) Hself)
      as (derived & Hsel & Hd).
    unfold Series.truncateStrings.
    apply (evals_eq _ _
      (derived ← Ok derived; Ok (map (truncateString maxLength) values, labels))); [done|].
    apply evals_bind; [rewrite Hsel; apply evals_lift|]. intros ? [= <-].
    by apply Series_yields_observe.
  - intros self names cellss labels Hself. pose proof Hself as (Hnames & it & Hit & Hy).
    pose proof (yields_labelled_values _ _ _ _ Hy) as Hrows.
    set (truncatedValues :=
           map (fun cells => VArr (map (truncateString maxLength) cells)) cellss).
    apply (evals_eq _ _
      (derived ← Ok (mkDataFrame (NamesArray names)
                       (it ← mret (ArrayIterator1 truncatedValues);
                        indexIterator ← Index.getIterator (DataFrame.getIndex self);
                        mret (ApplyIndexIterator it indexIterator)));
       Ok (truncatedValues, labels, names))); [done|].
    apply evals_bind.
    + unfold DataFrame.truncateStrings, DataFrame.toValues.
      apply (evals_eq _ _
        (values ← (it ← Ok it; realize it);
         columnNames ← Ok names;
         Ok (mkDataFrame (NamesArray columnNames)
               (it ← mret (ArrayIterator1
                             (map (fun row =>
                                     VArr (map (truncateString maxLength) (E_from row)))
                                  values));
                indexIterator ← Index.getIterator (DataFrame.getIndex self);
                mret (ApplyIndexIterator it indexIterator))))).
      * cbn -[realize]. rewrite (realize_yields _ _ Hrows). cbn.
        unfold truncatedValues. by rewrite map_map.
      * apply evals_bind; [evals_auto|]. intros values _.
        apply evals_bind; [exact Hnames|]. intros columnNames _.
        apply (DataFrame_new_evals W columnNames
                 (mret (ArrayIterator1
                          (map (fun row =>
                                  VArr (map (truncateString maxLength) (E_from row)))
                               values)))).
    + intros derived [= <-]. apply DataFrame_yields_observe.
      eapply derived_frame_yields; [exact Hself|apply evals_ret|apply yields_ArrayIterator1|].
      unfold truncatedValues. by rewrite !length_map.
  - intros s. unfold truncateString.
    destruct (Z.ltb_spec maxLength (Z.of_nat (String.length s))) as [Hlt|Hge].
    + eexists. split; [reflexivity|]. split; [apply substring_prefix|apply substring_length].
    + exists s. split; [done|]. split; [apply prefix_same|lia].
  - intros [] Hv; try done. by destruct (Hv s).
Qed.

Lemma truncateStrings_prefixes_witness :
  evals [] (derived ← DataFrame.truncateStrings
                        (mkDataFrame (NamesArray ["n"; "s"])
                           (mret (ArrayIterator1 [VArr [VNum 1; VStr "abcd"];
                                                  VArr [VNum 2; VStr "b"]])))
                        2;
            DataFrame_observe derived)
    (Ok ([VArr [VNum 1; VStr "ab"]; VArr [VNum 2; VStr "b"]], [VNum 0; VNum 1],
         ["n"; "s"])).
Proof.
  exact (proj1 (proj2 (truncateStrings_prefixes [] 2)) _ ["n"; "s"]
           [[VNum 1; VStr "abcd"]; [VNum 2; VStr "b"]] _ (DataFrame_yields_arrays [] _ _)).
Defined.

(** *** takeWhile, skipWhile, takeUntil and skipUntil *)

Lemma prefix_length_le {A} (p : A -> bool) (l : list A) : (prefix_length p l <= length l)%nat.
Proof. induction l as [|x l IH]; cbn; [lia|]. destruct (p x); lia. Qed.

Lemma prefix_length_holds {A} (p : A -> bool) (l : list A) :
  Forall (fun x => p x = true) (take (prefix_length p l) l) /\
  (forall x, drop (prefix_length p l) l !! 0%nat = Some x -> p x = false).
Proof.
  induction l as [|x l [IH1 IH2]]; cbn; [split; [constructor|done]|].
  destruct (p x) eqn:Hp; cbn.
  - split; [by constructor|done].
  - split; [constructor|]. by intros ? [= <-].
Qed.

Lemma exhausted_TakeWhileIterator_finished it predicate (s : St it) :
  exhausted (TakeWhileIterator it predicate) (s, true).
Proof.
  exists (fun t : St it * bool => t.2 = true). split; [done|].
  intros [t finished] Ht. cbn in Ht. subst finished. by exists (t, true).
Qed.

Lemma yields_TakeWhileIterator it (predicate : value -> res bool) (p : value -> bool) s l :
  yields it s l -> (forall v, v ∈ l -> predicate v = Ok (p v)) ->
  yields (TakeWhileIterator it predicate) (s, false) (take (prefix_length p l) l).
Proof.
  induction 1 as [s s' Hstep Hex|s s' v l Hstep Hcur Hb Hy IH]; intros Hp.
  - apply (yields_end (TakeWhileIterator it predicate) (s, false) (s', true)).
    + cbn. by rewrite Hstep.
    + apply exhausted_TakeWhileIterator_finished.
  - pose proof (Hp v ltac:(by left)) as Hv. cbn [prefix_length].
    destruct (p v) eqn:Hpv; cbn [take].
    + apply (yields_next (TakeWhileIterator it predicate) (s, false) (s', false)).
      * cbn. rewrite Hstep. cbn. rewrite Hcur. cbn. by rewrite Hv.
      * exact Hcur.
      * cbn. rewrite length_take. lia.
      * apply IH. intros v' Hv'. apply Hp. by right.
    + apply (yields_end (TakeWhileIterator it predicate) (s, false) (s', true)).
      * cbn. rewrite Hstep. cbn. rewrite Hcur. cbn. by rewrite Hv.
      * apply exhausted_TakeWhileIterator_finished.
Qed.

Lemma exhausted_SkipWhileIterator it predicate (s : St it) (skipped : bool) :
  exhausted it s -> exhausted (SkipWhileIterator it predicate) (s, skipped).
Proof.
  intros Hs. exists (fun t : St it * bool => exhausted it t.1). split; [done|].
  intros [t flag] Ht. cbn in Ht.
  destruct (exhausted_step _ _ Ht) as (t' & Hstep & Ht').
  destruct flag; cbn; rewrite Hstep; cbn; eexists; by split.
Qed.

Lemma yields_SkipWhileIterator_through it predicate s l :
  yields it s l -> yields (SkipWhileIterator it predicate) (s, true) l.
Proof.
  induction 1 as [s s' Hstep Hex|s s' v l Hstep Hcur Hb Hy IH].
  - apply (yields_end (SkipWhileIterator it predicate) (s, true) (s', true)).
    + cbn. by rewrite Hstep.
    + by apply exhausted_SkipWhileIterator.
  - apply (yields_next (SkipWhileIterator it predicate) (s, true) (s', true)); try done.
    cbn. by rewrite Hstep.
Qed.

Lemma skipWhile_loop_yields it (predicate : value -> res bool) (p : value -> bool)
    (fuel : nat) s l :
  yields it s l -> (forall v, v ∈ l -> predicate v = Ok (p v)) -> (length l < fuel)%nat ->
  exists s',
    skipWhile_loop it predicate fuel s
    = Ok (bool_decide (drop (prefix_length p l) l <> []), s') /\
    match drop (prefix_length p l) l with
    | [] => exhausted it s'
    | v :: rest => current it s' = Ok v /\ yields it s' rest
    end.
Proof.
  intros Hy. revert fuel.
  induction Hy as [s s' Hstep Hex|s s' v l Hstep Hcur Hb Hy IH]; intros fuel Hp Hfuel.
  - destruct fuel as [|fuel]; [cbn in Hfuel; lia|]. exists s'. cbn. by rewrite Hstep.
  - destruct fuel as [|fuel]; [cbn in Hfuel; lia|].
    pose proof (Hp v ltac:(by left)) as Hv. cbn [prefix_length skipWhile_loop].
    rewrite Hstep. cbn. rewrite Hcur. cbn. rewrite Hv. cbn.
    destruct (p v) eqn:Hpv; cbn [drop].
    + apply IH; [|cbn in Hfuel; lia]. intros v' Hv'. apply Hp. by right.
    + exists s'. done.
Qed.

Lemma yields_SkipWhileIterator it (predicate : value -> res bool) (p : value -> bool) s l :
  yields it s l -> (forall v, v ∈ l -> predicate v = Ok (p v)) ->
  yields (SkipWhileIterator it predicate) (s, false) (drop (prefix_length p l) l).
Proof.
  intros Hy Hp. pose proof (yields_bound _ _ _ Hy) as Hbound.
  destruct (skipWhile_loop_yields it predicate p (S (bound it s)) s l Hy Hp ltac:(lia))
    as (s' & Hloop & Hrest).
  pose proof (length_drop l (prefix_length p l)) as Hlen.
  destruct (drop (prefix_length p l) l) as [|v rest].
  - apply (yields_end (SkipWhileIterator it predicate) (s, false) (s', false)).
    + cbn -[skipWhile_loop]. by rewrite Hloop.
    + by apply exhausted_SkipWhileIterator.
  - destruct Hrest as [Hcur Hy'].
    apply (yields_next (SkipWhileIterator it predicate) (s, false) (s', true)).
    + cbn -[skipWhile_loop]. by rewrite Hloop.
    + exact Hcur.
    + cbn in Hlen |- *. lia.
    + by apply yields_SkipWhileIterator_through.
Qed.

Lemma exhausted_MultiIterator_finished iterators (s : MultiSt iterators) :
  exhausted (MultiIterator iterators) (s, Finished).
Proof.
  exists (fun t : MultiSt iterators * multi_phase => t.2 = Finished). split; [done|].
  intros [t phase] Ht. cbn in Ht. subst phase. by exists (t, Finished).
Qed.

(** Two cursors in a [MultiIterator]: it yields the pairs of their
    elements, as many as the shorter gives. *)
Lemma yields_MultiIterator_pair ix it si s labels values (phase : multi_phase) :
  yields ix si labels -> yields it s values -> phase <> Finished ->
  yields (MultiIterator [ix; it]) ((si, (s, ())), phase)
    (zip_with (fun index value => VArr [index; value]) labels values).
Proof.
  intros Hyx. revert s values phase.
  induction Hyx as [si si' Hstepx Hexx|si si' label labels Hstepx Hcurx Hbx Hyx IH];
    intros s values phase Hy Hphase.
  - apply (yields_end (MultiIterator [ix; it]) ((si, (s, ())), phase)
             ((si', (s, ())), Finished)).
    + cbn. destruct phase; try done; cbn; by rewrite Hstepx.
    + apply exhausted_MultiIterator_finished.
  - destruct Hy as [s s' Hstep Hex|s s' v values Hstep Hcur Hb Hy].
    + apply (yields_end (MultiIterator [ix; it]) ((si, (s, ())), phase)
               ((si', (s', ())), Finished)).
      * cbn. destruct phase; try done; cbn; rewrite Hstepx; cbn; by rewrite Hstep.
      * apply exhausted_MultiIterator_finished.
    + cbn [zip_with].
      apply (yields_next (MultiIterator [ix; it]) ((si, (s, ())), phase)
               ((si', (s', ())), Valid)).
      * cbn. destruct phase; try done; cbn; rewrite Hstepx; cbn; by rewrite Hstep.
      * cbn. rewrite Hcurx. cbn. by rewrite Hcur.
      * cbn. rewrite length_zip_with. unfold multi_bound. cbn. lia.
      * by apply IH.
Qed.

Lemma pairs_prefix_length (p : value -> bool) (labels values : list value) :
  length labels = length values ->
  prefix_length (fun pair => p (nth_value (E_from pair) 1))
    (zip_with (fun index value => VArr [index; value]) labels values)
  = prefix_length p values.
Proof.
  revert values. induction labels as [|label labels IH]; intros [|value values] Hlen;
    try done.
  cbn [zip_with prefix_length].
  change (nth_value (E_from (VArr [label; value])) 1) with value.
  destruct (p value); [|done]. f_equal. apply IH. cbn in Hlen. lia.
Qed.

Lemma pairs_labels (labels values : list value) :
  length labels = length values ->
  map (fun pair => nth_value (E_from pair) 0)
      (zip_with (fun index value => VArr [index; value]) labels values)
  = labels.
Proof.
  revert values. induction labels as [|label labels IH]; intros [|value values] Hlen;
    try done.
  cbn [zip_with map]. f_equal. apply IH. cbn in Hlen. lia.
Qed.

Lemma pairs_get_index (labels values : list value) (pair : value) (i : Z) :
  pair ∈ zip_with (fun index value => VArr [index; value]) labels values ->
  get_index pair i = Ok (nth_value (E_from pair) i).
Proof. intros Hin. apply elem_of_zip_with in Hin as (label & value & -> & _). done. Qed.

Lemma elem_of_take_drop {A} (x : A) (n : nat) (l : list A) :
  x ∈ take n l \/ x ∈ drop n l -> x ∈ l.
Proof. intros Hin. rewrite <- (take_drop n l). by apply elem_of_app. Qed.

Lemma Series_takeWhile_yields W (self : Series) values labels (predicate : value -> bool) :
  Series_yields W self values labels -> length labels = length values ->
  exists derived,
    Series.takeWhile self predicate = Ok derived /\
    Series_yields W derived (take (prefix_length predicate values) values)
      (take (prefix_length predicate values) labels).
Proof.
  intros (it & ix & Hit & Hy & Hix & Hyx) Hlen. eexists. split; [reflexivity|].
  set (pairs := zip_with (fun index value => VArr [index; value]) labels values).
  exists (TakeWhileIterator it (fun v => Ok (predicate v))),
    (SelectIterator
       (TakeWhileIterator (MultiIterator [ix; it])
          (fun pair => v ← get_index pair 1; Ok (predicate v)))
       (fun pair => get_index pair 0)).
  split; [|split; [|split]].
  - unfold Series.getIterator at 1. cbn [Series_iterable].
    apply (evals_eq _ _
      (it ← Ok it; Ok (TakeWhileIterator it (fun v => Ok (predicate v))))); [done|].
    evals_auto.
  - by apply yields_TakeWhileIterator.
  - unfold Series.getIndex at 1, Index.getIterator at 1, Index.new. cbn [Series_index Index_iterable].
    apply (evals_eq _ _
      (indexIterator ← Ok ix; it ← Ok it;
       Ok (SelectIterator
             (TakeWhileIterator (MultiIterator [indexIterator; it])
                (fun pair => v ← get_index pair 1; Ok (predicate v)))
             (fun pair => get_index pair 0)))); [done|].
    evals_auto.
  - pose proof (yields_MultiIterator_pair ix it _ _ _ _ Fresh Hyx Hy ltac:(done)) as Hmulti.
    fold pairs in Hmulti.
    pose proof (yields_TakeWhileIterator _
                  (fun pair => v ← get_index pair 1; Ok (predicate v))
                  (fun pair => predicate (nth_value (E_from pair) 1)) _ _ Hmulti) as Htake.
    unfold pairs in Htake at 2. rewrite pairs_prefix_length in Htake by done.
    pose proof (yields_SelectIterator _ (fun pair => get_index pair 0)
                  (fun pair => nth_value (E_from pair) 0) _ _
                  (Htake ltac:(intros v Hv; by rewrite (pairs_get_index labels values)))) as Hsel.
    rewrite <- (pairs_labels labels values Hlen). rewrite <- fmap_take. apply Hsel.
    intros v Hv. apply (pairs_get_index labels values).
    apply (elem_of_take_drop v (prefix_length predicate values)). by left.
Qed.

Lemma Series_skipWhile_yields W (self : Series) values labels (predicate : value -> bool) :
  Series_yields W self values labels -> length labels = length values ->
  exists derived,
    Series.skipWhile self predicate = Ok derived /\
    Series_yields W derived (drop (prefix_length predicate values) values)
      (drop (prefix_length predicate values) labels).
Proof.
  intros (it & ix & Hit & Hy & Hix & Hyx) Hlen. eexists. split; [reflexivity|].
  set (pairs := zip_with (fun index value => VArr [index; value]) labels values).
  exists (SkipWhileIterator it (fun v => Ok (predicate v))),
    (SelectIterator
       (SkipWhileIterator (MultiIterator [ix; it])
          (fun pair => v ← get_index pair 1; Ok (predicate v)))
       (fun pair => get_index pair 0)).
  split; [|split; [|split]].
  - unfold Series.getIterator at 1. cbn [Series_iterable].
    apply (evals_eq _ _
      (it ← Ok it; Ok (SkipWhileIterator it (fun v => Ok (predicate v))))); [done|].
    evals_auto.
  - by apply yields_SkipWhileIterator.
  - unfold Series.getIndex at 1, Index.getIterator at 1, Index.new. cbn [Series_index Index_iterable].
    apply (evals_eq _ _
      (indexIterator ← Ok ix; it ← Ok it;
       Ok (SelectIterator
             (SkipWhileIterator (MultiIterator [indexIterator; it])
                (fun pair => v ← get_index pair 1; Ok (predicate v)))
             (fun pair => get_index pair 0)))); [done|].
    evals_auto.
  - pose proof (yields_MultiIterator_pair ix it _ _ _ _ Fresh Hyx Hy ltac:(done)) as Hmulti.
    fold pairs in Hmulti.
    pose proof (yields_SkipWhileIterator _
                  (fun pair => v ← get_index pair 1; Ok (predicate v))
                  (fun pair => predicate (nth_value (E_from pair) 1)) _ _ Hmulti) as Hskip.
    unfold pairs in Hskip at 2. rewrite pairs_prefix_length in Hskip by done.
    pose proof (yields_SelectIterator _ (fun pair => get_index pair 0)
                  (fun pair => nth_value (E_from pair) 0) _ _
                  (Hskip ltac:(intros v Hv; by rewrite (pairs_get_index labels values)))) as Hsel.
    rewrite <- (pairs_labels labels values Hlen). rewrite <- fmap_drop. apply Hsel.
    intros v Hv. apply (pairs_get_index labels values).
    apply (elem_of_take_drop v (prefix_length predicate values)). by right.
Qed.

(** X18.  [takeWhile(predicate)] and [skipWhile(predicate)] split a series
    with as many labels as values at its first value that fails the
    predicate: the first realizes the values before it, the second the
    values from it on, each value under its own label.  [takeUntil]
    and [skipUntil] split at the first value that passes. *)
Theorem Series_takeWhile_skipWhile W (self : Series) values labels
    (predicate : value -> bool) :
  Series_yields W self values labels -> length labels = length values ->
  let n := prefix_length predicate values in
  let m := prefix_length (fun value => negb (predicate value)) values in
  evals W (derived ← lift (Series.takeWhile self predicate); Series_observe derived)
    (Ok (take n values, take n labels)) /\
  evals W (derived ← lift (Series.skipWhile self predicate); Series_observe derived)
    (Ok (drop n values, drop n labels)) /\
  evals W (derived ← lift (Series.takeUntil self predicate); Series_observe derived)
    (Ok (take m values, take m labels)) /\
  evals W (derived ← lift (Series.skipUntil self predicate); Series_observe derived)
    (Ok (drop m values, drop m labels)) /\
  Forall (fun v => predicate v = true) (take n values) /\
  (forall v, drop n values !! 0%nat = Some v -> predicate v = false).
Proof.
  intros Hself Hlen n m.
  assert (Htake : forall p,
    evals W (derived ← lift (Series.takeWhile self p); Series_observe derived)
      (Ok (take (prefix_length p values) values, take (prefix_length p values) labels))).
  { intros p.
    destruct (Series_takeWhile_yields W self values labels p Hself Hlen) as (d & Hd & Hyd).
    apply (evals_eq _ _
      (derived ← Ok d;
       Ok (take (prefix_length p values) values, take (prefix_length p values) labels)));
      [done|].
    apply evals_bind; [rewrite Hd; apply evals_lift|]. intros ? [= <-].
    by apply Series_yields_observe. }
  assert (Hskip : forall p,
    evals W (derived ← lift (Series.skipWhile self p); Series_observe derived)
      (Ok (drop (prefix_length p values) values, drop (prefix_length p values) labels))).
  { intros p.
    destruct (Series_skipWhile_yields W self values labels p Hself Hlen) as (d & Hd & Hyd).
    apply (evals_eq _ _
      (derived ← Ok d;
       Ok (drop (prefix_length p values) values, drop (prefix_length p values) labels)));
      [done|].
    apply evals_bind; [rewrite Hd; apply evals_lift|]. intros ? [= <-].
    by apply Series_yields_observe. }
  split; [apply Htake|]. split; [apply Hskip|].
  split; [apply (Htake (fun value => negb (predicate value)))|].
  split; [apply (Hskip (fun value => negb (predicate value)))|].
  apply prefix_length_holds.
Qed.

Lemma Series_takeWhile_skipWhile_witness :
  evals [] (derived ← lift (Series.skipWhile
                              (mkSeries (mret (ArrayIterator1 [VNum 1; VNum 5; VNum 2]))
                                        (Index.new (inl [VStr "a"; VStr "b"; VStr "c"])))
                              (fun v => js_lt v (VNum 3)));
            Series_observe derived)
    (Ok ([VNum 5; VNum 2], [VStr "b"; VStr "c"])).
Proof.
  exact (proj1 (proj2 (Series_takeWhile_skipWhile [] _ [VNum 1; VNum 5; VNum 2]
                         [VStr "a"; VStr "b"; VStr "c"] (fun v => js_lt v (VNum 3))
                         (Series_yields_arrays [] _ _) eq_refl))).
Defined.

(** *** head, skip and tail of a data frame *)

Lemma DataFrame_yields_count W (self : DataFrame) names rows labels :
  DataFrame_yields W self names rows labels ->
  evals W (DataFrame.count self) (Ok (len rows)).
Proof.
  intros (_ & it & Hit & Hy). pose proof (yields_labelled_values _ _ _ _ Hy) as Hrows.
  unfold DataFrame.count.
  eapply (evals_eq _ _
    (it ← Ok it; count_loop it (S (bound it (state it))) (state it) 0)); [|evals_auto].
  cbn -[count_loop]. rewrite (count_loop_yields _ _ _ Hrows); [done|].
  pose proof (yields_bound _ _ _ Hrows). lia.
Qed.

Lemma DataFrame_skip_yields W (self : DataFrame) names rows labels (numRows : Z) :
  DataFrame_yields W self names rows labels ->
  exists derived,
    evals W (DataFrame.skip self numRows) (Ok derived) /\
    DataFrame_yields W derived names (drop (Z.to_nat numRows) rows)
      (drop (Z.to_nat numRows) labels).
Proof.
  intros (Hnames & it & Hit & Hy). eexists. split.
  - unfold DataFrame.skip.
    apply (evals_eq _ _
      (columnNames ← Ok names;
       Ok (mkDataFrame (NamesArray columnNames)
             (it ← (it ← DataFrame.getIterator self; mret (SkipIterator it numRows));
              indexIterator ← Index.getIterator
                                (Index.skip (DataFrame.getIndex self) numRows);
              mret (ApplyIndexIterator it indexIterator))))); [done|].
    apply evals_bind; [exact Hnames|]. intros columnNames _. apply DataFrame_new_evals.
  - apply (indexed_frame_yields W names
             (it ← DataFrame.getIterator self; mret (SkipIterator it numRows))
             (Index.skip (DataFrame.getIndex self) numRows)
             (SkipIterator it numRows) (SkipIterator (IndexCursor it) numRows)).
    + apply (evals_eq _ _ (it ← Ok it; Ok (SkipIterator it numRows))); [done|]. evals_auto.
    + apply yields_SkipIterator. by eapply yields_labelled_values.
    + unfold Index.skip, DataFrame.getIndex, Index.getIterator, Index.new.
      cbn [Index_iterable].
      apply (evals_eq _ _
        (it ← (iterator ← Ok it; Ok (IndexCursor iterator));
         Ok (SkipIterator it numRows))); [done|].
      evals_auto.
    + apply yields_SkipIterator. apply (yields_labelled_index _ _ _ _ (-1) Hy).
    + rewrite !length_drop. by rewrite (yields_labelled_length _ _ _ _ Hy).
Qed.

(** X19.  [head(n)] is the first [n] rows with their labels, [skip(n)] the
    rows after them, and [tail(n)] skips all but the last [n] rows;
    all three keep the column names. *)
Theorem DataFrame_head_tail W (self : DataFrame) names rows labels (n : Z) :
  DataFrame_yields W self names rows labels ->
  evals W (derived ← DataFrame.head self n; DataFrame_observe derived)
    (Ok (take (Z.to_nat n) rows, take (Z.to_nat n) labels, names)) /\
  evals W (derived ← DataFrame.skip self n; DataFrame_observe derived)
    (Ok (drop (Z.to_nat n) rows, drop (Z.to_nat n) labels, names)) /\
  evals W (derived ← DataFrame.tail self n; DataFrame_observe derived)
    (Ok (drop (Z.to_nat (len rows - n)) rows, drop (Z.to_nat (len rows - n)) labels,
         names)).
Proof.
  intros Hself. pose proof (DataFrame_yields_count _ _ _ _ _ Hself) as Hcount.
  assert (Hskip : forall k,
    evals W (derived ← DataFrame.skip self k; DataFrame_observe derived)
      (Ok (drop (Z.to_nat k) rows, drop (Z.to_nat k) labels, names))).
  { intros k. destruct (DataFrame_skip_yields W self names rows labels k Hself)
      as (d & Hd & Hyd).
    apply (evals_eq _ _
      (derived ← Ok d; Ok (drop (Z.to_nat k) rows, drop (Z.to_nat k) labels, names)));
      [done|].
    apply evals_bind; [exact Hd|]. intros ? [= <-]. by apply DataFrame_yields_observe. }
  split; [|split; [apply Hskip|]].
  - destruct Hself as (Hnames & it & Hit & Hy). unfold DataFrame.head.
    apply (evals_eq _ _
      (derived ← Ok (mkDataFrame (NamesArray names)
                       (it ← (it ← DataFrame.getIterator self; mret (TakeIterator it n));
                        indexIterator ← Index.getIterator
                                          (Index.take (DataFrame.getIndex self) n);
                        mret (ApplyIndexIterator it indexIterator)));
       Ok (take (Z.to_nat n) rows, take (Z.to_nat n) labels, names))); [done|].
    apply evals_bind.
    + unfold DataFrame.take.
      apply (evals_eq _ _
        (columnNames ← Ok names;
         Ok (mkDataFrame (NamesArray columnNames)
               (it ← (it ← DataFrame.getIterator self; mret (TakeIterator it n));
                indexIterator ← Index.getIterator
                                  (Index.take (DataFrame.getIndex self) n);
                mret (ApplyIndexIterator it indexIterator))))); [done|].
      apply evals_bind; [exact Hnames|]. intros columnNames _. apply DataFrame_new_evals.
    + intros derived [= <-]. apply DataFrame_yields_observe.
      apply (indexed_frame_yields W names
               (it ← DataFrame.getIterator self; mret (TakeIterator it n))
               (Index.take (DataFrame.getIndex self) n)
               (TakeIterator it n) (TakeIterator (IndexCursor it) n)).
      * apply (evals_eq _ _ (it ← Ok it; Ok (TakeIterator it n))); [done|]. evals_auto.
      * apply yields_TakeIterator. by eapply yields_labelled_values.
      * unfold Index.take, DataFrame.getIndex, Index.getIterator, Index.new.
        cbn [Index_iterable].
        apply (evals_eq _ _
          (it ← (iterator ← Ok it; Ok (IndexCursor iterator));
           Ok (TakeIterator it n))); [done|].
        evals_auto.
      * apply yields_TakeIterator. apply (yields_labelled_index _ _ _ _ (-1) Hy).
      * rewrite !length_take. by rewrite (yields_labelled_length _ _ _ _ Hy).
  - unfold DataFrame.tail.
    destruct (DataFrame_skip_yields W self names rows labels (len rows - n) Hself)
      as (d & Hd & Hyd).
    apply (evals_eq _ _
      (derived ← (total ← Ok (len rows); Ok d);
       Ok (drop (Z.to_nat (len rows - n)) rows, drop (Z.to_nat (len rows - n)) labels,
           names))); [done|].
    apply evals_bind.
    + apply evals_bind; [exact Hcount|]. intros total [= <-]. exact Hd.
    + intros ? [= <-]. by apply DataFrame_yields_observe.
Qed.

Lemma DataFrame_head_tail_witness :
  evals [] (derived ← DataFrame.tail
                        (mkDataFrame (NamesArray ["n"])
                           (mret (ArrayIterator1 [VArr [VNum 4]; VArr [VNum 5];
                                                  VArr [VNum 6]]))) 2;
            DataFrame_observe derived)
    (Ok ([VArr [VNum 5]; VArr [VNum 6]], [VNum 1; VNum 2], ["n"])).
Proof.
  exact (proj2 (proj2 (DataFrame_head_tail [] _ ["n"] [VArr [VNum 4]; VArr [VNum 5];
                                                         VArr [VNum 6]] _ 2
                         (DataFrame_yields_arrays [] _ _)))).
Defined.

(** *** bake of a data frame *)

(** X20.  [bake()] realizes the column names, the rows and the labels once:
    the baked data frame holds them in arrays, reads no memo cell, and
    realizes to the content of the source, whatever happens to the
    source afterwards. *)
Theorem DataFrame_bake_arrays W (self : DataFrame) names rows labels :
  DataFrame_yields W self names rows labels ->
  exists baked,
    evals W (DataFrame.bake self) (Ok baked) /\
    DataFrame_yields [] baked names rows labels /\
    evals [] (DataFrame_observe baked) (Ok (rows, labels, names)).
Proof.
  intros Hself. pose proof Hself as (Hnames & it & Hit & Hy).
  pose proof (yields_labelled_values _ _ _ _ Hy) as Hrows.
  pose proof (yields_labelled_index _ _ _ _ (-1) Hy) as Hlabels.
  assert (Hbaked : DataFrame_yields []
    (mkDataFrame (NamesArray names)
       (it ← mret (ArrayIterator1 rows);
        indexIterator ← Index.getIterator (Index.new (inl labels));
        mret (ApplyIndexIterator it indexIterator)))
    names rows labels).
  { apply (indexed_frame_yields [] names (mret (ArrayIterator1 rows))
             (Index.new (inl labels)) (ArrayIterator1 rows) (ArrayIterator1 labels)).
    - apply evals_ret.
    - apply yields_ArrayIterator1.
    - apply evals_ret.
    - apply yields_ArrayIterator1.
    - by eapply yields_labelled_length. }
  eexists. split; [|split; [exact Hbaked|by apply DataFrame_yields_observe]].
  unfold DataFrame.bake, DataFrame.toValues, Index.bake, Index.toValues,
    DataFrame.getIndex, Index.getIterator, Index.new at 1.
  cbn [Index_iterable].
  apply (evals_eq _ _
    (columnNames ← Ok names;
     rows ← (it ← Ok it; realize it);
     index ← (values ← (it ← (iterator ← Ok it; Ok (IndexCursor iterator)); realize it);
              Ok (Index.new (inl values)));
     Ok (mkDataFrame (NamesArray columnNames)
           (it ← mret (ArrayIterator1 rows);
            indexIterator ← Index.getIterator index;
            mret (ApplyIndexIterator it indexIterator))))).
  - cbn -[realize Index.new]. rewrite (realize_yields _ _ Hrows). cbn -[realize Index.new].
    by rewrite (realize_yields _ _ Hlabels).
  - apply evals_bind; [exact Hnames|]. intros columnNames _.
    apply evals_bind; [evals_auto|]. intros rows' _.
    apply evals_bind; [evals_auto|]. intros index _.
    apply (DataFrame_new_evals W columnNames (mret (ArrayIterator1 rows')) index).
Qed.

Lemma DataFrame_bake_arrays_witness :
  exists baked,
    evals [] (DataFrame.bake
                (mkDataFrame (NamesArray ["n"]) (mret (ArrayIterator1 [VArr [VNum 4]]))))
      (Ok baked) /\
    DataFrame_yields [] baked ["n"] [VArr [VNum 4]] [VNum 0] /\
    evals [] (DataFrame_observe baked) (Ok ([VArr [VNum 4]], [VNum 0], ["n"])).
Proof.
  exact (DataFrame_bake_arrays [] _ ["n"] [VArr [VNum 4]] _ (DataFrame_yields_arrays [] _ _)).
Defined.

(** *** takeWhile and skipWhile of a data frame *)

Lemma DataFrame_pairs_cursor W (self : DataFrame) rows labels it :
  evals W (DataFrame.getIterator self) (Ok it) ->
  yields_labelled it (state it) rows labels ->
  evals W (Index.getIterator (DataFrame.getIndex self)) (Ok (IndexCursor it)) /\
  yields (MultiIterator [IndexCursor it; it])
    (state (MultiIterator [IndexCursor it; it]))
    (zip_with (fun index value => VArr [index; value]) labels rows).
Proof.
  intros Hit Hy. split.
  - unfold DataFrame.getIndex, Index.getIterator, Index.new. cbn [Index_iterable].
    apply (evals_eq _ _ (iterator ← Ok it; Ok (IndexCursor iterator))); [done|]. evals_auto.
  - apply (yields_MultiIterator_pair (IndexCursor it) it (state it, -1) (state it) labels rows
             Fresh); [|by eapply yields_labelled_values|done].
    apply (yields_labelled_index _ _ _ _ (-1) Hy).
Qed.

(** X21.  [takeWhile(predicate)] and [skipWhile(predicate)] split a data
    frame at its first row whose column-mapped form fails the
    predicate: the first realizes the rows before it, the second the
    rows from it on, each row under its own label and both under the
    column names of the source. *)
Theorem DataFrame_takeWhile_skipWhile W (self : DataFrame) names rows labels
    (predicate : value -> bool) :
  DataFrame_yields W self names rows labels ->
  let n := prefix_length (fun row => predicate (mapRow names row)) rows in
  evals W (derived ← DataFrame.takeWhile self predicate; DataFrame_observe derived)
    (Ok (take n rows, take n labels, names)) /\
  evals W (derived ← DataFrame.skipWhile self predicate; DataFrame_observe derived)
    (Ok (drop n rows, drop n labels, names)).
Proof.
  intros Hself n. pose proof Hself as (Hnames & it & Hit & Hy).
  pose proof (yields_labelled_values _ _ _ _ Hy) as Hrows.
  pose proof (yields_labelled_length _ _ _ _ Hy) as Hlen. symmetry in Hlen.
  destruct (DataFrame_pairs_cursor W self rows labels it Hit Hy) as [Hix Hmulti].
  set (p := fun row => predicate (mapRow names row)).
  set (onPair := fun pair => row ← get_index pair 1; Ok (predicate (mapRow names row))).
  assert (HonPair : forall v,
    v ∈ zip_with (fun index value => VArr [index; value]) labels rows ->
    onPair v = Ok (p (nth_value (E_from v) 1))).
  { intros v Hv. unfold onPair. by rewrite (pairs_get_index labels rows). }
  split.
  - set (rows' := (it ← DataFrame.getIterator self;
                   names ← DataFrame.getColumnNames self;
                   mret (TakeWhileIterator it
                           (fun row => Ok (predicate (mapRow names row))))) : M iterator).
    set (index' := Index.new (inr (
           indexIterator ← Index.getIterator (DataFrame.getIndex self);
           it ← DataFrame.getIterator self;
           names ← DataFrame.getColumnNames self;
           let multiIterator := MultiIterator [indexIterator; it] in
           mret (SelectIterator
                   (TakeWhileIterator multiIterator
                      (fun pair => row ← get_index pair 1;
                                   Ok (predicate (mapRow names row))))
                   (fun pair => get_index pair 0))))).
    apply (evals_eq _ _
      (derived ← Ok (mkDataFrame (NamesArray names)
                       (it ← rows';
                        indexIterator ← Index.getIterator index';
                        mret (ApplyIndexIterator it indexIterator)));
       Ok (take n rows, take n labels, names))); [done|].
    apply evals_bind.
    + unfold DataFrame.takeWhile.
      apply (evals_eq _ _
        (columnNames ← Ok names;
         Ok (mkDataFrame (NamesArray columnNames)
               (it ← rows';
                indexIterator ← Index.getIterator index';
                mret (ApplyIndexIterator it indexIterator))))); [done|].
      apply evals_bind; [exact Hnames|]. intros columnNames _. apply DataFrame_new_evals.
    + intros derived [= <-]. apply DataFrame_yields_observe.
      apply (indexed_frame_yields W names rows' index'
               (TakeWhileIterator it (fun row => Ok (p row)))
               (SelectIterator (TakeWhileIterator (MultiIterator [IndexCursor it; it]) onPair)
                  (fun pair => get_index pair 0))).
      * unfold rows'.
        apply (evals_eq _ _
          (it ← Ok it; names ← Ok names;
           Ok (TakeWhileIterator it (fun row => Ok (predicate (mapRow names row))))));
          [done|].
        evals_auto.
      * by apply yields_TakeWhileIterator.
      * unfold index', Index.getIterator at 1, Index.new. cbn [Index_iterable].
        apply (evals_eq _ _
          (indexIterator ← Ok (IndexCursor it); it ← Ok it; names ← Ok names;
           Ok (SelectIterator
                 (TakeWhileIterator (MultiIterator [indexIterator; it])
                    (fun pair => row ← get_index pair 1;
                                 Ok (predicate (mapRow names row))))
                 (fun pair => get_index pair 0)))); [done|].
        evals_auto.
      * pose proof (yields_TakeWhileIterator _ onPair
                      (fun pair => p (nth_value (E_from pair) 1)) _ _ Hmulti HonPair)
          as Htake.
        rewrite pairs_prefix_length in Htake by done.
        pose proof (yields_SelectIterator _ (fun pair => get_index pair 0)
                      (fun pair => nth_value (E_from pair) 0) _ _ Htake) as Hsel.
        rewrite <- (pairs_labels labels rows Hlen). rewrite <- fmap_take. apply Hsel.
        intros v Hv. apply (pairs_get_index labels rows).
        apply (elem_of_take_drop v (prefix_length p rows)). by left.
      * rewrite !length_take. by rewrite Hlen.
  - set (rows' := (it ← DataFrame.getIterator self;
                   names ← DataFrame.getColumnNames self;
                   mret (SkipWhileIterator it
                           (fun row => Ok (predicate (mapRow names row))))) : M iterator).
    set (index' := Index.new (inr (
           indexIterator ← Index.getIterator (DataFrame.getIndex self);
           it ← DataFrame.getIterator self;
           names ← DataFrame.getColumnNames self;
           let multiIterator := MultiIterator [indexIterator; it] in
           mret (SelectIterator
                   (SkipWhileIterator multiIterator
                      (fun pair => row ← get_index pair 1;
                                   Ok (predicate (mapRow names row))))
                   (fun pair => get_index pair 0))))).
    apply (evals_eq _ _
      (derived ← Ok (mkDataFrame (NamesArray names)
                       (it ← rows';
                        indexIterator ← Index.getIterator index';
                        mret (ApplyIndexIterator it indexIterator)));
       Ok (drop n rows, drop n labels, names))); [done|].
    apply evals_bind.
    + unfold DataFrame.skipWhile.
      apply (evals_eq _ _
        (columnNames ← Ok names;
         Ok (mkDataFrame (NamesArray columnNames)
               (it ← rows';
                indexIterator ← Index.getIterator index';
                mret (ApplyIndexIterator it indexIterator))))); [done|].
      apply evals_bind; [exact Hnames|]. intros columnNames _. apply DataFrame_new_evals.
    + intros derived [= <-]. apply DataFrame_yields_observe.
      apply (indexed_frame_yields W names rows' index'
               (SkipWhileIterator it (fun row => Ok (p row)))
               (SelectIterator (SkipWhileIterator (MultiIterator [IndexCursor it; it]) onPair)
                  (fun pair => get_index pair 0))).
      * unfold rows'.
        apply (evals_eq _ _
          (it ← Ok it; names ← Ok names;
           Ok (SkipWhileIterator it (fun row => Ok (predicate (mapRow names row))))));
          [done|].
        evals_auto.
      * by apply yields_SkipWhileIterator.
      * unfold index', Index.getIterator at 1, Index.new. cbn [Index_iterable].
        apply (evals_eq _ _
          (indexIterator ← Ok (IndexCursor it); it ← Ok it; names ← Ok names;
           Ok (SelectIterator
                 (SkipWhileIterator (MultiIterator [indexIterator; it])
                    (fun pair => row ← get_index pair 1;
                                 Ok (predicate (mapRow names row))))
                 (fun pair => get_index pair 0)))); [done|].
        evals_auto.
      * pose proof (yields_SkipWhileIterator _ onPair
                      (fun pair => p (nth_value (E_from pair) 1)) _ _ Hmulti HonPair)
          as Hskip.
        rewrite pairs_prefix_length in Hskip by done.
        pose proof (yields_SelectIterator _ (fun pair => get_index pair 0)
                      (fun pair => nth_value (E_from pair) 0) _ _ Hskip) as Hsel.
        rewrite <- (pairs_labels labels rows Hlen). rewrite <- fmap_drop. apply Hsel.
        intros v Hv. apply (pairs_get_index labels rows).
        apply (elem_of_take_drop v (prefix_length p rows)). by right.
      * rewrite !length_drop. by rewrite Hlen.
Qed.

Lemma DataFrame_takeWhile_skipWhile_witness :
  evals [] (derived ← DataFrame.skipWhile
                        (mkDataFrame (NamesArray ["n"])
                           (mret (ArrayIterator1 [VArr [VNum 1]; VArr [VNum 5];
                                                  VArr [VNum 2]])))
                        (fun row => match get_prop row "n" with
                                    | Ok v => js_lt v (VNum 3)
                                    | Err _ => false
                                    end);
            DataFrame_observe derived)
    (Ok ([VArr [VNum 5]; VArr [VNum 2]], [VNum 1; VNum 2], ["n"])).
Proof.
  exact (proj2 (DataFrame_takeWhile_skipWhile [] _ ["n"]
                  [VArr [VNum 1]; VArr [VNum 5]; VArr [VNum 2]] _ _
                  (DataFrame_yields_arrays [] _ _))).
Defined.

(** *** where of a data frame *)

Lemma exhausted_WhereIterator it predicate (s : St it) :
  exhausted it s -> exhausted (WhereIterator it predicate) s.
Proof.
  intros Hs. exists (fun t : St it => exhausted it t). split; [done|].
  intros t Ht. destruct (exhausted_step _ _ Ht) as (t' & Hstep & Ht').
  exists t'. cbn. by rewrite Hstep.
Qed.

Lemma where_loop_yields it (predicate : value -> res bool) (p : value -> bool)
    (fuel : nat) s l :
  yields it s l -> (forall v, v ∈ l -> predicate v = Ok (p v)) -> (length l < fuel)%nat ->
  exists s',
    where_loop it predicate fuel s = Ok (bool_decide (List.filter p l <> []), s') /\
    match List.filter p l with
    | [] => exhausted it s'
    | v :: rest =>
        current it s' = Ok v /\
        exists l', yields it s' l' /\ List.filter p l' = rest /\
                   (length l' < length l)%nat /\ forall v', v' ∈ l' -> v' ∈ l
    end.
Proof.
  intros Hy. revert fuel.
  induction Hy as [s s' Hstep Hex|s s' v l Hstep Hcur Hb Hy IH]; intros fuel Hp Hfuel.
  - destruct fuel as [|fuel]; [cbn in Hfuel; lia|]. exists s'. cbn. by rewrite Hstep.
  - destruct fuel as [|fuel]; [cbn in Hfuel; lia|].
    pose proof (Hp v ltac:(by left)) as Hv. cbn [List.filter where_loop].
    rewrite Hstep. cbn. rewrite Hcur. cbn. rewrite Hv. cbn.
    destruct (p v) eqn:Hpv.
    + exists s'. split; [done|]. split; [done|]. exists l.
      split; [done|]. split; [done|]. split; [cbn; lia|]. intros v' Hv'. by right.
    + destruct (IH fuel) as (s'' & Hloop & Hrest).
      * intros v' Hv'. apply Hp. by right.
      * cbn in Hfuel. lia.
      * exists s''. split; [exact Hloop|].
        destruct (List.filter p l) as [|w rest]; [done|].
        destruct Hrest as (Hcur' & l' & Hy' & Hf & Hlen & Hsub).
        split; [done|]. exists l'. split; [done|]. split; [done|].
        split; [cbn; lia|]. intros v' Hv'. right. by apply Hsub.
Qed.

Lemma filter_length_le {A} (p : A -> bool) (l : list A) :
  (length (List.filter p l) <= length l)%nat.
Proof. induction l as [|x l IH]; cbn; [lia|]. destruct (p x); cbn; lia. Qed.

Lemma yields_WhereIterator it (predicate : value -> res bool) (p : value -> bool) s l :
  yields it s l -> (forall v, v ∈ l -> predicate v = Ok (p v)) ->
  yields (WhereIterator it predicate) s (List.filter p l).
Proof.
  remember (length l) as n eqn:Hn. revert s l Hn.
  induction n as [n IH] using lt_wf_ind. intros s l Hn Hy Hp.
  pose proof (yields_bound _ _ _ Hy) as Hbound.
  destruct (where_loop_yields it predicate p (S (bound it s)) s l Hy Hp ltac:(lia))
    as (s' & Hloop & Hrest).
  destruct (List.filter p l) as [|v rest] eqn:Hfilter.
  - apply (yields_end (WhereIterator it predicate) s s'); [exact Hloop|].
    by apply exhausted_WhereIterator.
  - destruct Hrest as (Hcur & l' & Hy' & Hf & Hlen & Hsub).
    apply (yields_next (WhereIterator it predicate) s s'); [exact Hloop|exact Hcur| |].
    + cbn. pose proof (filter_length_le p l') as Hle. rewrite Hf in Hle. lia.
    + rewrite <- Hf. apply (IH (length l')); [lia|done|done|].
      intros v' Hv'. apply Hp. by apply Hsub.
Qed.

Lemma exhausted_WhereIndexCursor multiIterator predicate (s : St multiIterator) :
  exhausted (WhereIterator multiIterator predicate) s ->
  exhausted (DataFrame.WhereIndexCursor multiIterator predicate) s.
Proof. intros (P & Hs & HP). by exists P. Qed.

Lemma yields_WhereIndexCursor multiIterator predicate (g : value -> value) s l :
  yields (WhereIterator multiIterator predicate) s l ->
  (forall v, v ∈ l -> get_index v 0 = Ok (g v)) ->
  yields (DataFrame.WhereIndexCursor multiIterator predicate) s (map g l).
Proof.
  induction 1 as [s s' Hstep Hex|s s' v l Hstep Hcur Hb Hy IH]; intros Hg; cbn [map].
  - apply (yields_end (DataFrame.WhereIndexCursor multiIterator predicate) s s');
      [exact Hstep|by apply exhausted_WhereIndexCursor].
  - apply (yields_next (DataFrame.WhereIndexCursor multiIterator predicate) s s').
    + exact Hstep.
    + cbn in Hcur |- *. rewrite Hcur. cbn. apply Hg. by left.
    + by rewrite length_map.
    + apply IH. intros v' Hv'. apply Hg. by right.
Qed.

Lemma pairs_filter (p : value -> bool) (labels values : list value) :
  length labels = length values ->
  map (fun pair => nth_value (E_from pair) 0)
      (List.filter (fun pair => p (nth_value (E_from pair) 1))
                   (zip_with (fun index value => VArr [index; value]) labels values))
  = map fst (List.filter (fun pr : value * value => p pr.2) (zip labels values)) /\
  map snd (List.filter (fun pr : value * value => p pr.2) (zip labels values))
  = List.filter p values.
Proof.
  revert values. induction labels as [|label labels IH]; intros [|value values] Hlen;
    try done.
  cbn [zip_with List.filter].
  change (nth_value (E_from (VArr [label; value])) 1) with value.
  destruct (IH values ltac:(cbn in Hlen; lia)) as [IH1 IH2].
  cbn. destruct (p value); cbn; by rewrite IH1, IH2.
Qed.

Lemma elem_of_filter_list {A} (p : A -> bool) (l : list A) (x : A) :
  x ∈ List.filter p l -> x ∈ l.
Proof. intros Hin. apply list_elem_of_In, filter_In in Hin as [Hin _]. by apply list_elem_of_In. Qed.

(** X22.  [where(predicate)] keeps the rows whose column-mapped form
    satisfies the predicate, in order, each under the label it had in
    the source, and keeps the column names. *)
Theorem DataFrame_where_filters W (self : DataFrame) names rows labels
    (predicate : value -> bool) :
  DataFrame_yields W self names rows labels ->
  evals W (derived ← DataFrame.where_ self predicate; DataFrame_observe derived)
    (Ok (List.filter (fun row => predicate (mapRow names row)) rows,
         map fst (List.filter (fun pr : value * value => predicate (mapRow names pr.2))
                              (zip labels rows)),
         names)).
Proof.
  intros Hself. pose proof Hself as (Hnames & it & Hit & Hy).
  pose proof (yields_labelled_values _ _ _ _ Hy) as Hrows.
  pose proof (yields_labelled_length _ _ _ _ Hy) as Hlen. symmetry in Hlen.
  destruct (DataFrame_pairs_cursor W self rows labels it Hit Hy) as [Hix Hmulti].
  set (p := fun row => predicate (mapRow names row)).
  set (onPair := fun pair => row ← get_index pair 1; Ok (predicate (mapRow names row))).
  assert (HonPair : forall v,
    v ∈ zip_with (fun index value => VArr [index; value]) labels rows ->
    onPair v = Ok (p (nth_value (E_from v) 1))).
  { intros v Hv. unfold onPair. by rewrite (pairs_get_index labels rows). }
  destruct (pairs_filter p labels rows Hlen) as [Hfst Hsnd].
  set (rows' := (it ← DataFrame.getIterator self;
                 names ← DataFrame.getColumnNames self;
                 mret (WhereIterator it
                         (fun row => Ok (predicate (mapRow names row))))) : M iterator).
  set (index' := Index.new (inr (
         indexIterator ← Index.getIterator (DataFrame.getIndex self);
         it ← DataFrame.getIterator self;
         names ← DataFrame.getColumnNames self;
         let multiIterator := MultiIterator [indexIterator; it] in
         mret (DataFrame.WhereIndexCursor multiIterator
                 (fun pair =>
                    row ← get_index pair 1;
                    Ok (predicate (mapRow names row))))))).
  apply (evals_eq _ _
    (derived ← Ok (mkDataFrame (NamesArray names)
                     (it ← rows';
                      indexIterator ← Index.getIterator index';
                      mret (ApplyIndexIterator it indexIterator)));
     Ok (List.filter p rows,
         map fst (List.filter (fun pr : value * value => p pr.2) (zip labels rows)),
         names))); [done|].
  apply evals_bind.
  - unfold DataFrame.where_.
    apply (evals_eq _ _
      (columnNames ← Ok names;
       Ok (mkDataFrame (NamesArray columnNames)
             (it ← rows';
              indexIterator ← Index.getIterator index';
              mret (ApplyIndexIterator it indexIterator))))); [done|].
    apply evals_bind; [exact Hnames|]. intros columnNames _. apply DataFrame_new_evals.
  - intros derived [= <-]. apply DataFrame_yields_observe.
    apply (indexed_frame_yields W names rows' index'
             (WhereIterator it (fun row => Ok (p row)))
             (DataFrame.WhereIndexCursor (MultiIterator [IndexCursor it; it]) onPair)).
    + unfold rows'.
      apply (evals_eq _ _
        (it ← Ok it; names ← Ok names;
         Ok (WhereIterator it (fun row => Ok (predicate (mapRow names row))))));
        [done|].
      evals_auto.
    + by apply yields_WhereIterator.
    + unfold index', Index.getIterator at 1, Index.new. cbn [Index_iterable].
      apply (evals_eq _ _
        (indexIterator ← Ok (IndexCursor it); it ← Ok it; names ← Ok names;
         Ok (DataFrame.WhereIndexCursor (MultiIterator [indexIterator; it])
               (fun pair => row ← get_index pair 1;
                            Ok (predicate (mapRow names row)))))); [done|].
      evals_auto.
    + rewrite <- Hfst.
      apply (yields_WhereIndexCursor _ onPair (fun pair => nth_value (E_from pair) 0)).
      * by apply yields_WhereIterator.
      * intros v Hv. apply (pairs_get_index labels rows).
        by eapply elem_of_filter_list.
    + rewrite <- Hsnd. by rewrite !length_map.
Qed.

Lemma DataFrame_where_filters_witness :
  evals [] (derived ← DataFrame.where_
                        (mkDataFrame (NamesArray ["n"])
                           (mret (ArrayIterator1 [VArr [VNum 1]; VArr [VNum 5];
                                                  VArr [VNum 2]])))
                        (fun row => match get_prop row "n" with
                                    | Ok v => js_lt v (VNum 3)
                                    | Err _ => false
                                    end);
            DataFrame_observe derived)
    (Ok ([VArr [VNum 1]; VArr [VNum 2]], [VNum 0; VNum 2], ["n"])).
Proof.
  exact (DataFrame_where_filters [] _ ["n"] [VArr [VNum 1]; VArr [VNum 5]; VArr [VNum 2]]
           _ _ (DataFrame_yields_arrays [] _ _)).
Defined.

(** *** getColumns *)

(** X23.  [getColumns()] returns one entry per column name, in order; the
    series of an entry realizes, under the labels of the data frame,
    the cells of the first column that carries the entry's name, so
    two columns of the same name give the same series twice. *)
Theorem getColumns_series W (self : DataFrame) names (cellss : list (list value)) labels :
  DataFrame_yields W self names (map VArr cellss) labels ->
  exists columns,
    evals W (DataFrame.getColumns self) (Ok columns) /\
    map fst columns = names /\
    forall name series,
      (name, series) ∈ columns ->
      Series_yields W series (map (fun cells => column_cell names cells name) cellss) labels.
Proof.
  intros Hself. pose proof Hself as (Hnames & it & Hit & Hy).
  set (column := fun name : string =>
    (name,
     mkSeries (it ← DataFrame.getIterator self;
               mret (SelectIterator it
                       (fun row => get_index row
                          (Z.of_nat (default 0%nat (column_position names name))))))
              (DataFrame.getIndex self))).
  exists (map column names). split; [|split].
  - unfold DataFrame.getColumns.
    apply (evals_eq _ _ (columnNames ← Ok names; Ok (map column columnNames))); [done|].
    apply evals_bind; [exact Hnames|]. intros columnNames [= <-].
    apply evals_M_mapM_map. intros name Hin.
    pose proof (getSeries_named_evals W self names name Hnames) as Hseries.
    destruct (column_position names name) as [i|] eqn:Hpos;
      [|by apply column_position_None in Hpos].
    apply (evals_eq _ _
      (series ← Ok (mkSeries (it ← DataFrame.getIterator self;
                              mret (SelectIterator it
                                      (fun row => get_index row (Z.of_nat i))))
                             (DataFrame.getIndex self));
       Ok (name, series))).
    + unfold column. by rewrite Hpos.
    + apply evals_bind; [exact Hseries|]. intros series _. apply evals_ret.
  - rewrite map_map. cbn. apply map_id.
  - intros name series Hin. apply list_elem_of_fmap in Hin as (name' & [= -> ->] & Hin).
    destruct (column_position names name') as [i|] eqn:Hpos;
      [|by apply column_position_None in Hpos].
    cbn [default from_option id].
    replace (map (fun cells => column_cell names cells name') cellss)
      with (map (fun cells => nth_value cells (Z.of_nat i)) cellss).
    + exact (getSeries_yields W self names cellss labels (Z.of_nat i) Hself).
    + apply map_ext. intros cells. unfold column_cell. rewrite Hpos.
      apply (nth_value_position cells (Some i)).
Qed.

Lemma getColumns_series_witness :
  exists columns,
    evals [] (DataFrame.getColumns
                (mkDataFrame (NamesArray ["n"; "n"])
                   (mret (ArrayIterator1 [VArr [VNum 1; VStr "a"]]))))
      (Ok columns) /\
    map fst columns = ["n"; "n"] /\
    forall name series,
      (name, series) ∈ columns ->
      Series_yields [] series
        (map (fun cells => column_cell ["n"; "n"] cells name) [[VNum 1; VStr "a"]])
        [VNum 0].
Proof.
  exact (getColumns_series [] _ ["n"; "n"] [[VNum 1; VStr "a"]] _
           (DataFrame_yields_arrays [] _ _)).
Defined.

(** *** toObjects and deflate *)

(** X24.  [toObjects()] is the rows in their column-mapped form, and
    [deflate(selector)] is the series of the selector's results on
    them, under the labels of the data frame. *)
Theorem deflate_values W (self : DataFrame) names rows labels (selector : value -> value) :
  DataFrame_yields W self names rows labels ->
  evals W (DataFrame.toObjects self) (Ok (map (mapRow names) rows)) /\
  evals W (series ← DataFrame.deflate self selector; Series_observe series)
    (Ok (map (fun row => selector (mapRow names row)) rows, labels)).
Proof.
  intros Hself. pose proof Hself as (Hnames & it & Hit & Hy).
  pose proof (yields_labelled_values _ _ _ _ Hy) as Hrows.
  assert (Hobjects : evals W (DataFrame.toObjects self) (Ok (map (mapRow names) rows))).
  { unfold DataFrame.toObjects.
    apply (evals_eq _ _
      (it ← Ok it;
       rows ← realize it;
       match rows with
       | [] => Ok []
       | _ => columnNames ← Ok names; Ok (map (mapRow columnNames) rows)
       end)).
    - cbn -[realize]. rewrite (realize_yields _ _ Hrows). by destruct rows.
    - evals_auto. }
  split; [exact Hobjects|].
  apply (evals_eq _ _
    (series ← Ok (mkSeries (mret (ArrayIterator1 (map selector (map (mapRow names) rows))))
                           (DataFrame.getIndex self));
     Ok (map (fun row => selector (mapRow names row)) rows, labels))); [done|].
  apply evals_bind.
  - unfold DataFrame.deflate.
    apply (evals_eq _ _
      (objects ← Ok (map (mapRow names) rows);
       Ok (mkSeries (mret (ArrayIterator1 (map selector objects)))
                    (DataFrame.getIndex self)))); [done|].
    apply evals_bind; [exact Hobjects|]. intros objects _. apply evals_lift.
  - intros series [= <-]. apply Series_yields_observe.
    exists (ArrayIterator1 (map selector (map (mapRow names) rows))), (IndexCursor it).
    split; [apply evals_ret|]. split; [rewrite map_map; apply yields_ArrayIterator1|].
    split; [|apply (yields_labelled_index _ _ _ _ (-1) Hy)].
    unfold Series.getIndex, DataFrame.getIndex, Index.getIterator, Index.new.
    cbn [Series_index Index_iterable].
    apply (evals_eq _ _ (iterator ← Ok it; Ok (IndexCursor iterator))); [done|]. evals_auto.
Qed.

Lemma deflate_values_witness :
  evals [] (series ← DataFrame.deflate
                       (mkDataFrame (NamesArray ["n"; "s"])
                          (mret (ArrayIterator1 [VArr [VNum 1; VStr "a"];
                                                 VArr [VNum 2; VStr "b"]])))
                       (fun row => match get_prop row "s" with
                                   | Ok v => v
                                   | Err _ => VUndefined
                                   end);
            Series_observe series)
    (Ok ([VStr "a"; VStr "b"], [VNum 0; VNum 1])).
Proof.
  exact (proj2 (deflate_values [] _ ["n"; "s"] [VArr [VNum 1; VStr "a"];
                                                  VArr [VNum 2; VStr "b"]] _ _
                  (DataFrame_yields_arrays [] _ _))).
Defined.
